(** * BaklavaJS engine: topological sorting, connected components,
      the dependency engine's run and result application.

    A shallow embedding of [packages/engine/src/topologicalSorting.ts] and
    [packages/engine/src/dependencyEngine.ts], and, of the Vue renderer, of
    the command handler, the toolbar button, the hooks that carry the view
    properties of a node through save and load, and the subgraph interface
    nodes.

    JavaScript's [Map] and [Set] iterate in insertion order, and the sorter
    depends on that order (it takes the first element of a [Set], and scans
    [adjacency.values()]), so both are association lists / duplicate-free
    lists here, with [set] replacing in place and appending new keys. *)

From Stdlib Require Import String List ZArith Bool Arith Lia Permutation.
From Stdlib Require Import Relations.Relation_Operators.
Import ListNotations.

Local Open Scope string_scope.
Local Open Scope list_scope.

(* ================================================================== *)
(** * Completions: a call either returns or throws *)
(* ================================================================== *)

(** [CycleError] is the class of [topologicalSorting.ts]; [Error] and
    [TypeError] are JavaScript's.  The last two are no JavaScript outcomes.
    [OutOfFuel] marks a loop of the embedding that used up its iteration
    budget ([sortTopologically_has_fuel] and [connectedComponents_has_fuel]
    show that the budgets handed out below are never used up).  [OffType]
    marks a call on a value outside the declared type of the place it was
    read from, where the code goes on with values that the types of the
    embedding do not hold; what follows in the code is then not told. *)
Inductive exn : Type :=
| CycleError
| Error (message : string)
| TypeError (message : string)
| OutOfFuel
| OffType (place : string).

Inductive completion (A : Type) : Type :=
| Returns (a : A)
| Throws (e : exn).
Arguments Returns {A} a.
Arguments Throws {A} e.

Definition bind {A B : Type} (c : completion A) (k : A -> completion B)
  : completion B :=
  match c with
  | Returns a => k a
  | Throws e => Throws e
  end.

Notation "' p <- c ;; k" := (bind c (fun p => k))
  (at level 61, p pattern, c at next level, right associativity).
Notation "x <- c ;; k" := (bind c (fun x => k))
  (at level 61, c at next level, right associativity).

(** [for (const x of xs) body]: a left-to-right loop that stops at the first
    throw. *)
Fixpoint forEachM {A S : Type} (body : S -> A -> completion S) (xs : list A)
  (s : S) : completion S :=
  match xs with
  | [] => Returns s
  | x :: xs' => s' <- body s x ;; forEachM body xs' s'
  end.

(* ================================================================== *)
(** * [Map<string, V>] and [Set<string>] in insertion order *)
(* ================================================================== *)

Definition jsmap (V : Type) : Type := list (string * V).

Fixpoint map_get {V : Type} (m : jsmap V) (k : string) : option V :=
  match m with
  | [] => None
  | (k', v) :: m' => if String.eqb k k' then Some v else map_get m' k
  end.

Definition map_has {V : Type} (m : jsmap V) (k : string) : bool :=
  match map_get m k with Some _ => true | None => false end.

(** [m.set(k, v)]: an existing key keeps its position. *)
Fixpoint map_set {V : Type} (m : jsmap V) (k : string) (v : V) : jsmap V :=
  match m with
  | [] => [(k, v)]
  | (k', v') :: m' =>
      if String.eqb k k' then (k, v) :: m' else (k', v') :: map_set m' k v
  end.

Definition map_values {V : Type} (m : jsmap V) : list V := map snd m.
Definition map_keys {V : Type} (m : jsmap V) : list string := map fst m.

Definition jsset : Type := list string.

Definition set_has (s : jsset) (x : string) : bool :=
  existsb (String.eqb x) s.

Definition set_add (s : jsset) (x : string) : jsset :=
  if set_has s x then s else s ++ [x].

Definition set_delete (s : jsset) (x : string) : jsset :=
  filter (fun y => negb (String.eqb x y)) s.

(** [new Set(xs)] *)
Definition set_of_list (xs : list string) : jsset := fold_left set_add xs [].

(** Maps keyed by an object ([Map<AbstractNode, V>]) are keyed by the
    object's reference. *)
Definition refmap (V : Type) : Type := list (nat * V).

Fixpoint refmap_get {V : Type} (m : refmap V) (k : nat) : option V :=
  match m with
  | [] => None
  | (k', v) :: m' => if Nat.eqb k k' then Some v else refmap_get m' k
  end.

Fixpoint refmap_set {V : Type} (m : refmap V) (k : nat) (v : V) : refmap V :=
  match m with
  | [] => [(k, v)]
  | (k', v') :: m' =>
      if Nat.eqb k k' then (k, v) :: m' else (k', v') :: refmap_set m' k v
  end.

(* ================================================================== *)
(** * Data model *)
(* ================================================================== *)

(** Port values.  Primitives are compared by value and objects by
    reference: [VObject loc] is a reference to the object stored at [loc] in
    the heap.  A number is a double in JavaScript.  [VNumber z] is the
    integer [z] (the nodes of the test-suite compute with integers), and the
    two doubles that [===] does not compare as it compares every other value
    are values of their own: [VNaN], which is not equal to itself, and
    [VNegativeZero], which is equal to [VNumber 0]. *)
Inductive jsvalue : Type :=
| VUndefined
| VNumber (z : Z)
| VNaN
| VNegativeZero
| VString (s : string)
| VBoolean (b : bool)
| VObject (loc : nat).

(** [a === b] *)
Definition strictEq (a b : jsvalue) : bool :=
  match a, b with
  | VUndefined, VUndefined => true
  | VNumber x, VNumber y => Z.eqb x y
  | VNumber x, VNegativeZero => Z.eqb x 0
  | VNegativeZero, VNumber y => Z.eqb y 0
  | VNegativeZero, VNegativeZero => true
  | VString x, VString y => String.eqb x y
  | VBoolean x, VBoolean y => Bool.eqb x y
  | VObject x, VObject y => Nat.eqb x y
  | _, _ => false
  end.

(** [!!v] *)
Definition truthy (v : jsvalue) : bool :=
  match v with
  | VUndefined => false
  | VNumber z => negb (Z.eqb z 0)
  | VNaN => false
  | VNegativeZero => false
  | VString s => negb (String.eqb s "")
  | VBoolean b => b
  | VObject _ => true
  end.

(** One entry of a [CalculationResult]. *)
Record NodeResult : Type := mkNodeResult {
  res_inputs : jsmap jsvalue;
  res_outputs : jsmap jsvalue
}.

Definition CalculationResult : Type := jsmap NodeResult.

(** The objects port values refer to: arrays (the staged values of a port
    with several connections) and calculation results (what a node that ran
    a subgraph returns under [_calculationResults]). *)
Inductive cell : Type :=
| CArray (elems : list jsvalue)
| CResult (entries : CalculationResult).

Definition heap : Type := list cell.

Record NodeInterface : Type := mkInterface {
  intf_id : string;
  nodeId : string;
  value : jsvalue;
  allowMultipleConnections : bool;
  connectionCount : nat
}.

Record IConnection : Type := mkConnection {
  conn_id : string;
  (** the sorter guards [c.from &&], so a connection may lack its source *)
  from : option NodeInterface;
  to : NodeInterface
}.

(** A calculation step reads its resolved inputs, the auxiliary data and the
    heap, and returns the object of its output values together with the
    objects it allocated (they are appended to the heap); it does not write
    to the engine's staging map nor to objects that exist already. *)
Definition CalculateFunction : Type :=
  heap -> jsmap jsvalue -> jsvalue -> completion (jsmap jsvalue * list cell).

Record AbstractNode : Type := mkNode {
  (** the object's reference: two node objects are the same object iff
      their references are equal *)
  node_ref : nat;
  node_id : string;
  inputs : jsmap NodeInterface;
  outputs : jsmap NodeInterface;
  (** [calculate(inputValues, { globalValues, engine })], optional *)
  calculate : option CalculateFunction;
  alwaysRecalculate : bool;
  isInterfaceEqualTo : option (heap -> NodeInterface -> jsvalue -> bool)
}.

Record Graph : Type := mkGraph {
  graph_id : string;
  graph_nodes : list AbstractNode;
  graph_connections : list IConnection
}.

(** The first argument of the sorter's entry points:
    [ReadonlyArray<AbstractNode> | Graph]. *)
Inductive NodesOrGraph : Type :=
| OfGraph (g : Graph)
| OfNodes (ns : list AbstractNode).

Record ITopologicalSortingResult : Type := mkSorted {
  calculationOrder : list AbstractNode;
  connectionsFromNode : refmap (list IConnection);
  interfaceIdToNodeId : jsmap string
}.

(* ================================================================== *)
(** * topologicalSorting.ts *)
(* ================================================================== *)

Record GraphData : Type := mkGraphData {
  gd_nodes : list AbstractNode;
  gd_connections : list IConnection;
  gd_interfaceIdToNodeId : jsmap string;
  gd_nodeIdToNode : jsmap AbstractNode
}.

(** The body of [nodes.forEach] that fills [interfaceIdToNodeId]. *)
Definition registerInterfaces (m : jsmap string) (n : AbstractNode)
  : jsmap string :=
  let m1 := fold_left (fun acc intf => map_set acc (intf_id intf) (node_id n))
                      (map_values (inputs n)) m in
  fold_left (fun acc intf => map_set acc (intf_id intf) (node_id n))
            (map_values (outputs n)) m1.

Definition nodesOrGraphToData (nodesOrGraph : NodesOrGraph)
  (pConnections : option (list IConnection)) : completion GraphData :=
  ' (nodes, connections) <-
      match nodesOrGraph with
      | OfGraph g => Returns (graph_nodes g, graph_connections g)
      | OfNodes ns =>
          match pConnections with
          | None =>
              Throws (Error "Invalid argument value: expected array of connections")
          | Some cs => Returns (ns, cs)
          end
      end ;;
  let interfaceIdToNodeId := fold_left registerInterfaces nodes [] in
  let nodeIdToNode :=
    fold_left (fun m node => map_set m (node_id node) node) nodes [] in
  Returns (mkGraphData nodes connections interfaceIdToNodeId nodeIdToNode).

(** [interfaceIdToNodeId.get(intfId) === nid] *)
Definition ownerIs (i2n : jsmap string) (intfId nid : string) : bool :=
  match map_get i2n intfId with
  | Some owner => String.eqb owner nid
  | None => false
  end.

(** [connections.filter((c) => c.from && interfaceIdToNodeId.get(c.from.id) === n.id)] *)
Definition connectionsFromCurrentNode (i2n : jsmap string)
  (connections : list IConnection) (n : AbstractNode) : list IConnection :=
  filter (fun c => match from c with
                   | Some f => ownerIs i2n (intf_id f) (node_id n)
                   | None => false
                   end) connections.

(** [cs.map((c) => interfaceIdToNodeId.get(c.to.id)).filter(isString)] *)
Fixpoint destinationIds (i2n : jsmap string) (cs : list IConnection)
  : list string :=
  match cs with
  | [] => []
  | c :: cs' =>
      match map_get i2n (intf_id (to c)) with
      | Some nid => nid :: destinationIds i2n cs'
      | None => destinationIds i2n cs'
      end
  end.

(** The loop "build adjacency list". *)
Definition buildAdjacency (i2n : jsmap string) (connections : list IConnection)
  (nodes : list AbstractNode) : jsmap jsset * refmap (list IConnection) :=
  fold_left
    (fun '(adjacency, cfn) n =>
       let cs := connectionsFromCurrentNode i2n connections n in
       let adjacentNodes := set_of_list (destinationIds i2n cs) in
       (map_set adjacency (node_id n) adjacentNodes,
        refmap_set cfn (node_ref n) cs))
    nodes ([], []).

(** [startNodes.findIndex(p)], [None] standing for -1. *)
Fixpoint findIndex {A : Type} (p : A -> bool) (l : list A) : option nat :=
  match l with
  | [] => None
  | x :: l' => if p x then Some 0 else option_map S (findIndex p l')
  end.

(** [l.splice(index, 1)] *)
Fixpoint splice1 {A : Type} (index : nat) (l : list A) : list A :=
  match l, index with
  | [], _ => []
  | _ :: l', 0 => l'
  | x :: l', S i => x :: splice1 i l'
  end.

(** The loop that leaves in [startNodes] the nodes no connection leads to. *)
Definition initialStartNodes (i2n : jsmap string)
  (connections : list IConnection) (nodes : list AbstractNode)
  : list AbstractNode :=
  fold_left
    (fun startNodes c =>
       match findIndex (fun n => ownerIs i2n (intf_id (to c)) (node_id n))
                       startNodes with
       | Some index => splice1 index startNodes
       | None => startNodes
       end)
    connections nodes.

(** [startNodes.pop()]: the last element and the rest. *)
Definition pop {A : Type} (l : list A) : option (A * list A) :=
  match rev l with
  | [] => None
  | x :: r => Some (x, rev r)
  end.

(** [Array.from(adjacency.values()).every((s) => !s.has(mId))] *)
Definition noneHas (adjacency : jsmap jsset) (mId : string) : bool :=
  forallb (fun connectedNodes => negb (set_has connectedNodes mId))
          (map_values adjacency).

(** The inner loop [while (nodesConnectedFromN.size > 0)], where
    [nodesConnectedFromN] is the set stored under [nId]: the set is only
    reached through [adjacency], so deleting from it is an update of
    [adjacency] at [nId]. *)
Fixpoint drain (fuel : nat) (nodes : list AbstractNode) (nId : string)
  (adjacency : jsmap jsset) (startNodes : list AbstractNode)
  : completion (jsmap jsset * list AbstractNode) :=
  match fuel with
  | O => Throws OutOfFuel
  | S fuel' =>
      match map_get adjacency nId with
      | None => Throws (TypeError "Cannot read properties of undefined (reading 'size')")
      | Some [] => Returns (adjacency, startNodes)
      | Some ((mId :: _) as nodesConnectedFromN) =>
          let adjacency' :=
            map_set adjacency nId (set_delete nodesConnectedFromN mId) in
          if noneHas adjacency' mId then
            match find (fun node => String.eqb (node_id node) mId) nodes with
            | Some m => drain fuel' nodes nId adjacency' (startNodes ++ [m])
            | None => Throws (TypeError "Cannot read properties of undefined (reading 'id')")
            end
          else drain fuel' nodes nId adjacency' startNodes
      end
  end.

Record KahnState : Type := mkKahn {
  k_adjacency : jsmap jsset;
  k_startNodes : list AbstractNode;
  k_sorted : list AbstractNode
}.

(** The outer loop [while (startNodes.length > 0)]. *)
Fixpoint kahn (fuel : nat) (nodes : list AbstractNode) (st : KahnState)
  : completion KahnState :=
  match fuel with
  | O => Throws OutOfFuel
  | S fuel' =>
      match pop (k_startNodes st) with
      | None => Returns st
      | Some (n, startNodes) =>
          let sorted := k_sorted st ++ [n] in
          let size := match map_get (k_adjacency st) (node_id n) with
                      | Some s => length s
                      | None => 0
                      end in
          ' (adjacency, startNodes') <-
              drain (S size) nodes (node_id n) (k_adjacency st) startNodes ;;
          kahn fuel' nodes (mkKahn adjacency startNodes' sorted)
      end
  end.

Definition totalSize (adjacency : jsmap jsset) : nat :=
  fold_right (fun s acc => length s + acc) 0 (map_values adjacency).

(** [Array.from(adjacency.values()).some((c) => c.size > 0)] *)
Definition someLeft (adjacency : jsmap jsset) : bool :=
  existsb (fun c => negb (Nat.eqb (length c) 0)) (map_values adjacency).

Definition sortTopologically (nodesOrGraph : NodesOrGraph)
  (pConnections : option (list IConnection))
  : completion ITopologicalSortingResult :=
  data <- nodesOrGraphToData nodesOrGraph pConnections ;;
  let nodes := gd_nodes data in
  let connections := gd_connections data in
  let interfaceIdToNodeId := gd_interfaceIdToNodeId data in
  let '(adjacency, connectionsFromNode) :=
    buildAdjacency interfaceIdToNodeId connections nodes in
  let startNodes := initialStartNodes interfaceIdToNodeId connections nodes in
  st <- kahn (S (length startNodes + totalSize adjacency)) nodes
             (mkKahn adjacency startNodes []) ;;
  if someLeft (k_adjacency st)
  then Throws CycleError
  else Returns (mkSorted (k_sorted st) connectionsFromNode interfaceIdToNodeId).

Definition containsCycle (nodesOrGraph : NodesOrGraph)
  (connections : option (list IConnection)) : completion bool :=
  match sortTopologically nodesOrGraph connections with
  | Returns _ => Returns false
  | Throws CycleError => Returns true
  | Throws err => Throws err
  end.

(* ------------------------------------------------------------------ *)
(** ** Connected components *)
(* ------------------------------------------------------------------ *)

Record GraphComponent : Type := mkComponent {
  gc_nodes : list AbstractNode;
  gc_connections : list IConnection
}.

(** [if (!m.has(key)) m.set(key, [])] *)
Definition ensureEntry {V : Type} (m : jsmap (list V)) (key : string)
  : jsmap (list V) :=
  if map_has m key then m else map_set m key [].

(** [m.get(key)!.push(v)]; the guard before it has created the entry. *)
Definition pushTo {V : Type} (m : jsmap (list V)) (key : string) (v : V)
  : jsmap (list V) :=
  match map_get m key with
  | Some l => map_set m key (l ++ [v])
  | None => map_set m key [v]
  end.

(** The body of [for (const connection of connectionsFromCurrentNode)]. *)
Definition addPredecessor (predecessors : jsmap (list IConnection))
  (connection : IConnection) : jsmap (list IConnection) :=
  pushTo (ensureEntry predecessors (nodeId (to connection)))
         (nodeId (to connection)) connection.

(** The loop "build predecessors and successors list". *)
Definition buildNeighbours (i2n : jsmap string) (connections : list IConnection)
  (nodes : list AbstractNode)
  : jsmap (list IConnection) * jsmap (list IConnection) :=
  fold_left
    (fun '(successors, predecessors) n =>
       let cs := connectionsFromCurrentNode i2n connections n in
       (map_set successors (node_id n) cs,
        fold_left addPredecessor cs (ensureEntry predecessors (node_id n))))
    nodes ([], []).

Record DfsState : Type := mkDfs {
  visited : jsset;
  component : GraphComponent
}.

(** The local function [dfs].  It visits an id that is not a node's id by
    pushing [undefined] and then spreading the absent successor list, which
    throws; the two lookups are [Some] for the same ids (both maps have the
    node ids as keys). *)
Fixpoint dfs (fuel : nat) (nodeIdToNode : jsmap AbstractNode)
  (successors predecessors : jsmap (list IConnection))
  (nid : string) (st : DfsState) : completion DfsState :=
  match fuel with
  | O => Throws OutOfFuel
  | S fuel' =>
      if set_has (visited st) nid then Returns st
      else
        let visited' := set_add (visited st) nid in
        match map_get nodeIdToNode nid, map_get successors nid with
        | Some node, Some nSuccessors =>
            let st1 :=
              mkDfs visited'
                    (mkComponent (gc_nodes (component st) ++ [node])
                       (gc_connections (component st) ++ nSuccessors)) in
            st2 <- forEachM
                     (fun s connection =>
                        dfs fuel' nodeIdToNode successors predecessors
                            (nodeId (to connection)) s)
                     nSuccessors st1 ;;
            match map_get predecessors nid with
            | Some nPredecessors =>
                forEachM
                  (fun s connection =>
                     match from connection with
                     | Some f =>
                         dfs fuel' nodeIdToNode successors predecessors
                             (nodeId f) s
                     | None =>
                         Throws (TypeError "Cannot read properties of undefined (reading 'nodeId')")
                     end)
                  nPredecessors st2
            | None => Throws (TypeError "undefined is not iterable")
            end
        | _, _ => Throws (TypeError "undefined is not iterable")
        end
  end.

(** The body of the loop [for (const node of nodes)]: a component is
    started at a node not visited yet. *)
Definition startComponent (fuel : nat) (nodeIdToNode : jsmap AbstractNode)
  (successors predecessors : jsmap (list IConnection))
  (acc : jsset * list GraphComponent) (node : AbstractNode)
  : completion (jsset * list GraphComponent) :=
  let '(seen, components) := acc in
  if set_has seen (node_id node) then Returns (seen, components)
  else
    st <- dfs fuel nodeIdToNode successors predecessors (node_id node)
              (mkDfs seen (mkComponent [] [])) ;;
    Returns (visited st, components ++ [component st]).

Definition componentsLoop (fuel : nat) (nodeIdToNode : jsmap AbstractNode)
  (successors predecessors : jsmap (list IConnection))
  (nodes : list AbstractNode)
  : completion (jsset * list GraphComponent) :=
  forEachM (startComponent fuel nodeIdToNode successors predecessors)
           nodes ([], []).

Definition connectedComponents (nodesOrGraph : NodesOrGraph)
  (pConnections : option (list IConnection))
  : completion (list GraphComponent) :=
  data <- nodesOrGraphToData nodesOrGraph pConnections ;;
  let nodes := gd_nodes data in
  let '(successors, predecessors) :=
    buildNeighbours (gd_interfaceIdToNodeId data) (gd_connections data) nodes in
  ' (_, components) <-
      componentsLoop (S (length nodes)) (gd_nodeIdToNode data)
                     successors predecessors nodes ;;
  Returns components.

Fixpoint mapM {A B : Type} (f : A -> completion B) (xs : list A)
  : completion (list B) :=
  match xs with
  | [] => Returns []
  | x :: xs' => y <- f x ;; ys <- mapM f xs' ;; Returns (y :: ys)
  end.

Definition getSortedComponents (nodesOrGraph : NodesOrGraph)
  (pConnections : option (list IConnection))
  : completion (list ITopologicalSortingResult) :=
  components <- connectedComponents nodesOrGraph pConnections ;;
  mapM (fun c => sortTopologically (OfNodes (gc_nodes c))
                                   (Some (gc_connections c)))
       components.

(* ================================================================== *)
(** * dependencyEngine.ts *)
(* ================================================================== *)

(** What a run does that an observer sees: the two notifications, the calls
    of a node's calculation step, and the executions of the [transferData]
    hook (with the value it returned). *)
Inductive event : Type :=
| BeforeNodeCalculation (inputValues : jsmap jsvalue) (node : AbstractNode)
| CalculateCalled (node : AbstractNode) (inputValues : jsmap jsvalue)
| AfterNodeCalculation (outputValues : jsmap jsvalue) (node : AbstractNode)
| TransferData (node : AbstractNode) (connection : IConnection)
               (transferred : jsvalue).

(** The state a run works on: the staging map [inputs] (the caller's [Map],
    written in place), the heap of arrays and results, the [result] under
    construction and the events so far.  A throw leaves the state as it was
    at the throw. *)
Record RunState : Type := mkRun {
  run_inputs : jsmap jsvalue;
  run_heap : heap;
  run_result : CalculationResult;
  run_trace : list event
}.

Definition run (A : Type) : Type := RunState -> RunState * completion A.

Definition ret {A : Type} (a : A) : run A := fun st => (st, Returns a).
Definition throw {A : Type} (e : exn) : run A := fun st => (st, Throws e).
Definition bindR {A B : Type} (m : run A) (k : A -> run B) : run B :=
  fun st =>
    match m st with
    | (st', Returns a) => k a st'
    | (st', Throws e) => (st', Throws e)
    end.

Notation "x <~ c ;;; k" := (bindR c (fun x => k))
  (at level 61, c at next level, right associativity).
Notation "c ;;; k" := (bindR c (fun _ => k))
  (at level 61, right associativity).

Definition emit (ev : event) : run unit :=
  fun st => (mkRun (run_inputs st) (run_heap st) (run_result st)
                   (run_trace st ++ [ev]), Returns tt).

Definition setResult (k : string) (r : NodeResult) : run unit :=
  fun st => (mkRun (run_inputs st) (run_heap st)
                   (map_set (run_result st) k r) (run_trace st), Returns tt).

Definition setInput (k : string) (v : jsvalue) : run unit :=
  fun st => (mkRun (map_set (run_inputs st) k v) (run_heap st)
                   (run_result st) (run_trace st), Returns tt).

(** [[v]]: a new array. *)
Definition allocArray (elems : list jsvalue) : run jsvalue :=
  fun st => (mkRun (run_inputs st) (run_heap st ++ [CArray elems])
                   (run_result st) (run_trace st),
             Returns (VObject (length (run_heap st)))).

Fixpoint updateCell (h : heap) (loc : nat) (c : cell) : heap :=
  match h, loc with
  | [], _ => []
  | _ :: h', O => c :: h'
  | x :: h', S l => x :: updateCell h' l c
  end.

(** [target.push(v)]: only arrays have [push]. *)
Definition push (target v : jsvalue) : run unit :=
  fun st =>
    match target with
    | VObject loc =>
        match nth_error (run_heap st) loc with
        | Some (CArray elems) =>
            (mkRun (run_inputs st)
                   (updateCell (run_heap st) loc (CArray (elems ++ [v])))
                   (run_result st) (run_trace st), Returns tt)
        | _ => (st, Throws (TypeError "push is not a function"))
        end
    | _ => (st, Throws (TypeError "push is not a function"))
    end.

Fixpoint forEachR {A : Type} (body : A -> run unit) (xs : list A) : run unit :=
  match xs with
  | [] => ret tt
  | x :: xs' => body x ;;; forEachR body xs'
  end.

(** [inputs.has(intf.id) ? inputs.get(intf.id) : intf.value], [staged]
    being the run's [inputs] map. *)
Definition resolvedValue (staged : jsmap jsvalue) (intf : NodeInterface)
  : jsvalue :=
  match map_get staged (intf_id intf) with
  | Some s => s
  | None => value intf
  end.

(** Whether the resolved value [v] of [intf] counts as changed: the node's
    [isInterfaceEqualTo] when it has one, [!==] otherwise. *)
Definition inputChanged (node : AbstractNode) (h : heap)
  (intf : NodeInterface) (v : jsvalue) : bool :=
  match isInterfaceEqualTo node with
  | Some isEqual => negb (isEqual h intf v)
  | None => negb (strictEq v (value intf))
  end.

(** The body of [Object.entries(node.inputs).forEach]. *)
Definition resolveInput (staged : jsmap jsvalue) (h : heap)
  (node : AbstractNode) (acc : jsmap jsvalue * jsmap bool)
  (entry : string * NodeInterface) : jsmap jsvalue * jsmap bool :=
  let '(inputValues, inputsChanged) := acc in
  let '(k, intf) := entry in
  let v := resolvedValue staged intf in
  (map_set inputValues k v,
   map_set inputsChanged k (inputChanged node h intf v)).

Definition resolveInputs (staged : jsmap jsvalue) (h : heap)
  (node : AbstractNode) : jsmap jsvalue * jsmap bool :=
  fold_left (resolveInput staged h node) (inputs node) ([], []).

(** [!updatedNode || node.id === updatedNode.id || node.alwaysRecalculate ||
     Object.values(inputsChanged).filter(v => !!v).length] *)
Definition mustCalculate (updatedNode : option AbstractNode)
  (node : AbstractNode) (inputsChanged : jsmap bool) : bool :=
  match updatedNode with
  | None => true
  | Some u =>
      String.eqb (node_id node) (node_id u)
      || alwaysRecalculate node
      || negb (Nat.eqb (length (filter (fun v => v) (map_values inputsChanged))) 0)
  end.

(** [Object.fromEntries(Object.entries(node.outputs).map(([k, v]) => [k, v.value]))] *)
Definition currentOutputValues (node : AbstractNode) : jsmap jsvalue :=
  fold_left (fun acc kv => map_set acc (fst kv) (value (snd kv)))
            (outputs node) [].

(** Modelled from the spec: [validateNodeCalculationOutput] belongs to the
    base engine, which is not among the sources.  The spec (4.4, step 7):
    the returned output values must cover every output port the node
    declares, a missing output being a reportable error. *)
Definition validateNodeCalculationOutput (node : AbstractNode)
  (output : jsmap jsvalue) : completion unit :=
  if forallb (fun k => map_has output k) (map_keys (outputs node))
  then Returns tt
  else Throws (Error "Calculation return value is missing a key").

Definition lift {A : Type} (c : completion A) : run A := fun st => (st, c).

(** [await node.calculate(inputValues, { globalValues, engine })] *)
Definition callCalculate (calc : CalculateFunction) (node : AbstractNode)
  (inputValues : jsmap jsvalue) (calculationData : jsvalue)
  : run (jsmap jsvalue) :=
  emit (CalculateCalled node inputValues) ;;;
  fun st =>
    match calc (run_heap st) inputValues calculationData with
    | Returns (outputValues, cells) =>
        (mkRun (run_inputs st) (run_heap st ++ cells) (run_result st)
               (run_trace st), Returns outputValues)
    | Throws e => (st, Throws e)
    end.

(** The entries [subgraphResult.forEach] goes through, for
    [subgraphResult = outputValues._calculationResults]: [None] when the
    property is falsy; the entries of the result [Map] when it is one, as
    its declared type [Map<string, any>] has it.  A truthy primitive has no
    [forEach].  An array has one: on the empty array it does nothing; on an
    array whose first element is [undefined] the callback throws at
    [v.inputs]; on any other array the callback sets entries under the
    indices, with [inputs] and [outputs] undefined, which a
    [CalculationResult] keyed by strings does not hold ([OffType]). *)
Definition subgraphResultOf (h : heap) (outputValues : jsmap jsvalue)
  : completion (option CalculationResult) :=
  match map_get outputValues "_calculationResults" with
  | None => Returns None
  | Some subgraphResult =>
      if truthy subgraphResult then
        match subgraphResult with
        | VObject loc =>
            match nth_error h loc with
            | Some (CResult entries) => Returns (Some entries)
            | Some (CArray []) => Returns (Some [])
            | Some (CArray (VUndefined :: _)) =>
                Throws (TypeError
                          "Cannot read properties of undefined (reading 'inputs')")
            | Some (CArray (_ :: _)) => Throws (OffType "_calculationResults")
            | None => Throws (TypeError "subgraphResult.forEach is not a function")
            end
        | _ => Throws (TypeError "subgraphResult.forEach is not a function")
        end
      else Returns None
  end.

(** The part after [result.set(node.id, ...)] that surfaces a nested run:
    [subgraphResult.forEach((v, k) => result.set(k, { inputs: v.inputs, outputs: v.outputs }))]. *)
Definition mergeSubgraphResult (outputValues : jsmap jsvalue) : run unit :=
  fun st =>
    match subgraphResultOf (run_heap st) outputValues with
    | Returns (Some entries) =>
        forEachR (fun kv =>
                    setResult (fst kv)
                      (mkNodeResult (res_inputs (snd kv))
                                    (res_outputs (snd kv))))
                 entries st
    | Returns None => (st, Returns tt)
    | Throws e => (st, Throws e)
    end.

(** The message of the [Error] thrown when [intfKey] is falsy. *)
Definition couldNotFindKey (source : NodeInterface) : string :=
  "Could not find key for interface " ++ intf_id source
  ++ String (Ascii.ascii_of_nat 10)
       "This is likely a Baklava internal issue. Please report it on GitHub.".

(** The body of [connectionsFromNode.get(node).forEach]: one connection
    carries the value of its source port to the staging map. *)
Definition stage (transferData : jsvalue -> IConnection -> jsvalue)
  (node : AbstractNode) (outputValues : jsmap jsvalue)
  (connection : IConnection) : run unit :=
  match from connection with
  | None => throw (TypeError "Cannot read properties of undefined (reading 'id')")
  | Some src =>
      match find (fun kv => String.eqb (intf_id (snd kv)) (intf_id src))
                 (outputs node) with
      | Some (intfKey, _) =>
          if String.eqb intfKey "" then
            throw (Error (couldNotFindKey src))
          else
            let v := transferData
                       (match map_get outputValues intfKey with
                        | Some o => o
                        | None => VUndefined
                        end) connection in
            emit (TransferData node connection v) ;;;
            if allowMultipleConnections (to connection) then
              fun st =>
                match map_get (run_inputs st) (intf_id (to connection)) with
                | Some target => push target v st
                | None =>
                    (arr <~ allocArray [v] ;;;
                     setInput (intf_id (to connection)) arr) st
                end
            else setInput (intf_id (to connection)) v
      | None => throw (Error (couldNotFindKey src))
      end
  end.

(** The rest of the loop body once [outputValues] is known. *)
Definition finishNode (transferData : jsvalue -> IConnection -> jsvalue)
  (connectionsFromNode : refmap (list IConnection)) (node : AbstractNode)
  (inputValues outputValues : jsmap jsvalue) : run unit :=
  lift (validateNodeCalculationOutput node outputValues) ;;;
  emit (AfterNodeCalculation outputValues node) ;;;
  setResult (node_id node) (mkNodeResult inputValues outputValues) ;;;
  mergeSubgraphResult outputValues ;;;
  match refmap_get connectionsFromNode (node_ref node) with
  | Some connections =>
      forEachR (stage transferData node outputValues) connections
  | None => ret tt
  end.

(** The body of the loop over [calculationOrder]. *)
Definition visitNode (transferData : jsvalue -> IConnection -> jsvalue)
  (updatedNode : option AbstractNode) (calculationData : jsvalue)
  (connectionsFromNode : refmap (list IConnection)) (node : AbstractNode)
  : run unit :=
  match calculate node with
  | None => ret tt
  | Some calc =>
      fun st0 =>
        let '(inputValues, inputsChanged) :=
          resolveInputs (run_inputs st0) (run_heap st0) node in
        (emit (BeforeNodeCalculation inputValues node) ;;;
         outputValues <~
           (if mustCalculate updatedNode node inputsChanged
            then callCalculate calc node inputValues calculationData
            else ret (currentOutputValues node)) ;;;
         finishNode transferData connectionsFromNode node
                    inputValues outputValues) st0
  end.

Definition calculateComponent (transferData : jsvalue -> IConnection -> jsvalue)
  (updatedNode : option AbstractNode) (calculationData : jsvalue)
  (sortedComponent : ITopologicalSortingResult) : run unit :=
  forEachR (visitNode transferData updatedNode calculationData
                      (connectionsFromNode sortedComponent))
           (calculationOrder sortedComponent).

(** [component.calculationOrder.find((n) => n.id === updatedNode.id)] *)
Definition findUpdated (updatedNode component_node : AbstractNode) : bool :=
  String.eqb (node_id component_node) (node_id updatedNode).

(** The loop of [runGraph] over the sorted components of the graph. *)
Definition calculateComponents (transferData : jsvalue -> IConnection -> jsvalue)
  (updatedNode : option AbstractNode) (calculationData : jsvalue)
  (components : list ITopologicalSortingResult) : run unit :=
  forEachR
    (fun component =>
       match updatedNode with
       | Some u =>
           match find (findUpdated u) (calculationOrder component) with
           | None => ret tt
           | Some _ =>
               calculateComponent transferData updatedNode calculationData
                                  component
           end
       | None =>
           calculateComponent transferData updatedNode calculationData
                              component
       end)
    components.

Record DependencyEngine : Type := mkEngine {
  (** [hooks.transferData.execute] *)
  transferData : jsvalue -> IConnection -> jsvalue;
  (** the sorted components by graph id; their [calculationOrder] holds
      node objects by reference, see [current] *)
  order : jsmap (list ITopologicalSortingResult);
  (** the node the hint points to (its id is all a run reads of it) *)
  updatedNode : option AbstractNode;
  recalculateOrder : bool
}.

(** The cached order points to node objects that their owner goes on writing
    to, and a run reads each object as it is at the run.  The objects of a
    graph are given with the graph: [current objects n] is the object of the
    reference of [n] as it is among [objects]; an object that has left the
    graph is taken as it was when it was sorted. *)
Definition current (objects : list AbstractNode) (n : AbstractNode)
  : AbstractNode :=
  match find (fun o => Nat.eqb (node_ref o) (node_ref n)) objects with
  | Some o => o
  | None => n
  end.

(** A sorting result read at the run: its nodes are the current objects;
    its two tables are the sorter's own [Map]s, keyed by reference and by
    id.  Of a connection a run reads the ids of its two ports and the
    [allowMultipleConnections] flag of its target, as the connection has
    them. *)
Definition currentComponent (objects : list AbstractNode)
  (component : ITopologicalSortingResult) : ITopologicalSortingResult :=
  mkSorted (map (current objects) (calculationOrder component))
           (connectionsFromNode component)
           (interfaceIdToNodeId component).

(** [runGraph(graph, inputs, calculationData)], on heap [h].  The engine
    after the call has the order cached and the hint cleared; the state is
    the one the run ended (or threw) in; the returned result is the [result]
    of that state. *)
Definition runGraph (engine : DependencyEngine) (graph : Graph)
  (staged : jsmap jsvalue) (h : heap) (calculationData : jsvalue)
  : DependencyEngine * RunState * completion CalculationResult :=
  let st0 := mkRun staged h [] [] in
  match
    (if map_has (order engine) (graph_id graph) then Returns (order engine)
     else
       sorted <- getSortedComponents (OfGraph graph) None ;;
       Returns (map_set (order engine) (graph_id graph) sorted))
  with
  | Throws e => (engine, st0, Throws e)
  | Returns order' =>
      let hint := updatedNode engine in
      let engine' :=
        mkEngine (transferData engine) order' None (recalculateOrder engine) in
      match map_get order' (graph_id graph) with
      | None => (engine', st0, Throws (TypeError "undefined is not iterable"))
      | Some components =>
          match calculateComponents (transferData engine) hint calculationData
                  (map (currentComponent (graph_nodes graph)) components)
                  st0 with
          | (st, Returns _) => (engine', st, Returns (run_result st))
          | (st, Throws e) => (engine', st, Throws e)
          end
      end
  end.

(** The values [execute] gathers: those of the inputs without connection. *)
Definition unconnectedInputs (nodes : list AbstractNode) : jsmap jsvalue :=
  fold_left
    (fun inputValues n =>
       fold_left
         (fun acc ni =>
            if Nat.eqb (connectionCount ni) 0
            then map_set acc (intf_id ni) (value ni) else acc)
         (map_values (inputs n)) inputValues)
    nodes [].

(** [execute(calculationData)] on the editor's graph. *)
Definition execute (engine : DependencyEngine) (editorGraph : Graph)
  (h : heap) (calculationData : jsvalue)
  : DependencyEngine * RunState * completion CalculationResult :=
  let engine1 :=
    if recalculateOrder engine
    then mkEngine (transferData engine) [] (updatedNode engine) false
    else engine in
  runGraph engine1 editorGraph (unconnectedInputs (graph_nodes editorGraph))
           h calculationData.

(* ------------------------------------------------------------------ *)
(** ** The decision in the first revision of the file *)
(* ------------------------------------------------------------------ *)

(** [dependencyEngine.ts] comes in two revisions.  The one above has
    [alwaysRecalculate], [isInterfaceEqualTo] and the merge of nested
    results.  The other one starts the walk of a component at the index of
    the updated node, and decides on one flag, set by [!==]: *)

(** The body of [Object.entries(node.inputs).forEach] there:
    [inputValues[k] = ...; if (inputValues[k] !== v.value) inputsChanged = true]. *)
Definition resolveInput_v1 (staged : jsmap jsvalue)
  (acc : jsmap jsvalue * bool) (entry : string * NodeInterface)
  : jsmap jsvalue * bool :=
  let '(inputValues, inputsChanged) := acc in
  let '(k, v) := entry in
  let resolved := resolvedValue staged v in
  (map_set inputValues k resolved,
   if negb (strictEq resolved (value v)) then true else inputsChanged).

Definition resolveInputs_v1 (staged : jsmap jsvalue) (node : AbstractNode)
  : jsmap jsvalue * bool :=
  fold_left (resolveInput_v1 staged) (inputs node) ([], false).

(** [!updatedNode || node.id === updatedNode.id || inputsChanged] *)
Definition mustCalculate_v1 (updatedNode : option AbstractNode)
  (node : AbstractNode) (inputsChanged : bool) : bool :=
  match updatedNode with
  | None => true
  | Some u => String.eqb (node_id node) (node_id u) || inputsChanged
  end.

(** The rest of the loop body there, once [outputValues] is known: as
    [finishNode], without the merge of a nested result. *)
Definition finishNode_v1 (transferData : jsvalue -> IConnection -> jsvalue)
  (connectionsFromNode : refmap (list IConnection)) (node : AbstractNode)
  (inputValues outputValues : jsmap jsvalue) : run unit :=
  lift (validateNodeCalculationOutput node outputValues) ;;;
  emit (AfterNodeCalculation outputValues node) ;;;
  setResult (node_id node) (mkNodeResult inputValues outputValues) ;;;
  match refmap_get connectionsFromNode (node_ref node) with
  | Some connections =>
      forEachR (stage transferData node outputValues) connections
  | None => ret tt
  end.

(** The body of the loop [for (let i = starIdx; ...)]. *)
Definition visitNode_v1 (transferData : jsvalue -> IConnection -> jsvalue)
  (updatedNode : option AbstractNode) (calculationData : jsvalue)
  (connectionsFromNode : refmap (list IConnection)) (node : AbstractNode)
  : run unit :=
  match calculate node with
  | None => ret tt
  | Some calc =>
      fun st0 =>
        let '(inputValues, inputsChanged) :=
          resolveInputs_v1 (run_inputs st0) node in
        (emit (BeforeNodeCalculation inputValues node) ;;;
         outputValues <~
           (if mustCalculate_v1 updatedNode node inputsChanged
            then callCalculate calc node inputValues calculationData
            else ret (currentOutputValues node)) ;;;
         finishNode_v1 transferData connectionsFromNode node
                       inputValues outputValues) st0
  end.

(** The message of the [Error] thrown when [starIdx === -1]. *)
Definition couldNotFindNode (updatedNode : AbstractNode) : string :=
  "Could not find node " ++ node_id updatedNode ++ " in calculation order"
  ++ String (Ascii.ascii_of_nat 10)
       "This is likely a Baklava internal issue. Please report it on GitHub.".

(** [starIdx]: 0 without hint, else
    [calculationOrder.findIndex((n) => n.id === updatedNode.id)], [None]
    standing for -1. *)
Definition starIdx (updatedNode : option AbstractNode)
  (calculationOrder : list AbstractNode) : option nat :=
  match updatedNode with
  | Some u =>
      findIndex (fun n => String.eqb (node_id n) (node_id u)) calculationOrder
  | None => Some 0
  end.

Definition calculateComponent_v1
  (transferData : jsvalue -> IConnection -> jsvalue)
  (updatedNode : option AbstractNode) (calculationData : jsvalue)
  (sortedComponent : ITopologicalSortingResult) : run unit :=
  match starIdx updatedNode (calculationOrder sortedComponent) with
  | None =>
      throw (Error (match updatedNode with
                    | Some u => couldNotFindNode u
                    | None => ""
                    end))
  | Some i =>
      forEachR (visitNode_v1 transferData updatedNode calculationData
                             (connectionsFromNode sortedComponent))
               (skipn i (calculationOrder sortedComponent))
  end.

Definition calculateComponents_v1
  (transferData : jsvalue -> IConnection -> jsvalue)
  (updatedNode : option AbstractNode) (calculationData : jsvalue)
  (components : list ITopologicalSortingResult) : run unit :=
  forEachR
    (fun component =>
       match updatedNode with
       | Some u =>
           match find (findUpdated u) (calculationOrder component) with
           | None => ret tt
           | Some _ =>
               calculateComponent_v1 transferData updatedNode calculationData
                                     component
           end
       | None =>
           calculateComponent_v1 transferData updatedNode calculationData
                                 component
       end)
    components.

(** [runGraph] of the first revision. *)
Definition runGraph_v1 (engine : DependencyEngine) (graph : Graph)
  (staged : jsmap jsvalue) (h : heap) (calculationData : jsvalue)
  : DependencyEngine * RunState * completion CalculationResult :=
  let st0 := mkRun staged h [] [] in
  match
    (if map_has (order engine) (graph_id graph) then Returns (order engine)
     else
       sorted <- getSortedComponents (OfGraph graph) None ;;
       Returns (map_set (order engine) (graph_id graph) sorted))
  with
  | Throws e => (engine, st0, Throws e)
  | Returns order' =>
      let hint := updatedNode engine in
      let engine' :=
        mkEngine (transferData engine) order' None (recalculateOrder engine) in
      match map_get order' (graph_id graph) with
      | None => (engine', st0, Throws (TypeError "undefined is not iterable"))
      | Some components =>
          match calculateComponents_v1 (transferData engine) hint
                  calculationData
                  (map (currentComponent (graph_nodes graph)) components)
                  st0 with
          | (st, Returns _) => (engine', st, Returns (run_result st))
          | (st, Throws e) => (engine', st, Throws e)
          end
      end
  end.

(* ================================================================== *)
(** * Result application *)
(* ================================================================== *)

(** The graph owner [applyResult] writes to: the editor and its graph. *)
Record Editor : Type := mkEditor {
  editor_graph : Graph
}.

(** [intf.value = v] *)
Definition setValue (v : jsvalue) (intf : NodeInterface) : NodeInterface :=
  mkInterface (intf_id intf) (nodeId intf) v
              (allowMultipleConnections intf) (connectionCount intf).

(** Modelled from the spec: [applyResult] is not among the sources, only
    its tests are.  The spec (4.5): for every entry of the result, look up
    the node by id in the graph owner; if found, write each output value
    into the corresponding output port's stored value; if the node id is
    unknown, silently skip that entry; the operation never raises an error.
    [writeOutput] is the write of one output value; a key without a port is
    skipped, as the test "doesn't fail on non-existing ids" asks. *)
Definition writeOutput (node : AbstractNode) (kv : string * jsvalue)
  : AbstractNode :=
  match map_get (outputs node) (fst kv) with
  | Some intf =>
      mkNode (node_ref node) (node_id node) (inputs node)
             (map_set (outputs node) (fst kv) (setValue (snd kv) intf))
             (calculate node) (alwaysRecalculate node)
             (isInterfaceEqualTo node)
  | None => node
  end.

(** [l[index] = f(l[index])] *)
Fixpoint updateAt {A : Type} (index : nat) (f : A -> A) (l : list A) : list A :=
  match l, index with
  | [], _ => []
  | x :: l', O => f x :: l'
  | x :: l', S i => x :: updateAt i f l'
  end.

(** Modelled from the spec: one entry of the result is applied to the node
    of its id, if there is one. *)
Definition applyEntry (nodes : list AbstractNode) (entry : string * NodeResult)
  : list AbstractNode :=
  match findIndex (fun n => String.eqb (node_id n) (fst entry)) nodes with
  | Some index =>
      updateAt index
               (fun node => fold_left writeOutput (res_outputs (snd entry)) node)
               nodes
  | None => nodes
  end.

(** Modelled from the spec: [applyResult(result, graphOwner)]. *)
Definition applyResult (result : CalculationResult) (graphOwner : Editor)
  : completion Editor :=
  let graph := editor_graph graphOwner in
  Returns (mkEditor (mkGraph (graph_id graph)
                             (fold_left applyEntry result (graph_nodes graph))
                             (graph_connections graph))).

(* ================================================================== *)
(** * renderer-vue: the command handler and the toolbar button *)
(* ================================================================== *)

(** An argument as a callee receives it: a value, or an array of arguments
    handed over as one argument ([f(args)] where [f(...args)] spreads). *)
#[warnings="-register-all"]
Inductive argument : Type :=
| Plain (v : jsvalue)
| Packed (args : list argument).

Section Commands.

(** The state of the application the commands act on. *)
Variable W : Type.

(** A call that may change the state and may throw; a throw leaves the
    state as it was at the throw. *)
Definition action (A : Type) : Type := W -> W * completion A.

(** [ICommand]: [canStopExecution] and [stopExecution] are optional. *)
Record ICommand : Type := mkCommand {
  cmd_execute : list argument -> action jsvalue;
  cmd_canExecute : list argument -> action bool;
  cmd_canStopExecution : option (list argument -> action bool);
  cmd_stopExecution : option (list argument -> action jsvalue)
}.

Definition doubleQuote : string := String (Ascii.ascii_of_nat 34) EmptyString.

Definition notRegistered (name : string) : exn :=
  Error ("[CommandHandler] Command " ++ name ++ " not registered").

Definition alreadyExists (name : string) : exn :=
  Error ("Command " ++ doubleQuote ++ name ++ doubleQuote ++ " already exists").

Definition doesNotSupportStopping (name : string) : exn :=
  Error ("[CommandHandler] Command " ++ name
         ++ " does not support stopping execution").

Definition cannotBeStopped (name : string) : exn :=
  Error ("[CommandHandler] Command " ++ name
         ++ " cannot be stopped at the moment").

Definition checkCommandExists (commands : jsmap ICommand) (name : string)
  (throwOnNonexisting : bool) : completion bool :=
  if negb (map_has commands name) then
    if throwOnNonexisting then Throws (notRegistered name)
    else Returns false
  else Returns true.

Definition registerCommand (commands : jsmap ICommand) (name : string)
  (command : ICommand) : completion (jsmap ICommand) :=
  if map_has commands name then Throws (alreadyExists name)
  else Returns (map_set commands name command).

(** [commands.value.get(name)!.m]: the guard before it has found the
    name. *)
Definition withCommand {A : Type} (commands : jsmap ICommand) (name : string)
  (member : string) (k : ICommand -> action A) : action A :=
  fun w =>
    match map_get commands name with
    | Some command => k command w
    | None =>
        (w, Throws (TypeError ("Cannot read properties of undefined (reading '"
                               ++ member ++ "')")))
    end.

Definition executeCommand (commands : jsmap ICommand) (name : string)
  (throwOnNonexisting : bool) (args : list argument) : action jsvalue :=
  fun w =>
    match checkCommandExists commands name throwOnNonexisting with
    | Throws e => (w, Throws e)
    | Returns false => (w, Returns VUndefined)
    | Returns true =>
        withCommand commands name "execute"
                    (fun command => cmd_execute command args) w
    end.

Definition canExecuteCommand (commands : jsmap ICommand) (name : string)
  (throwOnNonexisting : bool) (args : list argument) : action bool :=
  fun w =>
    match checkCommandExists commands name throwOnNonexisting with
    | Throws e => (w, Throws e)
    | Returns false => (w, Returns false)
    | Returns true =>
        withCommand commands name "canExecute"
                    (fun command => cmd_canExecute command [Packed args]) w
    end.

Definition canStopExecution (commands : jsmap ICommand) (name : string)
  (throwOnNonexisting : bool) (args : list argument) : action bool :=
  fun w =>
    match checkCommandExists commands name throwOnNonexisting with
    | Throws e => (w, Throws e)
    | Returns false => (w, Returns false)
    | Returns true =>
        withCommand commands name "canStopExecution"
          (fun command =>
             match cmd_canStopExecution command with
             | Some can => can [Packed args]
             | None => fun w' => (w', Returns false)
             end) w
    end.

Definition stopExecution (commands : jsmap ICommand) (name : string)
  (throwOnNonexisting : bool) (args : list argument) : action jsvalue :=
  fun w =>
    match checkCommandExists commands name throwOnNonexisting with
    | Throws e => (w, Throws e)
    | Returns false => (w, Returns (VBoolean false))
    | Returns true =>
        withCommand commands name "stopExecution"
          (fun command w' =>
             match cmd_stopExecution command with
             | None => (w', Throws (doesNotSupportStopping name))
             | Some stop =>
                 match cmd_canStopExecution command with
                 | Some can =>
                     match can [Packed args] w' with
                     | (w1, Returns true) => stop [Packed args] w1
                     | (w1, Returns false) => (w1, Throws (cannotBeStopped name))
                     | (w1, Throws e) => (w1, Throws e)
                     end
                 | None => stop [Packed args] w'
                 end
             end) w
    end.

(* ------------------------------------------------------------------ *)
(** ** ToolbarButton.vue *)
(* ------------------------------------------------------------------ *)

(** The getters of the two [computed] values and the click handler of the
    button of [command]. *)

(** What a [computed] holds between two reads: the value its getter
    returned when it last ran, or nothing when the getter has not run yet or
    a reactive dependency it read has changed since.  Which of the two is
    the case at a click depends on what the methods of the command read
    through reactive objects, which the component does not decide; it is an
    argument of the handler. *)
Definition computedRef (A : Type) : Type := option A.

(** [c.value]: the held value when there is one, without running the
    getter; otherwise what the getter gives on the present state. *)
Definition valueOf {A : Type} (getter : action A) (held : computedRef A)
  : action A :=
  fun w =>
    match held with
    | Some v => (w, Returns v)
    | None => getter w
    end.

(** The getter of [isDisabled]:
    [!canExecuteCommand(command) && !canStopExecution(command)] *)
Definition isDisabled (commands : jsmap ICommand) (command : string)
  : action bool :=
  fun w =>
    match canExecuteCommand commands command false [] w with
    | (w1, Returns true) => (w1, Returns false)
    | (w1, Returns false) =>
        match canStopExecution commands command false [] w1 with
        | (w2, Returns stoppable) => (w2, Returns (negb stoppable))
        | (w2, Throws e) => (w2, Throws e)
        end
    | (w1, Throws e) => (w1, Throws e)
    end.

(** The getter of [isExecuting]. *)
Definition isExecuting (commands : jsmap ICommand) (command : string)
  : action bool :=
  canStopExecution commands command false [].

(** The handler reads [isExecuting.value]; [held] is what the computed
    holds at the click. *)
Definition handleClick (commands : jsmap ICommand) (command : string)
  (held : computedRef bool) : action unit :=
  fun w =>
    match valueOf (isExecuting commands command) held w with
    | (w1, Returns false) =>
        match executeCommand commands command false [] w1 with
        | (w2, Returns _) => (w2, Returns tt)
        | (w2, Throws e) => (w2, Throws e)
        end
    | (w1, Returns true) =>
        match stopExecution commands command false [] w1 with
        | (w2, Returns _) => (w2, Returns tt)
        | (w2, Throws e) => (w2, Throws e)
        end
    | (w1, Throws e) => (w1, Throws e)
    end.

End Commands.

Arguments mkCommand {W} _ _ _ _.
Arguments cmd_execute {W} _ _ _.
Arguments cmd_canExecute {W} _ _ _.
Arguments cmd_canStopExecution {W} _.
Arguments cmd_stopExecution {W} _.
Arguments checkCommandExists {W} _ _ _.
Arguments registerCommand {W} _ _ _.
Arguments executeCommand {W} _ _ _ _ _.
Arguments canExecuteCommand {W} _ _ _ _ _.
Arguments canStopExecution {W} _ _ _ _ _.
Arguments stopExecution {W} _ _ _ _ _.
Arguments isDisabled {W} _ _ _.
Arguments isExecuting {W} _ _ _.
Arguments computedRef A : clear implicits.
Arguments valueOf {W A} _ _ _.
Arguments handleClick {W} _ _ _ _.

(* ================================================================== *)
(** * renderer-vue: view properties of a node through save and load *)
(* ================================================================== *)

Record Position : Type := mkPosition { pos_x : Z; pos_y : Z }.

Section ViewNodeState.

(** What a saved node state and a node hold besides the view properties. *)
Variables StateRest NodeRest : Type.

(** [IViewNodeState]: a saved state may lack each of the three view
    properties ([None] stands for [undefined] or [null]). *)
Record IViewNodeState : Type := mkViewNodeState {
  state_position : option Position;
  state_width : option Z;
  state_twoColumn : option bool;
  state_rest : StateRest
}.

Record ViewNode : Type := mkViewNode {
  position : Position;
  width : Z;
  twoColumn : bool;
  view_rest : NodeRest
}.

(** [a ?? b] *)
Definition nullish {A : Type} (a : option A) (b : A) : A :=
  match a with
  | Some v => v
  | None => b
  end.

(** The hook subscribed to [nodeHooks.beforeLoad]: it writes the node and
    returns the state. *)
Definition nodeBeforeLoad (state : IViewNodeState) (node : ViewNode)
  : IViewNodeState * ViewNode :=
  (state,
   mkViewNode (nullish (state_position state) (mkPosition 0 0))
              (nullish (state_width state) 200%Z)
              (nullish (state_twoColumn state) false)
              (view_rest node)).

(** The hook subscribed to [nodeHooks.afterSave]: it writes the state and
    returns it. *)
Definition nodeAfterSave (state : IViewNodeState) (node : ViewNode)
  : IViewNodeState * ViewNode :=
  (mkViewNodeState (Some (position node)) (Some (width node))
                   (Some (twoColumn node)) (state_rest state),
   node).

End ViewNodeState.

Arguments mkViewNodeState {StateRest} _ _ _ _.
Arguments state_position {StateRest} _.
Arguments state_width {StateRest} _.
Arguments state_twoColumn {StateRest} _.
Arguments state_rest {StateRest} _.
Arguments mkViewNode {NodeRest} _ _ _ _.
Arguments position {NodeRest} _.
Arguments width {NodeRest} _.
Arguments twoColumn {NodeRest} _.
Arguments view_rest {NodeRest} _.
Arguments nodeBeforeLoad {StateRest NodeRest} _ _.
Arguments nodeAfterSave {StateRest NodeRest} _ _.

(* ------------------------------------------------------------------ *)
(** ** subgraphInterfaceNodes.ts *)
(* ------------------------------------------------------------------ *)

Section SubgraphInterface.

(** What the base class [Node] holds, with its [save] and [load]. *)
Variable Base : Type.
Variable super_save : Base -> jsmap jsvalue.
Variable super_load : Base -> jsmap jsvalue -> Base.

Record SubgraphInterfaceNode : Type := mkSubgraphInterfaceNode {
  base : Base;
  graphInterfaceId : jsvalue
}.

(** [{ ...super.save(), graphInterfaceId: this.graphInterfaceId }] *)
Definition save (node : SubgraphInterfaceNode) : jsmap jsvalue :=
  map_set (super_save (base node)) "graphInterfaceId" (graphInterfaceId node).

(** [super.load(state); this.graphInterfaceId = state.graphInterfaceId] *)
Definition load (node : SubgraphInterfaceNode) (state : jsmap jsvalue)
  : SubgraphInterfaceNode :=
  mkSubgraphInterfaceNode
    (super_load (base node) state)
    (match map_get state "graphInterfaceId" with
     | Some v => v
     | None => VUndefined
     end).

End SubgraphInterface.

Arguments mkSubgraphInterfaceNode {Base} _ _.
Arguments base {Base} _.
Arguments graphInterfaceId {Base} _.
Arguments save {Base} _ _.
Arguments load {Base} _ _ _.

(* ================================================================== *)
(** * The nodes and graphs of the test-suite *)
(* ================================================================== *)

(** [new NodeInterface(key, v)] added to node [nid]; the id is made of the
    node id and the key, as unique as the UUIDs of the source. *)
Definition port (nid key : string) (v : jsvalue) (several : bool) (count : nat)
  : NodeInterface :=
  mkInterface (nid ++ "." ++ key) nid v several count.

Definition numberOf (v : option jsvalue) : Z :=
  match v with Some (VNumber z) => z | _ => 0%Z end.

(** The calculation step of [TestNode]: [c = a + b] and [d = a - b]. *)
Definition testCalculate : CalculateFunction :=
  fun _ ins _ =>
    let a := numberOf (map_get ins "a") in
    let b := numberOf (map_get ins "b") in
    Returns ([("c", VNumber (a + b)); ("d", VNumber (a - b))], []).

(** A [TestNode] with the given stored values; [aCount] is the connection
    count of its input [a]. *)
Definition TestNodeWith (ref : nat) (nid : string) (a b c d : jsvalue)
  (aCount : nat) : AbstractNode :=
  mkNode ref nid
    [("a", port nid "a" a false aCount); ("b", port nid "b" b false 0)]
    [("c", port nid "c" c false 0); ("d", port nid "d" d false 0)]
    (Some testCalculate) false None.

(** [new TestNode()]: inputs [a] and [b] are 1. *)
Definition TestNode (ref : nat) (nid : string) : AbstractNode :=
  TestNodeWith ref nid (VNumber 1) (VNumber 1) VUndefined VUndefined 0.

(** [MultiNode] of the test "allows using multiple connections": one input
    [a] that accepts several connections and holds the array at [loc]. *)
Definition MultiNode (ref : nat) (nid : string) (loc : nat) : AbstractNode :=
  mkNode ref nid [("a", port nid "a" (VObject loc) true 2)] []
    (Some (fun _ _ _ => Returns ([], []))) false None.

(** [{ id, from: src.outputs[skey], to: dst.inputs[dkey] }] *)
Definition connect (cid : string) (src : AbstractNode) (skey : string)
  (dst : AbstractNode) (dkey : string) : IConnection :=
  mkConnection cid (map_get (outputs src) skey)
    (match map_get (inputs dst) dkey with
     | Some p => p
     | None => port (node_id dst) dkey VUndefined false 0
     end).

(** "gets sorted connected components": node1 -> node2, node3 alone,
    node4 -> node5 and node4 -> node6. *)
Definition node1 := TestNode 1 "node1".
Definition node2 := TestNode 2 "node2".
Definition node3 := TestNode 3 "node3".
Definition node4 := TestNode 4 "node4".
Definition node5 := TestNode 5 "node5".
Definition node6 := TestNode 6 "node6".
Definition sixNodes : list AbstractNode :=
  [node1; node2; node3; node4; node5; node6].
Definition threeConnections : list IConnection :=
  [connect "a" node1 "c" node2 "a"; connect "b" node4 "c" node5 "a";
   connect "c" node4 "c" node6 "a"].

(** "detects a cycle": n1 -> n2 -> n1. *)
Definition cycleNodes : list AbstractNode := [node1; node2].
Definition cycleConnections : list IConnection :=
  [connect "a" node1 "c" node2 "a"; connect "b" node2 "c" node1 "a"].

(** A rank by node id, to certify that a graph has no cycle. *)
Definition rankOf (ranks : jsmap nat) (nid : string) : nat :=
  match map_get ranks nid with Some r => r | None => 0 end.

(** "should not recalculate node if inputs weren't changed", with a third
    node after the second and a fourth apart: the stored values are those a
    first run left (n1 holds a = 1, b = 1, c = 2, d = 0; n2 holds the a = 2
    it received and c = 3, d = 1), but for n3, which holds a stale a = 0. *)
Definition hinted1 :=
  TestNodeWith 1 "n1" (VNumber 1) (VNumber 1) (VNumber 2) (VNumber 0) 0.
Definition hinted2 :=
  TestNodeWith 2 "n2" (VNumber 2) (VNumber 1) (VNumber 3) (VNumber 1) 1.
Definition hinted3 :=
  TestNodeWith 3 "n3" (VNumber 0) (VNumber 1) (VNumber 1) (VNumber (-1)) 1.
Definition hinted4 :=
  TestNodeWith 4 "n4" (VNumber 1) (VNumber 1) (VNumber 2) (VNumber 0) 0.
Definition hintedGraph : Graph :=
  mkGraph "graph" [hinted1; hinted2; hinted3; hinted4]
    [connect "c1" hinted1 "c" hinted2 "a"; connect "c2" hinted2 "c" hinted3 "a"].
(** The engine with the hint set to n1, no order cached, and a
    [transferData] hook that passes values on. *)
Definition hintedEngine : DependencyEngine :=
  mkEngine (fun v _ => v) [] (Some hinted1) true.

(** "allows using multiple connections": both outputs of a [TestNode] lead
    to the input of a [MultiNode] that holds [[0]] (at 0 in the heap). *)
Definition multiSource := TestNode 1 "n1".
Definition multiTarget := MultiNode 2 "n2" 0.
Definition multiGraph : Graph :=
  mkGraph "graph" [multiSource; multiTarget]
    [connect "c1" multiSource "c" multiTarget "a";
     connect "c2" multiSource "d" multiTarget "a"].
Definition multiHeap : heap := [CArray [VNumber 0]].

(** "correctly applies a calculation result" and "doesn't fail on
    non-existing ids", in one result. *)
Definition appliedEditor : Editor :=
  mkEditor (mkGraph "graph" [node1; node2; node3] []).
Definition appliedResult : CalculationResult :=
  [("node1", mkNodeResult [] [("c", VNumber 15); ("d", VNumber 5)]);
   ("invalid", mkNodeResult [] [("invalid", VNumber 5)]);
   ("node2", mkNodeResult [] [("c", VNumber 30); ("invalid", VNumber 5)])].

(* ================================================================== *)
(** * Lemmas on the containers *)
(* ================================================================== *)

Lemma map_get_set_eq {V : Type} (m : jsmap V) k v :
  map_get (map_set m k v) k = Some v.
Proof.
  induction m as [|[k' v'] m IH]; simpl.
  - now rewrite String.eqb_refl.
  - destruct (String.eqb k k') eqn:E; simpl; rewrite ?String.eqb_refl, ?E; auto.
Qed.

Lemma map_get_set_ne {V : Type} (m : jsmap V) k k' v :
  k <> k' -> map_get (map_set m k v) k' = map_get m k'.
Proof.
  intros Hne. induction m as [|[k0 v0] m IH]; simpl.
  - destruct (String.eqb k' k) eqn:E; auto.
    apply String.eqb_eq in E. congruence.
  - destruct (String.eqb k k0) eqn:E; simpl.
    + apply String.eqb_eq in E. subst k0.
      destruct (String.eqb k' k) eqn:E'; auto.
      apply String.eqb_eq in E'. congruence.
    + now rewrite IH.
Qed.

Lemma map_get_set {V : Type} (m : jsmap V) k k' v :
  map_get (map_set m k v) k' = if String.eqb k k' then Some v else map_get m k'.
Proof.
  destruct (String.eqb k k') eqn:E.
  - apply String.eqb_eq in E. subst. apply map_get_set_eq.
  - apply String.eqb_neq in E. now apply map_get_set_ne.
Qed.

Lemma map_get_in_keys {V : Type} (m : jsmap V) k :
  In k (map_keys m) <-> exists v, map_get m k = Some v.
Proof.
  induction m as [|[k' v'] m IH]; simpl.
  - split; [tauto|]. intros [v H]. discriminate.
  - destruct (String.eqb k k') eqn:E.
    + apply String.eqb_eq in E. subst. split; eauto.
    + apply String.eqb_neq in E. rewrite IH. split.
      * intros [H|H]; [congruence|auto].
      * auto.
Qed.

Lemma map_get_in {V : Type} (m : jsmap V) k v :
  map_get m k = Some v -> In (k, v) m.
Proof.
  induction m as [|[k' v'] m IH]; simpl; [discriminate|].
  destruct (String.eqb k k') eqn:E.
  - apply String.eqb_eq in E. intros [= ->]. subst. now left.
  - auto.
Qed.

Lemma map_get_values {V : Type} (m : jsmap V) k v :
  map_get m k = Some v -> In v (map_values m).
Proof.
  intros H. apply map_get_in in H.
  apply (in_map snd) in H. exact H.
Qed.

Lemma in_map_get_nodup {V : Type} (m : jsmap V) k v :
  NoDup (map_keys m) -> In (k, v) m -> map_get m k = Some v.
Proof.
  induction m as [|[k' v'] m IH]; simpl; [tauto|].
  intros Hnd [H|H].
  - inversion H; subst. now rewrite String.eqb_refl.
  - inversion Hnd; subst.
    destruct (String.eqb k k') eqn:E.
    + apply String.eqb_eq in E. subst.
      exfalso. apply H2. apply (in_map fst) in H. exact H.
    + auto.
Qed.

Lemma map_keys_set_present {V : Type} (m : jsmap V) k v :
  In k (map_keys m) -> map_keys (map_set m k v) = map_keys m.
Proof.
  induction m as [|[k' v'] m IH]; simpl; [tauto|].
  intros H. destruct (String.eqb k k') eqn:E; simpl.
  - apply String.eqb_eq in E. now subst.
  - apply String.eqb_neq in E. f_equal. apply IH.
    destruct H; [congruence|auto].
Qed.

Lemma map_keys_set_absent {V : Type} (m : jsmap V) k v :
  ~ In k (map_keys m) -> map_keys (map_set m k v) = map_keys m ++ [k].
Proof.
  induction m as [|[k' v'] m IH]; simpl; [auto|].
  intros H. destruct (String.eqb k k') eqn:E; simpl.
  - apply String.eqb_eq in E. subst. tauto.
  - f_equal. apply IH. tauto.
Qed.

Lemma map_values_set_in {V : Type} (m : jsmap V) k v x :
  In x (map_values (map_set m k v)) -> x = v \/ In x (map_values m).
Proof.
  unfold map_values.
  induction m as [|[k' v'] m IH]; simpl.
  - intros [H|[]]; auto.
  - destruct (String.eqb k k'); simpl; intros [H|H]; auto.
    destruct (IH H); auto.
Qed.

Lemma set_has_In s x : set_has s x = true <-> In x s.
Proof.
  unfold set_has. rewrite existsb_exists. split.
  - intros [y [Hy E]]. apply String.eqb_eq in E. now subst.
  - intros H. exists x. split; auto. apply String.eqb_refl.
Qed.

Lemma set_has_false s x : set_has s x = false <-> ~ In x s.
Proof.
  rewrite <- set_has_In. destruct (set_has s x); split; congruence.
Qed.

Lemma set_delete_In s x y : In y (set_delete s x) <-> In y s /\ y <> x.
Proof.
  unfold set_delete. rewrite filter_In. split; intros [H1 H2]; split; auto.
  - intros ->. now rewrite String.eqb_refl in H2.
  - apply negb_true_iff. apply String.eqb_neq. congruence.
Qed.

Lemma set_delete_length s x : length (set_delete s x) <= length s.
Proof. apply filter_length_le. Qed.

Lemma set_delete_head_length s x :
  length (set_delete (x :: s) x) <= length s.
Proof.
  unfold set_delete. simpl. rewrite String.eqb_refl. simpl.
  apply filter_length_le.
Qed.

Lemma set_add_In s x y : In y (set_add s x) <-> In y s \/ y = x.
Proof.
  unfold set_add. destruct (set_has s x) eqn:E.
  - apply set_has_In in E. split; [auto|]. intros [H|H]; subst; auto.
  - rewrite in_app_iff. simpl. intuition.
Qed.

Lemma fold_set_add_In xs : forall s y,
  In y (fold_left set_add xs s) <-> In y s \/ In y xs.
Proof.
  induction xs as [|x xs IH]; intros s y; simpl.
  - tauto.
  - rewrite IH, set_add_In. intuition.
Qed.

Lemma set_of_list_In xs y : In y (set_of_list xs) <-> In y xs.
Proof.
  unfold set_of_list. rewrite fold_set_add_In. simpl. tauto.
Qed.

Lemma string_In_dec (x : string) (l : list string) : {In x l} + {~ In x l}.
Proof. apply in_dec. apply string_dec. Qed.

Lemma in_values_get {V : Type} (m : jsmap V) v :
  In v (map_values m) -> NoDup (map_keys m) -> exists k, map_get m k = Some v.
Proof.
  intros H Hnd. unfold map_values in H. apply in_map_iff in H.
  destruct H as [[k v'] [E H]]. simpl in E. subst v'.
  exists k. now apply in_map_get_nodup.
Qed.

Lemma totalSize_set (adjacency : jsmap jsset) k s s' :
  map_get adjacency k = Some s ->
  totalSize (map_set adjacency k s') + length s
  = totalSize adjacency + length s'.
Proof.
  unfold totalSize, map_values.
  induction adjacency as [|[k0 s0] m IH]; simpl; [discriminate|].
  destruct (String.eqb k k0) eqn:E; simpl.
  - intros [= ->]. lia.
  - intros H. specialize (IH H). lia.
Qed.

Lemma pop_spec {A : Type} (l : list A) :
  match pop l with
  | None => l = []
  | Some (x, r) => l = r ++ [x]
  end.
Proof.
  unfold pop. destruct (rev l) as [|x r] eqn:E.
  - apply (f_equal (@rev A)) in E. rewrite rev_involutive in E. exact E.
  - apply (f_equal (@rev A)) in E. rewrite rev_involutive in E. exact E.
Qed.

Lemma noneHas_spec (adjacency : jsmap jsset) mId :
  NoDup (map_keys adjacency) ->
  (noneHas adjacency mId = true
   <-> forall u s, map_get adjacency u = Some s -> ~ In mId s).
Proof.
  intros Hnd. unfold noneHas. rewrite forallb_forall. split.
  - intros H u s Hu Hin. apply map_get_values in Hu.
    specialize (H _ Hu). apply negb_true_iff in H.
    apply set_has_false in H. tauto.
  - intros H s Hs. apply negb_true_iff. apply set_has_false.
    destruct (in_values_get _ _ Hs Hnd) as [k Hk]. eauto.
Qed.

Lemma find_by_id (nodes : list AbstractNode) (x : string) :
  In x (map node_id nodes) ->
  exists m, find (fun node => String.eqb (node_id node) x) nodes = Some m
            /\ In m nodes /\ node_id m = x.
Proof.
  intros H. apply in_map_iff in H. destruct H as [n [E Hn]].
  destruct (find (fun node => String.eqb (node_id node) x) nodes) as [m|] eqn:F.
  - exists m. apply find_some in F. destruct F as [F1 F2].
    apply String.eqb_eq in F2. auto.
  - exfalso. apply (find_none _ _ F) in Hn.
    rewrite E, String.eqb_refl in Hn. discriminate.
Qed.

Lemma snoc_cases {A : Type} (l : list A) :
  l = [] \/ exists l' a, l = l' ++ [a].
Proof.
  destruct l as [|x l] using rev_ind; [now left|right; eauto].
Qed.

Lemma snoc_split {A : Type} (l l1 l2 : list A) a x :
  l ++ [a] = l1 ++ x :: l2 ->
  (l2 = [] /\ l = l1 /\ a = x)
  \/ (exists l2', l2 = l2' ++ [a] /\ l = l1 ++ x :: l2').
Proof.
  intros H. destruct (snoc_cases l2) as [->|[l2' [b ->]]].
  - left. apply app_inj_tail in H. tauto.
  - right. exists l2'.
    change (l1 ++ x :: l2' ++ [b]) with (l1 ++ (x :: l2') ++ [b]) in H.
    rewrite app_assoc in H. apply app_inj_tail in H.
    destruct H as [H1 H2]. subst. auto.
Qed.

Lemma map_injective_on {A B : Type} (f : A -> B) (l : list A) x y :
  NoDup (map f l) -> In x l -> In y l -> f x = f y -> x = y.
Proof.
  induction l as [|a l IH]; simpl; [tauto|].
  intros Hnd Hx Hy E. inversion Hnd; subst.
  destruct Hx as [->|Hx], Hy as [->|Hy]; auto.
  - exfalso. apply H1. rewrite E. now apply in_map.
  - exfalso. apply H1. rewrite <- E. now apply in_map.
Qed.

Lemma NoDup_snoc {A : Type} (l : list A) x :
  NoDup l -> ~ In x l -> NoDup (l ++ [x]).
Proof.
  intros H1 H2. apply (Permutation_NoDup (Permutation_cons_append l x)).
  now constructor.
Qed.

(* ================================================================== *)
(** * A finite set whose members all have a predecessor inside has a cycle *)
(* ================================================================== *)

Section BackwardChains.

Variable R : string -> string -> Prop.

(** [chain [x0; x1; ...]]: every element is followed by a predecessor. *)
Fixpoint chain (l : list string) : Prop :=
  match l with
  | x :: ((y :: _) as t) => R y x /\ chain t
  | _ => True
  end.

Lemma chain_reach : forall t x y,
  chain (x :: t) -> In y t -> clos_trans string R y x.
Proof.
  induction t as [|a t IH]; intros x y Hc Hy; [contradiction|].
  destruct Hc as [Hax Hc]. destruct Hy as [->|Hy].
  - now apply t_step.
  - apply t_trans with a; [now apply IH | now apply t_step].
Qed.

Lemma chain_dup_cycle : forall l,
  chain l -> ~ NoDup l -> exists x, clos_trans string R x x.
Proof.
  induction l as [|x t IH]; intros Hc Hnd.
  - exfalso. apply Hnd. constructor.
  - destruct (string_In_dec x t) as [Hin|Hnot].
    + exists x. eapply chain_reach; eauto.
    + apply IH.
      * destruct t; simpl in *; tauto.
      * intros H. apply Hnd. now constructor.
Qed.

Lemma chain_extend (U : list string) :
  (forall v, In v U -> exists u, In u U /\ R u v) ->
  forall n v, In v U ->
  exists l, length l = n /\ chain (v :: l) /\ incl (v :: l) U.
Proof.
  intros Hpred. induction n as [|n IH]; intros v Hv.
  - exists []. repeat split; simpl; auto. intros y [<-|[]]. exact Hv.
  - destruct (Hpred v Hv) as [u [Hu Huv]].
    destruct (IH u Hu) as [l [Hl [Hc Hi]]].
    exists (u :: l). repeat split; simpl; auto.
    intros y [<-|Hy]; auto.
Qed.

Lemma closed_backward_cycle (U : list string) :
  U <> [] ->
  (forall v, In v U -> exists u, In u U /\ R u v) ->
  exists x, clos_trans string R x x.
Proof.
  intros Hne Hpred. destruct U as [|v U']; [congruence|].
  destruct (chain_extend _ Hpred (length (v :: U')) v (or_introl eq_refl))
    as [l [Hl [Hc Hi]]].
  apply (chain_dup_cycle (v :: l) Hc).
  intros Hnd. apply (NoDup_incl_length Hnd) in Hi. simpl in Hi, Hl. lia.
Qed.

End BackwardChains.

(* ================================================================== *)
(** * Kahn's loop keeps its invariant *)
(* ================================================================== *)

Section KahnLoop.

Variable nodes : list AbstractNode.
Hypothesis nodes_nodup : NoDup (map node_id nodes).

(** The adjacency as built before the loop. *)
Variable adj0 : jsmap jsset.
Hypothesis adj0_keys : map_keys adj0 = map node_id nodes.
Hypothesis adj0_range : forall u s v,
  map_get adj0 u = Some s -> In v s -> In v (map node_id nodes).

(** [arc u v]: the adjacency built from the input has [v] under [u]. *)
Definition arc (u v : string) : Prop :=
  exists s, map_get adj0 u = Some s /\ In v s.

Record KahnInv (cur : option string) (adjacency : jsmap jsset)
  (startNodes sorted : list AbstractNode) : Prop := {
  inv_keys : map_keys adjacency = map_keys adj0;
  inv_sub : forall u s, map_get adjacency u = Some s ->
            exists s0, map_get adj0 u = Some s0 /\ incl s s0;
  inv_fresh : forall u, ~ In u (map node_id sorted) ->
              map_get adjacency u = map_get adj0 u;
  inv_done : forall u, In u (map node_id sorted) -> Some u <> cur ->
             map_get adjacency u = Some [];
  inv_nodup : NoDup (map node_id (sorted ++ startNodes));
  inv_incl : incl (sorted ++ startNodes) nodes;
  inv_ready : forall v, In v (map node_id (sorted ++ startNodes)) ->
              forall u s, map_get adjacency u = Some s -> ~ In v s;
  inv_blocked : forall v, In v (map node_id nodes) ->
                ~ In v (map node_id (sorted ++ startNodes)) ->
                exists u s, map_get adjacency u = Some s /\ In v s;
  inv_topo : forall l1 x l2, sorted = l1 ++ x :: l2 ->
             forall u, arc u (node_id x) -> In u (map node_id l1)
}.

Lemma inv_keys_nodup cur adjacency startNodes sorted :
  KahnInv cur adjacency startNodes sorted -> NoDup (map_keys adjacency).
Proof.
  intros I. rewrite (inv_keys _ _ _ _ I), adj0_keys. exact nodes_nodup.
Qed.

Lemma drain_inv : forall fuel adjacency startNodes sorted nid s,
  KahnInv (Some nid) adjacency startNodes sorted ->
  In nid (map node_id sorted) ->
  map_get adjacency nid = Some s ->
  length s < fuel ->
  exists adjacency' startNodes',
    drain fuel nodes nid adjacency startNodes = Returns (adjacency', startNodes')
    /\ KahnInv None adjacency' startNodes' sorted
    /\ totalSize adjacency' + length startNodes'
       <= totalSize adjacency + length startNodes.
Proof.
  induction fuel as [|fuel IH];
    intros adjacency startNodes sorted nid s I Hcur Hs Hf; [lia|].
  simpl. rewrite Hs. destruct s as [|mId rest].
  - exists adjacency, startNodes. split; [reflexivity|]. split; [|lia].
    destruct I. constructor; auto.
    intros u Hu _. destruct (string_dec u nid) as [->|Hne]; auto.
    apply inv_done0; auto. congruence.
  - set (s' := set_delete (mId :: rest) mId).
    set (adjacency' := map_set adjacency nid s').
    assert (Hkeys' : map_keys adjacency' = map_keys adjacency).
    { apply map_keys_set_present. apply map_get_in_keys. eauto. }
    assert (Hlen : length s' <= length rest) by apply set_delete_head_length.
    assert (Hsize : totalSize adjacency' + S (length rest)
                    = totalSize adjacency + length s').
    { apply (totalSize_set adjacency nid (mId :: rest) s' Hs). }
    assert (HmId : In mId (map node_id nodes)).
    { destruct (inv_sub _ _ _ _ I _ _ Hs) as [s0 [H0 Hi]].
      apply (adj0_range _ _ _ H0). apply Hi. now left. }
    assert (Hnotready : ~ In mId (map node_id (sorted ++ startNodes))).
    { intros H. apply (inv_ready _ _ _ _ I _ H _ _ Hs). now left. }
    assert (Hget' : forall u, map_get adjacency' u
                    = if String.eqb nid u then Some s' else map_get adjacency u).
    { intros u. apply map_get_set. }
    assert (Hnd' : NoDup (map_keys adjacency')).
    { rewrite Hkeys'. eapply inv_keys_nodup; eauto. }
    assert (Hgetn : map_get adjacency' nid = Some s').
    { rewrite Hget'. now rewrite String.eqb_refl. }
    (* what both branches keep *)
    assert (Icommon : forall startNodes',
      NoDup (map node_id (sorted ++ startNodes')) ->
      incl (sorted ++ startNodes') nodes ->
      (forall v, In v (map node_id (sorted ++ startNodes')) ->
         forall u s, map_get adjacency' u = Some s -> ~ In v s) ->
      (forall v, In v (map node_id nodes) ->
         ~ In v (map node_id (sorted ++ startNodes')) ->
         exists u s, map_get adjacency' u = Some s /\ In v s) ->
      KahnInv (Some nid) adjacency' startNodes' sorted).
    { intros st' H1 H2 H3 H4. constructor; auto.
      - rewrite Hkeys'. apply (inv_keys _ _ _ _ I).
      - intros u s0 Hu. rewrite Hget' in Hu.
        destruct (String.eqb nid u) eqn:E.
        + apply String.eqb_eq in E. subst u. inversion Hu; subst s0.
          destruct (inv_sub _ _ _ _ I _ _ Hs) as [s1 [Ha Hb]].
          exists s1. split; auto. intros y Hy.
          apply Hb. apply set_delete_In in Hy. tauto.
        + apply (inv_sub _ _ _ _ I _ _ Hu).
      - intros u Hu. rewrite Hget'.
        destruct (String.eqb nid u) eqn:E.
        + apply String.eqb_eq in E. subst u. tauto.
        + apply (inv_fresh _ _ _ _ I _ Hu).
      - intros u Hu Hne. rewrite Hget'.
        destruct (String.eqb nid u) eqn:E.
        + apply String.eqb_eq in E. congruence.
        + apply (inv_done _ _ _ _ I _ Hu Hne).
      - apply (inv_topo _ _ _ _ I). }
    (* sets only shrink *)
    assert (Hshrink : forall u s0 v, map_get adjacency' u = Some s0 -> In v s0 ->
                      exists s1, map_get adjacency u = Some s1 /\ In v s1).
    { intros u s0 v Hu Hv. rewrite Hget' in Hu.
      destruct (String.eqb nid u) eqn:E.
      - apply String.eqb_eq in E. subst u. inversion Hu; subst s0.
        exists (mId :: rest). split; auto.
        apply set_delete_In in Hv. tauto.
      - eauto. }
    (* a node other than mId that was blocked stays blocked *)
    assert (Hstay : forall v, v <> mId -> In v (map node_id nodes) ->
                    ~ In v (map node_id (sorted ++ startNodes)) ->
                    exists u s, map_get adjacency' u = Some s /\ In v s).
    { intros v Hv Hin Hnot.
      destruct (inv_blocked _ _ _ _ I v Hin Hnot) as [u [s0 [Hu Hvs]]].
      destruct (string_dec nid u) as [<-|Hne].
      - exists nid, s'. split; auto.
        rewrite Hs in Hu. inversion Hu; subst s0.
        apply set_delete_In. auto.
      - exists u, s0. split; auto. rewrite Hget'.
        apply String.eqb_neq in Hne. now rewrite Hne. }
    fold s'. fold adjacency'.
    destruct (noneHas adjacency' mId) eqn:Hnone.
    + destruct (find_by_id nodes mId HmId) as [m [Hfind [Hm Hmid]]].
      rewrite Hfind.
      assert (Hids : map node_id (sorted ++ startNodes ++ [m])
                     = map node_id (sorted ++ startNodes) ++ [mId]).
      { rewrite app_assoc, map_app. simpl. now rewrite Hmid. }
      assert (I' : KahnInv (Some nid) adjacency' (startNodes ++ [m]) sorted).
      { apply Icommon.
        - rewrite Hids. apply NoDup_snoc; auto. apply (inv_nodup _ _ _ _ I).
        - rewrite app_assoc. apply incl_app.
          + apply (inv_incl _ _ _ _ I).
          + intros y [<-|[]]. exact Hm.
        - intros v Hv u s0 Hu Hvs. rewrite Hids in Hv.
          apply in_app_iff in Hv. destruct Hv as [Hv|[<-|[]]].
          + destruct (Hshrink _ _ _ Hu Hvs) as [s1 [H1 H2]].
            apply (inv_ready _ _ _ _ I _ Hv _ _ H1 H2).
          + apply (proj1 (noneHas_spec _ _ Hnd') Hnone _ _ Hu Hvs).
        - intros v Hin Hnot. rewrite Hids in Hnot.
          apply Hstay; auto.
          + intros ->. apply Hnot. apply in_app_iff. right. now left.
          + intros H. apply Hnot. apply in_app_iff. now left. }
      destruct (IH adjacency' (startNodes ++ [m]) sorted nid s' I' Hcur Hgetn)
        as [a2 [st2 [Hd [I2 Hsz]]]]; [simpl in Hf; lia|].
      exists a2, st2. split; [exact Hd|]. split; [exact I2|].
      rewrite length_app in Hsz. simpl in Hsz. lia.
    + assert (I' : KahnInv (Some nid) adjacency' startNodes sorted).
      { apply Icommon.
        - apply (inv_nodup _ _ _ _ I).
        - apply (inv_incl _ _ _ _ I).
        - intros v Hv u s0 Hu Hvs.
          destruct (Hshrink _ _ _ Hu Hvs) as [s1 [H1 H2]].
          apply (inv_ready _ _ _ _ I _ Hv _ _ H1 H2).
        - intros v Hin Hnot.
          destruct (string_dec v mId) as [->|Hne].
          + (* some set still has mId *)
            unfold noneHas in Hnone.
            assert (Hex : existsb (fun cn => set_has cn mId)
                                  (map_values adjacency') = true).
            { clear - Hnone. induction (map_values adjacency') as [|a l IHl];
                simpl in *; [discriminate|].
              destruct (set_has a mId); simpl in *; auto. }
            apply existsb_exists in Hex. destruct Hex as [s0 [Hs0 Hh]].
            apply set_has_In in Hh.
            destruct (in_values_get _ _ Hs0 Hnd') as [u Hu].
            exists u, s0. auto.
          + apply Hstay; auto. }
      destruct (IH adjacency' startNodes sorted nid s' I' Hcur Hgetn)
        as [a2 [st2 [Hd [I2 Hsz]]]]; [simpl in Hf; lia|].
      exists a2, st2. split; [exact Hd|]. split; [exact I2|]. lia.
Qed.

Lemma kahn_inv : forall fuel adjacency startNodes sorted,
  KahnInv None adjacency startNodes sorted ->
  totalSize adjacency + length startNodes < fuel ->
  exists st,
    kahn fuel nodes (mkKahn adjacency startNodes sorted) = Returns st
    /\ KahnInv None (k_adjacency st) [] (k_sorted st)
    /\ k_startNodes st = [].
Proof.
  induction fuel as [|fuel IH]; intros adjacency startNodes sorted I Hf; [lia|].
  cbn [kahn k_startNodes k_adjacency k_sorted].
  pose proof (pop_spec startNodes) as Hpop.
  destruct (pop startNodes) as [[n rest]|].
  - subst startNodes.
    assert (Hn : In n nodes).
    { apply (inv_incl _ _ _ _ I). apply in_app_iff. right.
      apply in_app_iff. right. now left. }
    assert (Hperm : Permutation (sorted ++ rest ++ [n]) ((sorted ++ [n]) ++ rest)).
    { rewrite <- app_assoc. apply Permutation_app_head.
      apply Permutation_app_comm. }
    assert (Hmem : forall v, In v (map node_id ((sorted ++ [n]) ++ rest))
                        <-> In v (map node_id (sorted ++ rest ++ [n]))).
    { intros v. split; apply Permutation_in; apply Permutation_map;
        [symmetry|]; exact Hperm. }
    destruct (proj1 (map_get_in_keys adjacency (node_id n))) as [s Hs].
    { rewrite (inv_keys _ _ _ _ I), adj0_keys. now apply in_map. }
    rewrite Hs.
    assert (I1 : KahnInv (Some (node_id n)) adjacency rest (sorted ++ [n])).
    { constructor.
      - apply (inv_keys _ _ _ _ I).
      - apply (inv_sub _ _ _ _ I).
      - intros u Hu. apply (inv_fresh _ _ _ _ I).
        intros H. apply Hu. rewrite map_app. apply in_app_iff. now left.
      - intros u Hu Hne. apply (inv_done _ _ _ _ I); [|congruence].
        rewrite map_app in Hu. apply in_app_iff in Hu.
        destruct Hu as [Hu|[Hu|[]]]; [exact Hu|congruence].
      - apply (Permutation_NoDup (Permutation_map node_id Hperm)).
        apply (inv_nodup _ _ _ _ I).
      - intros y Hy. apply (inv_incl _ _ _ _ I).
        apply (Permutation_in _ (Permutation_sym Hperm) Hy).
      - intros v Hv. apply (inv_ready _ _ _ _ I). now apply Hmem.
      - intros v Hin Hnot. apply (inv_blocked _ _ _ _ I v Hin).
        intros H. apply Hnot. now apply Hmem.
      - intros l1 x l2 Hsplit u Harc.
        apply snoc_split in Hsplit.
        destruct Hsplit as [[-> [-> ->]]|[l2' [-> ->]]].
        + destruct (string_In_dec u (map node_id l1)) as [Hin|Hnot]; auto.
          exfalso. destruct Harc as [s0 [H0 Hx]].
          rewrite <- (inv_fresh _ _ _ _ I _ Hnot) in H0.
          apply (inv_ready _ _ _ _ I (node_id x)) with (u := u) (s := s0); auto.
          apply in_map. apply in_app_iff. right. apply in_app_iff. right.
          now left.
        + apply (inv_topo _ _ _ _ I l1 x l2' eq_refl u Harc). }
    destruct (drain_inv (S (length s)) adjacency rest (sorted ++ [n])
                        (node_id n) s I1) as [a2 [st2 [Hd [I2 Hsz]]]];
      [rewrite map_app; apply in_app_iff; right; now left | exact Hs | lia |].
    rewrite Hd. cbn [bind].
    apply IH; auto.
    rewrite length_app in Hf. simpl in Hf. lia.
  - subst startNodes. exists (mkKahn adjacency [] sorted). auto.
Qed.

Lemma arcs_reach_back sorted :
  (forall l1 x l2, sorted = l1 ++ x :: l2 ->
     forall u, arc u (node_id x) -> In u (map node_id l1)) ->
  forall u v, clos_trans_n1 string arc u v ->
  forall l1 x l2, sorted = l1 ++ x :: l2 -> node_id x = v ->
  In u (map node_id l1).
Proof.
  intros Htopo u v Hp. induction Hp as [v Huv|v w Hvw Hp IH];
    intros l1 x l2 Hs Hx.
  - subst v. eapply Htopo; eauto.
  - subst w. assert (Hv : In v (map node_id l1)) by (eapply Htopo; eauto).
    apply in_map_iff in Hv. destruct Hv as [y [Hy Hin]].
    apply in_split in Hin. destruct Hin as [la [lb ->]].
    rewrite map_app. apply in_app_iff. left.
    apply (IH la y (lb ++ x :: l2)); auto.
    rewrite Hs. now rewrite <- app_assoc.
Qed.

Lemma cycle_not_sorted adjacency sorted v :
  KahnInv None adjacency [] sorted ->
  clos_trans string arc v v -> ~ In v (map node_id sorted).
Proof.
  intros I Hc Hin.
  apply in_map_iff in Hin. destruct Hin as [x [Hx Hin]].
  apply in_split in Hin. destruct Hin as [l1 [l2 Hs]].
  apply Operators_Properties.clos_trans_tn1 in Hc.
  pose proof (arcs_reach_back sorted (inv_topo _ _ _ _ I) v v Hc l1 x l2 Hs Hx)
    as Hback.
  pose proof (inv_nodup _ _ _ _ I) as Hnd.
  rewrite app_nil_r, Hs, map_app in Hnd. simpl in Hnd.
  apply NoDup_remove_2 in Hnd. apply Hnd.
  apply in_app_iff. left. now rewrite Hx.
Qed.

(** A cycle leaves an edge unconsumed. *)
Lemma cycle_leaves_edge adjacency sorted :
  KahnInv None adjacency [] sorted ->
  (exists v, clos_trans string arc v v) ->
  someLeft adjacency = true.
Proof.
  intros I [v Hc].
  assert (Hlast : exists y, arc y v /\ clos_trans string arc y y).
  { pose proof Hc as Hc'.
    apply Operators_Properties.clos_trans_tn1 in Hc'.
    inversion Hc' as [Hvv|y z Hyv Hvy]; subst.
    - exists v. auto.
    - exists y. split; auto.
      apply t_trans with v; [now apply t_step|].
      now apply Operators_Properties.clos_tn1_trans. }
  destruct Hlast as [y [[s0 [H0 Hv]] Hcy]].
  pose proof (cycle_not_sorted _ _ _ I Hcy) as Hy.
  rewrite <- (inv_fresh _ _ _ _ I _ Hy) in H0.
  unfold someLeft. apply existsb_exists. exists s0. split.
  - eapply map_get_values; eauto.
  - destruct s0; [contradiction|reflexivity].
Qed.

(** An unconsumed edge comes from a cycle. *)
Lemma edge_left_cycle adjacency sorted :
  KahnInv None adjacency [] sorted ->
  someLeft adjacency = true ->
  exists v, clos_trans string arc v v.
Proof.
  intros I Hex.
  assert (Hsorted : forall u s, map_get adjacency u = Some s -> s <> [] ->
                    In u (map node_id nodes) /\ ~ In u (map node_id sorted)).
  { intros u s Hu Hs. split.
    - rewrite <- adj0_keys, <- (inv_keys _ _ _ _ I).
      apply map_get_in_keys. eauto.
    - intros Hin. rewrite (inv_done _ _ _ _ I u Hin) in Hu by discriminate.
      congruence. }
  set (U := filter (fun v => negb (set_has (map node_id sorted) v))
                   (map node_id nodes)).
  assert (HU : forall v, In v U
               <-> In v (map node_id nodes) /\ ~ In v (map node_id sorted)).
  { intros v. unfold U. rewrite filter_In, negb_true_iff, set_has_false.
    tauto. }
  apply (closed_backward_cycle arc U).
  - unfold someLeft in Hex.
    apply existsb_exists in Hex. destruct Hex as [s [Hs Hlen]].
    destruct (in_values_get _ _ Hs (inv_keys_nodup _ _ _ _ I)) as [u Hu].
    assert (Hne : s <> []) by (destruct s; [discriminate|congruence]).
    destruct (Hsorted u s Hu Hne) as [H1 H2].
    intros E. assert (Hin : In u U) by (apply HU; auto).
    rewrite E in Hin. contradiction.
  - intros v Hv. apply HU in Hv. destruct Hv as [Hv1 Hv2].
    destruct (inv_blocked _ _ _ _ I v Hv1) as [u [s [Hu Hvs]]].
    { now rewrite app_nil_r. }
    assert (Hne : s <> []) by (destruct s; [contradiction|congruence]).
    destruct (Hsorted u s Hu Hne) as [H1 H2].
    exists u. split; [apply HU; auto|].
    exists s. split; auto. now rewrite <- (inv_fresh _ _ _ _ I _ H2).
Qed.

(** With every edge consumed, the order holds each node once. *)
Lemma all_consumed_permutation adjacency sorted :
  KahnInv None adjacency [] sorted ->
  someLeft adjacency = false ->
  Permutation sorted nodes.
Proof.
  intros I Hex.
  pose proof (inv_nodup _ _ _ _ I) as Hnd. rewrite app_nil_r in Hnd.
  pose proof (inv_incl _ _ _ _ I) as Hincl. rewrite app_nil_r in Hincl.
  apply NoDup_Permutation.
  - eapply NoDup_map_inv; eauto.
  - eapply NoDup_map_inv; eauto.
  - intros x. split; [apply Hincl|]. intros Hx.
    destruct (string_In_dec (node_id x) (map node_id sorted)) as [Hin|Hnot].
    + apply in_map_iff in Hin. destruct Hin as [y [E Hy]].
      assert (y = x).
      { apply (map_injective_on node_id nodes); auto. }
      now subst.
    + exfalso.
      destruct (inv_blocked _ _ _ _ I (node_id x)) as [u [s [Hu Hs]]].
      * now apply in_map.
      * now rewrite app_nil_r.
      * assert (someLeft adjacency = true); [|congruence].
        unfold someLeft. apply existsb_exists. exists s. split.
        -- eapply map_get_values; eauto.
        -- destruct s; [contradiction|reflexivity].
Qed.

End KahnLoop.

(* ================================================================== *)
(** * What the sorter builds before the loop *)
(* ================================================================== *)

(** The ids of the ports of a node, inputs first. *)
Definition portIds (n : AbstractNode) : list string :=
  map intf_id (map_values (inputs n)) ++ map intf_id (map_values (outputs n)).

(** [owns n p]: [p] is (by its id) one of the ports of node [n]. *)
Definition owns (n : AbstractNode) (p : NodeInterface) : Prop :=
  In (intf_id p) (portIds n).

Lemma fold_map_set_get {A V : Type} (key : A -> string) (val : A -> V) :
  forall (l : list A) (m : jsmap V) k v,
  map_get (fold_left (fun acc x => map_set acc (key x) (val x)) l m) k = Some v ->
  map_get m k = Some v \/ exists x, In x l /\ key x = k /\ val x = v.
Proof.
  induction l as [|a l IH]; intros m k v H; simpl in *; auto.
  apply IH in H. destruct H as [H|[x [H1 [H2 H3]]]].
  - rewrite map_get_set in H. destruct (String.eqb (key a) k) eqn:E.
    + apply String.eqb_eq in E. inversion H; subst. right. exists a. auto.
    + auto.
  - right. exists x. auto.
Qed.

Lemma fold_map_set_has {A V : Type} (key : A -> string) (val : A -> V) :
  forall (l : list A) (m : jsmap V) k,
  (In k (map_keys m) \/ In k (map key l)) ->
  In k (map_keys (fold_left (fun acc x => map_set acc (key x) (val x)) l m)).
Proof.
  induction l as [|a l IH]; intros m k H; simpl in *.
  - tauto.
  - apply IH. destruct (string_dec (key a) k) as [E|E].
    + left. apply map_get_in_keys. exists (val a). subst k.
      apply map_get_set_eq.
    + destruct H as [H|[H|H]]; auto; [|congruence].
      left. apply map_get_in_keys. apply map_get_in_keys in H.
      destruct H as [v H]. exists v. now rewrite map_get_set_ne.
Qed.

Lemma fold_map_set_keys {A V : Type} (key : A -> string) (val : A -> V) :
  forall (l : list A) (m : jsmap V),
  NoDup (map_keys m ++ map key l) ->
  map_keys (fold_left (fun acc x => map_set acc (key x) (val x)) l m)
  = map_keys m ++ map key l.
Proof.
  induction l as [|a l IH]; intros m Hnd; simpl in *.
  - now rewrite app_nil_r.
  - assert (Hnot : ~ In (key a) (map_keys m)).
    { apply NoDup_remove_2 in Hnd. intros H. apply Hnd.
      apply in_app_iff. now left. }
    rewrite IH; rewrite (map_keys_set_absent _ _ _ Hnot).
    + now rewrite <- app_assoc.
    + rewrite <- app_assoc. exact Hnd.
Qed.

Lemma fold_map_set_last {A V : Type} (key : A -> string) (val : A -> V) :
  forall (l : list A) (m : jsmap V) x,
  NoDup (map key l) -> In x l ->
  map_get (fold_left (fun acc x => map_set acc (key x) (val x)) l m) (key x)
  = Some (val x).
Proof.
  induction l as [|a l IH]; intros m x Hnd Hx; simpl in *; [tauto|].
  inversion Hnd; subst. destruct Hx as [->|Hx].
  - destruct (map_get (fold_left (fun acc x => map_set acc (key x) (val x)) l
                                 (map_set m (key x) (val x))) (key x)) eqn:E.
    + apply fold_map_set_get in E. destruct E as [E|[y [Hy [H3 H4]]]].
      * rewrite map_get_set_eq in E. now symmetry.
      * exfalso. apply H1. rewrite <- H3. now apply in_map.
    + exfalso.
      assert (H : In (key x) (map_keys (fold_left
                   (fun acc x => map_set acc (key x) (val x)) l
                   (map_set m (key x) (val x))))).
      { apply fold_map_set_has. left. apply map_get_in_keys.
        exists (val x). apply map_get_set_eq. }
      apply map_get_in_keys in H. destruct H as [v H]. congruence.
  - now apply IH.
Qed.

(** The interfaces registered for a node, in the order of the source. *)
Definition portsOf (n : AbstractNode) : list NodeInterface :=
  map_values (inputs n) ++ map_values (outputs n).

Lemma portIds_portsOf n : portIds n = map intf_id (portsOf n).
Proof. unfold portIds, portsOf. now rewrite map_app. Qed.

Lemma registerInterfaces_fold m n :
  registerInterfaces m n
  = fold_left (fun acc intf => map_set acc (intf_id intf) (node_id n))
              (portsOf n) m.
Proof. unfold registerInterfaces, portsOf. now rewrite fold_left_app. Qed.

Lemma interfaceIdToNodeId_sound : forall nodes m pid nid,
  map_get (fold_left registerInterfaces nodes m) pid = Some nid ->
  map_get m pid = Some nid
  \/ exists n, In n nodes /\ node_id n = nid /\ In pid (portIds n).
Proof.
  induction nodes as [|a nodes IH]; intros m pid nid H; simpl in *; auto.
  apply IH in H. destruct H as [H|[n [H1 [H2 H3]]]].
  - rewrite registerInterfaces_fold in H. apply fold_map_set_get in H.
    destruct H as [H|[p [Hp [E1 E2]]]]; auto.
    right. exists a. repeat split; auto.
    rewrite portIds_portsOf. rewrite <- E1. now apply in_map.
  - right. exists n. auto.
Qed.

Lemma interfaceIdToNodeId_complete : forall nodes m n pid,
  In n nodes -> In pid (portIds n) ->
  In pid (map_keys (fold_left registerInterfaces nodes m)).
Proof.
  assert (Hmono : forall nodes m pid, In pid (map_keys m) ->
            In pid (map_keys (fold_left registerInterfaces nodes m))).
  { induction nodes as [|a nodes IH]; intros m pid H; simpl; auto.
    apply IH. rewrite registerInterfaces_fold.
    apply fold_map_set_has. now left. }
  induction nodes as [|a nodes IH]; intros m n pid Hn Hp; simpl in *; [tauto|].
  destruct Hn as [->|Hn].
  - apply Hmono. rewrite registerInterfaces_fold. apply fold_map_set_has.
    right. now rewrite <- portIds_portsOf.
  - eapply IH; eauto.
Qed.

Lemma fst_buildAdjacency i2n connections : forall nodes a c,
  fst (fold_left
         (fun '(adjacency, cfn) n =>
            let cs := connectionsFromCurrentNode i2n connections n in
            let adjacentNodes := set_of_list (destinationIds i2n cs) in
            (map_set adjacency (node_id n) adjacentNodes,
             refmap_set cfn (node_ref n) cs))
         nodes (a, c))
  = fold_left
      (fun adjacency n =>
         map_set adjacency (node_id n)
           (set_of_list (destinationIds i2n
              (connectionsFromCurrentNode i2n connections n))))
      nodes a.
Proof.
  induction nodes as [|n nodes IH]; intros a c; simpl; auto.
Qed.

Lemma buildAdjacency_fst i2n connections nodes :
  fst (buildAdjacency i2n connections nodes)
  = fold_left
      (fun adjacency n =>
         map_set adjacency (node_id n)
           (set_of_list (destinationIds i2n
              (connectionsFromCurrentNode i2n connections n))))
      nodes [].
Proof. unfold buildAdjacency. apply fst_buildAdjacency. Qed.

Lemma destinationIds_In i2n cs v :
  In v (destinationIds i2n cs)
  <-> exists c, In c cs /\ map_get i2n (intf_id (to c)) = Some v.
Proof.
  induction cs as [|c cs IH]; simpl.
  - split; [tauto|]. intros [c [[] _]].
  - destruct (map_get i2n (intf_id (to c))) as [nid|] eqn:E; simpl;
      rewrite IH; split.
    + intros [<-|[c' [H1 H2]]]; [exists c; auto|exists c'; auto].
    + intros [c' [[<-|H1] H2]]; [left; congruence|right; eauto].
    + intros [c' [H1 H2]]. exists c'. auto.
    + intros [c' [[<-|H1] H2]]; [congruence|eauto].
Qed.

Lemma ownerIs_true i2n pid nid :
  ownerIs i2n pid nid = true <-> map_get i2n pid = Some nid.
Proof.
  unfold ownerIs. destruct (map_get i2n pid) as [o|].
  - rewrite String.eqb_eq. split; congruence.
  - split; discriminate.
Qed.

Lemma connectionsFromCurrentNode_In i2n connections n c :
  In c (connectionsFromCurrentNode i2n connections n)
  <-> In c connections
      /\ exists p, from c = Some p /\ map_get i2n (intf_id p) = Some (node_id n).
Proof.
  unfold connectionsFromCurrentNode. rewrite filter_In.
  destruct (from c) as [p|].
  - rewrite ownerIs_true. split.
    + intros [H1 H2]. split; auto. exists p. auto.
    + intros [H1 [p' [E H2]]]. inversion E; subst. auto.
  - split; [intros [_ H]; discriminate|].
    intros [_ [p [E _]]]. discriminate.
Qed.

(** Removing the first node a connection leads to removes all of them when
    the ids are unique. *)
Lemma splice_first_filter (p : AbstractNode -> bool) (f : string -> bool) :
  (forall n, p n = f (node_id n)) ->
  forall l, NoDup (map node_id l) ->
  (forall x y, In x l -> In y l -> p x = true -> p y = true -> x = y) ->
  match findIndex p l with
  | Some index => splice1 index l
  | None => l
  end = filter (fun n => negb (p n)) l.
Proof.
  intros Hpf. induction l as [|x l IH]; intros Hnd Huniq; simpl; auto.
  inversion Hnd; subst.
  destruct (p x) eqn:E; simpl.
  - symmetry. apply forallb_filter_id. apply forallb_forall.
    intros y Hy. apply negb_true_iff.
    destruct (p y) eqn:Ey; auto.
    exfalso. assert (x = y) by (apply Huniq; simpl; auto).
    subst y. apply H1. now apply in_map.
  - rewrite <- IH; auto.
    + destruct (findIndex p l); reflexivity.
    + intros a b Ha Hb. apply Huniq; simpl; auto.
Qed.

Lemma NoDup_map_filter {A B : Type} (f : A -> B) (p : A -> bool) l :
  NoDup (map f l) -> NoDup (map f (filter p l)).
Proof.
  induction l as [|x l IH]; simpl; auto.
  intros H. inversion H; subst.
  destruct (p x); simpl; auto.
  constructor; auto. intros Hin. apply H2.
  apply in_map_iff in Hin. destruct Hin as [y [E Hy]].
  apply filter_In in Hy. rewrite <- E. apply in_map. tauto.
Qed.

Lemma filter_twice {A : Type} (p q : A -> bool) l :
  filter p (filter q l) = filter (fun x => q x && p x) l.
Proof.
  induction l as [|x l IH]; simpl; auto.
  destruct (q x); simpl; [destruct (p x)|]; simpl; now rewrite ?IH.
Qed.

Lemma initialStartNodes_filter i2n : forall connections nodes,
  NoDup (map node_id nodes) ->
  initialStartNodes i2n connections nodes
  = filter (fun n => negb (existsb (fun c => ownerIs i2n (intf_id (to c))
                                                      (node_id n))
                                   connections)) nodes.
Proof.
  unfold initialStartNodes.
  induction connections as [|c cs IH]; intros nodes Hnd; simpl.
  - symmetry. apply forallb_filter_id. apply forallb_forall. auto.
  - rewrite (splice_first_filter _
              (fun nid => ownerIs i2n (intf_id (to c)) nid)); auto.
    + rewrite IH by (now apply NoDup_map_filter).
      rewrite filter_twice. apply filter_ext. intros n.
      destruct (ownerIs i2n (intf_id (to c)) (node_id n)); simpl; auto.
    + intros x y Hx Hy Ex Ey.
      apply ownerIs_true in Ex. apply ownerIs_true in Ey.
      apply (map_injective_on node_id nodes); auto. congruence.
Qed.

(* ================================================================== *)
(** * Well-formed inputs, connections between nodes, cycles *)
(* ================================================================== *)

(** The invariants of the data model on a set of nodes and connections: node
    ids are unique, a port id belongs to one node only, and every connection
    starts at a port of one of the nodes. *)
Record WellFormed (nodes : list AbstractNode) (connections : list IConnection)
  : Prop := {
  wf_nodes : NoDup (map node_id nodes);
  wf_ports : forall n m pid, In n nodes -> In m nodes ->
             In pid (portIds n) -> In pid (portIds m) -> node_id n = node_id m;
  wf_sources : forall c, In c connections ->
               exists p n, from c = Some p /\ In n nodes /\ owns n p
}.

(** [connects nodes connections u v]: some connection leads from a port of
    [u] to a port of [v]. *)
Definition connects (nodes : list AbstractNode) (connections : list IConnection)
  (u v : AbstractNode) : Prop :=
  In u nodes /\ In v nodes /\
  exists c p, In c connections /\ from c = Some p /\ owns u p /\ owns v (to c).

(** A directed cycle: a node that reaches itself along one connection or
    more. *)
Definition hasCycle (nodes : list AbstractNode) (connections : list IConnection)
  : Prop :=
  exists v, clos_trans AbstractNode (connects nodes connections) v v.

(** The nodes and connections an entry point works on: those of the graph,
    or the two arrays. *)
Definition givenInput (nodesOrGraph : NodesOrGraph)
  (pConnections : option (list IConnection))
  : option (list AbstractNode * list IConnection) :=
  match nodesOrGraph with
  | OfGraph g => Some (graph_nodes g, graph_connections g)
  | OfNodes ns =>
      match pConnections with
      | Some cs => Some (ns, cs)
      | None => None
      end
  end.

Section SortedInput.

Variable nodes : list AbstractNode.
Variable connections : list IConnection.
Hypothesis wf : WellFormed nodes connections.

Let i2n : jsmap string := fold_left registerInterfaces nodes [].
Let adj0 : jsmap jsset := fst (buildAdjacency i2n connections nodes).
Let start0 : list AbstractNode := initialStartNodes i2n connections nodes.

Lemma i2n_inv pid nid :
  map_get i2n pid = Some nid ->
  exists n, In n nodes /\ node_id n = nid /\ In pid (portIds n).
Proof.
  intros H. apply interfaceIdToNodeId_sound in H.
  destruct H as [H|H]; [discriminate|exact H].
Qed.

Lemma i2n_owner n pid :
  In n nodes -> In pid (portIds n) -> map_get i2n pid = Some (node_id n).
Proof.
  intros Hn Hp.
  pose proof (interfaceIdToNodeId_complete nodes [] n pid Hn Hp) as H.
  apply map_get_in_keys in H. destruct H as [nid H].
  fold i2n in H. rewrite H. f_equal.
  destruct (i2n_inv _ _ H) as [m [Hm [E Hpm]]].
  rewrite <- E. apply (wf_ports _ _ wf m n pid); auto.
Qed.

Lemma adj0_fold :
  adj0 = fold_left
           (fun adjacency n =>
              map_set adjacency (node_id n)
                (set_of_list (destinationIds i2n
                   (connectionsFromCurrentNode i2n connections n))))
           nodes [].
Proof. unfold adj0, buildAdjacency. apply fst_buildAdjacency. Qed.

Lemma adj0_keys : map_keys adj0 = map node_id nodes.
Proof.
  rewrite adj0_fold.
  rewrite (fold_map_set_keys node_id
             (fun n => set_of_list (destinationIds i2n
                (connectionsFromCurrentNode i2n connections n)))).
  - reflexivity.
  - simpl. apply (wf_nodes _ _ wf).
Qed.

Lemma adj0_get n :
  In n nodes ->
  map_get adj0 (node_id n)
  = Some (set_of_list (destinationIds i2n
            (connectionsFromCurrentNode i2n connections n))).
Proof.
  intros Hn. rewrite adj0_fold.
  apply (fold_map_set_last node_id
           (fun n => set_of_list (destinationIds i2n
              (connectionsFromCurrentNode i2n connections n)))); auto.
  apply (wf_nodes _ _ wf).
Qed.

Lemma arc_connection u v :
  arc adj0 u v
  <-> exists c p, In c connections /\ from c = Some p
                  /\ map_get i2n (intf_id p) = Some u
                  /\ map_get i2n (intf_id (to c)) = Some v.
Proof.
  unfold arc. split.
  - intros [s [Hs Hv]].
    assert (Hu : In u (map node_id nodes)).
    { rewrite <- adj0_keys. apply map_get_in_keys. eauto. }
    apply in_map_iff in Hu. destruct Hu as [n [<- Hn]].
    rewrite (adj0_get n Hn) in Hs. inversion Hs; subst s. clear Hs.
    rewrite set_of_list_In, destinationIds_In in Hv.
    destruct Hv as [c [Hc Hto]].
    rewrite connectionsFromCurrentNode_In in Hc.
    destruct Hc as [Hc [p [Hp Hfrom]]].
    exists c, p. auto.
  - intros [c [p [Hc [Hp [Hfrom Hto]]]]].
    destruct (i2n_inv _ _ Hfrom) as [n [Hn [<- _]]].
    exists (set_of_list (destinationIds i2n
              (connectionsFromCurrentNode i2n connections n))).
    split; [now apply adj0_get|].
    apply set_of_list_In. apply destinationIds_In.
    exists c. split; auto.
    apply connectionsFromCurrentNode_In. split; auto. exists p. auto.
Qed.

Lemma adj0_range u s v :
  map_get adj0 u = Some s -> In v s -> In v (map node_id nodes).
Proof.
  intros Hs Hv.
  assert (Harc : arc adj0 u v) by (exists s; auto).
  apply arc_connection in Harc.
  destruct Harc as [c [p [_ [_ [_ Hto]]]]].
  destruct (i2n_inv _ _ Hto) as [n [Hn [<- _]]]. now apply in_map.
Qed.

Lemma connects_arc a b :
  connects nodes connections a b -> arc adj0 (node_id a) (node_id b).
Proof.
  intros [Ha [Hb [c [p [Hc [Hp [Hoa Hob]]]]]]].
  apply arc_connection. exists c, p. repeat split; auto.
  - now apply i2n_owner.
  - now apply i2n_owner.
Qed.

Lemma arc_connects u v :
  arc adj0 u v ->
  exists a b, node_id a = u /\ node_id b = v /\ connects nodes connections a b.
Proof.
  intros H. apply arc_connection in H.
  destruct H as [c [p [Hc [Hp [Hfrom Hto]]]]].
  destruct (i2n_inv _ _ Hfrom) as [a [Ha [Ea Hpa]]].
  destruct (i2n_inv _ _ Hto) as [b [Hb [Eb Hpb]]].
  exists a, b. repeat split; auto.
  exists c, p. auto.
Qed.

Lemma hasCycle_arc :
  hasCycle nodes connections <-> exists x, clos_trans string (arc adj0) x x.
Proof.
  split.
  - intros [v Hv]. exists (node_id v).
    assert (H : forall a b, clos_trans AbstractNode (connects nodes connections) a b ->
                clos_trans string (arc adj0) (node_id a) (node_id b)).
    { intros a b Hab. induction Hab as [a b Hab|a b c _ IH1 _ IH2].
      - apply t_step. now apply connects_arc.
      - now apply t_trans with (node_id b). }
    now apply H.
  - intros [x Hx].
    assert (H : forall u v, clos_trans string (arc adj0) u v ->
                exists a b, node_id a = u /\ node_id b = v /\ In a nodes
                  /\ In b nodes
                  /\ clos_trans AbstractNode (connects nodes connections) a b).
    { intros u v Huv. induction Huv as [u v Huv|u w v _ IH1 _ IH2].
      - destruct (arc_connects _ _ Huv) as [a [b [Ea [Eb Hab]]]].
        exists a, b. repeat split; auto.
        + apply Hab.
        + apply Hab.
        + now apply t_step.
      - destruct IH1 as [a [b1 [Ea [Eb1 [Ha [Hb1 H1]]]]]].
        destruct IH2 as [b2 [c [Eb2 [Ec [Hb2 [Hc H2]]]]]].
        assert (b1 = b2).
        { apply (map_injective_on node_id nodes); auto.
          - apply (wf_nodes _ _ wf).
          - congruence. }
        subst b2. exists a, c. repeat split; auto.
        now apply t_trans with b1. }
    destruct (H _ _ Hx) as [a [b [Ea [Eb [Ha [Hb Hab]]]]]].
    assert (a = b).
    { apply (map_injective_on node_id nodes); auto.
      - apply (wf_nodes _ _ wf).
      - congruence. }
    subst b. now exists a.
Qed.

Lemma start0_filter :
  start0 = filter (fun n => negb (existsb (fun c => ownerIs i2n (intf_id (to c))
                                                            (node_id n))
                                          connections)) nodes.
Proof. apply initialStartNodes_filter. apply (wf_nodes _ _ wf). Qed.

Lemma initial_invariant : KahnInv nodes adj0 None adj0 start0 [].
Proof.
  constructor; simpl.
  - reflexivity.
  - intros u s Hs. exists s. split; auto. apply incl_refl.
  - reflexivity.
  - intros u [].
  - rewrite start0_filter. apply NoDup_map_filter. apply (wf_nodes _ _ wf).
  - rewrite start0_filter. intros x Hx. apply filter_In in Hx. tauto.
  - intros v Hv u s Hs Hin.
    apply in_map_iff in Hv. destruct Hv as [n [<- Hn]].
    rewrite start0_filter in Hn. apply filter_In in Hn.
    destruct Hn as [Hn Hnone]. apply negb_true_iff in Hnone.
    assert (Harc : arc adj0 u (node_id n)) by (exists s; auto).
    apply arc_connection in Harc.
    destruct Harc as [c [p [Hc [_ [_ Hto]]]]].
    assert (existsb (fun c => ownerIs i2n (intf_id (to c)) (node_id n))
                    connections = true); [|congruence].
    apply existsb_exists. exists c. split; auto. now apply ownerIs_true.
  - intros v Hv Hnot.
    apply in_map_iff in Hv. destruct Hv as [n [<- Hn]].
    destruct (existsb (fun c => ownerIs i2n (intf_id (to c)) (node_id n))
                      connections) eqn:E.
    + apply existsb_exists in E. destruct E as [c [Hc Hto]].
      apply ownerIs_true in Hto.
      destruct (wf_sources _ _ wf c Hc) as [p [m [Hp [Hm Hown]]]].
      assert (Harc : arc adj0 (node_id m) (node_id n)).
      { apply arc_connection. exists c, p. repeat split; auto.
        now apply i2n_owner. }
      destruct Harc as [s [Hs Hin]]. eauto.
    + exfalso. apply Hnot. apply in_map. rewrite start0_filter.
      apply filter_In. split; auto. now rewrite E.
  - intros l1 x l2 H. destruct l1; discriminate.
Qed.

(** The loop ends, within its budget, in a state that satisfies the
    invariant; the sorter throws exactly when an edge is left. *)
Lemma sortTopologically_run :
  exists st,
    KahnInv nodes adj0 None (k_adjacency st) [] (k_sorted st)
    /\ sortTopologically (OfNodes nodes) (Some connections)
       = if someLeft (k_adjacency st)
         then Throws CycleError
         else Returns (mkSorted (k_sorted st)
                                (snd (buildAdjacency i2n connections nodes))
                                i2n).
Proof.
  destruct (kahn_inv nodes (wf_nodes _ _ wf) adj0 adj0_keys adj0_range
              (S (length start0 + totalSize adj0)) adj0 start0 []
              initial_invariant) as [st [Hk [I Hs]]]; [lia|].
  exists st. split; auto.
  unfold sortTopologically, nodesOrGraphToData.
  cbn [bind gd_nodes gd_connections gd_interfaceIdToNodeId].
  fold i2n. fold start0.
  rewrite (surjective_pairing (buildAdjacency i2n connections nodes)).
  fold adj0. rewrite Hk. reflexivity.
Qed.

End SortedInput.

Lemma sortTopologically_given nodesOrGraph pConnections nodes connections :
  givenInput nodesOrGraph pConnections = Some (nodes, connections) ->
  sortTopologically nodesOrGraph pConnections
  = sortTopologically (OfNodes nodes) (Some connections).
Proof.
  destruct nodesOrGraph as [g|ns]; simpl.
  - intros [= <- <-]. reflexivity.
  - destruct pConnections as [cs|]; [|discriminate].
    intros [= <- <-]. reflexivity.
Qed.

(** The position of a node before another one in a list. *)
Lemma earlier_indices {A : Type} (l1 l2 : list A) u x :
  In u l1 ->
  exists i j, nth_error (l1 ++ x :: l2) i = Some u
              /\ nth_error (l1 ++ x :: l2) j = Some x /\ i < j.
Proof.
  intros Hu. apply In_nth_error in Hu. destruct Hu as [i Hi].
  assert (Hlt : i < length l1) by (apply nth_error_Some; congruence).
  exists i, (length l1). repeat split; auto.
  - rewrite nth_error_app1; auto.
  - rewrite nth_error_app2 by lia. now rewrite Nat.sub_diag.
Qed.

(* ------------------------------------------------------------------ *)
(** ** Checks that decide the hypotheses on a given input *)
(* ------------------------------------------------------------------ *)

Fixpoint nodupb (l : list string) : bool :=
  match l with
  | [] => true
  | x :: l' => negb (set_has l' x) && nodupb l'
  end.

Lemma nodupb_NoDup l : nodupb l = true -> NoDup l.
Proof.
  induction l as [|x l IH]; simpl; [constructor|].
  intros H. apply andb_true_iff in H. destruct H as [H1 H2].
  apply negb_true_iff in H1. apply set_has_false in H1.
  constructor; auto.
Qed.

Definition disjointb (l1 l2 : list string) : bool :=
  forallb (fun x => negb (set_has l2 x)) l1.

Definition wellFormedb (nodes : list AbstractNode)
  (connections : list IConnection) : bool :=
  nodupb (map node_id nodes)
  && forallb (fun n =>
       forallb (fun m => String.eqb (node_id n) (node_id m)
                         || disjointb (portIds n) (portIds m)) nodes) nodes
  && forallb (fun c =>
       match from c with
       | Some p => existsb (fun n => set_has (portIds n) (intf_id p)) nodes
       | None => false
       end) connections.

Lemma wellFormedb_WellFormed nodes connections :
  wellFormedb nodes connections = true -> WellFormed nodes connections.
Proof.
  unfold wellFormedb. intros H.
  apply andb_true_iff in H. destruct H as [H H3].
  apply andb_true_iff in H. destruct H as [H1 H2].
  constructor.
  - now apply nodupb_NoDup.
  - intros n m pid Hn Hm Hpn Hpm.
    rewrite forallb_forall in H2. specialize (H2 n Hn).
    rewrite forallb_forall in H2. specialize (H2 m Hm).
    apply orb_true_iff in H2. destruct H2 as [H2|H2].
    + now apply String.eqb_eq.
    + exfalso. unfold disjointb in H2. rewrite forallb_forall in H2.
      specialize (H2 pid Hpn). apply negb_true_iff in H2.
      apply set_has_false in H2. contradiction.
  - intros c Hc. rewrite forallb_forall in H3. specialize (H3 c Hc).
    destruct (from c) as [p|]; [|discriminate].
    apply existsb_exists in H3. destruct H3 as [n [Hn Hp]].
    exists p, n. repeat split; auto. now apply set_has_In.
Qed.

(** A rank that grows along every connection certifies that there is no
    cycle. *)
Definition rankedb (rank : string -> nat) (nodes : list AbstractNode)
  (connections : list IConnection) : bool :=
  forallb (fun c =>
    match from c with
    | None => true
    | Some p =>
        forallb (fun u =>
          forallb (fun v =>
            negb (set_has (portIds u) (intf_id p)
                  && set_has (portIds v) (intf_id (to c)))
            || Nat.ltb (rank (node_id u)) (rank (node_id v))) nodes) nodes
    end) connections.

Lemma rankedb_acyclic rank nodes connections :
  rankedb rank nodes connections = true -> ~ hasCycle nodes connections.
Proof.
  intros H [v Hv].
  assert (Hstep : forall a b, connects nodes connections a b ->
                  rank (node_id a) < rank (node_id b)).
  { intros a b [Ha [Hb [c [p [Hc [Hp [Hoa Hob]]]]]]].
    unfold rankedb in H. rewrite forallb_forall in H.
    specialize (H c Hc). rewrite Hp in H.
    rewrite forallb_forall in H. specialize (H a Ha).
    rewrite forallb_forall in H. specialize (H b Hb).
    apply orb_true_iff in H. destruct H as [H|H].
    - apply negb_true_iff in H. apply andb_false_iff in H.
      destruct H as [H|H]; apply set_has_false in H; contradiction.
    - now apply Nat.ltb_lt. }
  assert (Hpath : forall a b,
            clos_trans AbstractNode (connects nodes connections) a b ->
            rank (node_id a) < rank (node_id b)).
  { intros a b Hab. induction Hab; [auto|lia]. }
  specialize (Hpath v v Hv). lia.
Qed.

(* ================================================================== *)
(** * Claims on the sorter *)
(* ================================================================== *)

(** C1. For every acyclic set of nodes and connections, given as two arrays
    or as a graph, [sortTopologically] returns a [calculationOrder] that is
    a permutation of the input nodes, and for every connection the node
    that owns its source port stands at a strictly smaller index than the
    node that owns its destination port. *)
Theorem sortTopologically_orders_acyclic_input :
  forall nodesOrGraph pConnections nodes connections,
    givenInput nodesOrGraph pConnections = Some (nodes, connections) ->
    WellFormed nodes connections ->
    ~ hasCycle nodes connections ->
    exists r,
      sortTopologically nodesOrGraph pConnections = Returns r
      /\ Permutation (calculationOrder r) nodes
      /\ forall c p u v,
           In c connections -> from c = Some p ->
           In u nodes -> In v nodes -> owns u p -> owns v (to c) ->
           exists i j,
             nth_error (calculationOrder r) i = Some u
             /\ nth_error (calculationOrder r) j = Some v
             /\ i < j.
Proof.
  intros nog pc nodes connections Hgiven wf Hacyc.
  rewrite (sortTopologically_given _ _ _ _ Hgiven).
  destruct (sortTopologically_run nodes connections wf) as [st [I Hrun]].
  set (i2n := fold_left registerInterfaces nodes []) in *.
  set (adj0 := fst (buildAdjacency i2n connections nodes)) in *.
  destruct (someLeft (k_adjacency st)) eqn:Hex.
  - exfalso. apply Hacyc. apply (hasCycle_arc nodes connections wf).
    apply (edge_left_cycle nodes (wf_nodes _ _ wf) adj0
             (adj0_keys nodes connections wf) (k_adjacency st) (k_sorted st) I Hex).
  - eexists. split; [exact Hrun|]. cbn [calculationOrder].
    assert (Hperm : Permutation (k_sorted st) nodes).
    { apply (all_consumed_permutation nodes (wf_nodes _ _ wf) adj0
               (k_adjacency st) (k_sorted st) I Hex). }
    split; [exact Hperm|].
    intros c p u v Hc Hp Hu Hv Hou Hov.
    assert (Harc : arc adj0 (node_id u) (node_id v)).
    { apply (connects_arc nodes connections wf).
      repeat split; auto. exists c, p. auto. }
    assert (Hvs : In v (k_sorted st)).
    { apply (Permutation_in _ (Permutation_sym Hperm) Hv). }
    apply in_split in Hvs. destruct Hvs as [l1 [l2 Hs]].
    pose proof (inv_topo _ _ _ _ _ _ I l1 v l2 Hs _ Harc) as Hin.
    apply in_map_iff in Hin. destruct Hin as [u' [E Hu']].
    assert (u' = u).
    { apply (map_injective_on node_id nodes); auto.
      - apply (wf_nodes _ _ wf).
      - apply (Permutation_in _ Hperm). rewrite Hs.
        apply in_app_iff. now left. }
    subst u'. rewrite Hs. now apply earlier_indices.
Qed.

(** C2. For every well-formed set of nodes and connections: with a directed
    cycle, [sortTopologically] throws [CycleError] and [containsCycle]
    returns true; without one, [sortTopologically] returns and
    [containsCycle] returns false; and [CycleError] is the only thing
    [sortTopologically] throws. *)
Theorem sortTopologically_throws_iff_cycle :
  forall nodesOrGraph pConnections nodes connections,
    givenInput nodesOrGraph pConnections = Some (nodes, connections) ->
    WellFormed nodes connections ->
    (hasCycle nodes connections ->
       sortTopologically nodesOrGraph pConnections = Throws CycleError
       /\ containsCycle nodesOrGraph pConnections = Returns true)
    /\ (~ hasCycle nodes connections ->
       (exists r, sortTopologically nodesOrGraph pConnections = Returns r)
       /\ containsCycle nodesOrGraph pConnections = Returns false)
    /\ (forall e, sortTopologically nodesOrGraph pConnections = Throws e ->
          e = CycleError).
Proof.
  intros nog pc nodes connections Hgiven wf.
  unfold containsCycle.
  rewrite (sortTopologically_given _ _ _ _ Hgiven).
  destruct (sortTopologically_run nodes connections wf) as [st [I Hrun]].
  set (i2n := fold_left registerInterfaces nodes []) in *.
  set (adj0 := fst (buildAdjacency i2n connections nodes)) in *.
  destruct (someLeft (k_adjacency st)) eqn:Hex.
  - assert (Hcyc : hasCycle nodes connections).
    { apply (hasCycle_arc nodes connections wf).
      apply (edge_left_cycle nodes (wf_nodes _ _ wf) adj0
               (adj0_keys nodes connections wf) (k_adjacency st) (k_sorted st)
               I Hex). }
    rewrite Hrun. split; [auto|]. split.
    + intros Hn. contradiction.
    + intros e [= <-]. reflexivity.
  - assert (Hacyc : ~ hasCycle nodes connections).
    { intros Hcyc. apply (hasCycle_arc nodes connections wf) in Hcyc.
      assert (H : someLeft (k_adjacency st) = true).
      { eapply cycle_leaves_edge; eauto. }
      congruence. }
    rewrite Hrun. split; [intros Hc; contradiction|]. split.
    + intros _. split; eauto.
    + intros e He. discriminate.
Qed.

(* ================================================================== *)
(** * The order depends on the ids only *)
(* ================================================================== *)

(** Two nodes, two connections with the same ids. *)
Definition sameIdsNode (n m : AbstractNode) : Prop :=
  node_id n = node_id m
  /\ map intf_id (map_values (inputs n)) = map intf_id (map_values (inputs m))
  /\ map intf_id (map_values (outputs n)) = map intf_id (map_values (outputs m)).

Definition sameIdsConnection (c d : IConnection) : Prop :=
  option_map intf_id (from c) = option_map intf_id (from d)
  /\ intf_id (to c) = intf_id (to d).

(** Two completions that agree: both return, with related values, or both
    throw the same. *)
Definition agree {A B : Type} (R : A -> B -> Prop)
  (c1 : completion A) (c2 : completion B) : Prop :=
  match c1, c2 with
  | Returns a, Returns b => R a b
  | Throws e1, Throws e2 => e1 = e2
  | _, _ => False
  end.

Lemma fold_left_Forall2 {A B S : Type} (R : A -> B -> Prop)
  (f : S -> A -> S) (g : S -> B -> S) :
  (forall s a b, R a b -> f s a = g s b) ->
  forall l1 l2, Forall2 R l1 l2 ->
  forall s, fold_left f l1 s = fold_left g l2 s.
Proof.
  intros Hfg l1 l2 H. induction H as [|a b l1 l2 Hab _ IH]; intros s; simpl.
  - reflexivity.
  - rewrite (Hfg s a b Hab). apply IH.
Qed.

Lemma filter_Forall2 {A B : Type} (R : A -> B -> Prop)
  (p : A -> bool) (q : B -> bool) :
  (forall a b, R a b -> p a = q b) ->
  forall l1 l2, Forall2 R l1 l2 -> Forall2 R (filter p l1) (filter q l2).
Proof.
  intros Hpq l1 l2 H. induction H as [|a b l1 l2 Hab _ IH]; simpl.
  - constructor.
  - rewrite (Hpq a b Hab). destruct (q b); auto.
Qed.

Lemma Forall2_positions {A B : Type} (R : A -> B -> Prop) l1 l2 :
  Forall2 R l1 l2 ->
  Forall2 (fun a b => R a b /\ In (a, b) (combine l1 l2)) l1 l2.
Proof.
  intros H. induction H as [|a b l1 l2 Hab _ IH]; simpl.
  - constructor.
  - constructor; [auto|].
    eapply Forall2_impl; [|exact IH]. simpl. intros x y [H1 H2]. auto.
Qed.

Lemma Forall2_snoc {A B : Type} (R : A -> B -> Prop) l1 l2 a b :
  Forall2 R l1 l2 -> R a b -> Forall2 R (l1 ++ [a]) (l2 ++ [b]).
Proof. intros H1 H2. apply Forall2_app; auto. Qed.

Lemma Forall2_rev {A B : Type} (R : A -> B -> Prop) l1 l2 :
  Forall2 R l1 l2 -> Forall2 R (rev l1) (rev l2).
Proof.
  intros H. induction H; simpl; [constructor|].
  apply Forall2_snoc; auto.
Qed.

Lemma pop_Forall2 {A B : Type} (R : A -> B -> Prop) l1 l2 :
  Forall2 R l1 l2 ->
  match pop l1, pop l2 with
  | Some (a, r1), Some (b, r2) => R a b /\ Forall2 R r1 r2
  | None, None => True
  | _, _ => False
  end.
Proof.
  intros H. apply Forall2_rev in H. unfold pop.
  destruct H as [|a b r1 r2 Hab Hr]; auto.
  split; auto. now apply Forall2_rev.
Qed.

Lemma findIndex_Forall2 {A B : Type} (R : A -> B -> Prop)
  (p : A -> bool) (q : B -> bool) :
  (forall a b, R a b -> p a = q b) ->
  forall l1 l2, Forall2 R l1 l2 -> findIndex p l1 = findIndex q l2.
Proof.
  intros Hpq l1 l2 H. induction H as [|a b l1 l2 Hab _ IH]; simpl; auto.
  rewrite (Hpq a b Hab), IH. reflexivity.
Qed.

Lemma splice1_Forall2 {A B : Type} (R : A -> B -> Prop) :
  forall l1 l2, Forall2 R l1 l2 ->
  forall i, Forall2 R (splice1 i l1) (splice1 i l2).
Proof.
  intros l1 l2 H. induction H as [|a b l1 l2 Hab Hl IH]; intros i.
  - destruct i; constructor.
  - destruct i; simpl; auto.
Qed.

Lemma find_Forall2 {A B : Type} (R : A -> B -> Prop)
  (p : A -> bool) (q : B -> bool) :
  (forall a b, R a b -> p a = q b) ->
  forall l1 l2, Forall2 R l1 l2 ->
  match find p l1, find q l2 with
  | Some a, Some b => R a b
  | None, None => True
  | _, _ => False
  end.
Proof.
  intros Hpq l1 l2 H. induction H as [|a b l1 l2 Hab _ IH]; simpl; auto.
  rewrite (Hpq a b Hab). destruct (q b); auto.
Qed.

Lemma registerInterfaces_ids m n :
  registerInterfaces m n
  = fold_left (fun acc pid => map_set acc pid (node_id n)) (portIds n) m.
Proof.
  rewrite registerInterfaces_fold, portIds_portsOf.
  generalize m. induction (portsOf n) as [|p l IH]; intros m0; simpl; auto.
Qed.

Section SameIds.

Variables nodes1 nodes2 : list AbstractNode.
Variables connections1 connections2 : list IConnection.
Hypothesis same_nodes : Forall2 sameIdsNode nodes1 nodes2.
Hypothesis same_connections : Forall2 sameIdsConnection connections1 connections2.

(** Two nodes that stand at the same position of the two arrays. *)
Definition samePosition (a b : AbstractNode) : Prop :=
  sameIdsNode a b /\ In (a, b) (combine nodes1 nodes2).

Lemma sameIdsNode_portIds a b : sameIdsNode a b -> portIds a = portIds b.
Proof. intros [_ [H1 H2]]. unfold portIds. now rewrite H1, H2. Qed.

Lemma same_interfaceIdToNodeId :
  fold_left registerInterfaces nodes1 [] = fold_left registerInterfaces nodes2 [].
Proof.
  apply (fold_left_Forall2 sameIdsNode); auto.
  intros s a b Hab. rewrite !registerInterfaces_ids.
  rewrite (sameIdsNode_portIds a b Hab). destruct Hab as [-> _]. reflexivity.
Qed.

Let i2n : jsmap string := fold_left registerInterfaces nodes1 [].

Lemma same_connectionsFrom a b :
  sameIdsNode a b ->
  Forall2 sameIdsConnection (connectionsFromCurrentNode i2n connections1 a)
                            (connectionsFromCurrentNode i2n connections2 b).
Proof.
  intros [Hid _]. unfold connectionsFromCurrentNode.
  apply filter_Forall2; auto.
  intros c d [Hf _]. rewrite Hid.
  destruct (from c), (from d); simpl in Hf; try discriminate; auto.
  inversion Hf. reflexivity.
Qed.

Lemma same_destinationIds cs ds :
  Forall2 sameIdsConnection cs ds ->
  destinationIds i2n cs = destinationIds i2n ds.
Proof.
  intros H. induction H as [|c d cs ds [_ Hto] _ IH]; simpl; auto.
  rewrite Hto, IH. reflexivity.
Qed.

Lemma same_adjacency :
  fst (buildAdjacency i2n connections1 nodes1)
  = fst (buildAdjacency i2n connections2 nodes2).
Proof.
  unfold buildAdjacency. rewrite !fst_buildAdjacency.
  apply (fold_left_Forall2 sameIdsNode); auto.
  intros s a b Hab.
  rewrite (same_destinationIds _ _ (same_connectionsFrom a b Hab)).
  destruct Hab as [-> _]. reflexivity.
Qed.

Lemma same_startNodes :
  Forall2 samePosition (initialStartNodes i2n connections1 nodes1)
                       (initialStartNodes i2n connections2 nodes2).
Proof.
  assert (H0 : Forall2 samePosition nodes1 nodes2).
  { apply Forall2_positions. exact same_nodes. }
  assert (Hgen : forall cs ds, Forall2 sameIdsConnection cs ds ->
            forall l1 l2, Forall2 samePosition l1 l2 ->
            Forall2 samePosition (initialStartNodes i2n cs l1)
                                 (initialStartNodes i2n ds l2));
    [|now apply Hgen].
  unfold initialStartNodes.
  intros cs ds Hc.
  induction Hc as [|c d cs ds [_ Hto] _ IH]; intros l1 l2 H1; simpl; auto.
  apply IH.
  assert (Hp : forall a b, samePosition a b ->
               ownerIs i2n (intf_id (to c)) (node_id a)
               = ownerIs i2n (intf_id (to d)) (node_id b)).
  { intros a b [[Hid _] _]. now rewrite Hto, Hid. }
  rewrite (findIndex_Forall2 samePosition
             (fun n => ownerIs i2n (intf_id (to c)) (node_id n))
             (fun n => ownerIs i2n (intf_id (to d)) (node_id n)) Hp l1 l2 H1).
  destruct (findIndex _ l2); auto. now apply splice1_Forall2.
Qed.

Lemma same_drain : forall fuel nid adjacency s1 s2,
  Forall2 samePosition s1 s2 ->
  agree (fun r1 r2 => fst r1 = fst r2 /\ Forall2 samePosition (snd r1) (snd r2))
        (drain fuel nodes1 nid adjacency s1)
        (drain fuel nodes2 nid adjacency s2).
Proof.
  induction fuel as [|fuel IH]; intros nid adjacency s1 s2 Hs; simpl.
  - reflexivity.
  - destruct (map_get adjacency nid) as [[|mId rest]|]; simpl; auto.
    destruct (noneHas _ mId); [|now apply IH].
    pose proof (find_Forall2 samePosition
                  (fun node => String.eqb (node_id node) mId)
                  (fun node => String.eqb (node_id node) mId)) as Hfind.
    specialize (Hfind (fun a b H => f_equal (fun x => String.eqb x mId)
                                            (proj1 (proj1 H)))
                      nodes1 nodes2 (Forall2_positions _ _ _ same_nodes)).
    destruct (find _ nodes1) as [m1|], (find _ nodes2) as [m2|];
      try contradiction; simpl; auto.
    apply IH. now apply Forall2_snoc.
Qed.

Lemma same_kahn : forall fuel adjacency s1 s2 o1 o2,
  Forall2 samePosition s1 s2 ->
  Forall2 samePosition o1 o2 ->
  agree (fun st1 st2 => k_adjacency st1 = k_adjacency st2
                        /\ Forall2 samePosition (k_sorted st1) (k_sorted st2))
        (kahn fuel nodes1 (mkKahn adjacency s1 o1))
        (kahn fuel nodes2 (mkKahn adjacency s2 o2)).
Proof.
  induction fuel as [|fuel IH]; intros adjacency s1 s2 o1 o2 Hs Ho.
  - reflexivity.
  - cbn [kahn k_startNodes k_adjacency k_sorted].
    pose proof (pop_Forall2 samePosition s1 s2 Hs) as Hpop.
    destruct (pop s1) as [[a r1]|], (pop s2) as [[b r2]|];
      try contradiction.
    + destruct Hpop as [Hab Hr].
      assert (Hid : node_id a = node_id b) by apply Hab.
      rewrite Hid.
      pose proof (same_drain
                    (S match map_get adjacency (node_id b) with
                       | Some s => length s
                       | None => 0
                       end) (node_id b) adjacency r1 r2 Hr) as Hd.
      destruct (drain _ nodes1 _ _ r1) as [[a1 t1]|e1],
               (drain _ nodes2 _ _ r2) as [[a2 t2]|e2];
        try contradiction; cbn [bind].
      * destruct Hd as [Ha Ht]. simpl in Ha, Ht. subst a2.
        apply IH; auto. now apply Forall2_snoc.
      * exact Hd.
    + simpl. auto.
Qed.

Lemma same_order :
  agree (fun r1 r2 => Forall2 samePosition (calculationOrder r1)
                                           (calculationOrder r2))
        (sortTopologically (OfNodes nodes1) (Some connections1))
        (sortTopologically (OfNodes nodes2) (Some connections2)).
Proof.
  unfold sortTopologically, nodesOrGraphToData.
  cbn [bind gd_nodes gd_connections gd_interfaceIdToNodeId].
  rewrite <- same_interfaceIdToNodeId. fold i2n.
  rewrite (surjective_pairing (buildAdjacency i2n connections1 nodes1)).
  rewrite (surjective_pairing (buildAdjacency i2n connections2 nodes2)).
  rewrite <- same_adjacency.
  set (adjacency := fst (buildAdjacency i2n connections1 nodes1)).
  pose proof same_startNodes as Hstart.
  assert (Hlen : length (initialStartNodes i2n connections1 nodes1)
                 = length (initialStartNodes i2n connections2 nodes2)).
  { eapply Forall2_length; eauto. }
  rewrite <- Hlen.
  pose proof (same_kahn
                (S (length (initialStartNodes i2n connections1 nodes1)
                    + totalSize adjacency))
                adjacency _ _ [] [] Hstart (Forall2_nil _)) as Hk.
  destruct (kahn _ nodes1 _) as [st1|e1], (kahn _ nodes2 _) as [st2|e2];
    try contradiction; cbn [bind].
  - destruct Hk as [Ha Ho]. rewrite <- Ha.
    match goal with |- context [if ?b then _ else _] => destruct b end;
      simpl; auto.
  - exact Hk.
Qed.

End SameIds.

(* ================================================================== *)
(** * Without connections the worklist is emptied from its end *)
(* ================================================================== *)

Lemma fold_map_set_values {A V : Type} (key : A -> string) (val : A -> V) :
  forall (l : list A) (m : jsmap V) v,
  In v (map_values (fold_left (fun acc x => map_set acc (key x) (val x)) l m)) ->
  In v (map_values m) \/ exists x, In x l /\ v = val x.
Proof.
  induction l as [|a l IH]; intros m v H; simpl in *; auto.
  apply IH in H. destruct H as [H|[x [H1 H2]]].
  - apply map_values_set_in in H. destruct H as [->|H]; auto.
    right. exists a. auto.
  - right. exists x. auto.
Qed.

Lemma totalSize_empty (adjacency : jsmap jsset) :
  (forall s, In s (map_values adjacency) -> s = []) -> totalSize adjacency = 0.
Proof.
  unfold totalSize. induction (map_values adjacency) as [|s l IH]; intros H;
    simpl; auto.
  rewrite (H s (or_introl eq_refl)). simpl. apply IH.
  intros s' Hs'. apply H. now right.
Qed.

Lemma kahn_no_edges nodes :
  forall fuel (adjacency : jsmap jsset) startNodes sorted,
  (forall n, In n startNodes -> map_get adjacency (node_id n) = Some []) ->
  length startNodes < fuel ->
  kahn fuel nodes (mkKahn adjacency startNodes sorted)
  = Returns (mkKahn adjacency [] (sorted ++ rev startNodes)).
Proof.
  induction fuel as [|fuel IH]; intros adjacency startNodes sorted Hall Hf;
    [lia|].
  cbn [kahn k_startNodes k_adjacency k_sorted].
  pose proof (pop_spec startNodes) as Hpop.
  destruct (pop startNodes) as [[n rest]|].
  - subst startNodes.
    assert (Hn : map_get adjacency (node_id n) = Some [])
      by (apply Hall; apply in_app_iff; right; now left).
    rewrite Hn. cbn [length drain]. rewrite Hn.
    cbn [bind]. rewrite IH.
    + rewrite rev_app_distr. simpl. now rewrite <- app_assoc.
    + intros m Hm. apply Hall. apply in_app_iff. now left.
    + rewrite length_app in Hf. simpl in Hf. lia.
  - subst startNodes. simpl. now rewrite app_nil_r.
Qed.

Lemma sortTopologically_no_connections nodes :
  exists r, sortTopologically (OfNodes nodes) (Some []) = Returns r
            /\ calculationOrder r = rev nodes.
Proof.
  unfold sortTopologically, nodesOrGraphToData.
  cbn [bind gd_nodes gd_connections gd_interfaceIdToNodeId].
  set (i2n := fold_left registerInterfaces nodes []).
  rewrite (surjective_pairing (buildAdjacency i2n [] nodes)).
  rewrite buildAdjacency_fst.
  set (adjacency := fold_left
         (fun adjacency n =>
            map_set adjacency (node_id n)
              (set_of_list (destinationIds i2n
                 (connectionsFromCurrentNode i2n [] n)))) nodes []).
  assert (Hvals : forall s, In s (map_values adjacency) -> s = []).
  { intros s Hs. unfold adjacency in Hs.
    apply (fold_map_set_values node_id
             (fun n => set_of_list (destinationIds i2n
                (connectionsFromCurrentNode i2n [] n)))) in Hs.
    destruct Hs as [[]|[x [_ ->]]]. reflexivity. }
  assert (Hget : forall n, In n nodes -> map_get adjacency (node_id n) = Some []).
  { intros n Hn.
    assert (Hk : In (node_id n) (map_keys adjacency)).
    { unfold adjacency.
      apply (fold_map_set_has node_id
               (fun n => set_of_list (destinationIds i2n
                  (connectionsFromCurrentNode i2n [] n)))).
      right. now apply in_map. }
    apply map_get_in_keys in Hk. destruct Hk as [s Hs].
    rewrite Hs. f_equal. apply Hvals. eapply map_get_values; eauto. }
  unfold initialStartNodes. cbn [fold_left].
  rewrite (kahn_no_edges nodes _ adjacency nodes [] Hget) by lia.
  cbn [bind k_adjacency k_sorted app].
  assert (Hex : someLeft adjacency = false).
  { destruct (someLeft adjacency) eqn:E; auto.
    unfold someLeft in E.
    apply existsb_exists in E. destruct E as [s [Hs Hl]].
    rewrite (Hvals s Hs) in Hl. discriminate. }
  rewrite Hex. eexists. split; reflexivity.
Qed.

(* ================================================================== *)
(** * The loops of the sorter end within their budget, on every input *)
(* ================================================================== *)

Lemma drain_has_fuel nodes nid : forall fuel (adjacency : jsmap jsset) startNodes,
  match map_get adjacency nid with
  | Some s => length s < fuel
  | None => 0 < fuel
  end ->
  match drain fuel nodes nid adjacency startNodes with
  | Returns (adjacency', startNodes') =>
      totalSize adjacency' + length startNodes'
      <= totalSize adjacency + length startNodes
  | Throws e => e <> OutOfFuel
  end.
Proof.
  induction fuel as [|fuel IH]; intros adjacency startNodes Hf.
  - destruct (map_get adjacency nid); lia.
  - simpl. destruct (map_get adjacency nid) as [[|mId rest]|] eqn:Hs.
    + lia.
    + set (s' := set_delete (mId :: rest) mId).
      set (adjacency' := map_set adjacency nid s').
      assert (Hlen : length s' <= length rest) by apply set_delete_head_length.
      assert (Hsize : totalSize adjacency' + S (length rest)
                      = totalSize adjacency + length s').
      { apply (totalSize_set adjacency nid (mId :: rest) s' Hs). }
      assert (Hget : map_get adjacency' nid = Some s') by apply map_get_set_eq.
      simpl in Hf.
      destruct (noneHas adjacency' mId).
      * destruct (find _ nodes) as [m|]; [|discriminate].
        specialize (IH adjacency' (startNodes ++ [m])).
        rewrite Hget in IH. specialize (IH ltac:(lia)).
        destruct (drain fuel nodes nid adjacency' (startNodes ++ [m]))
          as [[a2 s2]|e]; auto.
        rewrite length_app in IH. simpl in IH. lia.
      * specialize (IH adjacency' startNodes).
        rewrite Hget in IH. specialize (IH ltac:(lia)).
        destruct (drain fuel nodes nid adjacency' startNodes)
          as [[a2 s2]|e]; auto.
        lia.
    + discriminate.
Qed.

Lemma kahn_has_fuel nodes : forall fuel adjacency startNodes sorted,
  totalSize adjacency + length startNodes < fuel ->
  kahn fuel nodes (mkKahn adjacency startNodes sorted) <> Throws OutOfFuel.
Proof.
  induction fuel as [|fuel IH]; intros adjacency startNodes sorted Hf; [lia|].
  cbn [kahn k_startNodes k_adjacency k_sorted].
  pose proof (pop_spec startNodes) as Hpop.
  destruct (pop startNodes) as [[n rest]|]; [|discriminate].
  subst startNodes. rewrite length_app in Hf. simpl in Hf.
  pose proof (drain_has_fuel nodes (node_id n)
                (S match map_get adjacency (node_id n) with
                   | Some s => length s
                   | None => 0
                   end) adjacency rest) as Hd.
  destruct (drain _ nodes (node_id n) adjacency rest) as [[a2 s2]|e];
    cbn [bind].
  - apply IH.
    assert (totalSize a2 + length s2 <= totalSize adjacency + length rest).
    { apply Hd. destruct (map_get adjacency (node_id n)); lia. }
    lia.
  - intros [= ->]. apply Hd; auto.
    destruct (map_get adjacency (node_id n)); lia.
Qed.

Lemma sortTopologically_has_fuel nodesOrGraph pConnections :
  sortTopologically nodesOrGraph pConnections <> Throws OutOfFuel.
Proof.
  unfold sortTopologically.
  destruct (nodesOrGraphToData nodesOrGraph pConnections) as [data|e] eqn:Hd;
    cbn [bind].
  - destruct (buildAdjacency _ _ _) as [adjacency cfn].
    match goal with
    | |- context [kahn ?f ?ns ?st] =>
        pose proof (kahn_has_fuel ns f adjacency
                      (initialStartNodes (gd_interfaceIdToNodeId data)
                         (gd_connections data) (gd_nodes data)) []) as Hk;
        destruct (kahn f ns st) as [st'|e]
    end; cbn [bind].
    + destruct (someLeft (k_adjacency st')); discriminate.
    + intros [= ->]. apply Hk; auto. lia.
  - unfold nodesOrGraphToData in Hd.
    destruct nodesOrGraph; [discriminate|].
    destruct pConnections; [discriminate|].
    simpl in Hd. inversion Hd. discriminate.
Qed.

(* ================================================================== *)
(** * The traversal of connectedComponents *)
(* ================================================================== *)

Lemma forEachM_ext {A S : Type} (f g : S -> A -> completion S) (xs : list A) :
  (forall x, In x xs -> forall s, f s x = g s x) ->
  forall s, forEachM f xs s = forEachM g xs s.
Proof.
  induction xs as [|x xs IH]; intros H s; simpl; auto.
  rewrite (H x (or_introl eq_refl)).
  destruct (g s x); simpl; auto.
  apply IH. intros y Hy. apply H. now right.
Qed.

Lemma forEachM_map {A B S : Type} (t : A -> B) (f : S -> B -> completion S)
  (xs : list A) :
  forall s, forEachM f (map t xs) s = forEachM (fun s x => f s (t x)) xs s.
Proof.
  induction xs as [|x xs IH]; intros s; simpl; auto.
  destruct (f s (t x)); simpl; auto.
Qed.

(** The ids not visited yet. *)
Definition unvisitedIn (ids : list string) (seen : jsset) : list string :=
  filter (fun x => negb (set_has seen x)) ids.

Lemma unvisited_mono ids seen seen' :
  incl seen seen' -> length (unvisitedIn ids seen') <= length (unvisitedIn ids seen).
Proof.
  intros H. unfold unvisitedIn. induction ids as [|x l IH]; simpl; auto.
  destruct (set_has seen' x) eqn:E'; destruct (set_has seen x) eqn:E; simpl;
    try lia.
  apply set_has_In in E. apply H in E. apply set_has_false in E'. contradiction.
Qed.

Lemma unvisited_add ids seen x :
  In x ids -> ~ In x seen ->
  length (unvisitedIn ids (seen ++ [x])) < length (unvisitedIn ids seen).
Proof.
  intros Hin Hnot.
  assert (Hle : forall l, length (unvisitedIn l (seen ++ [x]))
                          <= length (unvisitedIn l seen)).
  { intros l. apply unvisited_mono. intros y Hy. apply in_app_iff. now left. }
  unfold unvisitedIn in *.
  induction ids as [|y l IH]; simpl in *; [contradiction|].
  specialize (Hle l).
  destruct Hin as [->|Hin].
  - assert (E1 : set_has (seen ++ [x]) x = true).
    { apply set_has_In. apply in_app_iff. right. now left. }
    assert (E2 : set_has seen x = false) by now apply set_has_false.
    rewrite E1, E2. simpl. lia.
  - specialize (IH Hin).
    destruct (set_has (seen ++ [x]) y) eqn:E'; destruct (set_has seen y) eqn:E;
      simpl; try lia.
    apply set_has_In in E. apply set_has_false in E'.
    exfalso. apply E'. apply in_app_iff. now left.
Qed.

(** The budget of the component search is never used up: a visit that goes
    on marks an id of [nodeIdToNode] that was not marked. *)
Lemma map_keys_fold_length {A V : Type} (key : A -> string) (val : A -> V) :
  forall (l : list A) (m : jsmap V),
    length (map_keys (fold_left (fun acc x => map_set acc (key x) (val x)) l m))
    <= length (map_keys m) + length l.
Proof.
  induction l as [|a l IH]; intros m; simpl; [lia|].
  specialize (IH (map_set m (key a) (val a))).
  destruct (string_In_dec (key a) (map_keys m)) as [Hin|Hnot].
  - rewrite (map_keys_set_present _ _ _ Hin) in IH. lia.
  - rewrite (map_keys_set_absent _ _ _ Hnot), length_app in IH. simpl in IH. lia.
Qed.

Definition withinBudget (ids : list string) (st : DfsState) (c : completion DfsState) : Prop :=
  match c with
  | Returns st' =>
      length (unvisitedIn ids (visited st')) <= length (unvisitedIn ids (visited st))
  | Throws e => e <> OutOfFuel
  end.

Lemma forEachM_withinBudget {A : Type} ids bound
  (body : DfsState -> A -> completion DfsState) (xs : list A) :
  (forall s x, In x xs -> length (unvisitedIn ids (visited s)) < bound ->
               withinBudget ids s (body s x)) ->
  forall s, length (unvisitedIn ids (visited s)) < bound ->
            withinBudget ids s (forEachM body xs s).
Proof.
  induction xs as [|x xs IH]; intros H s Hs; simpl.
  - lia.
  - pose proof (H s x (or_introl eq_refl) Hs) as Hx.
    destruct (body s x) as [s1|e]; simpl in *; [|exact Hx].
    assert (H1 : length (unvisitedIn ids (visited s1)) < bound) by lia.
    assert (IH' := IH (fun s0 y Hy => H s0 y (or_intror Hy)) s1 H1).
    destruct (forEachM body xs s1); simpl in *; [lia|exact IH'].
Qed.

Lemma dfs_has_fuel nodeIdToNode successors predecessors :
  forall fuel nid st,
    length (unvisitedIn (map_keys nodeIdToNode) (visited st)) < fuel ->
    withinBudget (map_keys nodeIdToNode) st
                 (dfs fuel nodeIdToNode successors predecessors nid st).
Proof.
  induction fuel as [|fuel IH]; intros nid st Hlt; [lia|].
  cbn [dfs].
  destruct (set_has (visited st) nid) eqn:Hseen; [simpl; lia|].
  destruct (map_get nodeIdToNode nid) as [node|] eqn:Hnode; [|simpl; discriminate].
  destruct (map_get successors nid) as [nSuccessors|]; [|simpl; discriminate].
  assert (Hkey : In nid (map_keys nodeIdToNode)).
  { apply map_get_in_keys. eauto. }
  assert (Hadd : set_add (visited st) nid = visited st ++ [nid]).
  { unfold set_add. now rewrite Hseen. }
  rewrite Hadd.
  pose proof (unvisited_add (map_keys nodeIdToNode) (visited st) nid Hkey
                (proj1 (set_has_false _ _) Hseen)) as Hless.
  set (st1 := mkDfs (visited st ++ [nid]) _).
  assert (H1 : length (unvisitedIn (map_keys nodeIdToNode) (visited st1)) < fuel).
  { unfold st1. cbn [visited]. lia. }
  pose proof (forEachM_withinBudget (map_keys nodeIdToNode) fuel
                (fun s connection =>
                   dfs fuel nodeIdToNode successors predecessors
                       (nodeId (to connection)) s)
                nSuccessors (fun s x _ Hs => IH (nodeId (to x)) s Hs) st1 H1)
    as Hsucc.
  destruct (forEachM _ nSuccessors st1) as [st2|e]; cbn [bind];
    [|exact Hsucc].
  simpl in Hsucc.
  destruct (map_get predecessors nid) as [nPredecessors|];
    [|simpl; discriminate].
  assert (H2 : length (unvisitedIn (map_keys nodeIdToNode) (visited st2)) < fuel)
    by lia.
  assert (Hbody : forall s x, In x nPredecessors ->
            length (unvisitedIn (map_keys nodeIdToNode) (visited s)) < fuel ->
            withinBudget (map_keys nodeIdToNode) s
              match from x with
              | Some f =>
                  dfs fuel nodeIdToNode successors predecessors (nodeId f) s
              | None =>
                  Throws (TypeError "Cannot read properties of undefined (reading 'nodeId')")
              end).
  { intros s x _ Hs. destruct (from x) as [f|]; [now apply IH|].
    simpl. discriminate. }
  pose proof (forEachM_withinBudget (map_keys nodeIdToNode) fuel _
                nPredecessors Hbody st2 H2) as Hpred.
  destruct (forEachM _ nPredecessors st2) as [st3|e]; [|exact Hpred].
  simpl in *. unfold st1 in *. cbn [visited] in *. lia.
Qed.

Lemma forEachM_never {A S : Type} (e0 : exn)
  (body : S -> A -> completion S) (xs : list A) :
  (forall s x, In x xs -> body s x <> Throws e0) ->
  forall s, forEachM body xs s <> Throws e0.
Proof.
  induction xs as [|x xs IH]; intros H s; simpl; [discriminate|].
  pose proof (H s x (or_introl eq_refl)) as Hx.
  destruct (body s x) as [s1|e]; simpl.
  - apply IH. intros s0 y Hy. apply H. now right.
  - exact Hx.
Qed.

Lemma connectedComponents_has_fuel nodesOrGraph pConnections :
  connectedComponents nodesOrGraph pConnections <> Throws OutOfFuel.
Proof.
  unfold connectedComponents.
  destruct (nodesOrGraphToData nodesOrGraph pConnections) as [data|e] eqn:Hd;
    cbn [bind].
  - destruct (buildNeighbours _ _ _) as [successors predecessors].
    assert (Hkeys : length (map_keys (gd_nodeIdToNode data))
                    <= length (gd_nodes data)).
    { unfold nodesOrGraphToData in Hd.
      destruct nodesOrGraph as [g|ns];
        [|destruct pConnections as [cs|]; [|discriminate]];
        simpl in Hd; inversion Hd; subst data; cbn [gd_nodeIdToNode gd_nodes];
        match goal with
        | |- context [fold_left _ ?l []] =>
            pose proof (map_keys_fold_length node_id (fun n : AbstractNode => n)
                          l []) as Hlen
        end; simpl in Hlen; exact Hlen. }
    assert (Hloop : componentsLoop (S (length (gd_nodes data)))
                      (gd_nodeIdToNode data) successors predecessors
                      (gd_nodes data) <> Throws OutOfFuel).
    { unfold componentsLoop. apply forEachM_never.
      intros [seen components] node _. unfold startComponent.
      destruct (set_has seen (node_id node)); [discriminate|].
      pose proof (dfs_has_fuel (gd_nodeIdToNode data) successors predecessors
                    (S (length (gd_nodes data))) (node_id node)
                    (mkDfs seen (mkComponent [] []))) as Hdfs.
      assert (Hlt : length (unvisitedIn (map_keys (gd_nodeIdToNode data)) seen)
                    < S (length (gd_nodes data))).
      { pose proof (filter_length_le (fun x => negb (set_has seen x))
                      (map_keys (gd_nodeIdToNode data))) as Hf.
        unfold unvisitedIn. lia. }
      specialize (Hdfs Hlt).
      destruct (dfs _ _ _ _ _ _) as [st|e]; cbn [bind]; [discriminate|].
      simpl in Hdfs. congruence. }
    destruct (componentsLoop _ _ _ _ _) as [[seen components]|e]; cbn [bind].
    + discriminate.
    + congruence.
  - unfold nodesOrGraphToData in Hd.
    destruct nodesOrGraph; [discriminate|].
    destruct pConnections; [discriminate|].
    simpl in Hd. inversion Hd. discriminate.
Qed.

Section Traversal.

Variable ids : list string.
Variable nodeIdToNode : jsmap AbstractNode.
Variables successors predecessors : jsmap (list IConnection).

Hypothesis node_of_id : forall x, In x ids -> exists n, map_get nodeIdToNode x = Some n.
Hypothesis successors_of_id :
  forall x, In x ids -> exists cs, map_get successors x = Some cs.
Hypothesis predecessors_of_id :
  forall x, In x ids -> exists ps, map_get predecessors x = Some ps.
Hypothesis successors_range : forall u cs c,
  map_get successors u = Some cs -> In c cs -> In (nodeId (to c)) ids.
Hypothesis predecessors_range : forall u ps c,
  map_get predecessors u = Some ps -> In c ps ->
  exists p, from c = Some p /\ In (nodeId p) ids.

(** [dfs] on [w] goes on to [v]. *)
Definition goesTo (w v : string) : Prop :=
  (exists cs c, map_get successors w = Some cs /\ In c cs /\ nodeId (to c) = v)
  \/ (exists ps c p, map_get predecessors w = Some ps /\ In c ps
                     /\ from c = Some p /\ nodeId p = v).

Definition nodesOf (l : list string) : list AbstractNode :=
  flat_map (fun x => match map_get nodeIdToNode x with
                     | Some n => [n]
                     | None => []
                     end) l.

Definition successorsOf (l : list string) : list IConnection :=
  flat_map (fun x => match map_get successors x with
                     | Some cs => cs
                     | None => []
                     end) l.

(** [st'] is [st] with the ids [new] visited, in this order. *)
Record Extends (st st' : DfsState) (new : list string) : Prop := {
  ext_visited : visited st' = visited st ++ new;
  ext_nodes : gc_nodes (component st')
              = gc_nodes (component st) ++ nodesOf new;
  ext_connections : gc_connections (component st')
                    = gc_connections (component st) ++ successorsOf new;
  ext_ids : incl new ids;
  ext_nodup : NoDup new;
  ext_fresh : forall x, In x new -> ~ In x (visited st)
}.

(** Whatever [dfs] goes on to from the ids [new] is in [seen]. *)
Definition closedIn (new : list string) (seen : jsset) : Prop :=
  forall w, In w new -> forall v, goesTo w v -> In v seen.

Lemma Extends_refl st : Extends st st [].
Proof.
  constructor; simpl; try (now rewrite app_nil_r); try tauto.
  - intros x [].
  - constructor.
Qed.

Lemma Extends_trans st1 st2 st3 new1 new2 :
  Extends st1 st2 new1 -> Extends st2 st3 new2 ->
  Extends st1 st3 (new1 ++ new2).
Proof.
  intros E1 E2. constructor.
  - rewrite (ext_visited _ _ _ E2), (ext_visited _ _ _ E1).
    now rewrite app_assoc.
  - rewrite (ext_nodes _ _ _ E2), (ext_nodes _ _ _ E1).
    unfold nodesOf. now rewrite flat_map_app, app_assoc.
  - rewrite (ext_connections _ _ _ E2), (ext_connections _ _ _ E1).
    unfold successorsOf. now rewrite flat_map_app, app_assoc.
  - apply incl_app; [apply (ext_ids _ _ _ E1)|apply (ext_ids _ _ _ E2)].
  - apply NoDup_app.
    + apply (ext_nodup _ _ _ E1).
    + apply (ext_nodup _ _ _ E2).
    + intros x H1 H2. apply (ext_fresh _ _ _ E2 x H2).
      rewrite (ext_visited _ _ _ E1). apply in_app_iff. now right.
  - intros x Hx Hv. apply in_app_iff in Hx. destruct Hx as [Hx|Hx].
    + apply (ext_fresh _ _ _ E1 x Hx Hv).
    + apply (ext_fresh _ _ _ E2 x Hx).
      rewrite (ext_visited _ _ _ E1). apply in_app_iff. now left.
Qed.

Lemma Extends_incl st st' new :
  Extends st st' new -> incl (visited st) (visited st').
Proof.
  intros E y Hy. rewrite (ext_visited _ _ _ E). apply in_app_iff. now left.
Qed.

Lemma dfs_unfold fuel nid st :
  dfs (S fuel) nodeIdToNode successors predecessors nid st
  = if set_has (visited st) nid then Returns st
    else
      match map_get nodeIdToNode nid, map_get successors nid with
      | Some node, Some nSuccessors =>
          st2 <- forEachM
                   (fun s connection =>
                      dfs fuel nodeIdToNode successors predecessors
                          (nodeId (to connection)) s)
                   nSuccessors
                   (mkDfs (set_add (visited st) nid)
                      (mkComponent (gc_nodes (component st) ++ [node])
                         (gc_connections (component st) ++ nSuccessors))) ;;
          match map_get predecessors nid with
          | Some nPredecessors =>
              forEachM
                (fun s connection =>
                   match from connection with
                   | Some f =>
                       dfs fuel nodeIdToNode successors predecessors
                           (nodeId f) s
                   | None =>
                       Throws (TypeError "Cannot read properties of undefined (reading 'nodeId')")
                   end)
                nPredecessors st2
          | None => Throws (TypeError "undefined is not iterable")
          end
      | _, _ => Throws (TypeError "undefined is not iterable")
      end.
Proof. reflexivity. Qed.

(** What a call of [dfs] with enough budget does. *)
Definition dfsSpec (fuel : nat) : Prop :=
  forall nid st,
    In nid ids ->
    length (unvisitedIn ids (visited st)) < fuel ->
    exists st' new,
      dfs fuel nodeIdToNode successors predecessors nid st = Returns st'
      /\ Extends st st' new
      /\ closedIn new (visited st')
      /\ In nid (visited st').

Lemma visit_all fuel (IH : dfsSpec fuel) : forall targets st,
  incl targets ids ->
  length (unvisitedIn ids (visited st)) < fuel ->
  exists st' new,
    forEachM (fun s x => dfs fuel nodeIdToNode successors predecessors x s)
             targets st = Returns st'
    /\ Extends st st' new
    /\ closedIn new (visited st')
    /\ incl targets (visited st').
Proof.
  induction targets as [|x targets IHt]; intros st Hin Hf.
  - exists st, []. split; [reflexivity|]. split; [apply Extends_refl|].
    split; intros y [].
  - destruct (IH x st (Hin x (or_introl eq_refl)) Hf)
      as [st1 [new1 [H1 [E1 [C1 V1]]]]].
    destruct (IHt st1) as [st2 [new2 [H2 [E2 [C2 V2]]]]].
    + intros y Hy. apply Hin. now right.
    + eapply Nat.le_lt_trans; [|exact Hf]. apply unvisited_mono.
      eapply Extends_incl; eauto.
    + exists st2, (new1 ++ new2). simpl. rewrite H1. simpl.
      split; [exact H2|]. split; [eapply Extends_trans; eauto|]. split.
      * intros w Hw v Hg. apply in_app_iff in Hw. destruct Hw as [Hw|Hw].
        -- apply (Extends_incl _ _ _ E2). apply (C1 w Hw v Hg).
        -- apply (C2 w Hw v Hg).
      * intros y [<-|Hy]; [|now apply V2].
        apply (Extends_incl _ _ _ E2). exact V1.
Qed.

Lemma dfs_spec : forall fuel, dfsSpec fuel.
Proof.
  induction fuel as [|fuel IH]; intros nid st Hnid Hf; [lia|].
  rewrite dfs_unfold.
  destruct (set_has (visited st) nid) eqn:Hseen.
  - exists st, []. split; [reflexivity|]. split; [apply Extends_refl|].
    split; [intros y []|]. now apply set_has_In.
  - apply set_has_false in Hseen.
    destruct (node_of_id nid Hnid) as [node Hnode].
    destruct (successors_of_id nid Hnid) as [nSuccessors Hsucc].
    destruct (predecessors_of_id nid Hnid) as [nPredecessors Hpred].
    rewrite Hnode, Hsucc, Hpred.
    set (st1 := mkDfs (set_add (visited st) nid)
                  (mkComponent (gc_nodes (component st) ++ [node])
                     (gc_connections (component st) ++ nSuccessors))).
    assert (Hadd : set_add (visited st) nid = visited st ++ [nid]).
    { unfold set_add. apply set_has_false in Hseen. now rewrite Hseen. }
    assert (Hf1 : length (unvisitedIn ids (visited st1)) < fuel).
    { simpl. rewrite Hadd.
      pose proof (unvisited_add ids (visited st) nid Hnid Hseen). lia. }
    assert (E1 : Extends st st1 [nid]).
    { constructor; simpl.
      - exact Hadd.
      - unfold nodesOf. simpl. now rewrite Hnode.
      - unfold successorsOf. simpl. now rewrite Hsucc, app_nil_r.
      - intros y [<-|[]]. exact Hnid.
      - constructor; [intros []|constructor].
      - intros y [<-|[]]. exact Hseen. }
    (* the successors *)
    pose proof (forEachM_map (fun c => nodeId (to c))
                  (fun s x => dfs fuel nodeIdToNode successors predecessors x s)
                  nSuccessors st1) as Hmap1.
    cbv beta in Hmap1. rewrite <- Hmap1. clear Hmap1.
    destruct (visit_all fuel IH (map (fun c => nodeId (to c)) nSuccessors) st1)
      as [st2 [new2 [H2 [E2 [C2 V2]]]]]; auto.
    { intros y Hy. apply in_map_iff in Hy. destruct Hy as [c [<- Hc]].
      eapply successors_range; eauto. }
    rewrite H2. cbn [bind].
    (* the predecessors *)
    rewrite (forEachM_ext _
               (fun s c => dfs fuel nodeIdToNode successors predecessors
                             (match from c with
                              | Some f => nodeId f
                              | None => ""
                              end) s)).
    2:{ intros c Hc s.
        destruct (predecessors_range _ _ _ Hpred Hc) as [p [Hp _]].
        now rewrite Hp. }
    pose proof (forEachM_map
                  (fun c => match from c with
                            | Some f => nodeId f
                            | None => ""
                            end)
                  (fun s x => dfs fuel nodeIdToNode successors predecessors x s)
                  nPredecessors st2) as Hmap2.
    cbv beta in Hmap2. rewrite <- Hmap2. clear Hmap2.
    destruct (visit_all fuel IH
                (map (fun c => match from c with
                               | Some f => nodeId f
                               | None => ""
                               end) nPredecessors) st2)
      as [st3 [new3 [H3 [E3 [C3 V3]]]]].
    { intros y Hy. apply in_map_iff in Hy. destruct Hy as [c [<- Hc]].
      destruct (predecessors_range _ _ _ Hpred Hc) as [p [Hp Hin]].
      now rewrite Hp. }
    { eapply Nat.le_lt_trans; [|exact Hf1]. apply unvisited_mono.
      eapply Extends_incl; eauto. }
    exists st3, ([nid] ++ new2 ++ new3). split; [exact H3|].
    split; [|split].
    + eapply Extends_trans; [exact E1|]. eapply Extends_trans; eauto.
    + intros w Hw v Hg. apply in_app_iff in Hw. destruct Hw as [[<-|[]]|Hw].
      * destruct Hg as [[cs [c [Hcs [Hc <-]]]]|[ps [c [p [Hps [Hc [Hp <-]]]]]]].
        -- rewrite Hsucc in Hcs. inversion Hcs; subst cs.
           apply (Extends_incl _ _ _ E3). apply V2.
           apply in_map_iff. exists c. auto.
        -- rewrite Hpred in Hps. inversion Hps; subst ps.
           apply V3. apply in_map_iff. exists c. rewrite Hp. auto.
      * apply in_app_iff in Hw. destruct Hw as [Hw|Hw].
        -- apply (Extends_incl _ _ _ E3). apply (C2 w Hw v Hg).
        -- apply (C3 w Hw v Hg).
    + apply (Extends_incl _ _ _ E3). apply (Extends_incl _ _ _ E2).
      simpl. rewrite Hadd. apply in_app_iff. right. now left.
Qed.

Hypothesis node_id_of :
  forall x n, map_get nodeIdToNode x = Some n -> node_id n = x.
Hypothesis goesTo_sym : forall w v, goesTo w v -> goesTo v w.

Definition componentIds (K : GraphComponent) : list string :=
  map node_id (gc_nodes K).

Lemma nodesOf_ids new : incl new ids -> map node_id (nodesOf new) = new.
Proof.
  unfold nodesOf. induction new as [|x new IH]; intros H; simpl; auto.
  destruct (node_of_id x (H x (or_introl eq_refl))) as [n Hn].
  rewrite Hn. simpl. rewrite (node_id_of _ _ Hn). f_equal.
  apply IH. intros y Hy. apply H. now right.
Qed.

Record ComponentsInv (seen : jsset) (components : list GraphComponent)
  : Prop := {
  ci_seen : seen = flat_map componentIds components;
  ci_nodup : NoDup seen;
  ci_ids : incl seen ids;
  ci_closed : closedIn seen seen;
  ci_each : forall K, In K components ->
            gc_nodes K = nodesOf (componentIds K)
            /\ gc_connections K = successorsOf (componentIds K)
            /\ closedIn (componentIds K) (componentIds K)
}.

Lemma components_loop : forall todo seen components,
  incl (map node_id todo) ids ->
  ComponentsInv seen components ->
  exists seen' components',
    forEachM (startComponent (S (length ids)) nodeIdToNode successors
                             predecessors)
             todo (seen, components) = Returns (seen', components')
    /\ ComponentsInv seen' components'
    /\ incl seen seen'
    /\ incl (map node_id todo) seen'.
Proof.
  induction todo as [|node todo IH]; intros seen components Htodo I.
  - exists seen, components. split; [reflexivity|]. split; [exact I|].
    split; [apply incl_refl|intros y []].
  - assert (Hid : In (node_id node) ids) by (apply Htodo; now left).
    assert (Hrest : incl (map node_id todo) ids).
    { intros y Hy. apply Htodo. now right. }
    cbn [forEachM]. unfold startComponent at 1.
    destruct (set_has seen (node_id node)) eqn:Hseen.
    + cbn [bind].
      destruct (IH seen components Hrest I) as [s2 [c2 [H2 [I2 [M2 T2]]]]].
      exists s2, c2. split; [exact H2|]. split; [exact I2|]. split; [exact M2|].
      intros y [<-|Hy]; [|now apply T2].
      apply M2. now apply set_has_In.
    + destruct (dfs_spec (S (length ids)) (node_id node)
                  (mkDfs seen (mkComponent [] [])) Hid)
        as [st' [new [Hd [E [C V]]]]].
      { simpl. unfold unvisitedIn.
        pose proof (filter_length_le (fun x => negb (set_has seen x)) ids). lia. }
      rewrite Hd. cbn [bind].
      pose proof (ext_visited _ _ _ E) as Hv. simpl in Hv.
      pose proof (ext_nodes _ _ _ E) as Hn. simpl in Hn.
      pose proof (ext_connections _ _ _ E) as Hc. simpl in Hc.
      assert (Hids : componentIds (component st') = new).
      { unfold componentIds. rewrite Hn. apply nodesOf_ids.
        apply (ext_ids _ _ _ E). }
      assert (Hclosed : closedIn new new).
      { intros w Hw v Hg. specialize (C w Hw v Hg).
        rewrite Hv in C. apply in_app_iff in C. destruct C as [C|C]; auto.
        exfalso. apply (ext_fresh _ _ _ E w Hw). simpl.
        apply (ci_closed _ _ I v C w). now apply goesTo_sym. }
      assert (I' : ComponentsInv (visited st') (components ++ [component st'])).
      { constructor.
        - rewrite Hv, flat_map_app. simpl. rewrite Hids, app_nil_r.
          now rewrite <- (ci_seen _ _ I).
        - rewrite Hv. apply NoDup_app.
          + apply (ci_nodup _ _ I).
          + apply (ext_nodup _ _ _ E).
          + intros x H1 H2. apply (ext_fresh _ _ _ E x H2). exact H1.
        - rewrite Hv. apply incl_app;
            [apply (ci_ids _ _ I)|apply (ext_ids _ _ _ E)].
        - intros w Hw v Hg. rewrite Hv in Hw. apply in_app_iff in Hw.
          destruct Hw as [Hw|Hw].
          + rewrite Hv. apply in_app_iff. left.
            apply (ci_closed _ _ I w Hw v Hg).
          + apply (C w Hw v Hg).
        - intros K HK. apply in_app_iff in HK. destruct HK as [HK|[<-|[]]].
          + apply (ci_each _ _ I K HK).
          + rewrite Hids. repeat split; auto. }
      destruct (IH (visited st') (components ++ [component st']) Hrest I')
        as [s2 [c2 [H2 [I2 [M2 T2]]]]].
      exists s2, c2. split; [exact H2|]. split; [exact I2|]. split.
      * intros y Hy. apply M2. rewrite Hv. apply in_app_iff. now left.
      * intros y [<-|Hy]; [|now apply T2]. apply M2. exact V.
Qed.

End Traversal.

(* ------------------------------------------------------------------ *)
(** ** The successor and predecessor lists *)
(* ------------------------------------------------------------------ *)

(** [listed m u x]: [x] is in the list [m] holds for [u]. *)
Definition listed {V : Type} (m : jsmap (list V)) (u : string) (x : V) : Prop :=
  exists l, map_get m u = Some l /\ In x l.

Lemma ensureEntry_get {V : Type} (m : jsmap (list V)) k k' :
  map_get (ensureEntry m k) k'
  = if String.eqb k k'
    then Some (match map_get m k with Some l => l | None => [] end)
    else map_get m k'.
Proof.
  unfold ensureEntry, map_has.
  destruct (map_get m k) as [l|] eqn:E.
  - destruct (String.eqb k k') eqn:Ek; auto.
    apply String.eqb_eq in Ek. subst. exact E.
  - rewrite map_get_set. destruct (String.eqb k k'); auto.
Qed.

Lemma ensureEntry_listed {V : Type} (m : jsmap (list V)) k u (x : V) :
  listed (ensureEntry m k) u x <-> listed m u x.
Proof.
  unfold listed. rewrite ensureEntry_get.
  destruct (String.eqb k u) eqn:E.
  - apply String.eqb_eq in E. subst.
    destruct (map_get m u) as [l|]; split; auto.
    + intros [l [[= <-] []]].
    + intros [l [H _]]. discriminate.
  - tauto.
Qed.

Lemma pushTo_get {V : Type} (m : jsmap (list V)) k (v : V) k' :
  map_get (pushTo m k v) k'
  = if String.eqb k k'
    then Some (match map_get m k with Some l => l ++ [v] | None => [v] end)
    else map_get m k'.
Proof.
  unfold pushTo. destruct (map_get m k) as [l|]; apply map_get_set.
Qed.

Lemma addPredecessor_listed m c u x :
  listed (addPredecessor m c) u x
  <-> listed m u x \/ (nodeId (to c) = u /\ x = c).
Proof.
  unfold addPredecessor, listed. rewrite pushTo_get.
  destruct (String.eqb (nodeId (to c)) u) eqn:E.
  - apply String.eqb_eq in E. subst u.
    rewrite ensureEntry_get, String.eqb_refl.
    destruct (map_get m (nodeId (to c))) as [l|]; split.
    + intros [l' [[= <-] H]]. apply in_app_iff in H.
      destruct H as [H|[<-|[]]]; eauto.
    + intros [[l' [[= <-] H]]|[_ ->]]; eexists; split; eauto;
        apply in_app_iff; simpl; auto.
    + intros [l' [[= <-] H]]. simpl in H. destruct H as [<-|[]]. auto.
    + intros [[l' [H _]]|[_ ->]]; [discriminate|].
      eexists; split; eauto. simpl. auto.
  - rewrite ensureEntry_get, E.
    apply String.eqb_neq in E. split; [auto|].
    intros [H|[H _]]; [auto|contradiction].
Qed.

Lemma addPredecessor_has m c u :
  In u (map_keys m) -> In u (map_keys (addPredecessor m c)).
Proof.
  intros H. apply map_get_in_keys. apply map_get_in_keys in H.
  destruct H as [l H]. unfold addPredecessor. rewrite pushTo_get.
  destruct (String.eqb (nodeId (to c)) u) eqn:E; eauto.
  rewrite ensureEntry_get, E. eauto.
Qed.

Lemma addPredecessors_listed cs : forall m u x,
  listed (fold_left addPredecessor cs m) u x
  <-> listed m u x \/ (In x cs /\ nodeId (to x) = u).
Proof.
  induction cs as [|c cs IH]; intros m u x; simpl.
  - tauto.
  - rewrite IH, addPredecessor_listed. split.
    + intros [[H|[H1 ->]]|[H1 H2]]; auto.
    + intros [H|[[<-|H1] H2]]; auto.
Qed.

Lemma addPredecessors_has cs : forall m u,
  In u (map_keys m) -> In u (map_keys (fold_left addPredecessor cs m)).
Proof.
  induction cs as [|c cs IH]; intros m u H; simpl; auto.
  apply IH. now apply addPredecessor_has.
Qed.

Lemma ensureEntry_has {V : Type} (m : jsmap (list V)) k u :
  In u (map_keys m) \/ u = k -> In u (map_keys (ensureEntry m k)).
Proof.
  intros H. apply map_get_in_keys. rewrite ensureEntry_get.
  destruct (String.eqb k u) eqn:E; eauto.
  apply String.eqb_neq in E. destruct H as [H|H]; [|congruence].
  now apply map_get_in_keys.
Qed.

Lemma buildNeighbours_fst i2n connections : forall nodes s p,
  fst (fold_left
         (fun '(successors, predecessors) n =>
            let cs := connectionsFromCurrentNode i2n connections n in
            (map_set successors (node_id n) cs,
             fold_left addPredecessor cs (ensureEntry predecessors (node_id n))))
         nodes (s, p))
  = fold_left
      (fun successors n =>
         map_set successors (node_id n)
                 (connectionsFromCurrentNode i2n connections n))
      nodes s.
Proof. induction nodes as [|n nodes IH]; intros s p; simpl; auto. Qed.

Lemma buildNeighbours_snd i2n connections : forall nodes s p,
  snd (fold_left
         (fun '(successors, predecessors) n =>
            let cs := connectionsFromCurrentNode i2n connections n in
            (map_set successors (node_id n) cs,
             fold_left addPredecessor cs (ensureEntry predecessors (node_id n))))
         nodes (s, p))
  = fold_left
      (fun predecessors n =>
         fold_left addPredecessor
                   (connectionsFromCurrentNode i2n connections n)
                   (ensureEntry predecessors (node_id n)))
      nodes p.
Proof. induction nodes as [|n nodes IH]; intros s p; simpl; auto. Qed.

Lemma predecessors_listed i2n connections : forall nodes p u x,
  listed (fold_left
            (fun predecessors n =>
               fold_left addPredecessor
                         (connectionsFromCurrentNode i2n connections n)
                         (ensureEntry predecessors (node_id n)))
            nodes p) u x
  <-> listed p u x
      \/ exists n, In n nodes
                   /\ In x (connectionsFromCurrentNode i2n connections n)
                   /\ nodeId (to x) = u.
Proof.
  induction nodes as [|n nodes IH]; intros p u x; simpl.
  - split; [auto|]. intros [H|[n [[] _]]]. exact H.
  - rewrite IH, addPredecessors_listed, ensureEntry_listed. split.
    + intros [[H|[H1 H2]]|[m [H1 [H2 H3]]]]; auto.
      * right. exists n. auto.
      * right. exists m. auto.
    + intros [H|[m [[<-|H1] [H2 H3]]]]; auto.
      right. exists m. auto.
Qed.

Lemma predecessors_has i2n connections : forall nodes p u,
  In u (map_keys p) \/ In u (map node_id nodes) ->
  In u (map_keys
          (fold_left
             (fun predecessors n =>
                fold_left addPredecessor
                          (connectionsFromCurrentNode i2n connections n)
                          (ensureEntry predecessors (node_id n)))
             nodes p)).
Proof.
  induction nodes as [|n nodes IH]; intros p u H; simpl in *.
  - tauto.
  - apply IH. destruct H as [H|[H|H]]; auto.
    + left. apply addPredecessors_has. apply ensureEntry_has. auto.
    + left. apply addPredecessors_has. apply ensureEntry_has. auto.
Qed.

Lemma filter_disjoint_perm {A : Type} (p q : A -> bool) (l : list A) :
  (forall x, In x l -> p x = true -> q x = false) ->
  Permutation (filter p l ++ filter q l) (filter (fun x => p x || q x) l).
Proof.
  induction l as [|x l IH]; intros H; simpl; [constructor|].
  assert (IH' : Permutation (filter p l ++ filter q l)
                            (filter (fun x => p x || q x) l)).
  { apply IH. intros y Hy. apply H. now right. }
  destruct (p x) eqn:Ep; simpl.
  - rewrite (H x (or_introl eq_refl) Ep). now constructor.
  - destruct (q x); simpl; auto.
    apply Permutation_sym. apply Permutation_cons_app. now apply Permutation_sym.
Qed.

(** The lists kept for distinct keys, one after the other, are the elements
    whose key is one of them. *)
Lemma flat_filter_perm {A : Type} (key : A -> option string) (l : list A) :
  forall xs, NoDup xs ->
  Permutation
    (flat_map (fun x => filter (fun a => match key a with
                                         | Some k => String.eqb k x
                                         | None => false
                                         end) l) xs)
    (filter (fun a => match key a with
                      | Some k => set_has xs k
                      | None => false
                      end) l).
Proof.
  induction xs as [|x xs IH]; intros Hnd; cbn [flat_map].
  - induction l as [|a l IHl]; simpl; auto.
    destruct (key a); simpl; auto.
  - inversion Hnd; subst.
    rewrite (filter_ext
               (fun a => match key a with
                         | Some k => set_has (x :: xs) k
                         | None => false
                         end)
               (fun a => match key a with
                         | Some k => String.eqb k x
                         | None => false
                         end
                         || match key a with
                            | Some k => set_has xs k
                            | None => false
                            end)).
    2:{ intros a. destruct (key a); reflexivity. }
    eapply Permutation_trans.
    + apply Permutation_app_head. apply IH. assumption.
    + apply filter_disjoint_perm. intros a _ Ha.
      destruct (key a) as [k|]; [|reflexivity].
      apply String.eqb_eq in Ha. subst k. now apply set_has_false.
Qed.

Lemma NoDup_flat_map_disjoint {A B : Type} (f : A -> list B) :
  forall (l : list A) i j a b x,
  NoDup (flat_map f l) -> i <> j ->
  nth_error l i = Some a -> nth_error l j = Some b ->
  In x (f a) -> ~ In x (f b).
Proof.
  induction l as [|c l IH]; intros i j a b x Hnd Hij Hi Hj Ha Hb.
  - destruct i; discriminate.
  - simpl in Hnd.
    assert (Hdis : forall y, In y (f c) -> ~ In y (flat_map f l)).
    { intros y H1 H2. apply in_split in H1. destruct H1 as [l1 [l2 E]].
      rewrite E in Hnd. rewrite <- app_assoc in Hnd. simpl in Hnd.
      apply NoDup_remove_2 in Hnd. apply Hnd.
      apply in_app_iff. right. apply in_app_iff. now right. }
    assert (Hnd' : NoDup (flat_map f l)).
    { clear - Hnd. induction (f c); simpl in *; auto.
      inversion Hnd; auto. }
    destruct i as [|i], j as [|j]; simpl in *.
    + congruence.
    + inversion Hi; subst. apply (Hdis x Ha).
      apply in_flat_map. exists b. split; auto. eapply nth_error_In; eauto.
    + inversion Hj; subst. apply (Hdis x Hb).
      apply in_flat_map. exists a. split; auto. eapply nth_error_In; eauto.
    + apply (IH i j a b x); auto.
Qed.

(* ================================================================== *)
(** * Claim on connectedComponents *)
(* ================================================================== *)

(** The invariants of the data model that the traversal relies on, on top
    of [WellFormed]: every connection also ends at a port of one of the
    nodes, and the [nodeId] of the two ports of a connection names the node
    that owns the port. *)
Record WellFormedGraph (nodes : list AbstractNode)
  (connections : list IConnection) : Prop := {
  wfg_base : WellFormed nodes connections;
  wfg_destinations : forall c, In c connections ->
                     exists m, In m nodes /\ owns m (to c);
  wfg_source_nodeId : forall c p n, In c connections -> from c = Some p ->
                      In n nodes -> owns n p -> nodeId p = node_id n;
  wfg_destination_nodeId : forall c n, In c connections -> In n nodes ->
                           owns n (to c) -> nodeId (to c) = node_id n
}.

(** Two nodes joined by a connection, whatever its direction. *)
Definition linked (nodes : list AbstractNode) (connections : list IConnection)
  (u v : AbstractNode) : Prop :=
  connects nodes connections u v \/ connects nodes connections v u.

(** [endpointIn K c]: a port at one end of [c] belongs to a node of [K]. *)
Definition endpointIn (K : GraphComponent) (c : IConnection) : bool :=
  existsb (fun n =>
             set_has (portIds n) (intf_id (to c))
             || match from c with
                | Some p => set_has (portIds n) (intf_id p)
                | None => false
                end)
          (gc_nodes K).

Section ComponentsInput.

Variable nodes : list AbstractNode.
Variable connections : list IConnection.
Hypothesis wfg : WellFormedGraph nodes connections.

Let wf : WellFormed nodes connections := wfg_base _ _ wfg.
Let ids : list string := map node_id nodes.
Let i2n : jsmap string := fold_left registerInterfaces nodes [].
Let n2n : jsmap AbstractNode :=
  fold_left (fun m node => map_set m (node_id node) node) nodes [].
Let succs : jsmap (list IConnection) :=
  fst (buildNeighbours i2n connections nodes).
Let preds : jsmap (list IConnection) :=
  snd (buildNeighbours i2n connections nodes).

Lemma n2n_get n : In n nodes -> map_get n2n (node_id n) = Some n.
Proof.
  intros Hn. apply (fold_map_set_last node_id (fun n => n)); auto.
  apply (wf_nodes _ _ wf).
Qed.

Lemma n2n_inv x n : map_get n2n x = Some n -> In n nodes /\ node_id n = x.
Proof.
  intros H. apply (fold_map_set_get node_id (fun n => n)) in H.
  destruct H as [H|[m [H1 [H2 H3]]]]; [discriminate|]. subst. auto.
Qed.

Lemma succs_get n :
  In n nodes ->
  map_get succs (node_id n) = Some (connectionsFromCurrentNode i2n connections n).
Proof.
  intros Hn. unfold succs, buildNeighbours. rewrite buildNeighbours_fst.
  apply (fold_map_set_last node_id
           (fun n => connectionsFromCurrentNode i2n connections n)); auto.
  apply (wf_nodes _ _ wf).
Qed.

Lemma succs_inv x cs :
  map_get succs x = Some cs ->
  exists n, In n nodes /\ node_id n = x
            /\ cs = connectionsFromCurrentNode i2n connections n.
Proof.
  unfold succs, buildNeighbours. rewrite buildNeighbours_fst. intros H.
  apply (fold_map_set_get node_id
           (fun n => connectionsFromCurrentNode i2n connections n)) in H.
  destruct H as [H|[m [H1 [H2 H3]]]]; [discriminate|]. exists m. auto.
Qed.

Lemma preds_listed u x :
  listed preds u x
  <-> exists n, In n nodes
                /\ In x (connectionsFromCurrentNode i2n connections n)
                /\ nodeId (to x) = u.
Proof.
  unfold preds, buildNeighbours. rewrite buildNeighbours_snd.
  rewrite predecessors_listed. split; [|auto].
  intros [[l [H _]]|H]; [discriminate|exact H].
Qed.

Lemma preds_has x : In x ids -> exists ps, map_get preds x = Some ps.
Proof.
  intros H. apply map_get_in_keys.
  unfold preds, buildNeighbours. rewrite buildNeighbours_snd.
  apply predecessors_has. now right.
Qed.

(** The source of a connection kept for node [n]. *)
Lemma source_of n c :
  In n nodes -> In c (connectionsFromCurrentNode i2n connections n) ->
  In c connections
  /\ exists p, from c = Some p /\ owns n p /\ nodeId p = node_id n.
Proof.
  intros Hn Hc. apply connectionsFromCurrentNode_In in Hc.
  destruct Hc as [Hc [p [Hp Hget]]]. split; auto.
  exists p. split; auto.
  destruct (i2n_inv nodes _ _ Hget) as [m [Hm [E Hpm]]].
  assert (m = n).
  { apply (map_injective_on node_id nodes); auto. apply (wf_nodes _ _ wf). }
  subst m. split; auto.
  apply (wfg_source_nodeId _ _ wfg c p n); auto.
Qed.

Lemma destination_of c :
  In c connections ->
  exists m, In m nodes /\ owns m (to c) /\ nodeId (to c) = node_id m.
Proof.
  intros Hc. destruct (wfg_destinations _ _ wfg c Hc) as [m [Hm Ho]].
  exists m. repeat split; auto.
  apply (wfg_destination_nodeId _ _ wfg c m); auto.
Qed.

Lemma succs_range u cs c :
  map_get succs u = Some cs -> In c cs -> In (nodeId (to c)) ids.
Proof.
  intros Hs Hc. destruct (succs_inv _ _ Hs) as [n [Hn [_ ->]]].
  destruct (source_of n c Hn Hc) as [Hin _].
  destruct (destination_of c Hin) as [m [Hm [_ ->]]].
  unfold ids. now apply in_map.
Qed.

Lemma preds_range u ps c :
  map_get preds u = Some ps -> In c ps ->
  exists p, from c = Some p /\ In (nodeId p) ids.
Proof.
  intros Hp Hc.
  assert (Hl : listed preds u c) by (exists ps; auto).
  apply preds_listed in Hl. destruct Hl as [n [Hn [Hcn _]]].
  destruct (source_of n c Hn Hcn) as [_ [p [Hfrom [_ Hid]]]].
  exists p. split; auto. rewrite Hid. unfold ids. now apply in_map.
Qed.

Lemma goesTo_symmetric w v :
  goesTo succs preds w v -> goesTo succs preds v w.
Proof.
  intros [[cs [c [Hs [Hc Hv]]]]|[ps [c [p [Hp [Hc [Hfrom Hv]]]]]]].
  - right. destruct (succs_inv _ _ Hs) as [n [Hn [Hw ->]]].
    destruct (source_of n c Hn Hc) as [_ [p [Hfrom [_ Hid]]]].
    assert (Hl : listed preds v c).
    { apply preds_listed. exists n. auto. }
    destruct Hl as [ps [Hps Hin]].
    exists ps, c, p. repeat split; auto. congruence.
  - left.
    assert (Hl : listed preds w c) by (exists ps; auto).
    apply preds_listed in Hl. destruct Hl as [n [Hn [Hcn Hto]]].
    destruct (source_of n c Hn Hcn) as [_ [p' [Hfrom' [_ Hid]]]].
    rewrite Hfrom in Hfrom'. inversion Hfrom'; subst p'.
    exists (connectionsFromCurrentNode i2n connections n), c.
    repeat split; auto.
    rewrite <- Hv, Hid. now apply succs_get.
Qed.

Lemma connects_goesTo a b :
  connects nodes connections a b ->
  goesTo succs preds (node_id a) (node_id b)
  /\ goesTo succs preds (node_id b) (node_id a).
Proof.
  intros [Ha [Hb [c [p [Hc [Hp [Hoa Hob]]]]]]].
  assert (H : goesTo succs preds (node_id a) (node_id b)).
  { left. exists (connectionsFromCurrentNode i2n connections a), c.
    split; [now apply succs_get|]. split.
    - apply connectionsFromCurrentNode_In. split; auto.
      exists p. split; auto. now apply (i2n_owner nodes connections wf).
    - apply (wfg_destination_nodeId _ _ wfg c b); auto. }
  split; auto. now apply goesTo_symmetric.
Qed.

(** The loop of [connectedComponents] on this input. *)
Lemma connectedComponents_run :
  exists seen components,
    connectedComponents (OfNodes nodes) (Some connections) = Returns components
    /\ ComponentsInv ids n2n succs preds seen components
    /\ incl ids seen.
Proof.
  destruct (components_loop ids n2n succs preds) with
    (todo := nodes) (seen := @nil string) (components := @nil GraphComponent)
    as [seen [components [Hrun [I [_ Hall]]]]].
  - intros x Hx. unfold ids in Hx. apply in_map_iff in Hx.
    destruct Hx as [n [<- Hn]]. exists n. now apply n2n_get.
  - intros x Hx. unfold ids in Hx. apply in_map_iff in Hx.
    destruct Hx as [n [<- Hn]]. eexists. now apply succs_get.
  - apply preds_has.
  - apply succs_range.
  - apply preds_range.
  - intros x n H. now apply n2n_inv in H.
  - apply goesTo_symmetric.
  - apply incl_refl.
  - constructor; simpl; auto.
    + constructor.
    + intros x [].
    + intros w [].
    + intros K [].
  - exists seen, components. split; [|split; auto].
    unfold connectedComponents, nodesOrGraphToData.
    cbn [bind gd_nodes gd_connections gd_interfaceIdToNodeId gd_nodeIdToNode].
    fold i2n. fold n2n.
    rewrite (surjective_pairing (buildNeighbours i2n connections nodes)).
    fold succs. fold preds. unfold componentsLoop.
    unfold ids in Hrun. rewrite length_map in Hrun.
    unfold jsset in *. rewrite Hrun. reflexivity.
Qed.

End ComponentsInput.

Lemma connectedComponents_given nodesOrGraph pConnections nodes connections :
  givenInput nodesOrGraph pConnections = Some (nodes, connections) ->
  connectedComponents nodesOrGraph pConnections
  = connectedComponents (OfNodes nodes) (Some connections).
Proof.
  destruct nodesOrGraph as [g|ns]; simpl.
  - intros [= <- <-]. reflexivity.
  - destruct pConnections as [cs|]; [|discriminate].
    intros [= <- <-]. reflexivity.
Qed.

Lemma map_flat_map_nodes (comps : list GraphComponent) :
  map node_id (flat_map gc_nodes comps)
  = flat_map (fun K => map node_id (gc_nodes K)) comps.
Proof.
  induction comps as [|K comps IH]; simpl; auto.
  now rewrite map_app, IH.
Qed.

Lemma NoDup_flat_map_each {A B : Type} (f : A -> list B) (l : list A) a :
  NoDup (flat_map f l) -> In a l -> NoDup (f a).
Proof.
  induction l as [|c l IH]; simpl; [tauto|].
  intros Hnd [->|Ha].
  - clear IH. induction (f a) as [|y ys IHy]; [constructor|].
    simpl in Hnd. inversion Hnd; subst. constructor.
    + intros H. apply H1. apply in_app_iff. now left.
    + now apply IHy.
  - apply IH; auto. clear - Hnd.
    induction (f c); simpl in *; auto. inversion Hnd; auto.
Qed.

Lemma flat_map_ext_in {A B : Type} (f g : A -> list B) (l : list A) :
  (forall x, In x l -> f x = g x) -> flat_map f l = flat_map g l.
Proof.
  induction l as [|x l IH]; intros H; simpl; auto.
  rewrite (H x (or_introl eq_refl)), IH; auto.
  intros y Hy. apply H. now right.
Qed.

Lemma nodesOf_In n2n l n :
  In n (nodesOf n2n l) -> exists x, In x l /\ map_get n2n x = Some n.
Proof.
  unfold nodesOf. intros H. apply in_flat_map in H.
  destruct H as [x [Hx Hn]]. exists x. split; auto.
  destruct (map_get n2n x); simpl in Hn; [|contradiction].
  destruct Hn as [->|[]]. reflexivity.
Qed.

(** C3. For every well-formed set of nodes and connections,
    [connectedComponents] returns components whose node lists, put one
    after the other, are a permutation of the input nodes (so they cover
    the input and no node is in two of them); two nodes joined by a path of
    connections, each followed in either direction, are in the same
    component; and the connection list of a component holds exactly the
    input connections with an endpoint in the component, each as often as
    the input has it. *)
Theorem connectedComponents_partition :
  forall nodesOrGraph pConnections nodes connections,
    givenInput nodesOrGraph pConnections = Some (nodes, connections) ->
    WellFormedGraph nodes connections ->
    exists components,
      connectedComponents nodesOrGraph pConnections = Returns components
      /\ Permutation (flat_map gc_nodes components) nodes
      /\ (forall i j Ki Kj n,
            i <> j -> nth_error components i = Some Ki ->
            nth_error components j = Some Kj ->
            In n (gc_nodes Ki) -> ~ In n (gc_nodes Kj))
      /\ (forall K u v,
            In K components ->
            clos_refl_trans AbstractNode (linked nodes connections) u v ->
            In u (gc_nodes K) -> In v (gc_nodes K))
      /\ (forall K, In K components ->
            Permutation (gc_connections K)
                        (filter (endpointIn K) connections)).
Proof.
  intros nog pc nodes connections Hgiven wfg.
  rewrite (connectedComponents_given _ _ _ _ Hgiven).
  destruct (connectedComponents_run nodes connections wfg)
    as [seen [components [Hrun [I Hall]]]].
  pose proof (wfg_base _ _ wfg) as wf.
  pose proof (wf_nodes _ _ wf) as Hnd.
  set (i2n := fold_left registerInterfaces nodes []) in *.
  set (n2n := fold_left (fun m node => map_set m (node_id node) node) nodes [])
    in *.
  set (succs := fst (buildNeighbours i2n connections nodes)) in *.
  set (preds := snd (buildNeighbours i2n connections nodes)) in *.
  exists components. split; [exact Hrun|].
  (* the nodes of a component are input nodes *)
  assert (HA : forall K n, In K components -> In n (gc_nodes K) -> In n nodes).
  { intros K n HK Hn.
    destruct (ci_each _ _ _ _ _ _ I K HK) as [E _].
    rewrite E in Hn. apply nodesOf_In in Hn. destruct Hn as [x [_ Hx]].
    now apply (n2n_inv nodes) in Hx. }
  assert (HB : map node_id (flat_map gc_nodes components) = seen).
  { rewrite map_flat_map_nodes. symmetry. apply (ci_seen _ _ _ _ _ _ I). }
  assert (HN : NoDup (flat_map gc_nodes components)).
  { apply (NoDup_map_inv node_id). rewrite HB. apply (ci_nodup _ _ _ _ _ _ I). }
  (* a node of the input whose id is in a component is in the component *)
  assert (HC : forall K n, In K components -> In n nodes ->
               In (node_id n) (componentIds K) -> In n (gc_nodes K)).
  { intros K n HK Hn Hid. unfold componentIds in Hid.
    apply in_map_iff in Hid. destruct Hid as [m [E Hm]].
    assert (m = n).
    { apply (map_injective_on node_id nodes); auto. eapply HA; eauto. }
    now subst. }
  split; [|split; [|split]].
  - apply NoDup_Permutation; auto.
    + eapply NoDup_map_inv; eauto.
    + intros n. split.
      * intros Hn. apply in_flat_map in Hn. destruct Hn as [K [HK Hn]].
        eapply HA; eauto.
      * intros Hn.
        assert (Hs : In (node_id n) seen).
        { apply Hall. now apply in_map. }
        rewrite <- HB in Hs. apply in_map_iff in Hs.
        destruct Hs as [m [E Hm]].
        assert (m = n).
        { apply (map_injective_on node_id nodes); auto.
          apply in_flat_map in Hm. destruct Hm as [K [HK Hm]].
          eapply HA; eauto. }
        now subst.
  - intros i j Ki Kj n Hij Hi Hj.
    apply (NoDup_flat_map_disjoint gc_nodes components i j Ki Kj n HN Hij Hi Hj).
  - intros K u v HK Hpath.
    destruct (ci_each _ _ _ _ _ _ I K HK) as [_ [_ Hclosed]].
    induction Hpath as [u v Hl|u|u w v _ IH1 _ IH2]; auto.
    intros Hu.
    assert (Hid : In (node_id u) (componentIds K)).
    { unfold componentIds. now apply in_map. }
    destruct Hl as [Hc|Hc].
    + destruct (connects_goesTo nodes connections wfg u v Hc) as [Hg _].
      apply HC; auto; [apply Hc|]. apply (Hclosed _ Hid _ Hg).
    + destruct (connects_goesTo nodes connections wfg v u Hc) as [_ Hg].
      apply HC; auto; [apply Hc|]. apply (Hclosed _ Hid _ Hg).
  - intros K HK.
    destruct (ci_each _ _ _ _ _ _ I K HK) as [_ [Econn Hclosed]].
    set (key := fun c : IConnection =>
                  match from c with
                  | Some f => map_get i2n (intf_id f)
                  | None => None
                  end).
    assert (Hidsub : incl (componentIds K) (map node_id nodes)).
    { intros x Hx. unfold componentIds in Hx. apply in_map_iff in Hx.
      destruct Hx as [n [<- Hn]]. apply in_map. eapply HA; eauto. }
    assert (Hflat : gc_connections K
                    = flat_map (fun x => filter (fun c => match key c with
                                                          | Some k => String.eqb k x
                                                          | None => false
                                                          end) connections)
                               (componentIds K)).
    { rewrite Econn. unfold successorsOf. apply flat_map_ext_in.
      intros x Hx. apply Hidsub in Hx. apply in_map_iff in Hx.
      destruct Hx as [n [<- Hn]].
      pose proof (succs_get nodes connections wfg n Hn) as Hsg.
      fold i2n in Hsg. fold succs in Hsg. rewrite Hsg.
      unfold connectionsFromCurrentNode. apply filter_ext.
      intros c. unfold key, ownerIs. destruct (from c); reflexivity. }
    rewrite Hflat.
    eapply Permutation_trans.
    + apply flat_filter_perm.
      apply (NoDup_flat_map_each componentIds components K); auto.
      rewrite <- (ci_seen _ _ _ _ _ _ I). apply (ci_nodup _ _ _ _ _ _ I).
    + erewrite filter_ext_in; [apply Permutation_refl|].
      intros c Hc. apply Bool.eq_iff_eq_true.
      destruct (wf_sources _ _ wf c Hc) as [p [np [Hp [Hnp Hop]]]].
      assert (Hkey : key c = Some (node_id np)).
      { unfold key. rewrite Hp. now apply (i2n_owner nodes connections wf). }
      rewrite Hkey. unfold endpointIn. rewrite Hp, set_has_In, existsb_exists.
      split.
      * intros Hin. exists np. split; [now apply HC|].
        apply orb_true_iff. right. now apply set_has_In.
      * intros [n [Hn Hown]].
        assert (Hnn : In n nodes) by (eapply HA; eauto).
        assert (Hid : In (node_id n) (componentIds K)).
        { unfold componentIds. now apply in_map. }
        apply orb_true_iff in Hown. destruct Hown as [Hown|Hown];
          apply set_has_In in Hown.
        -- assert (Hc' : connects nodes connections np n).
           { repeat split; auto. exists c, p. auto. }
           destruct (connects_goesTo nodes connections wfg np n Hc') as [_ Hg].
           apply (Hclosed _ Hid _ Hg).
        -- rewrite (wf_ports _ _ wf np n (intf_id p)); auto.
Qed.

(* ================================================================== *)
(** * Reasoning on runs *)
(* ================================================================== *)

(** [preserves Inv m]: the state [m] ends in, returning or throwing,
    satisfies [Inv] when the state it starts in does. *)
Definition preserves {A : Type} (Inv : RunState -> Prop) (m : run A) : Prop :=
  forall st, Inv st -> Inv (fst (m st)).

Lemma preserves_ret {A : Type} Inv (a : A) : preserves Inv (ret a).
Proof. intros st H. exact H. Qed.

Lemma preserves_throw {A : Type} Inv e : preserves Inv (@throw A e).
Proof. intros st H. exact H. Qed.

Lemma preserves_lift {A : Type} Inv (c : completion A) : preserves Inv (lift c).
Proof. intros st H. exact H. Qed.

Lemma preserves_bindR {A B : Type} Inv (m : run A) (k : A -> run B) :
  preserves Inv m -> (forall a, preserves Inv (k a)) ->
  preserves Inv (bindR m k).
Proof.
  intros Hm Hk st H. unfold bindR. specialize (Hm st H).
  destruct (m st) as [st' [a|e]]; simpl in *; auto.
  now apply Hk.
Qed.

Lemma preserves_forEachR {A : Type} Inv (body : A -> run unit) xs :
  (forall x, In x xs -> preserves Inv (body x)) ->
  preserves Inv (forEachR body xs).
Proof.
  induction xs as [|x xs IH]; intros H; simpl.
  - apply preserves_ret.
  - apply preserves_bindR; [apply H; now left|].
    intros _. apply IH. intros y Hy. apply H. now right.
Qed.

Definition isCalculate (ev : event) : bool :=
  match ev with CalculateCalled _ _ => true | _ => false end.

(** [quietSince st0 st]: from [st0] to [st] events were added, none of them
    the call of a calculation step, and the result was left as it was. *)
Definition quietSince (st0 st : RunState) : Prop :=
  run_result st = run_result st0
  /\ exists evs, run_trace st = run_trace st0 ++ evs
                 /\ existsb isCalculate evs = false.

Lemma quietSince_refl st : quietSince st st.
Proof. split; auto. exists []. now rewrite app_nil_r. Qed.

Lemma stage_quiet td node outs c st0 :
  preserves (quietSince st0) (stage td node outs c).
Proof.
  intros st [Hr [evs [Ht Hq]]]. unfold stage.
  destruct (from c) as [src|]; [|now split; eauto].
  destruct (find _ (outputs node)) as [[intfKey ?]|]; [|now split; eauto].
  destruct (String.eqb intfKey ""); [now split; eauto|].
  assert (Hq' : forall v, quietSince st0
                  (mkRun (run_inputs st) (run_heap st) (run_result st)
                         (run_trace st ++ [TransferData node c v]))).
  { intros v. split; auto. exists (evs ++ [TransferData node c v]). simpl.
    rewrite Ht, <- app_assoc. split; auto.
    rewrite existsb_app, Hq. reflexivity. }
  unfold bindR, emit. cbn [fst snd].
  match goal with |- context [TransferData node c ?v] => specialize (Hq' v);
    set (tv := v) in * end.
  destruct Hq' as [Hr' [evs' [Ht' Hq'']]]. simpl in Hr', Ht'.
  destruct (allowMultipleConnections (to c)).
  - cbn [run_inputs].
    destruct (map_get (run_inputs st) (intf_id (to c))) as [target|].
    + unfold push. destruct target; simpl; try (split; eauto; fail).
      destruct (nth_error (run_heap st) loc) as [[elems|]|]; simpl;
        split; eauto.
    + unfold allocArray, setInput. simpl. split; eauto.
  - unfold setInput. simpl. split; eauto.
Qed.

Lemma setEntries_result entries : forall st,
  let st' := fst (forEachR (fun kv : string * NodeResult =>
                              setResult (fst kv)
                                (mkNodeResult (res_inputs (snd kv))
                                              (res_outputs (snd kv))))
                           entries st) in
  run_trace st' = run_trace st
  /\ run_inputs st' = run_inputs st
  /\ run_heap st' = run_heap st
  /\ run_result st'
     = fold_left (fun r kv => map_set r (fst kv)
                                (mkNodeResult (res_inputs (snd kv))
                                              (res_outputs (snd kv))))
                 entries (run_result st).
Proof.
  induction entries as [|kv entries IH]; intros st; simpl; auto.
  unfold bindR, setResult. cbn [fst snd].
  specialize (IH (mkRun (run_inputs st) (run_heap st)
                        (map_set (run_result st) (fst kv)
                           (mkNodeResult (res_inputs (snd kv))
                                         (res_outputs (snd kv))))
                        (run_trace st))).
  simpl in IH. exact IH.
Qed.

(** Entries that are gone through come from a result in the heap. *)
Lemma subgraphResultOf_entries h ov entries :
  subgraphResultOf h ov = Returns (Some entries) ->
  entries = [] \/ In (CResult entries) h.
Proof.
  unfold subgraphResultOf.
  destruct (map_get ov "_calculationResults") as [v|]; [|discriminate].
  destruct (truthy v); [|discriminate].
  destruct v; try discriminate.
  destruct (nth_error h loc) as [[[|[] elems]|es]|] eqn:Hn; try discriminate.
  - intros [= <-]. now left.
  - intros [= <-]. right. eapply nth_error_In; eauto.
Qed.

(** The nested entries [outputValues] brings, none when the property is
    falsy or no result. *)
Definition nestedEntries (h : heap) (outputValues : jsmap jsvalue)
  : CalculationResult :=
  match subgraphResultOf h outputValues with
  | Returns (Some entries) => entries
  | _ => []
  end.

(** How the nested entries are written over a result. *)
Definition mergeEntries (entries : CalculationResult) (r : CalculationResult)
  : CalculationResult :=
  fold_left (fun r kv => map_set r (fst kv)
                           (mkNodeResult (res_inputs (snd kv))
                                         (res_outputs (snd kv))))
            entries r.

Lemma forEachR_stage_quiet td node outs cs st0 :
  preserves (quietSince st0) (forEachR (stage td node outs) cs).
Proof. apply preserves_forEachR. intros c _. apply stage_quiet. Qed.

Lemma run_emit {A : Type} ev (k : unit -> run A) st :
  bindR (emit ev) k st
  = k tt (mkRun (run_inputs st) (run_heap st) (run_result st)
                (run_trace st ++ [ev])).
Proof. reflexivity. Qed.

Lemma run_setResult {A : Type} key r (k : unit -> run A) st :
  bindR (setResult key r) k st
  = k tt (mkRun (run_inputs st) (run_heap st)
                (map_set (run_result st) key r) (run_trace st)).
Proof. reflexivity. Qed.

Lemma run_setInput {A : Type} key v (k : unit -> run A) st :
  bindR (setInput key v) k st
  = k tt (mkRun (map_set (run_inputs st) key v) (run_heap st)
                (run_result st) (run_trace st)).
Proof. reflexivity. Qed.

Lemma run_lift {A B : Type} (a : A) (k : A -> run B) st :
  bindR (lift (Returns a)) k st = k a st.
Proof. reflexivity. Qed.

Lemma run_lift_throw {A B : Type} e (k : A -> run B) st :
  bindR (lift (Throws e)) k st = (st, Throws e).
Proof. reflexivity. Qed.

Lemma run_ret {A B : Type} (a : A) (k : A -> run B) st :
  bindR (ret a) k st = k a st.
Proof. reflexivity. Qed.

(** Once the outputs are valid, [finishNode] emits the notification, records
    the entry of the node, writes the nested entries over it and stages the
    outputs, without calling any calculation step. *)
Lemma finishNode_shape td cfn node iv ov st :
  validateNodeCalculationOutput node ov = Returns tt ->
  let st' := fst (finishNode td cfn node iv ov st) in
  exists evs,
    run_trace st' = run_trace st ++ AfterNodeCalculation ov node :: evs
    /\ existsb isCalculate evs = false
    /\ run_result st'
       = mergeEntries (nestedEntries (run_heap st) ov)
           (map_set (run_result st) (node_id node) (mkNodeResult iv ov)).
Proof.
  intros Hval. cbv zeta. unfold finishNode.
  rewrite Hval, run_lift, run_emit, run_setResult.
  cbn [run_inputs run_heap run_result run_trace].
  set (st1 := mkRun (run_inputs st) (run_heap st)
                (map_set (run_result st) (node_id node) (mkNodeResult iv ov))
                (run_trace st ++ [AfterNodeCalculation ov node])).
  (* the nested entries *)
  assert (Hmerge :
            run_trace (fst (mergeSubgraphResult ov st1)) = run_trace st1
            /\ run_result (fst (mergeSubgraphResult ov st1))
               = mergeEntries (nestedEntries (run_heap st) ov)
                              (run_result st1)).
  { unfold mergeSubgraphResult, nestedEntries.
    change (run_heap st1) with (run_heap st).
    destruct (subgraphResultOf (run_heap st) ov) as [[entries|]|e].
    - destruct (setEntries_result entries st1) as [H1 [_ [_ H4]]]. auto.
    - auto.
    - auto. }
  destruct Hmerge as [Ht2 Hr2].
  unfold bindR.
  destruct (mergeSubgraphResult ov st1) as [st2 [[]|e]] eqn:Hm;
    cbn [fst snd] in *.
  - assert (Hq : quietSince st2
                   (fst (match refmap_get cfn (node_ref node) with
                         | Some connections =>
                             forEachR (stage td node ov) connections
                         | None => ret tt
                         end st2))).
    { destruct (refmap_get cfn (node_ref node)).
      - apply forEachR_stage_quiet. apply quietSince_refl.
      - apply quietSince_refl. }
    destruct Hq as [Hr3 [evs [Ht3 Hq3]]].
    exists evs. cbv beta. rewrite Ht3, Hr3, Ht2, Hr2. simpl.
    rewrite <- app_assoc. auto.
  - exists []. rewrite Ht2, Hr2. simpl. auto.
Qed.

Lemma currentOutputValues_valid node :
  validateNodeCalculationOutput node (currentOutputValues node) = Returns tt.
Proof.
  unfold validateNodeCalculationOutput.
  assert (H : forallb (fun k => map_has (currentOutputValues node) k)
                      (map_keys (outputs node)) = true); [|now rewrite H].
  apply forallb_forall. intros k Hk. unfold map_has.
  assert (Hin : In k (map_keys (currentOutputValues node))).
  { unfold currentOutputValues.
    apply (fold_map_set_has fst (fun kv : string * NodeInterface => value (snd kv))).
    right. exact Hk. }
  apply map_get_in_keys in Hin. destruct Hin as [v Hv]. now rewrite Hv.
Qed.

Lemma map_set_absent {V : Type} (m : jsmap V) k v :
  ~ In k (map_keys m) -> map_set m k v = m ++ [(k, v)].
Proof.
  induction m as [|[k' v'] m IH]; simpl; auto.
  intros H. destruct (String.eqb k k') eqn:E.
  - apply String.eqb_eq in E. subst. tauto.
  - f_equal. apply IH. tauto.
Qed.

(** With distinct keys, the resolved values and the change flags are listed
    input by input. *)
Lemma resolveInputs_maps staged h node :
  NoDup (map_keys (inputs node)) ->
  resolveInputs staged h node
  = (map (fun kv => (fst kv, resolvedValue staged (snd kv))) (inputs node),
     map (fun kv => (fst kv, inputChanged node h (snd kv)
                               (resolvedValue staged (snd kv))))
         (inputs node)).
Proof.
  unfold resolveInputs.
  assert (H : forall l a1 a2,
            NoDup (map_keys a1 ++ map_keys l) -> map_keys a2 = map_keys a1 ->
            fold_left (resolveInput staged h node) l (a1, a2)
            = (a1 ++ map (fun kv => (fst kv, resolvedValue staged (snd kv))) l,
               a2 ++ map (fun kv => (fst kv, inputChanged node h (snd kv)
                                               (resolvedValue staged (snd kv))))
                         l)).
  { induction l as [|[k intf] l IH]; intros a1 a2 Hnd Hk; simpl.
    - now rewrite !app_nil_r.
    - assert (Hnot : ~ In k (map_keys a1)).
      { apply NoDup_remove_2 in Hnd. intros Hin. apply Hnd.
        apply in_app_iff. now left. }
      rewrite (map_set_absent a1) by exact Hnot.
      rewrite (map_set_absent a2) by (now rewrite Hk).
      rewrite IH.
      + now rewrite <- !app_assoc.
      + unfold map_keys in *. rewrite map_app. simpl.
        rewrite <- app_assoc. exact Hnd.
      + unfold map_keys in *. rewrite !map_app. now rewrite Hk. }
  intros Hnd. rewrite H; auto.
Qed.

(** The disjunction the engine tests before it calls a calculation step. *)
Definition mustRecalculate (hint : option AbstractNode) (node : AbstractNode)
  (staged : jsmap jsvalue) (h : heap) : Prop :=
  hint = None
  \/ (exists u, hint = Some u /\ node_id node = node_id u)
  \/ alwaysRecalculate node = true
  \/ (exists k intf, In (k, intf) (inputs node)
                     /\ inputChanged node h intf (resolvedValue staged intf)
                        = true).

Lemma mustCalculate_iff hint node staged h :
  NoDup (map_keys (inputs node)) ->
  mustCalculate hint node (snd (resolveInputs staged h node)) = true
  <-> mustRecalculate hint node staged h.
Proof.
  intros Hnd. rewrite (resolveInputs_maps staged h node Hnd). cbn [snd].
  unfold mustCalculate, mustRecalculate.
  destruct hint as [u|]; [|split; auto].
  rewrite !orb_true_iff, String.eqb_eq, negb_true_iff, Nat.eqb_neq.
  assert (Hlen : length (filter (fun v => v)
                   (map_values
                      (map (fun kv => (fst kv,
                              inputChanged node h (snd kv)
                                (resolvedValue staged (snd kv))))
                           (inputs node)))) <> 0
                 <-> exists k intf, In (k, intf) (inputs node)
                       /\ inputChanged node h intf (resolvedValue staged intf)
                          = true).
  { unfold map_values. rewrite map_map. cbn [snd].
    induction (inputs node) as [|[k intf] l IH]; simpl.
    - split; [congruence|]. intros [k [intf [[] _]]].
    - destruct (inputChanged node h intf (resolvedValue staged intf)) eqn:E;
        simpl.
      + split; [|discriminate]. intros _. exists k, intf. auto.
      + inversion Hnd; subst. rewrite (IH H2). split.
        * intros [k' [i' [H1' H2']]]. exists k', i'. auto.
        * intros [k' [i' [[H1'|H1'] H2']]].
          -- inversion H1'; subst. congruence.
          -- exists k', i'. auto. }
  rewrite Hlen. split.
  - intros [[H|H]|H]; auto. right. left. exists u. auto.
  - intros [H|[[u' [[= <-] H]]|[H|H]]]; auto. discriminate.
Qed.

Lemma resolveInputs_v1_changed staged : forall l acc ch,
  snd (fold_left (resolveInput_v1 staged) l (acc, ch))
  = ch || existsb (fun kv => negb (strictEq (resolvedValue staged (snd kv))
                                            (value (snd kv)))) l.
Proof.
  induction l as [|[k v] l IH]; intros acc ch; simpl.
  - now rewrite orb_false_r.
  - rewrite IH.
    destruct (strictEq (resolvedValue staged v) (value v)); simpl.
    + reflexivity.
    + now rewrite orb_true_r.
Qed.

(** On a node without the flag and without a predicate of its own, the two
    revisions decide alike. *)
Lemma mustCalculate_v1_agrees hint node staged h :
  NoDup (map_keys (inputs node)) ->
  alwaysRecalculate node = false ->
  isInterfaceEqualTo node = None ->
  mustCalculate_v1 hint node (snd (resolveInputs_v1 staged node))
  = mustCalculate hint node (snd (resolveInputs staged h node)).
Proof.
  intros Hnd Hflag Hpred.
  apply eq_iff_eq_true. rewrite (mustCalculate_iff hint node staged h Hnd).
  unfold resolveInputs_v1. rewrite resolveInputs_v1_changed. cbn [orb].
  unfold mustCalculate_v1, mustRecalculate.
  destruct hint as [u|]; [|split; auto].
  rewrite orb_true_iff, String.eqb_eq, existsb_exists. split.
  - intros [H|[[k intf] [Hin Hch]]].
    + right. left. exists u. auto.
    + right. right. right. exists k, intf. split; auto.
      unfold inputChanged. rewrite Hpred. exact Hch.
  - intros [H|[[u' [[= <-] H]]|[H|[k [intf [Hin Hch]]]]]].
    + discriminate.
    + now left.
    + congruence.
    + right. exists (k, intf). split; auto.
      unfold inputChanged in Hch. rewrite Hpred in Hch. exact Hch.
Qed.

(** What a visit adds to the trace, and to the result when the step is not
    called. *)
Lemma visitNode_shape td hint cd cfn node calc st :
  calculate node = Some calc ->
  let iv := fst (resolveInputs (run_inputs st) (run_heap st) node) in
  let ch := snd (resolveInputs (run_inputs st) (run_heap st) node) in
  let st' := fst (visitNode td hint cd cfn node st) in
  if mustCalculate hint node ch then
    exists evs,
      run_trace st' = run_trace st ++ BeforeNodeCalculation iv node
                                      :: CalculateCalled node iv :: evs
      /\ existsb isCalculate evs = false
  else
    exists evs,
      run_trace st' = run_trace st ++ BeforeNodeCalculation iv node
                        :: AfterNodeCalculation (currentOutputValues node) node
                        :: evs
      /\ existsb isCalculate evs = false
      /\ run_result st'
         = mergeEntries (nestedEntries (run_heap st) (currentOutputValues node))
             (map_set (run_result st) (node_id node)
                      (mkNodeResult iv (currentOutputValues node))).
Proof.
  intros Hcalc. cbv zeta. unfold visitNode. rewrite Hcalc.
  destruct (resolveInputs (run_inputs st) (run_heap st) node) as [iv ch].
  cbn [fst snd]. rewrite run_emit.
  set (st1 := mkRun (run_inputs st) (run_heap st) (run_result st)
                (run_trace st ++ [BeforeNodeCalculation iv node])).
  destruct (mustCalculate hint node ch).
  - unfold callCalculate. unfold bindR at 1. rewrite run_emit.
    cbn [run_inputs run_heap run_result run_trace st1].
    destruct (calc (run_heap st) iv cd) as [[ov cells]|e].
    + set (st2 := mkRun _ _ _ _).
      destruct (validateNodeCalculationOutput node ov) as [[]|e] eqn:Hval.
      * destruct (finishNode_shape td cfn node iv ov st2 Hval)
          as [evs [Ht [Hq _]]].
        exists (AfterNodeCalculation ov node :: evs).
        rewrite Ht. unfold st2. simpl. rewrite <- !app_assoc. simpl. auto.
      * exists []. unfold finishNode. rewrite Hval, run_lift_throw. simpl.
        rewrite <- app_assoc. auto.
    + exists []. simpl. rewrite <- app_assoc. auto.
  - rewrite run_ret.
    destruct (finishNode_shape td cfn node iv (currentOutputValues node) st1
                (currentOutputValues_valid node))
      as [evs [Ht [Hq Hr]]].
    exists evs. rewrite Ht, Hr. unfold st1. simpl.
    rewrite <- app_assoc. auto.
Qed.

Lemma mergeEntries_keys nested : forall r k,
  In k (map_keys r) -> In k (map_keys (mergeEntries nested r)).
Proof.
  intros r k H. unfold mergeEntries.
  apply (fold_map_set_has fst
           (fun kv : string * NodeResult =>
              mkNodeResult (res_inputs (snd kv)) (res_outputs (snd kv)))).
  now left.
Qed.

Lemma currentOutputValues_get node k :
  map_get (outputs node) k = None -> map_get (currentOutputValues node) k = None.
Proof.
  intros H. destruct (map_get (currentOutputValues node) k) as [v|] eqn:E; auto.
  unfold currentOutputValues in E.
  apply (fold_map_set_get fst (fun kv : string * NodeInterface => value (snd kv)))
    in E.
  destruct E as [E|[[k' intf] [Hin [Hk _]]]]; [discriminate|].
  simpl in Hk. subst k'.
  assert (Hkeys : In k (map_keys (outputs node))).
  { apply (in_map fst) in Hin. exact Hin. }
  apply map_get_in_keys in Hkeys. destruct Hkeys as [x Hx]. congruence.
Qed.

(* ================================================================== *)
(** * Claims on the decision to calculate *)
(* ================================================================== *)

(** What [a === b] holds of: the two are one value that is not NaN, or the
    two zeros. *)
Definition strictlyEqual (a b : jsvalue) : Prop :=
  (a = b /\ a <> VNaN)
  \/ (a = VNumber 0 /\ b = VNegativeZero)
  \/ (a = VNegativeZero /\ b = VNumber 0).

Lemma strictEq_strictlyEqual a b : strictEq a b = true <-> strictlyEqual a b.
Proof.
  unfold strictlyEqual.
  destruct a, b; simpl;
    try (split; [intros H; discriminate H
                |intros [[H _]|[[H H']|[H H']]]; discriminate]).
  - split; [intros _; left; split; [reflexivity|discriminate]|reflexivity].
  - rewrite Z.eqb_eq. split.
    + intros ->. left. split; [reflexivity|discriminate].
    + intros [[H _]|[[H H']|[H H']]]; [now inversion H|discriminate..].
  - rewrite Z.eqb_eq. split.
    + intros ->. right. left. auto.
    + intros [[H _]|[[H H']|[H H']]]; [discriminate|now inversion H|discriminate].
  - split; [intros H; discriminate H|].
    intros [[_ H]|[[H H']|[H H']]]; [congruence|discriminate..].
  - rewrite Z.eqb_eq. split.
    + intros ->. right. right. auto.
    + intros [[H _]|[[H H']|[H H']]]; [discriminate..|now inversion H'].
  - split; [intros _; left; split; [reflexivity|discriminate]|reflexivity].
  - rewrite String.eqb_eq. split.
    + intros ->. left. split; [reflexivity|discriminate].
    + intros [[H _]|[[H H']|[H H']]]; [now inversion H|discriminate..].
  - split.
    + intros H. apply Bool.eqb_prop in H. subst. left.
      split; [reflexivity|discriminate].
    + intros [[H _]|[[H H']|[H H']]]; [|discriminate..].
      inversion H. apply Bool.eqb_reflx.
  - rewrite Nat.eqb_eq. split.
    + intros ->. left. split; [reflexivity|discriminate].
    + intros [[H _]|[[H H']|[H H']]]; [now inversion H|discriminate..].
Qed.

(** With distinct keys, the stored output values are listed output by
    output. *)
Lemma currentOutputValues_map node :
  NoDup (map_keys (outputs node)) ->
  currentOutputValues node
  = map (fun kv => (fst kv, value (snd kv))) (outputs node).
Proof.
  unfold currentOutputValues.
  assert (H : forall (l : jsmap NodeInterface) (acc : jsmap jsvalue),
            NoDup (map_keys acc ++ map_keys l) ->
            fold_left (fun acc kv => map_set acc (fst kv) (value (snd kv))) l acc
            = acc ++ map (fun kv => (fst kv, value (snd kv))) l).
  { induction l as [|[k intf] l IH]; intros acc Hnd; simpl.
    - now rewrite app_nil_r.
    - assert (Hnot : ~ In k (map_keys acc)).
      { apply NoDup_remove_2 in Hnd. intros Hin. apply Hnd.
        apply in_app_iff. now left. }
      rewrite (map_set_absent acc) by exact Hnot.
      rewrite IH.
      + now rewrite <- app_assoc.
      + unfold map_keys in *. rewrite map_app. simpl.
        rewrite <- app_assoc. exact Hnd. }
  intros Hnd. now rewrite H.
Qed.

Lemma inputChanged_differs node h intf v :
  inputChanged node h intf v = true
  <-> match isInterfaceEqualTo node with
      | Some isEqual => isEqual h intf v = false
      | None => ~ strictlyEqual v (value intf)
      end.
Proof.
  unfold inputChanged. destruct (isInterfaceEqualTo node) as [isEqual|].
  - apply negb_true_iff.
  - rewrite <- strictEq_strictlyEqual, negb_true_iff.
    destruct (strictEq v (value intf)); split; congruence.
Qed.

(** A visit of a node with a calculation step, call by call. *)
Lemma visitNode_unfold td hint cd cfn node calc st :
  calculate node = Some calc ->
  visitNode td hint cd cfn node st
  = (let iv := fst (resolveInputs (run_inputs st) (run_heap st) node) in
     let ch := snd (resolveInputs (run_inputs st) (run_heap st) node) in
     if mustCalculate hint node ch then
       match calc (run_heap st) iv cd with
       | Returns (ov, cells) =>
           finishNode td cfn node iv ov
             (mkRun (run_inputs st) (run_heap st ++ cells) (run_result st)
                    (run_trace st ++ [BeforeNodeCalculation iv node;
                                      CalculateCalled node iv]))
       | Throws e =>
           (mkRun (run_inputs st) (run_heap st) (run_result st)
                  (run_trace st ++ [BeforeNodeCalculation iv node;
                                    CalculateCalled node iv]),
            Throws e)
       end
     else
       finishNode td cfn node iv (currentOutputValues node)
         (mkRun (run_inputs st) (run_heap st) (run_result st)
                (run_trace st ++ [BeforeNodeCalculation iv node]))).
Proof.
  intros Hcalc. cbv zeta. unfold visitNode. rewrite Hcalc.
  destruct (resolveInputs (run_inputs st) (run_heap st) node) as [iv ch].
  cbn [fst snd]. rewrite run_emit.
  destruct (mustCalculate hint node ch).
  - unfold callCalculate. unfold bindR at 1. rewrite run_emit.
    cbn [run_inputs run_heap run_result run_trace].
    rewrite <- app_assoc. cbn [app].
    destruct (calc (run_heap st) iv cd) as [[ov cells]|e]; reflexivity.
  - rewrite run_ret. reflexivity.
Qed.

(** When the test of the engine holds, the step is called once, first, on
    the heap, the resolved inputs and the auxiliary data; its outputs are
    those notified and recorded; its throw ends the visit. *)
Lemma visitNode_called td hint cd cfn node calc st :
  calculate node = Some calc ->
  mustCalculate hint node
    (snd (resolveInputs (run_inputs st) (run_heap st) node)) = true ->
  let iv := fst (resolveInputs (run_inputs st) (run_heap st) node) in
  let st' := fst (visitNode td hint cd cfn node st) in
  exists evs,
    run_trace st' = run_trace st ++ BeforeNodeCalculation iv node
                      :: CalculateCalled node iv :: evs
    /\ existsb isCalculate evs = false
    /\ match calc (run_heap st) iv cd with
       | Returns (ov, cells) =>
           (forall k, In k (map_keys (outputs node)) -> map_has ov k = true) ->
           exists evs',
             evs = AfterNodeCalculation ov node :: evs'
             /\ run_result st'
                = mergeEntries (nestedEntries (run_heap st ++ cells) ov)
                    (map_set (run_result st) (node_id node)
                             (mkNodeResult iv ov))
       | Throws e =>
           evs = [] /\ snd (visitNode td hint cd cfn node st) = Throws e
       end.
Proof.
  intros Hcalc Hmust. cbv zeta.
  rewrite (visitNode_unfold td hint cd cfn node calc st Hcalc). cbv zeta.
  rewrite Hmust.
  set (iv := fst (resolveInputs (run_inputs st) (run_heap st) node)).
  destruct (calc (run_heap st) iv cd) as [[ov cells]|e].
  - set (st2 := mkRun _ _ _ _).
    destruct (validateNodeCalculationOutput node ov) as [[]|e] eqn:Hval.
    + destruct (finishNode_shape td cfn node iv ov st2 Hval)
        as [evs [Ht [Hq Hr]]].
      exists (AfterNodeCalculation ov node :: evs). split.
      { rewrite Ht. unfold st2. simpl. rewrite <- app_assoc. reflexivity. }
      split; [simpl; exact Hq|].
      intros _. exists evs. split; [reflexivity|exact Hr].
    + exists []. unfold finishNode. rewrite Hval, run_lift_throw. simpl.
      split; [reflexivity|]. split; [reflexivity|].
      intros Hcover. exfalso.
      unfold validateNodeCalculationOutput in Hval.
      assert (Hall : forallb (fun k => map_has ov k)
                             (map_keys (outputs node)) = true).
      { apply forallb_forall. exact Hcover. }
      rewrite Hall in Hval. discriminate.
  - exists []. simpl. auto.
Qed.

(** The test of the engine, spelled out on the ports. *)
Lemma mustCalculate_spelled hint node staged h :
  NoDup (map_keys (inputs node)) ->
  mustCalculate hint node (snd (resolveInputs staged h node)) = true
  <-> (hint = None
       \/ (exists u, hint = Some u /\ node_id node = node_id u)
       \/ alwaysRecalculate node = true
       \/ (exists k intf,
             In (k, intf) (inputs node)
             /\ match isInterfaceEqualTo node with
                | Some isEqual =>
                    isEqual h intf
                      match map_get staged (intf_id intf) with
                      | Some s => s
                      | None => value intf
                      end = false
                | None =>
                    ~ strictlyEqual
                        match map_get staged (intf_id intf) with
                        | Some s => s
                        | None => value intf
                        end (value intf)
                end)).
Proof.
  intros Hnd. rewrite (mustCalculate_iff hint node staged h Hnd).
  unfold mustRecalculate.
  assert (Hin : (exists k intf, In (k, intf) (inputs node)
                   /\ inputChanged node h intf (resolvedValue staged intf)
                      = true)
                <-> (exists k intf, In (k, intf) (inputs node)
                     /\ match isInterfaceEqualTo node with
                        | Some isEqual =>
                            isEqual h intf (resolvedValue staged intf) = false
                        | None =>
                            ~ strictlyEqual (resolvedValue staged intf)
                                            (value intf)
                        end)).
  { split; intros [k [intf [H1 H2]]]; exists k, intf; split; auto;
      now apply inputChanged_differs. }
  unfold resolvedValue in Hin. tauto.
Qed.

Lemma resolveInputs_values staged h node :
  NoDup (map_keys (inputs node)) ->
  fst (resolveInputs staged h node)
  = map (fun kv => (fst kv,
                    match map_get staged (intf_id (snd kv)) with
                    | Some s => s
                    | None => value (snd kv)
                    end)) (inputs node).
Proof. intros Hnd. now rewrite (resolveInputs_maps staged h node Hnd). Qed.

(** C4. In a run, for a visited node that has a calculation step (its input
    keys and its output keys being distinct, as the keys of an object are).
    The inputs resolve, key by key, to the staged value of the port, or to
    its stored value when nothing is staged.  The step is called if and only
    if there is no updated-node hint, or the node's id is the hint's, or the
    node is flagged [alwaysRecalculate], or one resolved input differs from
    the port's stored value (by the node's [isInterfaceEqualTo] when it has
    one, by [!==] otherwise).  When the step is called, it is called once,
    on the heap, the resolved inputs and the auxiliary data; what it returns
    is notified and recorded as the outputs of the node, and what it throws
    ends the visit.  When it is not called, the stored values of the output
    ports, key by key, are notified and recorded as the outputs of the
    node. *)
Theorem runGraph_calculates_iff_needed :
  forall td hint cd cfn node calc st,
    calculate node = Some calc ->
    NoDup (map_keys (inputs node)) ->
    NoDup (map_keys (outputs node)) ->
    let resolved := fun intf : NodeInterface =>
                      match map_get (run_inputs st) (intf_id intf) with
                      | Some s => s
                      | None => value intf
                      end in
    let iv := map (fun kv => (fst kv, resolved (snd kv))) (inputs node) in
    let stored := map (fun kv => (fst kv, value (snd kv))) (outputs node) in
    let differs := fun intf : NodeInterface =>
                     match isInterfaceEqualTo node with
                     | Some isEqual =>
                         isEqual (run_heap st) intf (resolved intf) = false
                     | None => ~ strictlyEqual (resolved intf) (value intf)
                     end in
    let needed := hint = None
                  \/ (exists u, hint = Some u /\ node_id node = node_id u)
                  \/ alwaysRecalculate node = true
                  \/ (exists k intf, In (k, intf) (inputs node)
                                     /\ differs intf) in
    let st' := fst (visitNode td hint cd cfn node st) in
    exists evs,
      run_trace st' = run_trace st ++ BeforeNodeCalculation iv node :: evs
      /\ (existsb isCalculate evs = true <-> needed)
      /\ (needed ->
          exists evs',
            evs = CalculateCalled node iv :: evs'
            /\ existsb isCalculate evs' = false
            /\ match calc (run_heap st) iv cd with
               | Returns (ov, cells) =>
                   (forall k, In k (map_keys (outputs node)) ->
                              map_has ov k = true) ->
                   exists evs'',
                     evs' = AfterNodeCalculation ov node :: evs''
                     /\ run_result st'
                        = mergeEntries
                            (nestedEntries (run_heap st ++ cells) ov)
                            (map_set (run_result st) (node_id node)
                                     (mkNodeResult iv ov))
               | Throws e =>
                   evs' = []
                   /\ snd (visitNode td hint cd cfn node st) = Throws e
               end)
      /\ (~ needed ->
          exists evs',
            evs = AfterNodeCalculation stored node :: evs'
            /\ existsb isCalculate evs' = false
            /\ run_result st'
               = mergeEntries (nestedEntries (run_heap st) stored)
                   (map_set (run_result st) (node_id node)
                            (mkNodeResult iv stored))).
Proof.
  intros td hint cd cfn node calc st Hcalc Hnd Hout. cbv beta zeta.
  pose proof (mustCalculate_spelled hint node (run_inputs st) (run_heap st) Hnd)
    as Hiff.
  rewrite <- (resolveInputs_values (run_inputs st) (run_heap st) node Hnd).
  rewrite <- (currentOutputValues_map node Hout).
  destruct (mustCalculate hint node
              (snd (resolveInputs (run_inputs st) (run_heap st) node)))
    eqn:Hmust.
  - destruct (visitNode_called td hint cd cfn node calc st Hcalc Hmust)
      as [evs [Ht [Hq Hm]]].
    exists (CalculateCalled node
              (fst (resolveInputs (run_inputs st) (run_heap st) node)) :: evs).
    split; [exact Ht|]. split; [|split].
    + simpl. split; intros _; [now apply Hiff|reflexivity].
    + intros _. exists evs. auto.
    + intros Hno. exfalso. apply Hno. now apply Hiff.
  - pose proof (visitNode_shape td hint cd cfn node calc st Hcalc) as H.
    cbv zeta in H. rewrite Hmust in H. destruct H as [evs [Ht [Hq Hr]]].
    exists (AfterNodeCalculation (currentOutputValues node) node :: evs).
    split; [exact Ht|]. simpl. rewrite Hq. split; [|split].
    + split; [discriminate|]. intros Hm. apply Hiff in Hm. discriminate.
    + intros Hm. apply Hiff in Hm. discriminate.
    + intros _. exists evs. auto.
Qed.

(** The claim C5 makes on a finished run with hint [u]: if every resolved
    input of the hinted node is its stored value, the step of that node is
    not called. *)
Definition hintedNodeSkippedWhenUnchanged (st : RunState) (u : AbstractNode)
  : Prop :=
  (forall iv n, In (BeforeNodeCalculation iv n) (run_trace st) ->
     node_id n = node_id u ->
     forall k intf, In (k, intf) (inputs n) -> map_get iv k = Some (value intf)) ->
  forall n iv, In (CalculateCalled n iv) (run_trace st) -> node_id n <> node_id u.

(** C5, as the code has it.  In a run with an updated-node hint [u], for a
    visited node with a calculation step (its input keys and its output keys
    being distinct).  The step of a node with the id of [u] is called,
    whatever its inputs.  A node with another id, not flagged
    [alwaysRecalculate], none of whose resolved inputs differs from the
    port's stored value, does not have its step called, yet is notified and
    gets its entry in the result, with the stored values of its output
    ports, key by key, as its outputs (the entry it keeps when none of these
    is a nested result).  A node one of whose resolved inputs differs from
    the port's stored value has its step called.  A step that is called is
    called on the heap, the resolved inputs and the auxiliary data, and what
    it returns is notified and recorded as the outputs of the node. *)
Theorem hinted_node_recalculated_unchanged_reused :
  forall td u cd cfn node calc st,
    calculate node = Some calc ->
    NoDup (map_keys (inputs node)) ->
    NoDup (map_keys (outputs node)) ->
    let resolved := fun intf : NodeInterface =>
                      match map_get (run_inputs st) (intf_id intf) with
                      | Some s => s
                      | None => value intf
                      end in
    let iv := map (fun kv => (fst kv, resolved (snd kv))) (inputs node) in
    let stored := map (fun kv => (fst kv, value (snd kv))) (outputs node) in
    let differs := fun intf : NodeInterface =>
                     match isInterfaceEqualTo node with
                     | Some isEqual =>
                         isEqual (run_heap st) intf (resolved intf) = false
                     | None => ~ strictlyEqual (resolved intf) (value intf)
                     end in
    let st' := fst (visitNode td (Some u) cd cfn node st) in
    let called :=
      exists evs,
        run_trace st' = run_trace st ++ BeforeNodeCalculation iv node
                          :: CalculateCalled node iv :: evs
        /\ existsb isCalculate evs = false
        /\ match calc (run_heap st) iv cd with
           | Returns (ov, cells) =>
               (forall k, In k (map_keys (outputs node)) ->
                          map_has ov k = true) ->
               exists evs',
                 evs = AfterNodeCalculation ov node :: evs'
                 /\ run_result st'
                    = mergeEntries (nestedEntries (run_heap st ++ cells) ov)
                        (map_set (run_result st) (node_id node)
                                 (mkNodeResult iv ov))
           | Throws e =>
               evs = [] /\ snd (visitNode td (Some u) cd cfn node st) = Throws e
           end in
    (node_id node = node_id u -> called)
    /\ (node_id node <> node_id u ->
        alwaysRecalculate node = false ->
        (forall k intf, In (k, intf) (inputs node) -> ~ differs intf) ->
        (exists evs,
           run_trace st' = run_trace st ++ BeforeNodeCalculation iv node
               :: AfterNodeCalculation stored node :: evs
           /\ existsb isCalculate evs = false)
        /\ In (node_id node) (map_keys (run_result st'))
        /\ (map_get (outputs node) "_calculationResults" = None ->
            map_get (run_result st') (node_id node)
            = Some (mkNodeResult iv stored)))
    /\ ((exists k intf, In (k, intf) (inputs node) /\ differs intf) -> called).
Proof.
  intros td u cd cfn node calc st Hcalc Hnd Hout. cbv beta zeta.
  pose proof (mustCalculate_spelled (Some u) node (run_inputs st) (run_heap st)
                Hnd) as Hiff.
  rewrite <- (resolveInputs_values (run_inputs st) (run_heap st) node Hnd).
  rewrite <- (currentOutputValues_map node Hout).
  destruct (mustCalculate (Some u) node
              (snd (resolveInputs (run_inputs st) (run_heap st) node)))
    eqn:Hmust.
  - pose proof (visitNode_called td (Some u) cd cfn node calc st Hcalc Hmust)
      as Hcalled. cbv zeta in Hcalled.
    split; [|split].
    + intros _. exact Hcalled.
    + intros Hne Hflag Hun. exfalso.
      destruct (proj1 Hiff eq_refl) as [Hm|[[u' [[= <-] Hm]]|[Hm|Hm]]].
      * discriminate.
      * contradiction.
      * congruence.
      * destruct Hm as [k [intf [Hin Hd]]]. apply (Hun k intf Hin Hd).
    + intros _. exact Hcalled.
  - pose proof (visitNode_shape td (Some u) cd cfn node calc st Hcalc) as H.
    cbv zeta in H. rewrite Hmust in H. destruct H as [evs [Ht [Hq Hr]]].
    assert (Hno : forall P : Prop,
              (Some u = None
               \/ (exists u0, Some u = Some u0 /\ node_id node = node_id u0)
               \/ alwaysRecalculate node = true
               \/ (exists k intf,
                     In (k, intf) (inputs node)
                     /\ match isInterfaceEqualTo node with
                        | Some isEqual =>
                            isEqual (run_heap st) intf
                              match map_get (run_inputs st) (intf_id intf) with
                              | Some s => s
                              | None => value intf
                              end = false
                        | None =>
                            ~ strictlyEqual
                                match map_get (run_inputs st)
                                              (intf_id intf) with
                                | Some s => s
                                | None => value intf
                                end (value intf)
                        end)) -> P).
    { intros P Hm. apply Hiff in Hm. discriminate. }
    split; [|split].
    + intros Hid. apply Hno. right. left. exists u. auto.
    + intros _ _ _. split; [eauto|]. split.
      * rewrite Hr. apply mergeEntries_keys. apply map_get_in_keys.
        eexists. apply map_get_set_eq.
      * intros Hnone. rewrite Hr. unfold nestedEntries, subgraphResultOf.
        rewrite (currentOutputValues_get node _ Hnone). simpl.
        apply map_get_set_eq.
    + intros Hch. apply Hno. right. right. right. exact Hch.
Qed.

(* ================================================================== *)
(** * Claim on the comparison of inputs *)
(* ================================================================== *)

(** Equality of what two values hold: primitives by value, arrays element
    by element (to a depth of [fuel]), whatever their references. *)
Fixpoint structurallyEqual (fuel : nat) (h : heap) (a b : jsvalue) : bool :=
  match a, b with
  | VObject x, VObject y =>
      Nat.eqb x y
      || match fuel with
         | O => false
         | S fuel' =>
             match nth_error h x, nth_error h y with
             | Some (CArray xs), Some (CArray ys) =>
                 Nat.eqb (length xs) (length ys)
                 && forallb (fun p => structurallyEqual fuel' h (fst p) (snd p))
                            (combine xs ys)
             | _, _ => false
             end
         end
  | _, _ => strictEq a b
  end.

(** The claim C8 makes: a resolved value that holds what the stored value
    holds never counts as changed. *)
Definition changeDetectionIsStructural : Prop :=
  forall node h intf v,
    structurallyEqual (length h) h v (value intf) = true ->
    inputChanged node h intf v = false.

(** C8, as the code has it.  For a node with distinct input keys, the
    resolved value of the input under key [k] is the staged value of the
    port, or its stored value when nothing is staged, and the change flag of
    the input is the negation of the node's [isInterfaceEqualTo] on the port
    and that value when the node has the predicate, and of [===] between
    that value and the stored one otherwise.  In that second case the input
    counts as unchanged exactly when the two are strictly equal: one
    reference, or one primitive that is not NaN, or the two zeros.  So two
    references count as unchanged exactly when they are one reference,
    whatever the heap holds at them, and a NaN counts as changed even
    against the NaN that is stored. *)
Theorem inputs_compared_by_predicate_else_identity :
  forall staged h node k intf,
    NoDup (map_keys (inputs node)) ->
    In (k, intf) (inputs node) ->
    let v := match map_get staged (intf_id intf) with
             | Some s => s
             | None => value intf
             end in
    let changed := map_get (snd (resolveInputs staged h node)) k in
    map_get (fst (resolveInputs staged h node)) k = Some v
    /\ (forall isEqual, isInterfaceEqualTo node = Some isEqual ->
          changed = Some (negb (isEqual h intf v)))
    /\ (isInterfaceEqualTo node = None ->
        (changed = Some false <-> strictlyEqual v (value intf))
        /\ (changed = Some true <-> ~ strictlyEqual v (value intf))
        /\ (forall x y, v = VObject x -> value intf = VObject y ->
              (changed = Some false <-> x = y))
        /\ (v = VNaN -> changed = Some true)).
Proof.
  intros staged h node k intf Hnd Hin. cbv zeta.
  rewrite (resolveInputs_maps staged h node Hnd). cbn [fst snd].
  assert (Hkeys : forall (B : Type) (f : string * NodeInterface -> B),
            NoDup (map_keys (map (fun kv => (fst kv, f kv)) (inputs node)))).
  { intros B f. unfold map_keys in *. rewrite map_map. simpl. exact Hnd. }
  assert (Hval : map_get
                   (map (fun kv => (fst kv, resolvedValue staged (snd kv)))
                        (inputs node)) k
                 = Some (resolvedValue staged intf)).
  { apply in_map_get_nodup; [apply Hkeys|].
    apply in_map_iff. exists (k, intf). auto. }
  assert (Hget : map_get
                   (map (fun kv => (fst kv,
                           inputChanged node h (snd kv)
                             (resolvedValue staged (snd kv)))) (inputs node)) k
                 = Some (inputChanged node h intf (resolvedValue staged intf))).
  { apply in_map_get_nodup; [apply Hkeys|].
    apply in_map_iff. exists (k, intf). auto. }
  rewrite Hval, Hget. unfold inputChanged, resolvedValue.
  set (v := match map_get staged (intf_id intf) with
            | Some s => s
            | None => value intf
            end).
  split; [reflexivity|]. split.
  - intros isEqual ->. reflexivity.
  - intros ->.
    pose proof (strictEq_strictlyEqual v (value intf)) as Hse.
    assert (Hfalse : Some (negb (strictEq v (value intf))) = Some false
                     <-> strictlyEqual v (value intf)).
    { rewrite <- Hse. destruct (strictEq v (value intf)); simpl;
        split; congruence. }
    split; [exact Hfalse|]. split; [|split].
    + rewrite <- Hse. destruct (strictEq v (value intf)); simpl;
        split; congruence.
    + intros x y Hx Hy. rewrite Hfalse, Hx, Hy. unfold strictlyEqual. split.
      * intros [[H _]|[[H _]|[H _]]]; [now inversion H|discriminate..].
      * intros ->. left. split; [reflexivity|discriminate].
    + intros Hnan. rewrite Hnan. reflexivity.
Qed.

(* ================================================================== *)
(** * Claim on the components a hint leaves out *)
(* ================================================================== *)

(** The node an event is about. *)
Definition eventNode (ev : event) : AbstractNode :=
  match ev with
  | BeforeNodeCalculation _ n => n
  | CalculateCalled n _ => n
  | AfterNodeCalculation _ n => n
  | TransferData n _ _ => n
  end.

(** The sorted components a run of [graph] walks: the cached ones, or those
    of [getSortedComponents] on a miss, with the nodes as they are in the
    graph. *)
Definition componentsOf (engine : DependencyEngine) (graph : Graph)
  : completion (list ITopologicalSortingResult) :=
  sorted <- match map_get (order engine) (graph_id graph) with
            | Some components => Returns components
            | None => getSortedComponents (OfGraph graph) None
            end ;;
  Returns (map (currentComponent (graph_nodes graph)) sorted).

(** No nested result stored in [h] has an entry under [x]. *)
Definition nestedAvoid (x : string) (h : heap) : Prop :=
  forall entries, In (CResult entries) h -> ~ In x (map_keys entries).

(** No nested result the step of [node] allocates has an entry under [x]. *)
Definition calculateAvoids (x : string) (node : AbstractNode) : Prop :=
  forall calc h ins cd outs cells,
    calculate node = Some calc ->
    calc h ins cd = Returns (outs, cells) ->
    nestedAvoid x cells.

(** Nothing in the state is about the id [x]. *)
Record Untouched (x : string) (st : RunState) : Prop := {
  un_trace : forall ev, In ev (run_trace st) -> node_id (eventNode ev) <> x;
  un_result : ~ In x (map_keys (run_result st));
  un_heap : nestedAvoid x (run_heap st)
}.

Lemma map_keys_set_in {V : Type} (m : jsmap V) k v x :
  In x (map_keys (map_set m k v)) -> x = k \/ In x (map_keys m).
Proof.
  induction m as [|[k' v'] m IH]; simpl.
  - intros [H|[]]; auto.
  - destruct (String.eqb k k') eqn:E; simpl.
    + apply String.eqb_eq in E. subst. intros [H|H]; auto.
    + intros [H|H]; auto. destruct (IH H); auto.
Qed.

Lemma updateCell_In h : forall loc c x,
  In x (updateCell h loc c) -> x = c \/ In x h.
Proof.
  induction h as [|y h IH]; intros loc c x; simpl; [tauto|].
  destruct loc; simpl.
  - intros [H|H]; auto.
  - intros [H|H]; auto. destruct (IH _ _ _ H); auto.
Qed.

Lemma emit_untouched x ev :
  node_id (eventNode ev) <> x -> preserves (Untouched x) (emit ev).
Proof.
  intros Hne st [H1 H2 H3]. constructor; simpl; auto.
  intros ev' Hin. apply in_app_iff in Hin. destruct Hin as [Hin|[<-|[]]]; auto.
Qed.

Lemma setResult_untouched x k r :
  k <> x -> preserves (Untouched x) (setResult k r).
Proof.
  intros Hne st [H1 H2 H3]. constructor; simpl; auto.
  intros Hin. apply map_keys_set_in in Hin. destruct Hin; auto.
Qed.

Lemma stage_untouched x td node outs c :
  node_id node <> x -> preserves (Untouched x) (stage td node outs c).
Proof.
  intros Hne. unfold stage.
  destruct (from c) as [src|]; [|apply preserves_throw].
  destruct (find _ (outputs node)) as [[intfKey ?]|]; [|apply preserves_throw].
  destruct (String.eqb intfKey ""); [apply preserves_throw|].
  apply preserves_bindR; [now apply emit_untouched|]. intros _.
  destruct (allowMultipleConnections (to c)).
  - intros st [H1 H2 H3].
    destruct (map_get (run_inputs st) (intf_id (to c))) as [target|].
    + unfold push. destruct target; try (constructor; auto; fail).
      destruct (nth_error (run_heap st) loc) as [[elems|]|];
        try (constructor; auto; fail).
      constructor; simpl; auto.
      intros entries Hin. apply updateCell_In in Hin.
      destruct Hin as [Hin|Hin]; [discriminate|auto].
    + constructor; simpl; auto.
      intros entries Hin. apply in_app_iff in Hin.
      destruct Hin as [Hin|[Hin|[]]]; [auto|discriminate].
  - intros st [H1 H2 H3]. constructor; simpl; auto.
Qed.

Lemma mergeSubgraphResult_untouched x ov :
  preserves (Untouched x) (mergeSubgraphResult ov).
Proof.
  intros st U. unfold mergeSubgraphResult.
  destruct (subgraphResultOf (run_heap st) ov) as [[entries|]|e] eqn:Hs; auto.
  assert (Havoid : ~ In x (map_keys entries)).
  { apply subgraphResultOf_entries in Hs. destruct Hs as [->|Hs]; [tauto|].
    now apply (un_heap _ _ U). }
  revert U. apply preserves_forEachR. intros kv Hkv.
  apply setResult_untouched. intros E. apply Havoid. rewrite <- E.
  apply (in_map fst) in Hkv. exact Hkv.
Qed.

Lemma visitNode_untouched x td hint cd cfn node :
  node_id node <> x -> calculateAvoids x node ->
  preserves (Untouched x) (visitNode td hint cd cfn node).
Proof.
  intros Hne Havoid. unfold visitNode.
  destruct (calculate node) as [calc|] eqn:Hcalc; [|apply preserves_ret].
  assert (Hinner : forall iv ch,
            preserves (Untouched x)
              (emit (BeforeNodeCalculation iv node) ;;;
               outputValues <~
                 (if mustCalculate hint node ch
                  then callCalculate calc node iv cd
                  else ret (currentOutputValues node)) ;;;
               finishNode td cfn node iv outputValues)).
  2:{ intros st Hst. cbv beta.
      destruct (resolveInputs (run_inputs st) (run_heap st) node) as [iv ch].
      now apply Hinner. }
  intros iv ch.
  apply preserves_bindR; [now apply emit_untouched|]. intros _.
  apply preserves_bindR.
  - destruct (mustCalculate hint node ch); [|apply preserves_ret].
    unfold callCalculate.
    apply preserves_bindR; [now apply emit_untouched|]. intros _.
    intros st [H1 H2 H3].
    destruct (calc (run_heap st) iv cd) as [[ov cells]|e] eqn:Hc;
      constructor; simpl; auto.
    intros entries Hin. apply in_app_iff in Hin. destruct Hin as [Hin|Hin].
    + now apply H3.
    + apply (Havoid calc _ _ _ _ _ Hcalc Hc entries Hin).
  - intros ov. unfold finishNode.
    apply preserves_bindR; [apply preserves_lift|]. intros _.
    apply preserves_bindR; [now apply emit_untouched|]. intros _.
    apply preserves_bindR; [now apply setResult_untouched|]. intros _.
    apply preserves_bindR; [apply mergeSubgraphResult_untouched|]. intros _.
    destruct (refmap_get cfn (node_ref node)); [|apply preserves_ret].
    apply preserves_forEachR. intros c _. now apply stage_untouched.
Qed.

Lemma calculateComponents_untouched x td u cd components :
  (forall component node,
     In component components ->
     find (findUpdated u) (calculationOrder component) <> None ->
     In node (calculationOrder component) ->
     node_id node <> x /\ calculateAvoids x node) ->
  preserves (Untouched x) (calculateComponents td (Some u) cd components).
Proof.
  intros H. unfold calculateComponents.
  apply preserves_forEachR. intros component Hc.
  destruct (find (findUpdated u) (calculationOrder component)) eqn:Hf;
    [|apply preserves_ret].
  unfold calculateComponent. apply preserves_forEachR. intros node Hn.
  destruct (H component node Hc) as [H1 H2]; auto; [congruence|].
  now apply visitNode_untouched.
Qed.

Lemma runGraph_components engine graph staged h cd components :
  componentsOf engine graph = Returns components ->
  exists engine',
    runGraph engine graph staged h cd
    = (let '(st, r) := calculateComponents (transferData engine)
                         (updatedNode engine) cd components
                         (mkRun staged h [] []) in
       (engine', st, match r with
                     | Returns _ => Returns (run_result st)
                     | Throws e => Throws e
                     end)).
Proof.
  unfold componentsOf, runGraph, map_has. intros H.
  destruct (map_get (order engine) (graph_id graph)) as [cs|] eqn:Hget.
  - cbn [bind] in H. inversion H; subst components. rewrite Hget. eexists.
    destruct (calculateComponents _ _ _ _ _) as [st [[]|e]]; reflexivity.
  - destruct (getSortedComponents (OfGraph graph) None) as [cs|e];
      [|discriminate].
    cbn [bind] in H. inversion H; subst components.
    cbn [bind]. rewrite map_get_set_eq. eexists.
    destruct (calculateComponents _ _ _ _ _) as [st [[]|e]]; reflexivity.
Qed.

(** C6. In a run with an updated-node hint [u], a sorted component without
    a node of the id of [u] is left out: for each of its nodes [n] (its id
    being the id of no node of a component that is walked, and of no entry
    of a nested result), no calculation step of [n] is called, no
    notification is about [n], and the returned result has no entry under
    the id of [n]. *)
Theorem runGraph_skips_components_without_hint :
  forall engine graph staged h cd u components component n,
    updatedNode engine = Some u ->
    componentsOf engine graph = Returns components ->
    In component components ->
    find (findUpdated u) (calculationOrder component) = None ->
    In n (calculationOrder component) ->
    (forall component' n',
       In component' components ->
       find (findUpdated u) (calculationOrder component') <> None ->
       In n' (calculationOrder component') ->
       node_id n' <> node_id n /\ calculateAvoids (node_id n) n') ->
    nestedAvoid (node_id n) h ->
    let '(_, st, r) := runGraph engine graph staged h cd in
    (forall ev, In ev (run_trace st) -> node_id (eventNode ev) <> node_id n)
    /\ (forall result, r = Returns result ->
          ~ In (node_id n) (map_keys result)).
Proof.
  intros engine graph staged h cd u components component n
         Hhint Hcomps Hin Hskip Hn Hothers Hheap.
  destruct (runGraph_components engine graph staged h cd components Hcomps)
    as [engine' Hrun].
  rewrite Hrun, Hhint.
  pose proof (calculateComponents_untouched (node_id n) (transferData engine)
                u cd components Hothers (mkRun staged h [] [])) as HU.
  destruct (calculateComponents (transferData engine) (Some u) cd components
              (mkRun staged h [] [])) as [st r].
  cbn [fst] in HU.
  assert (U : Untouched (node_id n) st).
  { apply HU. constructor; simpl; auto. }
  split.
  - apply (un_trace _ _ U).
  - intros result Hr. destruct r; inversion Hr; subst.
    apply (un_result _ _ U).
Qed.

(* ================================================================== *)
(** * Claim on the staging of propagated values *)
(* ================================================================== *)

(** The values the [transferData] hook returned for the connections that
    lead to port [P], in the order of the trace. *)
Fixpoint contributions (P : string) (evs : list event) : list jsvalue :=
  match evs with
  | [] => []
  | TransferData _ c v :: evs' =>
      if String.eqb (intf_id (to c)) P then v :: contributions P evs'
      else contributions P evs'
  | _ :: evs' => contributions P evs'
  end.

Lemma contributions_app P evs1 evs2 :
  contributions P (evs1 ++ evs2) = contributions P evs1 ++ contributions P evs2.
Proof.
  induction evs1 as [|ev evs1 IH]; simpl; auto.
  destruct ev; auto.
  destruct (String.eqb (intf_id (to connection)) P); simpl; now rewrite IH.
Qed.

Lemma nth_error_updateCell_eq h : forall loc c,
  loc < length h -> nth_error (updateCell h loc c) loc = Some c.
Proof.
  induction h as [|x h IH]; intros loc c Hlt; simpl in *; [lia|].
  destruct loc; simpl; auto. apply IH. lia.
Qed.

Lemma nth_error_updateCell_ne h : forall loc loc' c,
  loc <> loc' -> nth_error (updateCell h loc c) loc' = nth_error h loc'.
Proof.
  induction h as [|x h IH]; intros loc loc' c Hne; simpl.
  - destruct loc'; reflexivity.
  - destruct loc, loc'; simpl; auto; try congruence.
Qed.

Section Staging.

(** The ports that accept several connections, by id. *)
Variable multi : string -> bool.
(** The staging map the run starts with. *)
Variable staged0 : jsmap jsvalue.

Record StagedInv (st : RunState) : Prop := {
  si_multi : forall P, multi P = true ->
    match map_get (run_inputs st) P with
    | None => contributions P (run_trace st) = []
    | Some v =>
        exists loc, v = VObject loc
                    /\ nth_error (run_heap st) loc
                       = Some (CArray (contributions P (run_trace st)))
                    /\ contributions P (run_trace st) <> []
    end;
  si_distinct : forall P Q loc, multi P = true -> multi Q = true ->
    map_get (run_inputs st) P = Some (VObject loc) ->
    map_get (run_inputs st) Q = Some (VObject loc) -> P = Q;
  si_single : forall Q, multi Q = false ->
    match rev (contributions Q (run_trace st)) with
    | [] => map_get (run_inputs st) Q = map_get staged0 Q
    | v :: _ => map_get (run_inputs st) Q = Some v
    end
}.

Lemma staged_same_inputs_heap st st' :
  run_inputs st' = run_inputs st ->
  (forall loc c, nth_error (run_heap st) loc = Some c ->
                 nth_error (run_heap st') loc = Some c) ->
  (forall P, contributions P (run_trace st') = contributions P (run_trace st)) ->
  StagedInv st -> StagedInv st'.
Proof.
  intros Hi Hh Hc [H1 H2 H3]. constructor.
  - intros P HP. specialize (H1 P HP). rewrite Hi, Hc.
    destruct (map_get (run_inputs st) P); auto.
    destruct H1 as [loc [-> [Hn Hne]]]. exists loc. auto.
  - intros P Q loc. rewrite Hi. apply H2.
  - intros Q HQ. specialize (H3 Q HQ). now rewrite Hi, Hc.
Qed.

Lemma emit_staged ev :
  (forall n c v, ev <> TransferData n c v) -> preserves StagedInv (emit ev).
Proof.
  intros Hev st. apply staged_same_inputs_heap; simpl; auto.
  intros P. rewrite contributions_app. simpl.
  destruct ev; try (now rewrite app_nil_r).
  exfalso. eapply Hev; eauto.
Qed.

Lemma setResult_staged k r : preserves StagedInv (setResult k r).
Proof. intros st. apply staged_same_inputs_heap; simpl; auto. Qed.

Lemma mergeSubgraphResult_staged ov : preserves StagedInv (mergeSubgraphResult ov).
Proof.
  intros st. unfold mergeSubgraphResult.
  destruct (subgraphResultOf (run_heap st) ov) as [[entries|]|e]; auto.
  destruct (setEntries_result entries st) as [Ht [Hi [Hh _]]].
  apply staged_same_inputs_heap; auto.
  - intros loc c. now rewrite Hh.
  - intros P. now rewrite Ht.
Qed.

Lemma callCalculate_staged calc node iv cd :
  preserves StagedInv (callCalculate calc node iv cd).
Proof.
  unfold callCalculate. apply preserves_bindR.
  - apply emit_staged. discriminate.
  - intros _ st.
    destruct (calc (run_heap st) iv cd) as [[ov cells]|e]; auto.
    apply staged_same_inputs_heap; simpl; auto.
    intros loc c Hn. rewrite nth_error_app1; auto.
    apply nth_error_Some. congruence.
Qed.

Lemma stage_staged td node outs c :
  allowMultipleConnections (to c) = multi (intf_id (to c)) ->
  preserves StagedInv (stage td node outs c).
Proof.
  intros Hflag. unfold stage.
  destruct (from c) as [src|]; [|apply preserves_throw].
  destruct (find _ (outputs node)) as [[intfKey ?]|]; [|apply preserves_throw].
  destruct (String.eqb intfKey ""); [apply preserves_throw|].
  set (v := td _ c). set (P := intf_id (to c)) in *.
  intros st [H1 H2 H3]. rewrite run_emit.
  assert (HcP : contributions P (run_trace st ++ [TransferData node c v])
                = contributions P (run_trace st) ++ [v]).
  { rewrite contributions_app. simpl. fold P. now rewrite String.eqb_refl. }
  assert (HcQ : forall Q, Q <> P ->
            contributions Q (run_trace st ++ [TransferData node c v])
            = contributions Q (run_trace st)).
  { intros Q HQ. rewrite contributions_app. simpl. fold P.
    destruct (String.eqb P Q) eqn:E.
    - apply String.eqb_eq in E. congruence.
    - now rewrite app_nil_r. }
  rewrite Hflag. destruct (multi P) eqn:HmP.
  - cbn [run_inputs].
    pose proof (H1 P HmP) as HP.
    destruct (map_get (run_inputs st) P) as [target|] eqn:Hget.
    + destruct HP as [loc [-> [Hloc Hnonempty]]].
      unfold push. cbn [run_heap run_inputs run_result run_trace].
      rewrite Hloc. cbn [fst].
      assert (Hlt : loc < length (run_heap st)).
      { apply nth_error_Some. congruence. }
      constructor; cbn [run_heap run_inputs run_result run_trace].
      * intros Q HQ. destruct (string_dec Q P) as [->|Hne].
        -- rewrite Hget. exists loc. split; auto.
           rewrite HcP. split; [now apply nth_error_updateCell_eq|].
           intros E. apply app_eq_nil in E. destruct E; discriminate.
        -- specialize (H1 Q HQ). rewrite (HcQ Q Hne).
           destruct (map_get (run_inputs st) Q) as [w|] eqn:HgetQ; auto.
           destruct H1 as [locQ [-> [HlocQ HneQ]]]. exists locQ.
           split; auto. split; auto.
           rewrite nth_error_updateCell_ne; auto.
           intros ->. apply Hne. symmetry. eapply (H2 P Q); eauto.
      * exact H2.
      * intros Q HQ. assert (Hne : Q <> P) by congruence.
        rewrite (HcQ Q Hne). now apply H3.
    + unfold bindR, allocArray, setInput.
      cbn [fst snd run_heap run_inputs run_result run_trace].
      constructor; cbn [run_heap run_inputs run_result run_trace].
      * intros Q HQ. rewrite map_get_set.
        destruct (String.eqb P Q) eqn:E.
        -- apply String.eqb_eq in E. subst Q.
           exists (length (run_heap st)). split; auto.
           rewrite HcP, HP. rewrite nth_error_app2 by lia.
           rewrite Nat.sub_diag. split; [reflexivity|discriminate].
        -- apply String.eqb_neq in E.
           specialize (H1 Q HQ). rewrite (HcQ Q) by congruence.
           destruct (map_get (run_inputs st) Q) as [w|]; auto.
           destruct H1 as [locQ [-> [HlocQ HneQ]]]. exists locQ.
           split; auto. split; auto.
           rewrite nth_error_app1; auto. apply nth_error_Some. congruence.
      * assert (Hfresh : forall Q, multi Q = true ->
                  map_get (run_inputs st) Q
                  <> Some (VObject (length (run_heap st)))).
        { intros Q HQ Hq. specialize (H1 Q HQ). rewrite Hq in H1.
          destruct H1 as [l [[= <-] [Hl _]]].
          assert (length (run_heap st) < length (run_heap st)); [|lia].
          apply nth_error_Some. congruence. }
        intros Q1 Q2 loc HQ1 HQ2. rewrite !map_get_set.
        destruct (String.eqb P Q1) eqn:E1, (String.eqb P Q2) eqn:E2.
        -- apply String.eqb_eq in E1, E2. congruence.
        -- intros [= <-] Hq. exfalso. apply (Hfresh Q2 HQ2 Hq).
        -- intros Hq [= <-]. exfalso. apply (Hfresh Q1 HQ1 Hq).
        -- apply H2; auto.
      * intros Q HQ. assert (Hne : Q <> P) by congruence.
        rewrite (HcQ Q Hne), map_get_set.
        destruct (String.eqb P Q) eqn:E.
        -- apply String.eqb_eq in E. congruence.
        -- now apply H3.
  - unfold setInput. cbn [fst run_heap run_inputs run_result run_trace].
    constructor; cbn [run_heap run_inputs run_result run_trace].
    + intros Q HQ. assert (Hne : Q <> P) by congruence.
      rewrite (HcQ Q Hne), map_get_set.
      destruct (String.eqb P Q) eqn:E.
      * apply String.eqb_eq in E. congruence.
      * now apply H1.
    + intros Q1 Q2 loc HQ1 HQ2. rewrite !map_get_set.
      destruct (String.eqb P Q1) eqn:E1.
      { apply String.eqb_eq in E1. congruence. }
      destruct (String.eqb P Q2) eqn:E2.
      { apply String.eqb_eq in E2. congruence. }
      apply H2; auto.
    + intros Q HQ. rewrite map_get_set.
      destruct (String.eqb P Q) eqn:E.
      * apply String.eqb_eq in E. subst Q. rewrite HcP, rev_app_distr.
        reflexivity.
      * apply String.eqb_neq in E. rewrite (HcQ Q) by congruence.
        now apply H3.
Qed.

(** The connections of [cfn] carry the flag of the port they lead to. *)
Definition flagsAgree (cfn : refmap (list IConnection)) : Prop :=
  forall ref cs c, refmap_get cfn ref = Some cs -> In c cs ->
    allowMultipleConnections (to c) = multi (intf_id (to c)).

Lemma visitNode_staged td hint cd cfn node :
  flagsAgree cfn -> preserves StagedInv (visitNode td hint cd cfn node).
Proof.
  intros Hflags. unfold visitNode.
  destruct (calculate node) as [calc|]; [|apply preserves_ret].
  assert (Hinner : forall iv ch,
            preserves StagedInv
              (emit (BeforeNodeCalculation iv node) ;;;
               outputValues <~
                 (if mustCalculate hint node ch
                  then callCalculate calc node iv cd
                  else ret (currentOutputValues node)) ;;;
               finishNode td cfn node iv outputValues)).
  2:{ intros st Hst. cbv beta.
      destruct (resolveInputs (run_inputs st) (run_heap st) node) as [iv ch].
      now apply Hinner. }
  intros iv ch.
  apply preserves_bindR; [apply emit_staged; discriminate|]. intros _.
  apply preserves_bindR.
  - destruct (mustCalculate hint node ch);
      [apply callCalculate_staged|apply preserves_ret].
  - intros ov. unfold finishNode.
    apply preserves_bindR; [apply preserves_lift|]. intros _.
    apply preserves_bindR; [apply emit_staged; discriminate|]. intros _.
    apply preserves_bindR; [apply setResult_staged|]. intros _.
    apply preserves_bindR; [apply mergeSubgraphResult_staged|]. intros _.
    destruct (refmap_get cfn (node_ref node)) as [cs|] eqn:Hcs;
      [|apply preserves_ret].
    apply preserves_forEachR. intros c Hc. apply stage_staged.
    eapply Hflags; eauto.
Qed.

Lemma calculateComponents_staged td hint cd components :
  (forall component, In component components ->
     flagsAgree (connectionsFromNode component)) ->
  preserves StagedInv (calculateComponents td hint cd components).
Proof.
  intros H. unfold calculateComponents.
  apply preserves_forEachR. intros component Hc.
  assert (Hcomp : preserves StagedInv (calculateComponent td hint cd component)).
  { unfold calculateComponent. apply preserves_forEachR. intros node _.
    apply visitNode_staged. now apply H. }
  destruct hint as [u|]; auto.
  destruct (find (findUpdated u) (calculationOrder component)); auto.
  apply preserves_ret.
Qed.

End Staging.

(* ================================================================== *)
(** * Claim on result application *)
(* ================================================================== *)

Definition writeOutputs (outs : jsmap jsvalue) (node : AbstractNode)
  : AbstractNode :=
  fold_left writeOutput outs node.

Lemma writeOutputs_frame outs : forall node,
  node_id (writeOutputs outs node) = node_id node
  /\ node_ref (writeOutputs outs node) = node_ref node
  /\ inputs (writeOutputs outs node) = inputs node
  /\ map_keys (outputs (writeOutputs outs node)) = map_keys (outputs node).
Proof.
  unfold writeOutputs.
  induction outs as [|[k v] outs IH]; intros node; simpl; auto.
  destruct (IH (writeOutput node (k, v))) as [H1 [H2 [H3 H4]]].
  rewrite H1, H2, H3, H4. unfold writeOutput. simpl.
  destruct (map_get (outputs node) k) as [intf|] eqn:E; simpl; auto.
  repeat split; auto. apply map_keys_set_present.
  apply map_get_in_keys. eauto.
Qed.

(** The value [outs] asks for under [key], [v] when it asks for none. *)
Definition askedValue (outs : jsmap jsvalue) (key : string) (v : jsvalue)
  : jsvalue :=
  match map_get outs key with
  | Some w => w
  | None => v
  end.

Lemma writeOutputs_get outs : forall node key,
  NoDup (map_keys outs) ->
  map_get (outputs (writeOutputs outs node)) key
  = option_map (fun intf => setValue (askedValue outs key (value intf)) intf)
               (map_get (outputs node) key).
Proof.
  unfold writeOutputs, askedValue.
  induction outs as [|[k v] outs IH]; intros node key Hnd; simpl.
  - destruct (map_get (outputs node) key) as [intf|]; simpl; auto.
    destruct intf; reflexivity.
  - inversion Hnd; subst. rewrite IH by assumption.
    assert (Hnone : String.eqb key k = true -> map_get outs key = None).
    { intros E. apply String.eqb_eq in E. subst.
      destruct (map_get outs k) eqn:G; auto.
      exfalso. apply H1. apply map_get_in_keys. eauto. }
    unfold writeOutput. simpl.
    destruct (map_get (outputs node) k) as [intf|] eqn:Hk; simpl.
    + rewrite map_get_set. destruct (String.eqb k key) eqn:E.
      * apply String.eqb_eq in E. subst key. rewrite Hk, String.eqb_refl.
        simpl. rewrite (Hnone (String.eqb_refl k)). reflexivity.
      * rewrite String.eqb_sym, E. reflexivity.
    + destruct (String.eqb key k) eqn:E; auto.
      apply String.eqb_eq in E. subst key. now rewrite Hk.
Qed.

Lemma updateAt_first (p : AbstractNode -> bool) (f : AbstractNode -> AbstractNode) :
  forall l,
  (forall x y, In x l -> In y l -> p x = true -> p y = true -> x = y) ->
  NoDup l ->
  match findIndex p l with
  | Some index => updateAt index f l
  | None => l
  end = map (fun n => if p n then f n else n) l.
Proof.
  induction l as [|x l IH]; intros Huniq Hnd; simpl; auto.
  inversion Hnd; subst.
  destruct (p x) eqn:E; simpl.
  - f_equal. symmetry. rewrite <- (map_id l) at 2. apply map_ext_in.
    intros y Hy. destruct (p y) eqn:Ey; auto.
    exfalso. assert (x = y) by (apply Huniq; simpl; auto). congruence.
  - rewrite <- IH; auto.
    + destruct (findIndex p l); reflexivity.
    + intros a b Ha Hb. apply Huniq; simpl; auto.
Qed.

Lemma applyEntry_map nodes entry :
  NoDup (map node_id nodes) ->
  applyEntry nodes entry
  = map (fun n => if String.eqb (node_id n) (fst entry)
                  then writeOutputs (res_outputs (snd entry)) n else n) nodes.
Proof.
  intros Hnd. unfold applyEntry.
  apply (updateAt_first (fun n => String.eqb (node_id n) (fst entry))
           (fun node => fold_left writeOutput (res_outputs (snd entry)) node)).
  - intros x y Hx Hy Ex Ey. apply String.eqb_eq in Ex, Ey.
    apply (map_injective_on node_id nodes); auto. congruence.
  - eapply NoDup_map_inv; eauto.
Qed.

(** What the entries of [result] make of one node. *)
Definition applyTo (result : CalculationResult) (node : AbstractNode)
  : AbstractNode :=
  fold_left (fun n entry => if String.eqb (node_id n) (fst entry)
                            then writeOutputs (res_outputs (snd entry)) n
                            else n)
            result node.

Lemma applyTo_id result : forall node,
  node_id (applyTo result node) = node_id node.
Proof.
  unfold applyTo. induction result as [|e result IH]; intros node; simpl; auto.
  rewrite IH. destruct (String.eqb (node_id node) (fst e)); auto.
  apply writeOutputs_frame.
Qed.

Lemma applyResult_nodes result : forall nodes,
  NoDup (map node_id nodes) ->
  fold_left applyEntry result nodes = map (applyTo result) nodes.
Proof.
  induction result as [|e result IH]; intros nodes Hnd; simpl.
  - now rewrite map_id.
  - rewrite applyEntry_map by assumption. rewrite IH.
    + rewrite map_map. reflexivity.
    + rewrite map_map.
      erewrite map_ext; [exact Hnd|].
      intros n. simpl. destruct (String.eqb (node_id n) (fst e)); auto.
      apply writeOutputs_frame.
Qed.

Lemma applyTo_entry result : forall node,
  NoDup (map_keys result) ->
  applyTo result node
  = match map_get result (node_id node) with
    | Some r => writeOutputs (res_outputs r) node
    | None => node
    end.
Proof.
  induction result as [|[k r] result IH]; intros node Hnd; simpl; auto.
  inversion Hnd; subst. unfold applyTo in *. simpl.
  destruct (String.eqb (node_id node) k) eqn:E.
  - apply String.eqb_eq in E. subst k. rewrite IH by assumption.
    destruct (writeOutputs_frame (res_outputs r) node) as [Hid _].
    rewrite Hid.
    destruct (map_get result (node_id node)) eqn:G; auto.
    exfalso. apply H1. apply map_get_in_keys. eauto.
  - now apply IH.
Qed.

(** The value the result asks for in the output port [key] of the node of
    id [nid], [v] when it asks for none. *)
Definition resultValue (result : CalculationResult) (nid key : string)
  (v : jsvalue) : jsvalue :=
  match map_get result nid with
  | Some r => askedValue (res_outputs r) key v
  | None => v
  end.

(** C9. For every calculation result and graph owner (node ids distinct,
    the keys of the result and of its output maps distinct, as in a [Map]),
    [applyResult] returns: it raises nothing; it leaves ids, inputs and the
    output keys of every node as they were; every output port ends with the
    value the entry of its node lists under its key, and with its own value
    when the result has no entry for the node or the entry none for the
    key; so an entry whose id is no node's changes nothing. *)
Theorem applyResult_writes_listed_outputs :
  forall result editor,
    NoDup (map node_id (graph_nodes (editor_graph editor))) ->
    NoDup (map_keys result) ->
    (forall nid r, In (nid, r) result -> NoDup (map_keys (res_outputs r))) ->
    exists editor',
      applyResult result editor = Returns editor'
      /\ graph_connections (editor_graph editor')
         = graph_connections (editor_graph editor)
      /\ Forall2
           (fun node node' =>
              node_id node' = node_id node
              /\ inputs node' = inputs node
              /\ map_keys (outputs node') = map_keys (outputs node)
              /\ forall key,
                   map_get (outputs node') key
                   = option_map
                       (fun intf =>
                          setValue (resultValue result (node_id node) key
                                                (value intf)) intf)
                       (map_get (outputs node) key))
           (graph_nodes (editor_graph editor))
           (graph_nodes (editor_graph editor'))
      /\ ((forall nid r, In (nid, r) result ->
             ~ In nid (map node_id (graph_nodes (editor_graph editor)))) ->
          graph_nodes (editor_graph editor')
          = graph_nodes (editor_graph editor)).
Proof.
  intros result editor Hnodes Hkeys Houts.
  eexists. split; [reflexivity|]. cbn [editor_graph graph_connections graph_nodes].
  split; [reflexivity|].
  rewrite (applyResult_nodes result _ Hnodes).
  assert (Hto : forall node,
            applyTo result node
            = match map_get result (node_id node) with
              | Some r => writeOutputs (res_outputs r) node
              | None => node
              end).
  { intros node. now apply applyTo_entry. }
  split.
  - clear Hnodes.
    induction (graph_nodes (editor_graph editor)) as [|node nodes IH]; simpl;
      constructor; auto.
    rewrite Hto. unfold resultValue.
    destruct (map_get result (node_id node)) as [r|] eqn:Hr.
    + destruct (writeOutputs_frame (res_outputs r) node) as [H1 [_ [H3 H4]]].
      repeat split; auto. intros key. apply writeOutputs_get.
      apply (Houts (node_id node) r). now apply map_get_in.
    + repeat split; auto. intros key.
      destruct (map_get (outputs node) key) as [intf|]; simpl; auto.
      destruct intf; reflexivity.
  - intros Hunknown. rewrite <- (map_id (graph_nodes (editor_graph editor))) at 2.
    apply map_ext_in. intros node Hn. rewrite Hto.
    destruct (map_get result (node_id node)) as [r|] eqn:Hr; auto.
    exfalso. apply (Hunknown (node_id node) r).
    + now apply map_get_in.
    + now apply in_map.
Qed.

(* ================================================================== *)
(** * The claims on the graphs of the test-suite *)
(* ================================================================== *)

Definition wellFormedGraphb (nodes : list AbstractNode)
  (connections : list IConnection) : bool :=
  wellFormedb nodes connections
  && forallb (fun c =>
       existsb (fun m => set_has (portIds m) (intf_id (to c))) nodes
       && forallb (fun n =>
            negb (set_has (portIds n) (intf_id (to c)))
            || String.eqb (nodeId (to c)) (node_id n)) nodes
       && match from c with
          | Some p =>
              forallb (fun n =>
                negb (set_has (portIds n) (intf_id p))
                || String.eqb (nodeId p) (node_id n)) nodes
          | None => true
          end) connections.

Lemma wellFormedGraphb_WellFormedGraph nodes connections :
  wellFormedGraphb nodes connections = true ->
  WellFormedGraph nodes connections.
Proof.
  unfold wellFormedGraphb. intros H.
  apply andb_true_iff in H. destruct H as [H1 H2].
  rewrite forallb_forall in H2.
  constructor.
  - now apply wellFormedb_WellFormed.
  - intros c Hc. specialize (H2 c Hc).
    apply andb_true_iff in H2. destruct H2 as [H2 _].
    apply andb_true_iff in H2. destruct H2 as [H2 _].
    apply existsb_exists in H2. destruct H2 as [m [Hm Hp]].
    exists m. split; auto. now apply set_has_In.
  - intros c p n Hc Hp Hn Ho. specialize (H2 c Hc).
    apply andb_true_iff in H2. destruct H2 as [_ H2].
    rewrite Hp in H2. rewrite forallb_forall in H2. specialize (H2 n Hn).
    apply orb_true_iff in H2. destruct H2 as [H2|H2].
    + apply negb_true_iff in H2. apply set_has_false in H2. contradiction.
    + now apply String.eqb_eq.
  - intros c n Hc Hn Ho. specialize (H2 c Hc).
    apply andb_true_iff in H2. destruct H2 as [H2 _].
    apply andb_true_iff in H2. destruct H2 as [_ H2].
    rewrite forallb_forall in H2. specialize (H2 n Hn).
    apply orb_true_iff in H2. destruct H2 as [H2|H2].
    + apply negb_true_iff in H2. apply set_has_false in H2. contradiction.
    + now apply String.eqb_eq.
Qed.

Definition sixRanks : jsmap nat :=
  [("node1", 0); ("node2", 1); ("node3", 0); ("node4", 0); ("node5", 1);
   ("node6", 1)].

Lemma sortTopologically_orders_acyclic_input_witness :
  WellFormed sixNodes threeConnections
  /\ ~ hasCycle sixNodes threeConnections
  /\ exists r,
       sortTopologically (OfNodes sixNodes) (Some threeConnections) = Returns r
       /\ Permutation (calculationOrder r) sixNodes
       /\ forall c p u v,
            In c threeConnections -> from c = Some p ->
            In u sixNodes -> In v sixNodes -> owns u p -> owns v (to c) ->
            exists i j,
              nth_error (calculationOrder r) i = Some u
              /\ nth_error (calculationOrder r) j = Some v
              /\ i < j.
Proof.
  assert (wf : WellFormed sixNodes threeConnections).
  { apply wellFormedb_WellFormed. vm_compute. reflexivity. }
  assert (ac : ~ hasCycle sixNodes threeConnections).
  { apply (rankedb_acyclic (rankOf sixRanks)). vm_compute. reflexivity. }
  split; [exact wf|]. split; [exact ac|].
  exact (sortTopologically_orders_acyclic_input
           (OfNodes sixNodes) (Some threeConnections)
           sixNodes threeConnections eq_refl wf ac).
Defined.

Lemma sortTopologically_throws_iff_cycle_witness :
  WellFormed cycleNodes cycleConnections
  /\ hasCycle cycleNodes cycleConnections
  /\ sortTopologically (OfNodes cycleNodes) (Some cycleConnections)
     = Throws CycleError
  /\ containsCycle (OfNodes cycleNodes) (Some cycleConnections) = Returns true.
Proof.
  assert (wf : WellFormed cycleNodes cycleConnections).
  { apply wellFormedb_WellFormed. vm_compute. reflexivity. }
  assert (cyc : hasCycle cycleNodes cycleConnections).
  { exists node1. apply t_trans with node2; apply t_step.
    - split; [now left|]. split; [right; now left|].
      exists (connect "a" node1 "c" node2 "a"), (port "node1" "c" VUndefined false 0).
      split; [now left|]. split; [reflexivity|].
      split; vm_compute; tauto.
    - split; [right; now left|]. split; [now left|].
      exists (connect "b" node2 "c" node1 "a"), (port "node2" "c" VUndefined false 0).
      split; [right; now left|]. split; [reflexivity|].
      split; vm_compute; tauto. }
  split; [exact wf|]. split; [exact cyc|].
  exact (proj1 (sortTopologically_throws_iff_cycle
                  (OfNodes cycleNodes) (Some cycleConnections)
                  cycleNodes cycleConnections eq_refl wf) cyc).
Defined.

Lemma connectedComponents_partition_witness :
  WellFormedGraph sixNodes threeConnections
  /\ exists components,
       connectedComponents (OfNodes sixNodes) (Some threeConnections)
       = Returns components
       /\ Permutation (flat_map gc_nodes components) sixNodes
       /\ (forall i j Ki Kj n,
             i <> j -> nth_error components i = Some Ki ->
             nth_error components j = Some Kj ->
             In n (gc_nodes Ki) -> ~ In n (gc_nodes Kj))
       /\ (forall K u v,
             In K components ->
             clos_refl_trans AbstractNode (linked sixNodes threeConnections) u v ->
             In u (gc_nodes K) -> In v (gc_nodes K))
       /\ (forall K, In K components ->
             Permutation (gc_connections K)
                         (filter (endpointIn K) threeConnections)).
Proof.
  assert (wfg : WellFormedGraph sixNodes threeConnections).
  { apply wellFormedGraphb_WellFormedGraph. vm_compute. reflexivity. }
  split; [exact wfg|].
  exact (connectedComponents_partition
           (OfNodes sixNodes) (Some threeConnections)
           sixNodes threeConnections eq_refl wfg).
Defined.

(** The nodes of [hintedGraph] and fresh [TestNode]s of the same ids. *)
Definition freshNodes : list AbstractNode :=
  [TestNode 1 "n1"; TestNode 2 "n2"; TestNode 3 "n3"; TestNode 4 "n4"].
Definition freshConnections : list IConnection :=
  [connect "c1" (TestNode 1 "n1") "c" (TestNode 2 "n2") "a";
   connect "c2" (TestNode 2 "n2") "c" (TestNode 3 "n3") "a"].

(** The state in which the second node of [hintedGraph] is visited with its
    stored input staged again. *)
Definition unchangedState : RunState :=
  mkRun [("n2.a", VNumber 2); ("n2.b", VNumber 1)] [] [] [].

Definition identityHook : jsvalue -> IConnection -> jsvalue := fun v _ => v.

(** The resolved inputs of the second node of [hintedGraph] do not differ
    from its stored ones in [unchangedState]. *)
Lemma unchangedState_same k intf :
  In (k, intf) (inputs hinted2) ->
  strictlyEqual
    match map_get (run_inputs unchangedState) (intf_id intf) with
    | Some s => s
    | None => value intf
    end (value intf).
Proof.
  intros [H|[H|[]]]; inversion H; subst; left;
    (split; [reflexivity|discriminate]).
Qed.

Lemma runGraph_calculates_iff_needed_witness :
  calculate hinted2 = Some testCalculate
  /\ NoDup (map_keys (inputs hinted2))
  /\ NoDup (map_keys (outputs hinted2))
  /\ exists evs,
       run_trace (fst (visitNode identityHook (Some hinted1) VUndefined []
                                 hinted2 unchangedState))
       = [BeforeNodeCalculation [("a", VNumber 2); ("b", VNumber 1)] hinted2;
          AfterNodeCalculation [("c", VNumber 3); ("d", VNumber 1)] hinted2]
         ++ evs
       /\ existsb isCalculate evs = false.
Proof.
  assert (Hnd : NoDup (map_keys (inputs hinted2))).
  { apply nodupb_NoDup. vm_compute. reflexivity. }
  assert (Hout : NoDup (map_keys (outputs hinted2))).
  { apply nodupb_NoDup. vm_compute. reflexivity. }
  split; [reflexivity|]. split; [exact Hnd|]. split; [exact Hout|].
  destruct (runGraph_calculates_iff_needed
              identityHook (Some hinted1) VUndefined [] hinted2 testCalculate
              unchangedState eq_refl Hnd Hout) as [evs [Ht [_ [_ Hno]]]].
  destruct Hno as [evs' [Hevs [Hq _]]].
  { intros [H|[[u [[= <-] H]]|[H|[k [intf [Hin Hd]]]]]].
    - discriminate H.
    - discriminate H.
    - discriminate H.
    - apply Hd. now apply (unchangedState_same k). }
  exists evs'. split; [|exact Hq].
  rewrite Hevs in Ht. exact Ht.
Defined.

Lemma hinted_node_recalculated_unchanged_reused_witness :
  calculate hinted2 = Some testCalculate
  /\ NoDup (map_keys (inputs hinted2))
  /\ NoDup (map_keys (outputs hinted2))
  /\ (exists evs,
        run_trace (fst (visitNode identityHook (Some hinted1) VUndefined []
                                  hinted2 unchangedState))
        = [BeforeNodeCalculation [("a", VNumber 2); ("b", VNumber 1)] hinted2;
           AfterNodeCalculation [("c", VNumber 3); ("d", VNumber 1)] hinted2]
          ++ evs
        /\ existsb isCalculate evs = false)
  /\ map_get (run_result
                (fst (visitNode identityHook (Some hinted1) VUndefined []
                                hinted2 unchangedState)))
             (node_id hinted2)
     = Some (mkNodeResult [("a", VNumber 2); ("b", VNumber 1)]
                          [("c", VNumber 3); ("d", VNumber 1)]).
Proof.
  assert (Hnd : NoDup (map_keys (inputs hinted2))).
  { apply nodupb_NoDup. vm_compute. reflexivity. }
  assert (Hout : NoDup (map_keys (outputs hinted2))).
  { apply nodupb_NoDup. vm_compute. reflexivity. }
  assert (Hne : node_id hinted2 <> node_id hinted1) by discriminate.
  split; [reflexivity|]. split; [exact Hnd|]. split; [exact Hout|].
  destruct (proj1 (proj2 (hinted_node_recalculated_unchanged_reused
                            identityHook hinted1 VUndefined [] hinted2
                            testCalculate unchangedState eq_refl Hnd Hout))
              Hne eq_refl) as [Hevs [_ Hentry]].
  { intros k intf Hin Hd. apply Hd. now apply (unchangedState_same k). }
  split; [exact Hevs|]. exact (Hentry eq_refl).
Defined.

(** The state a run of [hintedGraph] with the hint [hinted1] ends in. *)
Definition hintedRun : RunState :=
  snd (fst (execute hintedEngine hintedGraph [] VUndefined)).

(** The hinted node of [hintedGraph] gets its stored inputs, and its step is
    called all the same. *)
Lemma hinted_node_with_stored_inputs_is_calculated :
  ~ hintedNodeSkippedWhenUnchanged hintedRun hinted1.
Proof.
  intros H.
  assert (Hsame : forall iv n,
            In (BeforeNodeCalculation iv n) (run_trace hintedRun) ->
            node_id n = node_id hinted1 ->
            forall k intf, In (k, intf) (inputs n) ->
                           map_get iv k = Some (value intf)).
  { intros iv n Hin Hid k intf Hk.
    vm_compute in Hin.
    repeat (destruct Hin as [Hin|Hin];
            [try discriminate Hin; inversion Hin; subst iv n; clear Hin;
             try discriminate Hid|]).
    - destruct Hk as [Hk|[Hk|[]]]; inversion Hk; subst; reflexivity.
    - destruct Hin. }
  apply (H Hsame hinted1 [("a", VNumber 1); ("b", VNumber 1)]).
  - vm_compute. right. left. reflexivity.
  - reflexivity.
Qed.

(** A node without comparison predicate, one input of which stores an array
    by reference. *)
Definition arrayHolder : AbstractNode :=
  mkNode 1 "n1" [("a", port "n1" "a" (VObject 0) false 0)] []
         (Some (fun _ _ _ => Returns ([], []))) false None.

(** Two arrays of the same content, at two places of the heap. *)
Definition twinArrays : heap := [CArray [VNumber 0]; CArray [VNumber 0]].

Lemma inputs_compared_by_predicate_else_identity_witness :
  NoDup (map_keys (inputs arrayHolder))
  /\ In ("a", port "n1" "a" (VObject 0) false 0) (inputs arrayHolder)
  /\ map_get (fst (resolveInputs [("n1.a", VObject 1)] twinArrays arrayHolder))
             "a"
     = Some (VObject 1)
  /\ map_get (snd (resolveInputs [("n1.a", VObject 1)] twinArrays arrayHolder))
             "a"
     = Some true.
Proof.
  assert (Hnd : NoDup (map_keys (inputs arrayHolder))).
  { apply nodupb_NoDup. vm_compute. reflexivity. }
  assert (Hin : In ("a", port "n1" "a" (VObject 0) false 0)
                   (inputs arrayHolder)) by (left; reflexivity).
  split; [exact Hnd|]. split; [exact Hin|].
  destruct (inputs_compared_by_predicate_else_identity
              [("n1.a", VObject 1)] twinArrays arrayHolder "a"
              (port "n1" "a" (VObject 0) false 0) Hnd Hin)
    as [Hval [_ Hplain]].
  split; [exact Hval|].
  destruct (Hplain eq_refl) as [_ [Htrue _]].
  apply Htrue. unfold strictlyEqual.
  intros [[H _]|[[H _]|[H _]]]; discriminate H.
Defined.

(** An array of the same content at another place counts as a change for a
    node without comparison predicate. *)
Lemma equal_array_at_other_reference_counts_as_changed :
  ~ changeDetectionIsStructural.
Proof.
  intros H.
  specialize (H arrayHolder twinArrays (port "n1" "a" (VObject 0) false 0)
                (VObject 1) eq_refl).
  discriminate H.
Qed.

(** The sorted components of [hintedGraph]. *)
Definition hintedComponents : list ITopologicalSortingResult :=
  match componentsOf hintedEngine hintedGraph with
  | Returns components => components
  | Throws _ => []
  end.

(** The component of [hinted4], which has no connection. *)
Definition hintedSkipped : ITopologicalSortingResult :=
  nth 1 hintedComponents (mkSorted [] [] []).

Lemma testCalculate_avoids x node :
  calculate node = Some testCalculate -> calculateAvoids x node.
Proof.
  intros Hnode calc h ins cd outs cells Hcalc Hret.
  rewrite Hnode in Hcalc. inversion Hcalc; subst calc.
  unfold testCalculate in Hret. inversion Hret; subst.
  intros entries [].
Qed.

Lemma runGraph_skips_components_without_hint_witness :
  updatedNode hintedEngine = Some hinted1
  /\ componentsOf hintedEngine hintedGraph = Returns hintedComponents
  /\ In hintedSkipped hintedComponents
  /\ find (findUpdated hinted1) (calculationOrder hintedSkipped) = None
  /\ In hinted4 (calculationOrder hintedSkipped)
  /\ let '(_, st, r) :=
       runGraph hintedEngine hintedGraph
                (unconnectedInputs (graph_nodes hintedGraph)) [] VUndefined in
     (forall ev, In ev (run_trace st) ->
                 node_id (eventNode ev) <> node_id hinted4)
     /\ (forall result, r = Returns result ->
                        ~ In (node_id hinted4) (map_keys result)).
Proof.
  assert (Hcomps : componentsOf hintedEngine hintedGraph
                   = Returns hintedComponents).
  { vm_compute. reflexivity. }
  assert (Hin : In hintedSkipped hintedComponents).
  { vm_compute. right. left. reflexivity. }
  assert (Hskip : find (findUpdated hinted1) (calculationOrder hintedSkipped)
                  = None).
  { vm_compute. reflexivity. }
  assert (Hn : In hinted4 (calculationOrder hintedSkipped)).
  { vm_compute. left. reflexivity. }
  assert (Hothers : forall component' n',
            In component' hintedComponents ->
            find (findUpdated hinted1) (calculationOrder component') <> None ->
            In n' (calculationOrder component') ->
            node_id n' <> node_id hinted4
            /\ calculateAvoids (node_id hinted4) n').
  { intros component' n' Hc Hf Hn'.
    assert (Hcases : In n' [hinted1; hinted2; hinted3]).
    { vm_compute in Hc. destruct Hc as [Hc|[Hc|[]]]; subst component'.
      - exact Hn'.
      - exfalso. apply Hf. vm_compute. reflexivity. }
    destruct Hcases as [<-|[<-|[<-|[]]]];
      (split; [discriminate|apply testCalculate_avoids; reflexivity]). }
  assert (Hheap : nestedAvoid (node_id hinted4) []).
  { intros entries []. }
  split; [reflexivity|]. split; [exact Hcomps|]. split; [exact Hin|].
  split; [exact Hskip|]. split; [exact Hn|].
  exact (runGraph_skips_components_without_hint
           hintedEngine hintedGraph
           (unconnectedInputs (graph_nodes hintedGraph)) [] VUndefined
           hinted1 hintedComponents hintedSkipped hinted4
           eq_refl Hcomps Hin Hskip Hn Hothers Hheap).
Defined.

Lemma refmap_get_in {V : Type} (m : refmap V) : forall k v,
  refmap_get m k = Some v -> In (k, v) m.
Proof.
  induction m as [|[k' v'] m IH]; intros k v H; simpl in *; [discriminate|].
  destruct (Nat.eqb k k') eqn:E.
  - apply Nat.eqb_eq in E. inversion H; subst. now left.
  - right. now apply IH.
Qed.

Definition flagsAgreeb (multi : string -> bool)
  (cfn : refmap (list IConnection)) : bool :=
  forallb
    (fun entry =>
       forallb (fun c => Bool.eqb (allowMultipleConnections (to c))
                                  (multi (intf_id (to c))))
               (snd entry))
    cfn.

Lemma flagsAgreeb_flagsAgree multi cfn :
  flagsAgreeb multi cfn = true -> flagsAgree multi cfn.
Proof.
  unfold flagsAgreeb. rewrite forallb_forall.
  intros H ref cs c Hget Hin.
  apply refmap_get_in in Hget. specialize (H _ Hget). simpl in H.
  rewrite forallb_forall in H. apply Bool.eqb_prop. now apply H.
Qed.

(** The sorted components of [multiGraph]. *)
Definition multiComponents : list ITopologicalSortingResult :=
  match getSortedComponents (OfGraph multiGraph) None with
  | Returns components => components
  | Throws _ => []
  end.

(** The port of [multiGraph] that accepts several connections. *)
Definition multiPort (P : string) : bool := String.eqb P "n2.a".

(** The state in which a run of [multiGraph] ends. *)
Definition multiRun : RunState :=
  fst (calculateComponents identityHook None VUndefined multiComponents
         (mkRun (unconnectedInputs (graph_nodes multiGraph)) multiHeap [] [])).

Lemma applyResult_writes_listed_outputs_witness :
  NoDup (map node_id (graph_nodes (editor_graph appliedEditor)))
  /\ NoDup (map_keys appliedResult)
  /\ (forall nid r, In (nid, r) appliedResult ->
        NoDup (map_keys (res_outputs r)))
  /\ exists editor',
       applyResult appliedResult appliedEditor = Returns editor'
       /\ Forall2
            (fun node node' =>
               node_id node' = node_id node
               /\ inputs node' = inputs node
               /\ map_keys (outputs node') = map_keys (outputs node)
               /\ forall key,
                    map_get (outputs node') key
                    = option_map
                        (fun intf =>
                           setValue (resultValue appliedResult (node_id node)
                                                 key (value intf)) intf)
                        (map_get (outputs node) key))
            (graph_nodes (editor_graph appliedEditor))
            (graph_nodes (editor_graph editor')).
Proof.
  assert (Hnodes : NoDup (map node_id
                            (graph_nodes (editor_graph appliedEditor)))).
  { apply nodupb_NoDup. vm_compute. reflexivity. }
  assert (Hkeys : NoDup (map_keys appliedResult)).
  { apply nodupb_NoDup. vm_compute. reflexivity. }
  assert (Houts : forall nid r, In (nid, r) appliedResult ->
            NoDup (map_keys (res_outputs r))).
  { intros nid r [H|[H|[H|[]]]]; inversion H; subst;
      apply nodupb_NoDup; vm_compute; reflexivity. }
  split; [exact Hnodes|]. split; [exact Hkeys|]. split; [exact Houts|].
  destruct (applyResult_writes_listed_outputs
              appliedResult appliedEditor Hnodes Hkeys Houts)
    as [editor' [Hret [_ [Hall _]]]].
  exists editor'. split; [exact Hret|exact Hall].
Defined.

(* ================================================================== *)
(** * The sorter on every input, well-formed or not *)
(* ================================================================== *)

(** What the loops of the sorter rely on, and keep, whatever the input: the
    start nodes are input nodes, every node id is a key of [adjacency], and
    the ids in its sets are ids of input nodes. *)
Record Sortable (nodes : list AbstractNode) (adjacency : jsmap jsset)
  (startNodes : list AbstractNode) : Prop := {
  sb_start : incl startNodes nodes;
  sb_keys : forall n, In n nodes -> In (node_id n) (map_keys adjacency);
  sb_range : forall s x, In s (map_values adjacency) -> In x s ->
             In x (map node_id nodes)
}.

Lemma map_keys_set_keeps {V : Type} (m : jsmap V) k v x :
  In x (map_keys m) -> In x (map_keys (map_set m k v)).
Proof.
  intros H. apply map_get_in_keys. rewrite map_get_set.
  destruct (String.eqb k x); [eauto|]. now apply map_get_in_keys.
Qed.

Lemma drain_sortable nodes nid :
  forall fuel (adjacency : jsmap jsset) startNodes,
    Sortable nodes adjacency startNodes ->
    In nid (map_keys adjacency) ->
    match map_get adjacency nid with
    | Some s => length s < fuel
    | None => 0 < fuel
    end ->
    exists adjacency' startNodes',
      drain fuel nodes nid adjacency startNodes
      = Returns (adjacency', startNodes')
      /\ Sortable nodes adjacency' startNodes'
      /\ totalSize adjacency' + length startNodes'
         <= totalSize adjacency + length startNodes.
Proof.
  induction fuel as [|fuel IH]; intros adjacency startNodes Sb Hkey Hf.
  - destruct (map_get adjacency nid); lia.
  - apply map_get_in_keys in Hkey. destruct Hkey as [s Hs].
    simpl. rewrite Hs in *. destruct s as [|mId rest].
    + exists adjacency, startNodes. auto.
    + set (s' := set_delete (mId :: rest) mId).
      set (adjacency' := map_set adjacency nid s').
      assert (Hlen : length s' <= length rest) by apply set_delete_head_length.
      assert (Hsize : totalSize adjacency' + S (length rest)
                      = totalSize adjacency + length s').
      { apply (totalSize_set adjacency nid (mId :: rest) s' Hs). }
      assert (Hget : map_get adjacency' nid = Some s') by apply map_get_set_eq.
      assert (Hkey' : In nid (map_keys adjacency')).
      { apply map_get_in_keys. eauto. }
      assert (HmId : In mId (map node_id nodes)).
      { apply (sb_range _ _ _ Sb (mId :: rest)); [|now left].
        eapply map_get_values; eauto. }
      assert (S' : forall st, incl st nodes -> Sortable nodes adjacency' st).
      { intros st Hst. constructor; auto.
        - intros n Hn. apply map_keys_set_keeps. now apply (sb_keys _ _ _ Sb).
        - intros s x Hin Hx. apply map_values_set_in in Hin.
          destruct Hin as [->|Hin].
          + apply (proj1 (set_delete_In _ _ _)) in Hx. destruct Hx as [Hx _].
            apply (sb_range _ _ _ Sb (mId :: rest)); auto.
            eapply map_get_values; eauto.
          + apply (sb_range _ _ _ Sb s); auto. }
      simpl in Hf.
      destruct (noneHas adjacency' mId).
      * destruct (find_by_id nodes mId HmId) as [m [Hfind [Hm _]]].
        rewrite Hfind.
        destruct (IH adjacency' (startNodes ++ [m])) as [a2 [s2 [Hrun [S2 Hle]]]].
        -- apply S'. intros y Hy. apply in_app_iff in Hy.
           destruct Hy as [Hy|[<-|[]]]; auto. now apply (sb_start _ _ _ Sb).
        -- exact Hkey'.
        -- rewrite Hget. lia.
        -- exists a2, s2. split; [exact Hrun|]. split; [exact S2|].
           rewrite length_app in Hle. simpl in Hle. lia.
      * destruct (IH adjacency' startNodes) as [a2 [s2 [Hrun [S2 Hle]]]].
        -- apply S'. apply (sb_start _ _ _ Sb).
        -- exact Hkey'.
        -- rewrite Hget. lia.
        -- exists a2, s2. split; [exact Hrun|]. split; [exact S2|]. lia.
Qed.

Lemma kahn_sortable nodes : forall fuel adjacency startNodes sorted,
  Sortable nodes adjacency startNodes ->
  incl sorted nodes ->
  totalSize adjacency + length startNodes < fuel ->
  exists st,
    kahn fuel nodes (mkKahn adjacency startNodes sorted) = Returns st
    /\ incl (k_sorted st) nodes.
Proof.
  induction fuel as [|fuel IH]; intros adjacency startNodes sorted Sb Hs Hf;
    [lia|].
  cbn [kahn k_startNodes k_adjacency k_sorted].
  pose proof (pop_spec startNodes) as Hpop.
  destruct (pop startNodes) as [[n rest]|].
  - subst startNodes. rewrite length_app in Hf. simpl in Hf.
    assert (Hn : In n nodes).
    { apply (sb_start _ _ _ Sb). apply in_app_iff. right. now left. }
    assert (Srest : Sortable nodes adjacency rest).
    { constructor.
      - intros y Hy. apply (sb_start _ _ _ Sb). apply in_app_iff. now left.
      - apply (sb_keys _ _ _ Sb).
      - apply (sb_range _ _ _ Sb). }
    destruct (drain_sortable nodes (node_id n)
                (S match map_get adjacency (node_id n) with
                   | Some s => length s
                   | None => 0
                   end) adjacency rest Srest (sb_keys _ _ _ Sb n Hn))
      as [a2 [s2 [Hrun [S2 Hle]]]].
    { destruct (map_get adjacency (node_id n)); lia. }
    rewrite Hrun. cbn [bind].
    apply IH; auto.
    + intros y Hy. apply in_app_iff in Hy. destruct Hy as [Hy|[<-|[]]]; auto.
    + lia.
  - exists (mkKahn adjacency startNodes sorted). auto.
Qed.

Lemma findIndex_splice_incl {A : Type} (p : A -> bool) : forall (l : list A),
  incl (match findIndex p l with
        | Some index => splice1 index l
        | None => l
        end) l.
Proof.
  induction l as [|x l IH]; simpl; [intros y []|].
  destruct (p x); simpl.
  - intros y Hy. now right.
  - destruct (findIndex p l) as [i|]; simpl in *.
    + intros y [<-|Hy]; [now left|]. right. now apply IH.
    + intros y Hy. exact Hy.
Qed.

Lemma initialStartNodes_incl i2n : forall connections nodes,
  incl (initialStartNodes i2n connections nodes) nodes.
Proof.
  unfold initialStartNodes.
  induction connections as [|c cs IH]; intros nodes; simpl.
  - intros y Hy. exact Hy.
  - intros y Hy. apply IH in Hy.
    exact (findIndex_splice_incl
             (fun n => ownerIs i2n (intf_id (to c)) (node_id n)) nodes y Hy).
Qed.

Lemma buildAdjacency_sortable nodes connections :
  Sortable nodes
    (fst (buildAdjacency (fold_left registerInterfaces nodes []) connections
                         nodes))
    (initialStartNodes (fold_left registerInterfaces nodes []) connections
                       nodes).
Proof.
  set (i2n := fold_left registerInterfaces nodes []).
  rewrite buildAdjacency_fst. constructor.
  - apply initialStartNodes_incl.
  - intros n Hn.
    apply (fold_map_set_has node_id
             (fun n => set_of_list (destinationIds i2n
                (connectionsFromCurrentNode i2n connections n)))).
    right. now apply in_map.
  - intros s x Hs Hx.
    apply (fold_map_set_values node_id
             (fun n => set_of_list (destinationIds i2n
                (connectionsFromCurrentNode i2n connections n)))) in Hs.
    destruct Hs as [[]|[n [_ ->]]].
    apply (proj1 (set_of_list_In _ _)) in Hx.
    apply (proj1 (destinationIds_In _ _ _)) in Hx.
    destruct Hx as [c [_ Hget]].
    apply interfaceIdToNodeId_sound in Hget.
    destruct Hget as [Hget|[m [Hm [<- _]]]]; [discriminate|].
    now apply in_map.
Qed.

(** X1. On every input given with its connections, well-formed or not,
    [sortTopologically] comes to an end and either returns an order made of
    input nodes only or throws [CycleError]: its lookups never meet
    [undefined], and [containsCycle] returns a boolean.  Nodes given as an
    array without connections make both throw the "Invalid argument"
    [Error], which [containsCycle] passes on. *)
Theorem sortTopologically_returns_or_cycle :
  forall nodesOrGraph pConnections,
    match givenInput nodesOrGraph pConnections with
    | Some (nodes, connections) =>
        (sortTopologically nodesOrGraph pConnections = Throws CycleError
         /\ containsCycle nodesOrGraph pConnections = Returns true)
        \/ (exists r,
              sortTopologically nodesOrGraph pConnections = Returns r
              /\ incl (calculationOrder r) nodes
              /\ containsCycle nodesOrGraph pConnections = Returns false)
    | None =>
        sortTopologically nodesOrGraph pConnections
        = Throws (Error "Invalid argument value: expected array of connections")
        /\ containsCycle nodesOrGraph pConnections
           = Throws (Error "Invalid argument value: expected array of connections")
    end.
Proof.
  intros nog pc.
  destruct (givenInput nog pc) as [[nodes connections]|] eqn:Hgiven.
  - unfold containsCycle.
    rewrite (sortTopologically_given _ _ _ _ Hgiven).
    unfold sortTopologically, nodesOrGraphToData. cbn [bind gd_nodes
      gd_connections gd_interfaceIdToNodeId].
    pose proof (buildAdjacency_sortable nodes connections) as Sb.
    destruct (buildAdjacency (fold_left registerInterfaces nodes [])
                connections nodes) as [adjacency cfn].
    cbn [fst] in Sb.
    destruct (kahn_sortable nodes
                (S (length (initialStartNodes
                              (fold_left registerInterfaces nodes [])
                              connections nodes)
                    + totalSize adjacency))
                adjacency _ [] Sb) as [st [Hrun Hincl]].
    + intros y [].
    + lia.
    + rewrite Hrun. cbn [bind].
      destruct (someLeft (k_adjacency st)); [left; auto|].
      right. eexists. split; [reflexivity|]. auto.
  - destruct nog as [g|ns]; [discriminate|].
    destruct pc as [cs|]; [discriminate|]. split; reflexivity.
Qed.

(* ------------------------------------------------------------------ *)
(** ** The lookup tables of a sorting result *)
(* ------------------------------------------------------------------ *)

Lemma sortTopologically_tables nodes connections r :
  sortTopologically (OfNodes nodes) (Some connections) = Returns r ->
  interfaceIdToNodeId r = fold_left registerInterfaces nodes []
  /\ connectionsFromNode r
     = snd (buildAdjacency (fold_left registerInterfaces nodes []) connections
                           nodes).
Proof.
  unfold sortTopologically, nodesOrGraphToData.
  cbn [bind gd_nodes gd_connections gd_interfaceIdToNodeId].
  destruct (buildAdjacency (fold_left registerInterfaces nodes []) connections
              nodes) as [adjacency cfn].
  destruct (kahn _ nodes _) as [st|e]; cbn [bind]; [|discriminate].
  destruct (someLeft (k_adjacency st)); [discriminate|].
  intros [= <-]. auto.
Qed.

Lemma refmap_get_set {V : Type} (m : refmap V) k k' v :
  refmap_get (refmap_set m k v) k'
  = if Nat.eqb k k' then Some v else refmap_get m k'.
Proof.
  induction m as [|[k0 v0] m IH]; simpl.
  - now rewrite (Nat.eqb_sym k' k).
  - destruct (Nat.eqb k k0) eqn:E; simpl.
    + apply Nat.eqb_eq in E. subst k0. rewrite (Nat.eqb_sym k' k).
      destruct (Nat.eqb k k'); reflexivity.
    + destruct (Nat.eqb k' k0) eqn:E'.
      * apply Nat.eqb_eq in E'. subst k0. now rewrite E.
      * exact IH.
Qed.

Lemma snd_buildAdjacency i2n connections : forall nodes a c,
  snd (fold_left
         (fun '(adjacency, cfn) n =>
            let cs := connectionsFromCurrentNode i2n connections n in
            let adjacentNodes := set_of_list (destinationIds i2n cs) in
            (map_set adjacency (node_id n) adjacentNodes,
             refmap_set cfn (node_ref n) cs))
         nodes (a, c))
  = fold_left
      (fun cfn n =>
         refmap_set cfn (node_ref n)
                    (connectionsFromCurrentNode i2n connections n))
      nodes c.
Proof.
  induction nodes as [|n nodes IH]; intros a c; simpl; auto.
Qed.

Lemma fold_refmap_set_get {A V : Type} (key : A -> nat) (val : A -> V) :
  forall (l : list A) (m : refmap V) k,
    refmap_get (fold_left (fun acc x => refmap_set acc (key x) (val x)) l m) k
    = match find (fun x => Nat.eqb (key x) k) (rev l) with
      | Some x => Some (val x)
      | None => refmap_get m k
      end.
Proof.
  induction l as [|a l IH] using rev_ind; intros m k; simpl; auto.
  rewrite fold_left_app, rev_app_distr. simpl.
  rewrite refmap_get_set. destruct (Nat.eqb (key a) k); auto.
Qed.

Lemma find_unique {A : Type} (key : A -> nat) : forall (l : list A) x,
  NoDup (map key l) -> In x l ->
  find (fun y => Nat.eqb (key y) (key x)) l = Some x.
Proof.
  induction l as [|a l IH]; intros x Hnd Hx; simpl in *; [tauto|].
  inversion Hnd; subst.
  destruct Hx as [->|Hx]; [now rewrite Nat.eqb_refl|].
  destruct (Nat.eqb (key a) (key x)) eqn:E; [|now apply IH].
  apply Nat.eqb_eq in E. exfalso. apply H1. rewrite E. now apply in_map.
Qed.

(** X2. The [interfaceIdToNodeId] table of a sorting result has exactly the
    ids of the input and output ports of the input nodes as keys, and, when
    no port id is shared by nodes of different ids, maps the id of every
    port to the id of the node that has the port. *)
Theorem sortTopologically_interfaceIdToNodeId :
  forall nodesOrGraph pConnections nodes connections r,
    givenInput nodesOrGraph pConnections = Some (nodes, connections) ->
    sortTopologically nodesOrGraph pConnections = Returns r ->
    (forall pid nid,
       map_get (interfaceIdToNodeId r) pid = Some nid ->
       exists n, In n nodes /\ node_id n = nid /\ In pid (portIds n))
    /\ (forall n pid, In n nodes -> In pid (portIds n) ->
          In pid (map_keys (interfaceIdToNodeId r)))
    /\ ((forall n m pid, In n nodes -> In m nodes ->
           In pid (portIds n) -> In pid (portIds m) -> node_id n = node_id m) ->
        forall n pid, In n nodes -> In pid (portIds n) ->
          map_get (interfaceIdToNodeId r) pid = Some (node_id n)).
Proof.
  intros nog pc nodes connections r Hgiven Hrun.
  rewrite (sortTopologically_given _ _ _ _ Hgiven) in Hrun.
  destruct (sortTopologically_tables _ _ _ Hrun) as [-> _].
  assert (Hsound : forall pid nid,
            map_get (fold_left registerInterfaces nodes []) pid = Some nid ->
            exists n, In n nodes /\ node_id n = nid /\ In pid (portIds n)).
  { intros pid nid H. apply interfaceIdToNodeId_sound in H.
    destruct H as [H|H]; [discriminate|exact H]. }
  split; [exact Hsound|]. split.
  - intros n pid Hn Hp. now apply (interfaceIdToNodeId_complete nodes [] n).
  - intros Hports n pid Hn Hp.
    pose proof (interfaceIdToNodeId_complete nodes [] n pid Hn Hp) as H.
    apply map_get_in_keys in H. destruct H as [nid H]. rewrite H. f_equal.
    destruct (Hsound _ _ H) as [m [Hm [<- Hpm]]].
    now apply (Hports m n pid).
Qed.

(** X3. The [connectionsFromNode] table of a sorting result, for input nodes
    that are distinct objects: under a node it holds, in the order of the
    input, exactly the connections whose source port is registered to the
    id of the node; under the reference of no input node it holds nothing. *)
Theorem sortTopologically_connectionsFromNode :
  forall nodesOrGraph pConnections nodes connections r,
    givenInput nodesOrGraph pConnections = Some (nodes, connections) ->
    NoDup (map node_ref nodes) ->
    sortTopologically nodesOrGraph pConnections = Returns r ->
    (forall n, In n nodes ->
       refmap_get (connectionsFromNode r) (node_ref n)
       = Some (filter
                 (fun c => match from c with
                           | Some p =>
                               match map_get (interfaceIdToNodeId r) (intf_id p) with
                               | Some owner => String.eqb owner (node_id n)
                               | None => false
                               end
                           | None => false
                           end) connections))
    /\ (forall ref, ~ In ref (map node_ref nodes) ->
          refmap_get (connectionsFromNode r) ref = None).
Proof.
  intros nog pc nodes connections r Hgiven Hnd Hrun.
  rewrite (sortTopologically_given _ _ _ _ Hgiven) in Hrun.
  destruct (sortTopologically_tables _ _ _ Hrun) as [-> ->].
  unfold buildAdjacency. rewrite snd_buildAdjacency.
  set (i2n := fold_left registerInterfaces nodes []).
  split.
  - intros n Hn.
    rewrite (fold_refmap_set_get node_ref
               (fun n => connectionsFromCurrentNode i2n connections n)).
    rewrite (find_unique node_ref (rev nodes) n).
    + reflexivity.
    + rewrite map_rev. apply NoDup_rev. exact Hnd.
    + now apply in_rev in Hn.
  - intros ref Href.
    rewrite (fold_refmap_set_get node_ref
               (fun n => connectionsFromCurrentNode i2n connections n)).
    destruct (find (fun x => Nat.eqb (node_ref x) ref) (rev nodes)) as [x|] eqn:E;
      [|reflexivity].
    apply find_some in E. destruct E as [Hx E]. apply Nat.eqb_eq in E.
    exfalso. apply Href. rewrite <- E. apply in_map. now apply in_rev.
Qed.

(* ================================================================== *)
(** * Sorting component by component *)
(* ================================================================== *)

(** What the sorter does on well-formed input, in one statement. *)
Lemma sorted_or_cycle nodes connections :
  WellFormed nodes connections ->
  (hasCycle nodes connections
   /\ sortTopologically (OfNodes nodes) (Some connections) = Throws CycleError)
  \/ (~ hasCycle nodes connections
      /\ exists r,
           sortTopologically (OfNodes nodes) (Some connections) = Returns r
           /\ Permutation (calculationOrder r) nodes
           /\ forall c p u v,
                In c connections -> from c = Some p ->
                In u nodes -> In v nodes -> owns u p -> owns v (to c) ->
                exists i j,
                  nth_error (calculationOrder r) i = Some u
                  /\ nth_error (calculationOrder r) j = Some v
                  /\ i < j).
Proof.
  intros wf.
  destruct (sortTopologically_run nodes connections wf) as [st [I Hrun]].
  set (i2n := fold_left registerInterfaces nodes []) in *.
  set (adj0 := fst (buildAdjacency i2n connections nodes)) in *.
  destruct (someLeft (k_adjacency st)) eqn:Hex.
  - left. split; [|exact Hrun].
    apply (hasCycle_arc nodes connections wf).
    apply (edge_left_cycle nodes (wf_nodes _ _ wf) adj0
             (adj0_keys nodes connections wf) (k_adjacency st) (k_sorted st)
             I Hex).
  - right. split.
    + intros Hcyc. apply (hasCycle_arc nodes connections wf) in Hcyc.
      assert (H : someLeft (k_adjacency st) = true).
      { eapply cycle_leaves_edge; eauto. }
      congruence.
    + eexists. split; [exact Hrun|]. cbn [calculationOrder].
      assert (Hperm : Permutation (k_sorted st) nodes).
      { apply (all_consumed_permutation nodes (wf_nodes _ _ wf) adj0
                 (k_adjacency st) (k_sorted st) I Hex). }
      split; [exact Hperm|].
      intros c p u v Hc Hp Hu Hv Hou Hov.
      assert (Harc : arc adj0 (node_id u) (node_id v)).
      { apply (connects_arc nodes connections wf).
        repeat split; auto. exists c, p. auto. }
      assert (Hvs : In v (k_sorted st)).
      { apply (Permutation_in _ (Permutation_sym Hperm) Hv). }
      apply in_split in Hvs. destruct Hvs as [l1 [l2 Hs]].
      pose proof (inv_topo _ _ _ _ _ _ I l1 v l2 Hs _ Harc) as Hin.
      apply in_map_iff in Hin. destruct Hin as [u' [E Hu']].
      assert (u' = u).
      { apply (map_injective_on node_id nodes); auto.
        - apply (wf_nodes _ _ wf).
        - apply (Permutation_in _ Hperm). rewrite Hs.
          apply in_app_iff. now left. }
      subst u'. rewrite Hs. now apply earlier_indices.
Qed.

(** What the component search does on a well-formed graph, in one
    statement. *)
Lemma components_of_graph nodes connections :
  WellFormedGraph nodes connections ->
  exists components,
    connectedComponents (OfNodes nodes) (Some connections) = Returns components
    /\ Permutation (flat_map gc_nodes components) nodes
    /\ (forall K u v,
          In K components ->
          clos_refl_trans AbstractNode (linked nodes connections) u v ->
          In u (gc_nodes K) -> In v (gc_nodes K))
    /\ (forall K c, In K components ->
          (In c (gc_connections K)
           <-> In c connections /\ endpointIn K c = true)).
Proof.
  intros wfg.
  destruct (connectedComponents_run nodes connections wfg)
    as [seen [components [Hrun [I Hall]]]].
  pose proof (wfg_base _ _ wfg) as wf.
  pose proof (wf_nodes _ _ wf) as Hnd.
  set (i2n := fold_left registerInterfaces nodes []) in *.
  set (n2n := fold_left (fun m node => map_set m (node_id node) node) nodes [])
    in *.
  set (succs := fst (buildNeighbours i2n connections nodes)) in *.
  set (preds := snd (buildNeighbours i2n connections nodes)) in *.
  exists components. split; [exact Hrun|].
  assert (HA : forall K n, In K components -> In n (gc_nodes K) -> In n nodes).
  { intros K n HK Hn.
    destruct (ci_each _ _ _ _ _ _ I K HK) as [E _].
    rewrite E in Hn. apply nodesOf_In in Hn. destruct Hn as [x [_ Hx]].
    now apply (n2n_inv nodes) in Hx. }
  assert (HB : map node_id (flat_map gc_nodes components) = seen).
  { rewrite map_flat_map_nodes. symmetry. apply (ci_seen _ _ _ _ _ _ I). }
  assert (HN : NoDup (flat_map gc_nodes components)).
  { apply (NoDup_map_inv node_id). rewrite HB. apply (ci_nodup _ _ _ _ _ _ I). }
  assert (HC : forall K n, In K components -> In n nodes ->
               In (node_id n) (componentIds K) -> In n (gc_nodes K)).
  { intros K n HK Hn Hid. unfold componentIds in Hid.
    apply in_map_iff in Hid. destruct Hid as [m [E Hm]].
    assert (m = n).
    { apply (map_injective_on node_id nodes); auto. eapply HA; eauto. }
    now subst. }
  assert (HP : forall K u v, In K components ->
               clos_refl_trans AbstractNode (linked nodes connections) u v ->
               In u (gc_nodes K) -> In v (gc_nodes K)).
  { intros K u v HK Hpath.
    destruct (ci_each _ _ _ _ _ _ I K HK) as [_ [_ Hclosed]].
    induction Hpath as [u v Hl|u|u w v _ IH1 _ IH2]; auto.
    intros Hu.
    assert (Hid : In (node_id u) (componentIds K)).
    { unfold componentIds. now apply in_map. }
    destruct Hl as [Hc|Hc].
    + destruct (connects_goesTo nodes connections wfg u v Hc) as [Hg _].
      apply HC; auto; [apply Hc|]. apply (Hclosed _ Hid _ Hg).
    + destruct (connects_goesTo nodes connections wfg v u Hc) as [_ Hg].
      apply HC; auto; [apply Hc|]. apply (Hclosed _ Hid _ Hg). }
  split; [|split; [exact HP|]].
  - apply NoDup_Permutation; auto.
    + eapply NoDup_map_inv; eauto.
    + intros n. split.
      * intros Hn. apply in_flat_map in Hn. destruct Hn as [K [HK Hn]].
        eapply HA; eauto.
      * intros Hn.
        assert (Hs : In (node_id n) seen).
        { apply Hall. now apply in_map. }
        rewrite <- HB in Hs. apply in_map_iff in Hs.
        destruct Hs as [m [E Hm]].
        assert (m = n).
        { apply (map_injective_on node_id nodes); auto.
          apply in_flat_map in Hm. destruct Hm as [K [HK Hm]].
          eapply HA; eauto. }
        now subst.
  - intros K c HK.
    destruct (ci_each _ _ _ _ _ _ I K HK) as [_ [Econn Hclosed]].
    rewrite Econn. unfold successorsOf. rewrite in_flat_map. split.
    + intros [x [Hx Hc]].
      destruct (map_get succs x) as [cs|] eqn:Hs; [|destruct Hc].
      assert (Hn : exists n, In n (gc_nodes K) /\ node_id n = x).
      { unfold componentIds in Hx. apply in_map_iff in Hx.
        destruct Hx as [n [E Hn]]. eauto. }
      destruct Hn as [n [Hn <-]].
      assert (Hnn : In n nodes) by (eapply HA; eauto).
      pose proof (succs_get nodes connections wfg n Hnn) as Hsg.
      fold i2n in Hsg. fold succs in Hsg. rewrite Hsg in Hs.
      inversion Hs; subst cs.
      destruct (source_of nodes connections wfg n c Hnn Hc)
        as [Hin [p [Hp [Hop _]]]].
      split; [exact Hin|].
      unfold endpointIn. apply existsb_exists. exists n. split; [exact Hn|].
      rewrite Hp. apply orb_true_iff. right. now apply set_has_In.
    + intros [Hin Hend].
      destruct (wf_sources _ _ wf c Hin) as [p [np [Hp [Hnp Hop]]]].
      assert (HnpK : In np (gc_nodes K)).
      { unfold endpointIn in Hend. apply existsb_exists in Hend.
        destruct Hend as [n [Hn Hown]]. rewrite Hp in Hown.
        assert (Hnn : In n nodes) by (eapply HA; eauto).
        apply orb_true_iff in Hown. destruct Hown as [Hown|Hown];
          apply set_has_In in Hown.
        - apply (HP K n np HK); [|exact Hn].
          apply rt_step. right. repeat split; auto. exists c, p. auto.
        - assert (np = n).
          { apply (map_injective_on node_id nodes); auto.
            apply (wf_ports _ _ wf np n (intf_id p)); auto. }
          now subst. }
      exists (node_id np). split.
      * unfold componentIds. now apply in_map.
      * pose proof (succs_get nodes connections wfg np Hnp) as Hsg.
        fold i2n in Hsg. fold succs in Hsg. rewrite Hsg.
        apply connectionsFromCurrentNode_In. split; [exact Hin|].
        exists p. split; [exact Hp|].
        now apply (i2n_owner nodes connections wf).
Qed.

Section ComponentOrders.

Variable nodes : list AbstractNode.
Variable connections : list IConnection.
Variable components : list GraphComponent.
Hypothesis wfg : WellFormedGraph nodes connections.
Hypothesis components_cover : Permutation (flat_map gc_nodes components) nodes.
Hypothesis components_closed : forall K u v,
  In K components ->
  clos_refl_trans AbstractNode (linked nodes connections) u v ->
  In u (gc_nodes K) -> In v (gc_nodes K).
Hypothesis components_connections : forall K c,
  In K components ->
  (In c (gc_connections K) <-> In c connections /\ endpointIn K c = true).

Lemma component_incl K : In K components -> incl (gc_nodes K) nodes.
Proof.
  intros HK n Hn. apply (Permutation_in _ components_cover).
  apply in_flat_map. eauto.
Qed.

Lemma component_nodup K :
  In K components -> NoDup (map node_id (gc_nodes K)).
Proof.
  intros HK.
  assert (Hall : NoDup (map node_id (flat_map gc_nodes components))).
  { eapply Permutation_NoDup.
    - apply Permutation_map. apply Permutation_sym. exact components_cover.
    - apply (wf_nodes _ _ (wfg_base _ _ wfg)). }
  apply in_split in HK. destruct HK as [l1 [l2 ->]].
  rewrite flat_map_app, map_app in Hall. apply NoDup_app_remove_l in Hall.
  simpl in Hall. rewrite map_app in Hall. now apply NoDup_app_remove_r in Hall.
Qed.

(** The two ends of a connection with an end in a component are in it. *)
Lemma component_ends K c p u v :
  In K components -> In c connections -> endpointIn K c = true ->
  from c = Some p -> In u nodes -> owns u p -> In v nodes -> owns v (to c) ->
  In u (gc_nodes K) /\ In v (gc_nodes K).
Proof.
  intros HK Hc Hend Hp Hu Hou Hv Hov.
  pose proof (wfg_base _ _ wfg) as wf.
  assert (Huv : connects nodes connections u v).
  { repeat split; auto. exists c, p. auto. }
  unfold endpointIn in Hend. apply existsb_exists in Hend.
  destruct Hend as [n [Hn Hown]]. rewrite Hp in Hown.
  assert (Hnn : In n nodes) by (eapply component_incl; eauto).
  apply orb_true_iff in Hown. destruct Hown as [Hown|Hown];
    apply set_has_In in Hown.
  - assert (v = n).
    { apply (map_injective_on node_id nodes); auto.
      - apply (wf_nodes _ _ wf).
      - apply (wf_ports _ _ wf v n (intf_id (to c))); auto. }
    subst n. split; auto.
    apply (components_closed K v u HK); auto.
    apply rt_step. now right.
  - assert (u = n).
    { apply (map_injective_on node_id nodes); auto.
      - apply (wf_nodes _ _ wf).
      - apply (wf_ports _ _ wf u n (intf_id p)); auto. }
    subst n. split; auto.
    apply (components_closed K u v HK); auto.
    apply rt_step. now left.
Qed.

Lemma component_wellformed K :
  In K components -> WellFormed (gc_nodes K) (gc_connections K).
Proof.
  intros HK. pose proof (wfg_base _ _ wfg) as wf. constructor.
  - now apply component_nodup.
  - intros n m pid Hn Hm. apply (wf_ports _ _ wf); eapply component_incl; eauto.
  - intros c Hc. apply (components_connections K c HK) in Hc.
    destruct Hc as [Hc Hend].
    destruct (wf_sources _ _ wf c Hc) as [p [u [Hp [Hu Hou]]]].
    destruct (wfg_destinations _ _ wfg c Hc) as [v [Hv Hov]].
    exists p, u. split; [exact Hp|]. split; [|exact Hou].
    apply (component_ends K c p u v); auto.
Qed.

Lemma component_connects K u v :
  In K components ->
  connects (gc_nodes K) (gc_connections K) u v ->
  connects nodes connections u v.
Proof.
  intros HK [Hu [Hv [c [p [Hc H]]]]].
  apply (components_connections K c HK) in Hc.
  repeat split; try (eapply component_incl; eauto).
  exists c, p. split; [apply Hc|exact H].
Qed.

Lemma connects_component K u v :
  In K components -> In u (gc_nodes K) ->
  connects nodes connections u v ->
  connects (gc_nodes K) (gc_connections K) u v /\ In v (gc_nodes K).
Proof.
  intros HK HuK [Hu [Hv [c [p [Hc [Hp [Hou Hov]]]]]]].
  assert (Hend : endpointIn K c = true).
  { unfold endpointIn. apply existsb_exists. exists u. split; auto.
    rewrite Hp. apply orb_true_iff. right. now apply set_has_In. }
  destruct (component_ends K c p u v HK Hc Hend Hp Hu Hou Hv Hov) as [_ HvK].
  split; [|exact HvK].
  repeat split; auto. exists c, p. split; [|auto].
  apply (components_connections K c HK). auto.
Qed.

Lemma component_cycle K :
  In K components ->
  hasCycle (gc_nodes K) (gc_connections K) -> hasCycle nodes connections.
Proof.
  intros HK [v Hv]. exists v.
  assert (Hgen : forall a b,
            clos_trans AbstractNode
              (connects (gc_nodes K) (gc_connections K)) a b ->
            clos_trans AbstractNode (connects nodes connections) a b).
  { intros a b Hab. induction Hab as [a b H|a b c _ IH1 _ IH2].
    - apply t_step. now apply (component_connects K).
    - eapply t_trans; eauto. }
  now apply Hgen.
Qed.

Lemma cycle_component :
  hasCycle nodes connections ->
  exists K, In K components /\ hasCycle (gc_nodes K) (gc_connections K).
Proof.
  intros [v Hv].
  assert (Hvn : In v nodes).
  { assert (Hfirst : forall a b,
              clos_trans AbstractNode (connects nodes connections) a b ->
              In a nodes).
    { intros a b Hab. induction Hab as [a b H|a b c _ IH1 _ _]; auto.
      apply H. }
    apply (Hfirst v v Hv). }
  apply (Permutation_in _ (Permutation_sym components_cover)) in Hvn.
  apply in_flat_map in Hvn. destruct Hvn as [K [HK HvK]].
  exists K. split; [exact HK|]. exists v.
  assert (Hgen : forall a b,
            clos_trans AbstractNode (connects nodes connections) a b ->
            In a (gc_nodes K) ->
            clos_trans AbstractNode
              (connects (gc_nodes K) (gc_connections K)) a b
            /\ In b (gc_nodes K)).
  { intros a b Hab. induction Hab as [a b H|a b c _ IH1 _ IH2]; intros Ha.
    - destruct (connects_component K a b HK Ha H) as [H1 H2].
      split; [now apply t_step|exact H2].
    - destruct (IH1 Ha) as [H1 Hb]. destruct (IH2 Hb) as [H2 Hc].
      split; [eapply t_trans; eauto|exact Hc]. }
  apply (Hgen v v Hv HvK).
Qed.

End ComponentOrders.

Lemma mapM_Forall2 {A B : Type} (f : A -> completion B) (R : A -> B -> Prop) :
  forall xs,
    (forall x, In x xs -> exists y, f x = Returns y /\ R x y) ->
    exists ys, mapM f xs = Returns ys /\ Forall2 R xs ys.
Proof.
  induction xs as [|x xs IH]; intros H; simpl.
  - exists []. auto.
  - destruct (H x (or_introl eq_refl)) as [y [Hy HR]]. rewrite Hy. cbn [bind].
    destruct IH as [ys [Hys HF]]; [intros z Hz; apply H; now right|].
    rewrite Hys. cbn [bind]. exists (y :: ys). auto.
Qed.

Lemma mapM_throws {A B : Type} (f : A -> completion B) (e : exn) :
  forall xs,
    (forall x, In x xs -> (exists y, f x = Returns y) \/ f x = Throws e) ->
    (exists x, In x xs /\ f x = Throws e) ->
    mapM f xs = Throws e.
Proof.
  induction xs as [|x xs IH]; intros Hall [z [Hz Hthrow]]; simpl.
  - destruct Hz.
  - destruct (Hall x (or_introl eq_refl)) as [[y Hy]|Hx].
    + rewrite Hy. cbn [bind].
      destruct Hz as [->|Hz]; [congruence|].
      rewrite IH; auto. intros w Hw. apply Hall. now right. eauto.
    + now rewrite Hx.
Qed.

Lemma mapM_thrown {A B : Type} (f : A -> completion B) (e : exn) :
  forall xs, mapM f xs = Throws e -> exists x, In x xs /\ f x = Throws e.
Proof.
  induction xs as [|x xs IH]; simpl; [discriminate|].
  destruct (f x) as [y|e'] eqn:Hx; cbn [bind].
  - destruct (mapM f xs) as [ys|e'] eqn:Hxs; cbn [bind]; [discriminate|].
    intros [= ->]. destruct (IH eq_refl) as [z [Hz Hf]]. eauto.
  - intros [= ->]. eauto.
Qed.

Lemma Forall2_flat_map_perm {A B C : Type} (f : A -> list C) (g : B -> list C) :
  forall xs ys,
    Forall2 (fun x y => Permutation (g y) (f x)) xs ys ->
    Permutation (flat_map g ys) (flat_map f xs).
Proof.
  intros xs ys H. induction H; simpl; auto.
  now apply Permutation_app.
Qed.

Lemma getSortedComponents_given nodesOrGraph pConnections nodes connections :
  givenInput nodesOrGraph pConnections = Some (nodes, connections) ->
  getSortedComponents nodesOrGraph pConnections
  = getSortedComponents (OfNodes nodes) (Some connections).
Proof.
  intros H. unfold getSortedComponents.
  now rewrite (connectedComponents_given _ _ _ _ H).
Qed.

(* ------------------------------------------------------------------ *)
(** ** The nodes of a component are joined *)
(* ------------------------------------------------------------------ *)

Section Joined.

Variable nodeIdToNode : jsmap AbstractNode.
Variables successors predecessors : jsmap (list IConnection).
Hypothesis node_id_of :
  forall x n, map_get nodeIdToNode x = Some n -> node_id n = x.

(** [joined w v]: [dfs] gets from [w] to [v] in some number of calls. *)
Definition joined (w v : string) : Prop :=
  clos_refl_trans string (goesTo successors predecessors) w v.

(** The nodes a loop of calls adds to the component come from one of the
    calls. *)
Lemma forEachM_added {A : Type} (g : DfsState -> A -> completion DfsState)
  (R : A -> AbstractNode -> Prop) :
  forall l st st',
    (forall a s s', In a l -> g s a = Returns s' ->
       forall n, In n (gc_nodes (component s')) ->
                 In n (gc_nodes (component s)) \/ R a n) ->
    forEachM g l st = Returns st' ->
    forall n, In n (gc_nodes (component st')) ->
              In n (gc_nodes (component st)) \/ exists a, In a l /\ R a n.
Proof.
  induction l as [|a l IH]; intros st st' Hg Hrun n Hn; simpl in Hrun.
  - inversion Hrun; subst. now left.
  - destruct (g st a) as [s1|e] eqn:Ha; cbn [bind] in Hrun; [|discriminate].
    destruct (IH s1 st') with (n := n) as [H|[b [Hb HR]]]; auto.
    + intros b s s' Hb. apply Hg. now right.
    + destruct (Hg a st s1 (or_introl eq_refl) Ha n H) as [H'|H']; auto.
      right. exists a. split; [now left|exact H'].
    + right. exists b. split; [now right|exact HR].
Qed.

(** Every node a call of [dfs] adds to the component is reached from the
    id the call was made with. *)
Lemma dfs_joined : forall fuel nid st st',
  dfs fuel nodeIdToNode successors predecessors nid st = Returns st' ->
  forall n, In n (gc_nodes (component st')) ->
            In n (gc_nodes (component st)) \/ joined nid (node_id n).
Proof.
  induction fuel as [|fuel IH]; intros nid st st' Hrun n Hn; [discriminate|].
  rewrite dfs_unfold in Hrun.
  destruct (set_has (visited st) nid).
  - inversion Hrun; subst. now left.
  - destruct (map_get nodeIdToNode nid) as [node|] eqn:Hnode; [|discriminate].
    destruct (map_get successors nid) as [nSuccessors|] eqn:Hsucc;
      [|discriminate].
    match type of Hrun with
    | bind (forEachM ?g ?l ?s) _ = _ =>
        destruct (forEachM g l s) as [st2|e] eqn:H2
    end; cbn [bind] in Hrun; [|discriminate].
    destruct (map_get predecessors nid) as [nPredecessors|] eqn:Hpred;
      [|discriminate].
    assert (Hstart : forall m, In m (gc_nodes (component st2)) ->
                       In m (gc_nodes (component st))
                       \/ joined nid (node_id m)).
    { intros m Hm.
      destruct (forEachM_added _
                  (fun c m => joined (nodeId (to c)) (node_id m)) _ _ _
                  (fun a s s' _ H => IH _ s s' H) H2 m Hm)
        as [H|[c [Hc HR]]].
      - simpl in H. apply in_app_iff in H. destruct H as [H|[<-|[]]]; auto.
        right. rewrite (node_id_of _ _ Hnode). apply rt_refl.
      - right. eapply rt_trans; [|exact HR]. apply rt_step. left.
        exists nSuccessors, c. auto. }
    match type of Hrun with
    | forEachM ?g _ _ = _ =>
        assert (Hg : forall a s s', In a nPredecessors -> g s a = Returns s' ->
                  forall m, In m (gc_nodes (component s')) ->
                    In m (gc_nodes (component s))
                    \/ exists p, from a = Some p
                                 /\ joined (nodeId p) (node_id m))
    end.
    { intros a s s' _ H m Hm. cbv beta in H.
      destruct (from a) as [p|]; [|discriminate].
      destruct (IH _ _ _ H m Hm) as [H'|H']; auto.
      right. exists p. auto. }
    destruct (forEachM_added _ _ _ _ _ Hg Hrun n Hn)
      as [H|[c [Hc [p [Hp HR]]]]].
    + apply Hstart; auto.
    + right. eapply rt_trans; [|exact HR]. apply rt_step. right.
      exists nPredecessors, c, p. auto.
Qed.

(** A call of [dfs] removes no node from the component. *)
Lemma forEachM_kept {A : Type} (g : DfsState -> A -> completion DfsState) :
  forall l st st',
    (forall a s s', In a l -> g s a = Returns s' ->
       incl (gc_nodes (component s)) (gc_nodes (component s'))) ->
    forEachM g l st = Returns st' ->
    incl (gc_nodes (component st)) (gc_nodes (component st')).
Proof.
  induction l as [|a l IH]; intros st st' Hg Hrun; simpl in Hrun.
  - inversion Hrun; subst. apply incl_refl.
  - destruct (g st a) as [s1|e] eqn:Ha; cbn [bind] in Hrun; [|discriminate].
    apply incl_tran with (gc_nodes (component s1)).
    + apply (Hg a st s1 (or_introl eq_refl) Ha).
    + apply IH; auto. intros b s s' Hb. apply Hg. now right.
Qed.

Lemma dfs_kept : forall fuel nid st st',
  dfs fuel nodeIdToNode successors predecessors nid st = Returns st' ->
  incl (gc_nodes (component st)) (gc_nodes (component st'))
  /\ forall node, set_has (visited st) nid = false ->
                  map_get nodeIdToNode nid = Some node ->
                  In node (gc_nodes (component st')).
Proof.
  induction fuel as [|fuel IH]; intros nid st st' Hrun; [discriminate|].
  rewrite dfs_unfold in Hrun.
  destruct (set_has (visited st) nid).
  - inversion Hrun; subst. split; [apply incl_refl|discriminate].
  - destruct (map_get nodeIdToNode nid) as [node|] eqn:Hnode; [|discriminate].
    destruct (map_get successors nid) as [nSuccessors|] eqn:Hsucc;
      [|discriminate].
    match type of Hrun with
    | bind (forEachM ?g ?l ?s) _ = _ =>
        destruct (forEachM g l s) as [st2|e] eqn:H2
    end; cbn [bind] in Hrun; [|discriminate].
    destruct (map_get predecessors nid) as [nPredecessors|] eqn:Hpred;
      [|discriminate].
    apply forEachM_kept in H2.
    2:{ intros a s s' _ H. apply (IH _ _ _ H). }
    apply forEachM_kept in Hrun.
    2:{ intros a s s' _ H. destruct (from a) as [p|]; [|discriminate].
        apply (IH _ _ _ H). }
    simpl in H2.
    assert (Hall : incl (gc_nodes (component st) ++ [node])
                        (gc_nodes (component st'))).
    { eapply incl_tran; eauto. }
    split.
    + intros x Hx. apply Hall. apply in_app_iff. now left.
    + intros node' _ [= <-]. apply Hall. apply in_app_iff. right. now left.
Qed.

(** A component holds the node it was started at, one of the nodes [all],
    and every node of it is joined to that one. *)
Definition joinedFrom (all : list AbstractNode) (K : GraphComponent) : Prop :=
  exists s, In s all /\ In s (gc_nodes K)
            /\ forall n, In n (gc_nodes K) -> joined (node_id s) (node_id n).

Lemma components_joined fuel all :
  (forall s, In s all -> map_get nodeIdToNode (node_id s) = Some s) ->
  forall todo seen components seen' components',
    incl todo all ->
    forEachM (startComponent fuel nodeIdToNode successors predecessors)
             todo (seen, components) = Returns (seen', components') ->
    (forall K, In K components -> joinedFrom all K) ->
    forall K, In K components' -> joinedFrom all K.
Proof.
  intros Hget.
  induction todo as [|node todo IH];
    intros seen components seen' components' Hall Hrun Hj; simpl in Hrun.
  - inversion Hrun; subst. exact Hj.
  - assert (Hrest : incl todo all) by (intros x Hx; apply Hall; now right).
    destruct (set_has seen (node_id node)) eqn:Hseen.
    + cbn [bind] in Hrun. eapply IH; eauto.
    + destruct (dfs fuel nodeIdToNode successors predecessors (node_id node)
                    (mkDfs seen (mkComponent [] []))) as [st|e] eqn:Hd;
        cbn [bind] in Hrun; [|discriminate].
      eapply IH; [exact Hrest|exact Hrun|].
      intros K HK. apply in_app_iff in HK. destruct HK as [HK|[<-|[]]]; auto.
      assert (Hnode : In node all) by (apply Hall; now left).
      exists node. split; [exact Hnode|]. split.
      * apply (proj2 (dfs_kept _ _ _ _ Hd) node Hseen (Hget node Hnode)).
      * intros n Hn.
        destruct (dfs_joined _ _ _ _ Hd n Hn) as [[]|H]. exact H.
Qed.

End Joined.

Section ComponentsJoined.

Variable nodes : list AbstractNode.
Variable connections : list IConnection.
Hypothesis wfg : WellFormedGraph nodes connections.

Let i2n : jsmap string := fold_left registerInterfaces nodes [].
Let n2n : jsmap AbstractNode :=
  fold_left (fun m node => map_set m (node_id node) node) nodes [].
Let succs : jsmap (list IConnection) :=
  fst (buildNeighbours i2n connections nodes).
Let preds : jsmap (list IConnection) :=
  snd (buildNeighbours i2n connections nodes).

(** A step of [dfs] follows a connection between two nodes of the input. *)
Lemma goesTo_linked w v :
  goesTo succs preds w v ->
  exists a b, In a nodes /\ In b nodes /\ node_id a = w /\ node_id b = v
              /\ linked nodes connections a b.
Proof.
  intros [[cs [c [Hs [Hc Hv]]]]|[ps [c [p [Hp [Hc [Hfrom Hv]]]]]]].
  - destruct (succs_inv nodes connections _ _ Hs) as [n [Hn [Hw ->]]].
    destruct (source_of nodes connections wfg n c Hn Hc)
      as [Hin [p [Hfrom [Ho _]]]].
    destruct (destination_of nodes connections wfg c Hin) as [m [Hm [Hom Hid]]].
    exists n, m. repeat split; auto; [congruence|].
    left. split; [exact Hn|]. split; [exact Hm|]. exists c, p. auto.
  - assert (Hl : listed preds w c) by (exists ps; auto).
    apply (preds_listed nodes connections) in Hl.
    destruct Hl as [n [Hn [Hcn Hto]]].
    destruct (source_of nodes connections wfg n c Hn Hcn)
      as [Hin [p' [Hfrom' [Ho Hid]]]].
    rewrite Hfrom in Hfrom'. inversion Hfrom'; subst p'.
    destruct (destination_of nodes connections wfg c Hin) as [m [Hm [Hom Hidm]]].
    exists m, n. repeat split; auto; [congruence|congruence|].
    right. split; [exact Hn|]. split; [exact Hm|]. exists c, p. auto.
Qed.

Lemma joined_linked : forall w v,
  joined succs preds w v ->
  forall a b, In a nodes -> In b nodes -> node_id a = w -> node_id b = v ->
              clos_refl_trans AbstractNode (linked nodes connections) a b.
Proof.
  pose proof (wf_nodes _ _ (wfg_base _ _ wfg)) as Hnd.
  assert (Hgen : forall w v, joined succs preds w v ->
            forall a, In a nodes -> node_id a = w ->
            exists b, In b nodes /\ node_id b = v
                      /\ clos_refl_trans AbstractNode
                           (linked nodes connections) a b).
  { intros w v H. induction H as [w v Hstep|w|w y v _ IH1 _ IH2];
      intros a Ha Ea.
    - destruct (goesTo_linked _ _ Hstep) as [a' [m [Ha' [Hm [E1 [E2 Hl]]]]]].
      assert (a' = a).
      { apply (map_injective_on node_id nodes); auto. congruence. }
      subst a'. exists m. repeat split; auto. now apply rt_step.
    - exists a. repeat split; auto. apply rt_refl.
    - destruct (IH1 a Ha Ea) as [m [Hm [Em H1]]].
      destruct (IH2 m Hm Em) as [b [Hb [Eb H2]]].
      exists b. repeat split; auto. eapply rt_trans; eauto. }
  intros w v H a b Ha Hb Ea Eb.
  destruct (Hgen w v H a Ha Ea) as [b' [Hb' [Eb' Hpath]]].
  assert (b' = b).
  { apply (map_injective_on node_id nodes); auto. congruence. }
  now subst.
Qed.

Lemma linked_back : forall u v,
  clos_refl_trans AbstractNode (linked nodes connections) u v ->
  clos_refl_trans AbstractNode (linked nodes connections) v u.
Proof.
  intros u v H. induction H as [u v [H|H]|u|u w v _ IH1 _ IH2].
  - apply rt_step. now right.
  - apply rt_step. now left.
  - apply rt_refl.
  - eapply rt_trans; eauto.
Qed.

(** A component is not empty, and two nodes of it are joined by a path of
    connections, each followed in either direction. *)
Lemma component_joined components :
  connectedComponents (OfNodes nodes) (Some connections) = Returns components ->
  forall K,
    In K components ->
    gc_nodes K <> []
    /\ forall u v, In u (gc_nodes K) -> In v (gc_nodes K) ->
         clos_refl_trans AbstractNode (linked nodes connections) u v.
Proof.
  intros Hrun K HK.
  destruct (components_of_graph nodes connections wfg)
    as [components' [Hrun' [Hcover _]]].
  rewrite Hrun in Hrun'. inversion Hrun'; subst components'. clear Hrun'.
  assert (Hin : forall n, In n (gc_nodes K) -> In n nodes).
  { intros n Hn. apply (Permutation_in _ Hcover).
    apply in_flat_map. exists K. auto. }
  unfold connectedComponents, nodesOrGraphToData in Hrun.
  cbn [bind gd_nodes gd_connections gd_interfaceIdToNodeId gd_nodeIdToNode]
    in Hrun.
  fold i2n in Hrun. fold n2n in Hrun.
  rewrite (surjective_pairing (buildNeighbours i2n connections nodes)) in Hrun.
  fold succs in Hrun. fold preds in Hrun. unfold componentsLoop in Hrun.
  destruct (forEachM (startComponent (S (length nodes)) n2n succs preds)
                     nodes ([], [])) as [[seen comps]|e] eqn:Hloop;
    cbn [bind] in Hrun; [|discriminate].
  inversion Hrun; subst comps. clear Hrun.
  destruct (components_joined n2n succs preds
              (fun x n H => proj2 (n2n_inv nodes x n H))
              _ nodes (fun s Hs => n2n_get nodes connections wfg s Hs)
              nodes _ _ _ _ (incl_refl _) Hloop) with (K := K)
    as [s [Hs [HsK Hj]]]; auto.
  { intros K' []. }
  split; [intros E; rewrite E in HsK; destruct HsK|].
  intros u v Hu Hv.
  apply rt_trans with s.
  - apply linked_back.
    apply (joined_linked _ _ (Hj u Hu)); auto.
  - apply (joined_linked _ _ (Hj v Hv)); auto.
Qed.

End ComponentsJoined.

(** X4. On a well-formed graph without cycle, [getSortedComponents] returns
    one sorting result per connected component, in the order of the
    components.  The order of each result is a permutation of the nodes of
    its component, the orders together are a permutation of the nodes of the
    graph, and every connection has the node of its source port before the
    node of its destination port in the order of one component.  The nodes
    of a result are a connected component of the graph: the order is not
    empty, any two of its nodes are joined by a path of connections, each
    followed in either direction, and every node joined to one of its nodes
    is in it; no node is in the orders of two results. *)
Theorem getSortedComponents_orders_every_component :
  forall nodesOrGraph pConnections nodes connections,
    givenInput nodesOrGraph pConnections = Some (nodes, connections) ->
    WellFormedGraph nodes connections ->
    ~ hasCycle nodes connections ->
    exists components sorted,
      connectedComponents nodesOrGraph pConnections = Returns components
      /\ getSortedComponents nodesOrGraph pConnections = Returns sorted
      /\ Forall2 (fun K r => Permutation (calculationOrder r) (gc_nodes K))
                 components sorted
      /\ Permutation (flat_map calculationOrder sorted) nodes
      /\ (forall c p u v,
            In c connections -> from c = Some p ->
            In u nodes -> In v nodes -> owns u p -> owns v (to c) ->
            exists r i j,
              In r sorted
              /\ nth_error (calculationOrder r) i = Some u
              /\ nth_error (calculationOrder r) j = Some v
              /\ i < j)
      /\ (forall r, In r sorted ->
            calculationOrder r <> []
            /\ (forall u v,
                  In u (calculationOrder r) -> In v (calculationOrder r) ->
                  clos_refl_trans AbstractNode (linked nodes connections) u v)
            /\ (forall u v,
                  In u (calculationOrder r) ->
                  clos_refl_trans AbstractNode (linked nodes connections) u v ->
                  In v (calculationOrder r)))
      /\ (forall i j ri rj n,
            i <> j -> nth_error sorted i = Some ri ->
            nth_error sorted j = Some rj ->
            In n (calculationOrder ri) -> ~ In n (calculationOrder rj)).
Proof.
  intros nog pc nodes connections Hgiven wfg Hacyc.
  rewrite (getSortedComponents_given _ _ _ _ Hgiven).
  rewrite (connectedComponents_given _ _ _ _ Hgiven).
  destruct (components_of_graph nodes connections wfg)
    as [components [Hrun [Hcover [Hclosed Hconn]]]].
  unfold getSortedComponents. rewrite Hrun. cbn [bind].
  set (ordered := fun (K : GraphComponent) (r : ITopologicalSortingResult) =>
         Permutation (calculationOrder r) (gc_nodes K)
         /\ forall c p u v,
              In c (gc_connections K) -> from c = Some p ->
              In u (gc_nodes K) -> In v (gc_nodes K) ->
              owns u p -> owns v (to c) ->
              exists i j,
                nth_error (calculationOrder r) i = Some u
                /\ nth_error (calculationOrder r) j = Some v
                /\ i < j).
  destruct (mapM_Forall2
              (fun c => sortTopologically (OfNodes (gc_nodes c))
                                          (Some (gc_connections c)))
              ordered components) as [sorted [Hsorted Hall]].
  { intros K HK.
    destruct (sorted_or_cycle (gc_nodes K) (gc_connections K)
                (component_wellformed nodes connections components wfg
                   Hcover Hclosed Hconn K HK))
      as [[Hcyc _]|[_ [r [Hr Hord]]]].
    - exfalso. apply Hacyc.
      apply (component_cycle nodes connections components Hcover Hconn K HK
               Hcyc).
    - exists r. split; [exact Hr|exact Hord]. }
  exists components, sorted. split; [reflexivity|]. split; [exact Hsorted|].
  assert (Hperms : Forall2 (fun K r => Permutation (calculationOrder r)
                                                   (gc_nodes K))
                           components sorted).
  { eapply Forall2_impl; [|exact Hall]. intros K r [H _]. exact H. }
  assert (Hsum : Permutation (flat_map calculationOrder sorted) nodes).
  { eapply Permutation_trans; [|exact Hcover].
    now apply (Forall2_flat_map_perm gc_nodes calculationOrder). }
  split; [exact Hperms|]. split; [exact Hsum|]. split; [|split].
  - intros c p u v Hc Hp Hu Hv Hou Hov.
    apply (Permutation_in _ (Permutation_sym Hcover)) in Hu.
    apply in_flat_map in Hu. destruct Hu as [K [HK HuK]].
    assert (Hend : endpointIn K c = true).
    { unfold endpointIn. apply existsb_exists. exists u. split; auto.
      rewrite Hp. apply orb_true_iff. right. now apply set_has_In. }
    assert (HvK : In v (gc_nodes K)).
    { apply (component_ends nodes connections components wfg Hcover Hclosed
               K c p u v); auto.
      eapply component_incl; eauto. }
    assert (HcK : In c (gc_connections K)).
    { apply (Hconn K c HK). auto. }
    assert (Hr : exists r, In r sorted /\ ordered K r).
    { clear - Hall HK. induction Hall as [|K' r' ks rs H _ IH].
      - destruct HK.
      - destruct HK as [->|HK].
        + exists r'. split; [now left|exact H].
        + destruct (IH HK) as [r [Hr Ho]]. exists r. split; [now right|exact Ho]. }
    destruct Hr as [r [Hr [_ Hord]]].
    destruct (Hord c p u v HcK Hp HuK HvK Hou Hov) as [i [j H]].
    exists r, i, j. split; [exact Hr|exact H].
  - intros r Hr.
    assert (HK : exists K, In K components
                           /\ Permutation (calculationOrder r) (gc_nodes K)).
    { clear - Hperms Hr. induction Hperms as [|K' r' ks rs H _ IH].
      - destruct Hr.
      - destruct Hr as [->|Hr].
        + exists K'. split; [now left|exact H].
        + destruct (IH Hr) as [K [HK HP]].
          exists K. split; [now right|exact HP]. }
    destruct HK as [K [HK HP]].
    destruct (component_joined nodes connections wfg components Hrun K HK)
      as [Hne Hj].
    split; [|split].
    + intros E. rewrite E in HP. apply Permutation_nil in HP. contradiction.
    + intros u v Hu Hv. apply Hj; apply (Permutation_in _ HP); auto.
    + intros u v Hu Hpath. apply (Permutation_in _ (Permutation_sym HP)).
      apply (Hclosed K u v HK Hpath). apply (Permutation_in _ HP). exact Hu.
  - intros i j ri rj n Hij Hi Hj.
    apply (NoDup_flat_map_disjoint calculationOrder sorted i j ri rj n); auto.
    apply (Permutation_NoDup (Permutation_sym Hsum)).
    apply (NoDup_map_inv node_id). apply (wf_nodes _ _ (wfg_base _ _ wfg)).
Qed.

(** On a well-formed graph, each component is sorted or has a cycle. *)
Lemma component_sorted_or_cycle nodes connections components K :
  WellFormedGraph nodes connections ->
  Permutation (flat_map gc_nodes components) nodes ->
  (forall K u v,
     In K components ->
     clos_refl_trans AbstractNode (linked nodes connections) u v ->
     In u (gc_nodes K) -> In v (gc_nodes K)) ->
  (forall K c, In K components ->
     (In c (gc_connections K) <-> In c connections /\ endpointIn K c = true)) ->
  In K components ->
  (hasCycle nodes connections
   /\ sortTopologically (OfNodes (gc_nodes K)) (Some (gc_connections K))
      = Throws CycleError)
  \/ (~ hasCycle (gc_nodes K) (gc_connections K)
      /\ exists r, sortTopologically (OfNodes (gc_nodes K))
                     (Some (gc_connections K)) = Returns r).
Proof.
  intros wfg Hcover Hclosed Hconn HK.
  destruct (sorted_or_cycle (gc_nodes K) (gc_connections K)
              (component_wellformed nodes connections components wfg
                 Hcover Hclosed Hconn K HK))
    as [[Hcyc H]|[Hacyc [r [Hr _]]]].
  - left. split; [|exact H].
    apply (component_cycle nodes connections components Hcover Hconn K HK Hcyc).
  - right. split; [exact Hacyc|]. eauto.
Qed.

Lemma getSortedComponents_cycle nodes connections :
  WellFormedGraph nodes connections ->
  hasCycle nodes connections ->
  getSortedComponents (OfNodes nodes) (Some connections) = Throws CycleError.
Proof.
  intros wfg Hcyc.
  destruct (components_of_graph nodes connections wfg)
    as [components [Hrun [Hcover [Hclosed Hconn]]]].
  unfold getSortedComponents. rewrite Hrun. cbn [bind].
  destruct (cycle_component nodes connections components wfg Hcover
              Hclosed Hconn Hcyc) as [K [HK HcK]].
  apply mapM_throws.
  - intros K' HK'.
    destruct (component_sorted_or_cycle nodes connections components K' wfg
                Hcover Hclosed Hconn HK') as [[_ H]|[_ H]]; auto.
  - exists K. split; [exact HK|].
    destruct (component_sorted_or_cycle nodes connections components K wfg
                Hcover Hclosed Hconn HK) as [[_ H]|[H _]];
      [exact H|contradiction].
Qed.

(** X5. On a well-formed graph, [getSortedComponents] throws exactly when
    the graph has a directed cycle, and what it throws is [CycleError]. *)
Theorem getSortedComponents_throws_iff_cycle :
  forall nodesOrGraph pConnections nodes connections,
    givenInput nodesOrGraph pConnections = Some (nodes, connections) ->
    WellFormedGraph nodes connections ->
    (hasCycle nodes connections ->
       getSortedComponents nodesOrGraph pConnections = Throws CycleError)
    /\ (forall e, getSortedComponents nodesOrGraph pConnections = Throws e ->
          e = CycleError /\ hasCycle nodes connections).
Proof.
  intros nog pc nodes connections Hgiven wfg.
  rewrite (getSortedComponents_given _ _ _ _ Hgiven).
  split; [now apply getSortedComponents_cycle|].
  destruct (components_of_graph nodes connections wfg)
    as [components [Hrun [Hcover [Hclosed Hconn]]]].
  unfold getSortedComponents. rewrite Hrun. cbn [bind].
  intros e He. apply mapM_thrown in He. destruct He as [K [HK He]].
  destruct (component_sorted_or_cycle nodes connections components K wfg
              Hcover Hclosed Hconn HK) as [[Hcyc H]|[_ [r H]]]; [|congruence].
  rewrite H in He. inversion He; subst e. auto.
Qed.

(* ================================================================== *)
(** * What a visit adds to the trace *)
(* ================================================================== *)

(** The value a connection carries from a visited node: the [transferData]
    hook applied to the output value under the key of the source port. *)
Definition carried (td : jsvalue -> IConnection -> jsvalue)
  (node : AbstractNode) (outputValues : jsmap jsvalue) (c : IConnection)
  : jsvalue :=
  td (match from c with
      | Some src =>
          match find (fun kv => String.eqb (intf_id (snd kv)) (intf_id src))
                     (outputs node) with
          | Some (intfKey, _) =>
              match map_get outputValues intfKey with
              | Some o => o
              | None => VUndefined
              end
          | None => VUndefined
          end
      | None => VUndefined
      end) c.

Lemma stage_returns td node ov c st st' :
  stage td node ov c st = (st', Returns tt) ->
  run_trace st' = run_trace st ++ [TransferData node c (carried td node ov c)]
  /\ run_result st' = run_result st.
Proof.
  unfold stage, carried.
  destruct (from c) as [src|]; [|discriminate].
  destruct (find _ (outputs node)) as [[intfKey ?]|]; [|discriminate].
  destruct (String.eqb intfKey ""); [discriminate|].
  unfold bindR, emit. cbn [fst snd].
  destruct (allowMultipleConnections (to c)).
  - cbn [run_inputs].
    destruct (map_get (run_inputs st) (intf_id (to c))) as [target|].
    + unfold push. destruct target; simpl; try discriminate.
      destruct (nth_error (run_heap st) loc) as [[elems|]|]; simpl;
        try discriminate.
      intros [= <-]. auto.
    + unfold allocArray, setInput. simpl. intros [= <-]. auto.
  - unfold setInput. simpl. intros [= <-]. auto.
Qed.

Lemma forEachR_returns {A : Type} (body : A -> run unit) :
  forall xs x st st',
    forEachR body (x :: xs) st = (st', Returns tt) ->
    exists st1, body x st = (st1, Returns tt)
                /\ forEachR body xs st1 = (st', Returns tt).
Proof.
  intros xs x st st'. simpl. unfold bindR.
  destruct (body x st) as [st1 [[]|e]]; [|discriminate].
  intros H. exists st1. auto.
Qed.

Lemma forEachR_stage_returns td node ov : forall cs st st',
  forEachR (stage td node ov) cs st = (st', Returns tt) ->
  run_trace st'
  = run_trace st ++ map (fun c => TransferData node c (carried td node ov c)) cs
  /\ run_result st' = run_result st.
Proof.
  induction cs as [|c cs IH]; intros st st' H.
  - simpl in H. inversion H; subst. simpl. now rewrite app_nil_r.
  - apply forEachR_returns in H. destruct H as [st1 [H1 H2]].
    apply stage_returns in H1. destruct H1 as [Ht Hr].
    apply IH in H2. destruct H2 as [Ht' Hr'].
    rewrite Ht', Ht, Hr', Hr. simpl. now rewrite <- app_assoc.
Qed.

(** The connections that start at a node, an absent entry standing for
    none. *)
Definition outgoing (cfn : refmap (list IConnection)) (node : AbstractNode)
  : list IConnection :=
  match refmap_get cfn (node_ref node) with
  | Some cs => cs
  | None => []
  end.

Lemma finishNode_returns td cfn node iv ov st st' :
  finishNode td cfn node iv ov st = (st', Returns tt) ->
  run_trace st'
  = run_trace st ++ AfterNodeCalculation ov node
      :: map (fun c => TransferData node c (carried td node ov c))
             (outgoing cfn node)
  /\ run_result st'
     = mergeEntries (nestedEntries (run_heap st) ov)
         (map_set (run_result st) (node_id node) (mkNodeResult iv ov)).
Proof.
  unfold finishNode.
  destruct (validateNodeCalculationOutput node ov) as [[]|e];
    [|rewrite run_lift_throw; discriminate].
  rewrite run_lift, run_emit, run_setResult.
  cbn [run_inputs run_heap run_result run_trace].
  set (st1 := mkRun (run_inputs st) (run_heap st)
                (map_set (run_result st) (node_id node) (mkNodeResult iv ov))
                (run_trace st ++ [AfterNodeCalculation ov node])).
  unfold bindR at 1.
  assert (Hmerge : forall st2 c2, mergeSubgraphResult ov st1 = (st2, c2) ->
            run_trace st2 = run_trace st1
            /\ (c2 = Returns tt ->
                run_result st2
                = mergeEntries (nestedEntries (run_heap st) ov)
                               (run_result st1))).
  { intros st2 c2. unfold mergeSubgraphResult, nestedEntries.
    change (run_heap st1) with (run_heap st).
    destruct (subgraphResultOf (run_heap st) ov) as [[entries|]|e].
    - pose proof (setEntries_result entries st1) as H. cbv zeta in H.
      intros E. rewrite E in H. cbn [fst] in H.
      destruct H as [H1 [_ [_ H4]]]. split; auto.
    - intros [= <- <-]. split; auto.
    - intros [= <- <-]. split; auto; discriminate. }
  destruct (mergeSubgraphResult ov st1) as [st2 [[]|e]] eqn:Hm;
    [|discriminate].
  destruct (Hmerge st2 (Returns tt) eq_refl) as [Ht2 Hr2].
  specialize (Hr2 eq_refl).
  unfold outgoing.
  destruct (refmap_get cfn (node_ref node)) as [cs|].
  - intros H. apply forEachR_stage_returns in H. destruct H as [Ht Hr].
    rewrite Ht, Hr, Ht2, Hr2. unfold st1. simpl.
    now rewrite <- app_assoc.
  - unfold ret. intros [= <-]. rewrite Ht2, Hr2. unfold st1. simpl. auto.
Qed.

(** A visit that returns has come to the rest of the loop body with the
    notification, and the call when there is one, in the trace. *)
Lemma visitNode_returns_finish td hint cd cfn node calc st st' :
  calculate node = Some calc ->
  visitNode td hint cd cfn node st = (st', Returns tt) ->
  let iv := fst (resolveInputs (run_inputs st) (run_heap st) node) in
  let called :=
    mustCalculate hint node
      (snd (resolveInputs (run_inputs st) (run_heap st) node)) in
  exists ov st1,
    finishNode td cfn node iv ov st1 = (st', Returns tt)
    /\ run_result st1 = run_result st
    /\ run_trace st1
       = run_trace st
         ++ BeforeNodeCalculation iv node
         :: (if called then [CalculateCalled node iv] else [])
    /\ (if called
        then exists cells, calc (run_heap st) iv cd = Returns (ov, cells)
        else ov = currentOutputValues node).
Proof.
  intros Hcalc. cbv zeta. unfold visitNode. rewrite Hcalc.
  destruct (resolveInputs (run_inputs st) (run_heap st) node) as [iv ch].
  cbn [fst snd]. rewrite run_emit.
  destruct (mustCalculate hint node ch).
  - unfold callCalculate. unfold bindR at 1. rewrite run_emit.
    cbn [run_inputs run_heap run_result run_trace].
    destruct (calc (run_heap st) iv cd) as [[ov cells]|e]; [|discriminate].
    intros H. eexists. eexists. split; [exact H|]. simpl.
    rewrite <- app_assoc. simpl. eauto.
  - rewrite run_ret. intros H. eexists. eexists. split; [exact H|].
    simpl. auto.
Qed.

(** X6. A visit that returns adds to the trace, in this order: the
    [beforeNodeCalculation] notification with the resolved inputs; the call
    of the step, when the engine's test asks for it; the
    [afterNodeCalculation] notification with the outputs (those the step
    returned, or else the stored ones); and one execution of the
    [transferData] hook per connection that starts at the node, in the
    order of [connectionsFromNode], each on the output value under the key
    of its source port.  The node has an entry in the result. *)
Theorem visitNode_trace_of_a_visit :
  forall td hint cd cfn node calc st st',
    calculate node = Some calc ->
    visitNode td hint cd cfn node st = (st', Returns tt) ->
    let iv := fst (resolveInputs (run_inputs st) (run_heap st) node) in
    let called :=
      mustCalculate hint node
        (snd (resolveInputs (run_inputs st) (run_heap st) node)) in
    exists ov,
      (if called
       then exists cells, calc (run_heap st) iv cd = Returns (ov, cells)
       else ov = currentOutputValues node)
      /\ run_trace st'
         = run_trace st
           ++ BeforeNodeCalculation iv node
           :: (if called then [CalculateCalled node iv] else [])
           ++ AfterNodeCalculation ov node
           :: map (fun c => TransferData node c (carried td node ov c))
                  (outgoing cfn node)
      /\ In (node_id node) (map_keys (run_result st')).
Proof.
  intros td hint cd cfn node calc st st' Hcalc Hrun. cbv zeta.
  destruct (visitNode_returns_finish td hint cd cfn node calc st st' Hcalc Hrun)
    as [ov [st1 [Hfin [_ [Ht1 Hov]]]]].
  apply finishNode_returns in Hfin. destruct Hfin as [Ht Hr].
  exists ov. split; [exact Hov|]. split.
  - rewrite Ht, Ht1, <- app_assoc. reflexivity.
  - rewrite Hr. apply mergeEntries_keys. apply map_get_in_keys.
    eexists. apply map_get_set_eq.
Qed.

Lemma forEachR_throws_at {A : Type} (body : A -> run unit) x post e :
  forall pre st0 st st',
    forEachR body pre st0 = (st, Returns tt) ->
    body x st = (st', Throws e) ->
    forEachR body (pre ++ x :: post) st0 = (st', Throws e).
Proof.
  induction pre as [|y pre IH]; intros st0 st st' Hpre Hx.
  - simpl in Hpre. inversion Hpre; subst. simpl. unfold bindR. now rewrite Hx.
  - apply forEachR_returns in Hpre. destruct Hpre as [st1 [Hy Hpre]].
    simpl. unfold bindR. rewrite Hy. eapply IH; eauto.
Qed.

(** X7. When the step of a node throws, the walk of the component throws
    the same error at once: the run ends in the state it had reached, plus
    the [beforeNodeCalculation] notification and the call; the node gets no
    [afterNodeCalculation] notification, no entry in the result, none of its
    connections is transferred, and the nodes after it are not visited. *)
Theorem calculateComponent_stops_at_throwing_step :
  forall td hint cd component pre node post calc st0 st e,
    calculationOrder component = pre ++ node :: post ->
    forEachR (visitNode td hint cd (connectionsFromNode component)) pre st0
    = (st, Returns tt) ->
    calculate node = Some calc ->
    mustCalculate hint node
      (snd (resolveInputs (run_inputs st) (run_heap st) node)) = true ->
    calc (run_heap st)
         (fst (resolveInputs (run_inputs st) (run_heap st) node)) cd
    = Throws e ->
    calculateComponent td hint cd component st0
    = (mkRun (run_inputs st) (run_heap st) (run_result st)
         (run_trace st
          ++ [BeforeNodeCalculation
                (fst (resolveInputs (run_inputs st) (run_heap st) node)) node;
              CalculateCalled node
                (fst (resolveInputs (run_inputs st) (run_heap st) node))]),
       Throws e).
Proof.
  intros td hint cd component pre node post calc st0 st e
         Horder Hpre Hcalc Hmust Hthrow.
  unfold calculateComponent. rewrite Horder.
  apply (forEachR_throws_at _ node post e pre st0 st); [exact Hpre|].
  unfold visitNode. rewrite Hcalc.
  destruct (resolveInputs (run_inputs st) (run_heap st) node) as [iv ch].
  cbn [fst snd] in *. rewrite run_emit, Hmust.
  unfold callCalculate. unfold bindR at 1. rewrite run_emit.
  cbn [run_inputs run_heap run_result run_trace].
  rewrite Hthrow. rewrite <- app_assoc. reflexivity.
Qed.

(* ================================================================== *)
(** * What a run that returns has covered *)
(* ================================================================== *)

(** From [st] to [st'] the result keeps its keys and the trace its events. *)
Definition grownFrom (st st' : RunState) : Prop :=
  incl (map_keys (run_result st)) (map_keys (run_result st'))
  /\ exists evs, run_trace st' = run_trace st ++ evs.

Lemma grownFrom_refl st : grownFrom st st.
Proof. split; [apply incl_refl|]. exists []. now rewrite app_nil_r. Qed.

Lemma grownFrom_trans st1 st2 st3 :
  grownFrom st1 st2 -> grownFrom st2 st3 -> grownFrom st1 st3.
Proof.
  intros [H1 [e1 E1]] [H2 [e2 E2]]. split.
  - eapply incl_tran; eauto.
  - exists (e1 ++ e2). now rewrite E2, E1, <- app_assoc.
Qed.

(** A node that was visited, or that has no step to visit it for. *)
Definition covered (st : RunState) (n : AbstractNode) : Prop :=
  calculate n <> None ->
  In (node_id n) (map_keys (run_result st))
  /\ (exists iv, In (BeforeNodeCalculation iv n) (run_trace st))
  /\ (exists ov, In (AfterNodeCalculation ov n) (run_trace st)).

Lemma covered_grown st st' n : grownFrom st st' -> covered st n -> covered st' n.
Proof.
  intros [Hk [evs Ht]] Hc Hn. destruct (Hc Hn) as [H1 [[iv H2] [ov H3]]].
  split; [now apply Hk|]. rewrite Ht. split.
  - exists iv. apply in_app_iff. now left.
  - exists ov. apply in_app_iff. now left.
Qed.

Lemma visitNode_returns_covered td hint cd cfn node st st' :
  visitNode td hint cd cfn node st = (st', Returns tt) ->
  grownFrom st st' /\ covered st' node.
Proof.
  intros H. destruct (calculate node) as [calc|] eqn:Hcalc.
  - destruct (visitNode_returns_finish td hint cd cfn node calc st st' Hcalc H)
      as [ov [st1 [Hfin [Hr1 [Ht1 _]]]]].
    apply finishNode_returns in Hfin. destruct Hfin as [Ht Hr].
    split; [split|].
    + rewrite Hr. intros k Hk. apply mergeEntries_keys.
      apply map_keys_set_keeps. now rewrite Hr1.
    + eexists. rewrite Ht, Ht1, <- app_assoc. reflexivity.
    + intros _. split; [|split].
      * rewrite Hr. apply mergeEntries_keys. apply map_get_in_keys.
        eexists. apply map_get_set_eq.
      * eexists. rewrite Ht, Ht1. apply in_app_iff. left.
        apply in_app_iff. right. now left.
      * exists ov. rewrite Ht. apply in_app_iff. right. now left.
  - unfold visitNode in H. rewrite Hcalc in H. inversion H; subst.
    split; [apply grownFrom_refl|]. intros Hn. congruence.
Qed.

Lemma visits_return_covered td hint cd cfn : forall ns st st',
  forEachR (visitNode td hint cd cfn) ns st = (st', Returns tt) ->
  grownFrom st st' /\ forall n, In n ns -> covered st' n.
Proof.
  induction ns as [|x ns IH]; intros st st' H.
  - simpl in H. inversion H; subst. split; [apply grownFrom_refl|].
    intros n [].
  - apply forEachR_returns in H. destruct H as [st1 [Hx Hrest]].
    apply visitNode_returns_covered in Hx. destruct Hx as [G1 C1].
    apply IH in Hrest. destruct Hrest as [G2 C2].
    split; [eapply grownFrom_trans; eauto|].
    intros n [<-|Hn]; [|now apply C2].
    eapply covered_grown; eauto.
Qed.

(** A component the run walks: any, without hint; with a hint, one that
    has a node of the id of the hint. *)
Definition walked (hint : option AbstractNode)
  (component : ITopologicalSortingResult) : Prop :=
  match hint with
  | None => True
  | Some u => find (findUpdated u) (calculationOrder component) <> None
  end.

(** X8. When the walk of the components returns, every node with a
    calculation step in a component that is walked (every component without
    hint, those with a node of the hint's id with one) has been notified
    before and after its calculation and has an entry in the result. *)
Theorem calculateComponents_covers_walked_nodes :
  forall td hint cd components st0 st,
    calculateComponents td hint cd components st0 = (st, Returns tt) ->
    forall component n,
      In component components -> walked hint component ->
      In n (calculationOrder component) -> calculate n <> None ->
      In (node_id n) (map_keys (run_result st))
      /\ (exists iv, In (BeforeNodeCalculation iv n) (run_trace st))
      /\ (exists ov, In (AfterNodeCalculation ov n) (run_trace st)).
Proof.
  intros td hint cd components.
  assert (Hgen : forall st0 st,
            calculateComponents td hint cd components st0 = (st, Returns tt) ->
            grownFrom st0 st
            /\ forall component n,
                 In component components -> walked hint component ->
                 In n (calculationOrder component) -> covered st n).
  { unfold calculateComponents.
    induction components as [|K components IH]; intros st0 st H.
    - simpl in H. inversion H; subst. split; [apply grownFrom_refl|].
      intros component n [].
    - apply forEachR_returns in H. destruct H as [st1 [HK Hrest]].
      apply IH in Hrest. destruct Hrest as [G2 C2].
      assert (H1 : grownFrom st0 st1
                   /\ (walked hint K ->
                       forall n, In n (calculationOrder K) -> covered st1 n)).
      { unfold walked. destruct hint as [u|].
        - destruct (find (findUpdated u) (calculationOrder K)).
          + apply visits_return_covered in HK. destruct HK as [G C]. auto.
          + inversion HK; subst. split; [apply grownFrom_refl|].
            intros Hw. congruence.
        - apply visits_return_covered in HK. destruct HK as [G C]. auto. }
      destruct H1 as [G1 C1].
      split; [eapply grownFrom_trans; eauto|].
      intros component n [<-|Hc] Hw Hn; [|now apply (C2 component)].
      eapply covered_grown; eauto. }
  intros st0 st H component n Hc Hw Hn Hcalc.
  destruct (Hgen st0 st H) as [_ Hcov].
  now apply (Hcov component n Hc Hw Hn).
Qed.

Lemma calculateComponents_passes_over x td hint cd components :
  (forall component node,
     In component components -> In node (calculationOrder component) ->
     calculate node <> None ->
     node_id node <> x /\ calculateAvoids x node) ->
  preserves (Untouched x) (calculateComponents td hint cd components).
Proof.
  intros H. unfold calculateComponents.
  apply preserves_forEachR. intros component Hc.
  assert (Hcomp : preserves (Untouched x)
                    (calculateComponent td hint cd component)).
  { unfold calculateComponent. apply preserves_forEachR. intros node Hn.
    destruct (calculate node) as [calc|] eqn:Hcalc.
    - destruct (H component node Hc Hn) as [H1 H2]; [congruence|].
      now apply visitNode_untouched.
    - unfold visitNode. rewrite Hcalc. apply preserves_ret. }
  destruct hint as [u|]; auto.
  destruct (find (findUpdated u) (calculationOrder component)); auto.
  apply preserves_ret.
Qed.

(** X9. A node without calculation step is passed over in every run, with
    or without hint: no notification and no execution of the
    [transferData] hook is about it, so none of the connections that start
    at it carries a value, and the result has no entry under its id (its id
    being the id of no node that has a step, and of no entry of a nested
    result). *)
Theorem nodes_without_calculate_are_passed_over :
  forall td hint cd components staged h n,
    calculate n = None ->
    (forall component m,
       In component components -> In m (calculationOrder component) ->
       calculate m <> None ->
       node_id m <> node_id n /\ calculateAvoids (node_id n) m) ->
    nestedAvoid (node_id n) h ->
    let st := fst (calculateComponents td hint cd components
                     (mkRun staged h [] [])) in
    (forall ev, In ev (run_trace st) -> node_id (eventNode ev) <> node_id n)
    /\ ~ In (node_id n) (map_keys (run_result st)).
Proof.
  intros td hint cd components staged h n Hnone Hothers Hheap. cbv zeta.
  assert (U : Untouched (node_id n)
                (fst (calculateComponents td hint cd components
                        (mkRun staged h [] [])))).
  { apply (calculateComponents_passes_over (node_id n) td hint cd components
             Hothers).
    constructor; simpl; auto. }
  split; [apply (un_trace _ _ U)|apply (un_result _ _ U)].
Qed.

Lemma visits_without_calculate td hint cd cfn : forall ns st,
  (forall n, In n ns -> calculate n = None) ->
  forEachR (visitNode td hint cd cfn) ns st = (st, Returns tt).
Proof.
  induction ns as [|x ns IH]; intros st H; simpl; [reflexivity|].
  unfold bindR, visitNode. rewrite (H x (or_introl eq_refl)). simpl.
  apply IH. intros n Hn. apply H. now right.
Qed.

Lemma components_without_calculate td hint cd : forall components,
  (forall component n,
     In component components -> In n (calculationOrder component) ->
     calculate n = None) ->
  forall st, calculateComponents td hint cd components st = (st, Returns tt).
Proof.
  unfold calculateComponents.
  induction components as [|K components IH]; intros Hnone st; simpl;
    [reflexivity|].
  assert (HK : calculateComponent td hint cd K st = (st, Returns tt)).
  { unfold calculateComponent. apply visits_without_calculate.
    intros n Hn. apply (Hnone K n); auto. now left. }
  assert (Hrest : forall component n,
            In component components -> In n (calculationOrder component) ->
            calculate n = None).
  { intros c n Hc. apply Hnone. now right. }
  unfold bindR.
  destruct hint as [u|].
  - destruct (find (findUpdated u) (calculationOrder K)).
    + rewrite HK. now apply IH.
    + simpl. now apply IH.
  - rewrite HK. now apply IH.
Qed.

(** X10. A run on components none of whose nodes has a calculation step
    returns the empty result: nothing is notified, nothing is staged and the
    heap is left as it was. *)
Theorem runGraph_without_calculate_returns_empty :
  forall engine graph staged h cd components,
    componentsOf engine graph = Returns components ->
    (forall component n,
       In component components -> In n (calculationOrder component) ->
       calculate n = None) ->
    exists engine',
      runGraph engine graph staged h cd
      = (engine', mkRun staged h [] [], Returns []).
Proof.
  intros engine graph staged h cd components Hcomps Hnone.
  destruct (runGraph_components engine graph staged h cd components Hcomps)
    as [engine' Hrun].
  exists engine'. rewrite Hrun.
  rewrite (components_without_calculate (transferData engine)
             (updatedNode engine) cd components Hnone).
  reflexivity.
Qed.

(* ================================================================== *)
(** * The order cache, the hint and the recalculation flag *)
(* ================================================================== *)

(** X11. [runGraph] on a well-formed graph with a directed cycle and no
    cached order throws [CycleError] before any node is visited: nothing is
    notified, staged or recorded, nothing is cached, and the updated-node
    hint is kept; so does [execute] when the recalculation flag is set,
    which leaves the cache cleared and the flag unset. *)
Theorem runGraph_on_cycle_visits_nothing :
  forall engine graph staged h cd,
    WellFormedGraph (graph_nodes graph) (graph_connections graph) ->
    hasCycle (graph_nodes graph) (graph_connections graph) ->
    (map_has (order engine) (graph_id graph) = false ->
     runGraph engine graph staged h cd
     = (engine, mkRun staged h [] [], Throws CycleError))
    /\ (recalculateOrder engine = true ->
        execute engine graph h cd
        = (mkEngine (transferData engine) [] (updatedNode engine) false,
           mkRun (unconnectedInputs (graph_nodes graph)) h [] [],
           Throws CycleError)).
Proof.
  intros engine graph staged h cd wfg Hcyc.
  assert (Hsort : getSortedComponents (OfGraph graph) None = Throws CycleError).
  { rewrite (getSortedComponents_given (OfGraph graph) None
               (graph_nodes graph) (graph_connections graph) eq_refl).
    now apply getSortedComponents_cycle. }
  split.
  - intros Hmiss. unfold runGraph. rewrite Hmiss, Hsort. reflexivity.
  - intros Hflag. unfold execute, runGraph. rewrite Hflag.
    cbn [order map_has map_get]. rewrite Hsort. reflexivity.
Qed.








(* ================================================================== *)
(** * The values [execute] gathers *)
(* ================================================================== *)

(** The input ports of the nodes, in the order [execute] meets them. *)
Definition inputPorts (nodes : list AbstractNode) : list NodeInterface :=
  flat_map (fun n => map_values (inputs n)) nodes.

Definition gather (acc : jsmap jsvalue) (ni : NodeInterface) : jsmap jsvalue :=
  if Nat.eqb (connectionCount ni) 0
  then map_set acc (intf_id ni) (value ni) else acc.

Lemma unconnectedInputs_flat : forall nodes acc,
  fold_left
    (fun inputValues n =>
       fold_left
         (fun acc ni =>
            if Nat.eqb (connectionCount ni) 0
            then map_set acc (intf_id ni) (value ni) else acc)
         (map_values (inputs n)) inputValues)
    nodes acc
  = fold_left gather (inputPorts nodes) acc.
Proof.
  induction nodes as [|n nodes IH]; intros acc; simpl; auto.
  unfold inputPorts in *. simpl. rewrite fold_left_app. apply IH.
Qed.

Lemma gather_get : forall ports acc pid v,
  map_get (fold_left gather ports acc) pid = Some v ->
  map_get acc pid = Some v
  \/ exists ni, In ni ports /\ intf_id ni = pid
                /\ connectionCount ni = 0 /\ value ni = v.
Proof.
  induction ports as [|p ports IH]; intros acc pid v H; simpl in *; auto.
  apply IH in H. destruct H as [H|[ni [H1 H2]]].
  - unfold gather in H. destruct (Nat.eqb (connectionCount p) 0) eqn:E; auto.
    rewrite map_get_set in H. destruct (String.eqb (intf_id p) pid) eqn:E'; auto.
    inversion H; subst. right. exists p.
    apply String.eqb_eq in E'. apply Nat.eqb_eq in E. auto.
  - right. exists ni. tauto.
Qed.

Lemma gather_other : forall ports acc pid,
  ~ In pid (map intf_id ports) ->
  map_get (fold_left gather ports acc) pid = map_get acc pid.
Proof.
  induction ports as [|p ports IH]; intros acc pid H; simpl in *; auto.
  rewrite IH by tauto. unfold gather.
  destruct (Nat.eqb (connectionCount p) 0); auto.
  apply map_get_set_ne. tauto.
Qed.

(** X13. [execute] stages the stored value of an input port exactly when
    the port has no connection: every value staged is the stored value of
    an input port with [connectionCount] 0 (output ports are never staged);
    and, the ids of the input ports being distinct, an input port without
    connection is staged with its value and one with connections is not
    staged. *)
Theorem unconnectedInputs_stages_unconnected_inputs :
  forall nodes,
    (forall pid v,
       map_get (unconnectedInputs nodes) pid = Some v ->
       exists n key ni,
         In n nodes /\ In (key, ni) (inputs n) /\ intf_id ni = pid
         /\ connectionCount ni = 0 /\ value ni = v)
    /\ (NoDup (map intf_id (inputPorts nodes)) ->
        forall n key ni,
          In n nodes -> In (key, ni) (inputs n) ->
          map_get (unconnectedInputs nodes) (intf_id ni)
          = if Nat.eqb (connectionCount ni) 0 then Some (value ni) else None).
Proof.
  intros nodes. unfold unconnectedInputs. rewrite unconnectedInputs_flat.
  split.
  - intros pid v H. apply gather_get in H.
    destruct H as [H|[ni [Hin H]]]; [discriminate|].
    unfold inputPorts in Hin. apply in_flat_map in Hin.
    destruct Hin as [n [Hn Hni]]. unfold map_values in Hni.
    apply in_map_iff in Hni. destruct Hni as [[key ni'] [E Hk]].
    simpl in E. subst ni'. exists n, key, ni. tauto.
  - intros Hnd n key ni Hn Hk.
    assert (Hin : In ni (inputPorts nodes)).
    { unfold inputPorts. apply in_flat_map. exists n. split; auto.
      unfold map_values. apply in_map_iff. exists (key, ni). auto. }
    apply in_split in Hin. destruct Hin as [l1 [l2 E]]. rewrite E in *.
    rewrite map_app in Hnd. simpl in Hnd.
    pose proof (NoDup_remove_2 _ _ _ Hnd) as Hnot.
    rewrite fold_left_app. simpl.
    rewrite gather_other.
    2:{ intros H. apply Hnot. apply in_app_iff. now right. }
    unfold gather at 1.
    destruct (Nat.eqb (connectionCount ni) 0); [apply map_get_set_eq|].
    rewrite gather_other; [reflexivity|].
    intros H. apply Hnot. apply in_app_iff. now left.
Qed.

(* ================================================================== *)
(** * The first revision: the walk starts at the updated node *)
(* ================================================================== *)

(** No event and no entry of the result is about the id [x]. *)
Definition Unmentioned (x : string) (st : RunState) : Prop :=
  (forall ev, In ev (run_trace st) -> node_id (eventNode ev) <> x)
  /\ ~ In x (map_keys (run_result st)).

Lemma emit_unmentioned x ev :
  node_id (eventNode ev) <> x -> preserves (Unmentioned x) (emit ev).
Proof.
  intros Hne st [H1 H2]. split; simpl; auto.
  intros ev' Hin. apply in_app_iff in Hin. destruct Hin as [Hin|[<-|[]]]; auto.
Qed.

Lemma setResult_unmentioned x k r :
  k <> x -> preserves (Unmentioned x) (setResult k r).
Proof.
  intros Hne st [H1 H2]. split; simpl; auto.
  intros Hin. apply map_keys_set_in in Hin. destruct Hin; auto.
Qed.

Lemma stage_unmentioned x td node outs c :
  node_id node <> x -> preserves (Unmentioned x) (stage td node outs c).
Proof.
  intros Hne. unfold stage.
  destruct (from c) as [src|]; [|apply preserves_throw].
  destruct (find _ (outputs node)) as [[intfKey ?]|]; [|apply preserves_throw].
  destruct (String.eqb intfKey ""); [apply preserves_throw|].
  apply preserves_bindR; [now apply emit_unmentioned|]. intros _.
  destruct (allowMultipleConnections (to c)).
  - intros st [H1 H2].
    destruct (map_get (run_inputs st) (intf_id (to c))) as [target|].
    + unfold push. destruct target; try (split; auto; fail).
      destruct (nth_error (run_heap st) loc) as [[elems|]|];
        split; auto.
    + split; simpl; auto.
  - intros st [H1 H2]. split; simpl; auto.
Qed.

Lemma visitNode_v1_unmentioned x td hint cd cfn node :
  node_id node <> x ->
  preserves (Unmentioned x) (visitNode_v1 td hint cd cfn node).
Proof.
  intros Hne. unfold visitNode_v1.
  destruct (calculate node) as [calc|] eqn:Hcalc; [|apply preserves_ret].
  assert (Hinner : forall iv ch,
            preserves (Unmentioned x)
              (emit (BeforeNodeCalculation iv node) ;;;
               outputValues <~
                 (if mustCalculate_v1 hint node ch
                  then callCalculate calc node iv cd
                  else ret (currentOutputValues node)) ;;;
               finishNode_v1 td cfn node iv outputValues)).
  2:{ intros st Hst. cbv beta.
      destruct (resolveInputs_v1 (run_inputs st) node) as [iv ch].
      now apply Hinner. }
  intros iv ch.
  apply preserves_bindR; [now apply emit_unmentioned|]. intros _.
  apply preserves_bindR.
  - destruct (mustCalculate_v1 hint node ch); [|apply preserves_ret].
    unfold callCalculate.
    apply preserves_bindR; [now apply emit_unmentioned|]. intros _.
    intros st [H1 H2].
    destruct (calc (run_heap st) iv cd) as [[ov cells]|e]; split; auto.
  - intros ov. unfold finishNode_v1.
    apply preserves_bindR; [apply preserves_lift|]. intros _.
    apply preserves_bindR; [now apply emit_unmentioned|]. intros _.
    apply preserves_bindR; [now apply setResult_unmentioned|]. intros _.
    destruct (refmap_get cfn (node_ref node)); [|apply preserves_ret].
    apply preserves_forEachR. intros c _. now apply stage_unmentioned.
Qed.

Lemma findIndex_first {A : Type} (p : A -> bool) : forall pre x post,
  (forall y, In y pre -> p y = false) -> p x = true ->
  findIndex p (pre ++ x :: post) = Some (length pre).
Proof.
  induction pre as [|y pre IH]; intros x post Hpre Hx; simpl.
  - now rewrite Hx.
  - rewrite (Hpre y (or_introl eq_refl)).
    rewrite IH; auto. intros z Hz. apply Hpre. now right.
Qed.

Lemma skipn_length_app {A : Type} (pre post : list A) :
  skipn (length pre) (pre ++ post) = post.
Proof. induction pre; simpl; auto. Qed.

(** X14. In the first revision, with an updated-node hint, the walk of a
    component starts at the first node of the id of the hint: the nodes
    before it in the calculation order are not visited, so (their ids being
    those of no node from there on) no notification is about them, no
    calculation step of theirs is called, and the result gets no entry
    under their ids. *)
Theorem calculateComponent_v1_starts_at_updated_node :
  forall td u cd component pre first post,
    calculationOrder component = pre ++ first :: post ->
    node_id first = node_id u ->
    (forall n, In n pre -> node_id n <> node_id u) ->
    (forall st,
       calculateComponent_v1 td (Some u) cd component st
       = forEachR (visitNode_v1 td (Some u) cd (connectionsFromNode component))
                  (first :: post) st)
    /\ forall n staged h,
         In n pre ->
         (forall m, In m (first :: post) -> node_id m <> node_id n) ->
         let st := fst (calculateComponent_v1 td (Some u) cd component
                          (mkRun staged h [] [])) in
         (forall ev, In ev (run_trace st) ->
                     node_id (eventNode ev) <> node_id n)
         /\ ~ In (node_id n) (map_keys (run_result st)).
Proof.
  intros td u cd component pre first post Horder Hfirst Hpre.
  assert (Hstart : forall st,
            calculateComponent_v1 td (Some u) cd component st
            = forEachR (visitNode_v1 td (Some u) cd
                          (connectionsFromNode component))
                       (first :: post) st).
  { intros st. unfold calculateComponent_v1, starIdx. rewrite Horder.
    rewrite findIndex_first.
    - now rewrite skipn_length_app.
    - intros y Hy. apply String.eqb_neq. now apply Hpre.
    - apply String.eqb_eq. exact Hfirst. }
  split; [exact Hstart|].
  intros n staged h Hn Hrest. cbv zeta. rewrite Hstart.
  assert (U : preserves (Unmentioned (node_id n))
                (forEachR (visitNode_v1 td (Some u) cd
                             (connectionsFromNode component))
                          (first :: post))).
  { apply preserves_forEachR. intros m Hm.
    apply visitNode_v1_unmentioned. now apply Hrest. }
  apply U. split; simpl; auto.
Qed.

Lemma find_findIndex {A : Type} (p : A -> bool) : forall l,
  find p l <> None -> exists i, findIndex p l = Some i.
Proof.
  induction l as [|x l IH]; simpl; [congruence|].
  destruct (p x); [eauto|].
  intros H. destruct (IH H) as [i Hi]. rewrite Hi. simpl. eauto.
Qed.

(** X15. In the first revision the [Error] "Could not find node ... in
    calculation order" is never thrown by the walk of the components: a
    component is walked under a hint only when [find] has met a node of the
    id of the hint, and then [findIndex] gives its index. *)
Theorem calculateComponents_v1_always_finds_updated_node :
  forall td hint cd components st,
    calculateComponents_v1 td hint cd components st
    = forEachR
        (fun component =>
           match starIdx hint (calculationOrder component) with
           | Some i =>
               forEachR (visitNode_v1 td hint cd (connectionsFromNode component))
                        (skipn i (calculationOrder component))
           | None => ret tt
           end)
        components st.
Proof.
  intros td hint cd components. unfold calculateComponents_v1.
  induction components as [|K components IH]; intros st; simpl; auto.
  assert (HK : (match hint with
                | Some u =>
                    match find (findUpdated u) (calculationOrder K) with
                    | Some _ => calculateComponent_v1 td hint cd K
                    | None => ret tt
                    end
                | None => calculateComponent_v1 td hint cd K
                end) st
               = (match starIdx hint (calculationOrder K) with
                  | Some i =>
                      forEachR (visitNode_v1 td hint cd (connectionsFromNode K))
                               (skipn i (calculationOrder K))
                  | None => ret tt
                  end) st).
  { unfold calculateComponent_v1. destruct hint as [u|]; [|reflexivity].
    destruct (find (findUpdated u) (calculationOrder K)) as [m|] eqn:Hf.
    - destruct (find_findIndex (findUpdated u) (calculationOrder K))
        as [i Hi]; [congruence|].
      unfold starIdx, findUpdated in *. now rewrite Hi.
    - unfold starIdx.
      destruct (findIndex _ (calculationOrder K)) as [i|] eqn:Hi; auto.
      exfalso.
      assert (Hsome : forall l j,
                findIndex (fun n => String.eqb (node_id n) (node_id u)) l
                = Some j ->
                find (findUpdated u) l <> None).
      { induction l as [|x l IHl]; simpl; [discriminate|].
        unfold findUpdated at 1.
        destruct (String.eqb (node_id x) (node_id u)); [discriminate|].
        destruct (findIndex _ l) as [j'|]; [|discriminate].
        intros j _. now apply (IHl j'). }
      apply (Hsome _ _ Hi Hf). }
  unfold bindR. rewrite HK.
  destruct ((match starIdx hint (calculationOrder K) with
             | Some i =>
                 forEachR (visitNode_v1 td hint cd (connectionsFromNode K))
                          (skipn i (calculationOrder K))
             | None => ret tt
             end) st) as [st1 [[]|e]]; [apply IH|reflexivity].
Qed.

(** The rest of the loop body adds events, none of them the call of a
    calculation step. *)
Lemma finishNode_v1_calm td cfn node iv ov st :
  exists evs,
    run_trace (fst (finishNode_v1 td cfn node iv ov st)) = run_trace st ++ evs
    /\ existsb isCalculate evs = false.
Proof.
  unfold finishNode_v1.
  destruct (validateNodeCalculationOutput node ov) as [[]|e].
  - rewrite run_lift, run_emit, run_setResult.
    cbn [run_inputs run_heap run_result run_trace].
    set (st1 := mkRun (run_inputs st) (run_heap st)
                  (map_set (run_result st) (node_id node) (mkNodeResult iv ov))
                  (run_trace st ++ [AfterNodeCalculation ov node])).
    destruct (refmap_get cfn (node_ref node)) as [cs|].
    + destruct (forEachR_stage_quiet td node ov cs st1 st1 (quietSince_refl st1))
        as [_ [evs [Ht Hq]]].
      exists (AfterNodeCalculation ov node :: evs). rewrite Ht. unfold st1.
      simpl. rewrite <- app_assoc. auto.
    + exists [AfterNodeCalculation ov node]. auto.
  - rewrite run_lift_throw. exists []. simpl. now rewrite app_nil_r.
Qed.

(** X16. In the first revision, at the visit of a node with a calculation
    step, the step is called if and only if there is no updated-node hint,
    or the node has the id of the hint, or the resolved value of one of its
    inputs is not [===] to the stored value of the port; when it is called,
    it is this node's step, once, on the resolved inputs. *)
Theorem visitNode_v1_calculates_iff_needed :
  forall td hint cd cfn node calc st,
    calculate node = Some calc ->
    let iv := fst (resolveInputs_v1 (run_inputs st) node) in
    let st' := fst (visitNode_v1 td hint cd cfn node st) in
    exists evs,
      run_trace st' = run_trace st ++ BeforeNodeCalculation iv node :: evs
      /\ (existsb isCalculate evs = true
          <-> hint = None
              \/ (exists u, hint = Some u /\ node_id node = node_id u)
              \/ (exists k intf,
                    In (k, intf) (inputs node)
                    /\ strictEq (resolvedValue (run_inputs st) intf)
                                (value intf) = false))
      /\ (existsb isCalculate evs = true ->
          exists evs', evs = CalculateCalled node iv :: evs'
                       /\ existsb isCalculate evs' = false).
Proof.
  intros td hint cd cfn node calc st Hcalc. cbv zeta.
  assert (Hiff : mustCalculate_v1 hint node
                   (snd (resolveInputs_v1 (run_inputs st) node)) = true
                 <-> hint = None
                     \/ (exists u, hint = Some u /\ node_id node = node_id u)
                     \/ (exists k intf,
                           In (k, intf) (inputs node)
                           /\ strictEq (resolvedValue (run_inputs st) intf)
                                       (value intf) = false)).
  { unfold resolveInputs_v1. rewrite resolveInputs_v1_changed. cbn [orb].
    unfold mustCalculate_v1. destruct hint as [u|]; [|split; auto].
    rewrite orb_true_iff, String.eqb_eq, existsb_exists. split.
    - intros [H|[[k intf] [Hin Hch]]].
      + right. left. eauto.
      + right. right. exists k, intf. split; auto.
        simpl in Hch. now apply negb_true_iff in Hch.
    - intros [H|[[u' [[= <-] H]]|[k [intf [Hin Hch]]]]].
      + discriminate.
      + now left.
      + right. exists (k, intf). split; auto. simpl. now rewrite Hch. }
  unfold visitNode_v1. rewrite Hcalc.
  destruct (resolveInputs_v1 (run_inputs st) node) as [iv ch].
  cbn [fst snd] in *. rewrite run_emit.
  set (st1 := mkRun (run_inputs st) (run_heap st) (run_result st)
                (run_trace st ++ [BeforeNodeCalculation iv node])).
  destruct (mustCalculate_v1 hint node ch).
  - unfold callCalculate. unfold bindR at 1. rewrite run_emit.
    cbn [run_inputs run_heap run_result run_trace st1].
    assert (Hshape : exists evs,
              run_trace
                (fst (let (st', c) :=
                        match calc (run_heap st) iv cd with
                        | Returns (outputValues, cells) =>
                            (mkRun (run_inputs st) (run_heap st ++ cells)
                                   (run_result st)
                                   ((run_trace st
                                     ++ [BeforeNodeCalculation iv node])
                                    ++ [CalculateCalled node iv]),
                             Returns outputValues)
                        | Throws e =>
                            (mkRun (run_inputs st) (run_heap st) (run_result st)
                                   ((run_trace st
                                     ++ [BeforeNodeCalculation iv node])
                                    ++ [CalculateCalled node iv]), Throws e)
                        end in
                      match c with
                      | Returns a => finishNode_v1 td cfn node iv a st'
                      | Throws e => (st', Throws e)
                      end))
              = run_trace st ++ BeforeNodeCalculation iv node
                  :: CalculateCalled node iv :: evs
              /\ existsb isCalculate evs = false).
    { destruct (calc (run_heap st) iv cd) as [[ov cells]|e].
      - set (st2 := mkRun _ _ _ _).
        destruct (finishNode_v1_calm td cfn node iv ov st2) as [evs [Ht Hq]].
        exists evs. rewrite Ht. unfold st2. simpl.
        rewrite <- !app_assoc. auto.
      - exists []. simpl. rewrite <- app_assoc. auto. }
    destruct Hshape as [evs [Ht Hq]].
    exists (CalculateCalled node iv :: evs). split; [exact Ht|]. simpl.
    split; [|eauto].
    split; intros _; [now apply Hiff|reflexivity].
  - rewrite run_ret.
    destruct (finishNode_v1_calm td cfn node iv (currentOutputValues node) st1)
      as [evs [Ht Hq]].
    exists evs. rewrite Ht. unfold st1. simpl. rewrite <- app_assoc.
    split; [reflexivity|]. rewrite Hq. split.
    + split; [discriminate|]. intros H. apply Hiff in H. discriminate.
    + discriminate.
Qed.

(* ================================================================== *)
(** * The command handler and the toolbar button *)
(* ================================================================== *)

Section CommandHandler.

Variable W : Type.

(** A sequence of [registerCommand] calls, the caller catching what a call
    throws. *)
Definition registerAll (attempts : list (string * ICommand W))
  (commands : jsmap (ICommand W)) : jsmap (ICommand W) :=
  fold_left
    (fun registered attempt =>
       match registerCommand registered (fst attempt) (snd attempt) with
       | Returns registered' => registered'
       | Throws _ => registered
       end)
    attempts commands.

Lemma map_has_get {V : Type} (m : jsmap V) k :
  map_has m k = true <-> exists v, map_get m k = Some v.
Proof.
  unfold map_has. destruct (map_get m k); split; eauto; try discriminate.
  intros [v H]. discriminate.
Qed.

Lemma registerAll_get : forall attempts (commands : jsmap (ICommand W)) n,
  map_get (registerAll attempts commands) n
  = match map_get commands n with
    | Some command => Some command
    | None => option_map snd (find (fun a => String.eqb (fst a) n) attempts)
    end.
Proof.
  unfold registerAll.
  induction attempts as [|[name command] attempts IH]; intros commands n;
    simpl.
  - destruct (map_get commands n); reflexivity.
  - rewrite IH. unfold registerCommand, map_has.
    destruct (map_get commands name) as [c0|] eqn:Hname.
    + destruct (map_get commands n) as [c|] eqn:Hn; auto.
      destruct (String.eqb name n) eqn:E; auto.
      apply String.eqb_eq in E. congruence.
    + rewrite map_get_set. destruct (String.eqb name n) eqn:E.
      * apply String.eqb_eq in E. subst n. now rewrite Hname.
      * destruct (map_get commands n); reflexivity.
Qed.

(** X17. [registerCommand] throws "already exists" exactly when the name is
    registered, and leaves the registry as it was; otherwise the name gets
    the command and the other names keep theirs.  So a registration is
    never replaced: after any sequence of calls, the command under a name
    is the one of the first call for that name. *)
Theorem registerCommand_first_registration_wins :
  forall (commands : jsmap (ICommand W)) name command,
    (map_has commands name = true ->
     registerCommand commands name command = Throws (alreadyExists name))
    /\ (map_has commands name = false ->
        exists commands',
          registerCommand commands name command = Returns commands'
          /\ map_get commands' name = Some command
          /\ forall other, other <> name ->
                           map_get commands' other = map_get commands other)
    /\ (forall attempts n,
          map_get (registerAll attempts []) n
          = option_map snd (find (fun a => String.eqb (fst a) n) attempts)).
Proof.
  intros commands name command. unfold registerCommand. split; [|split].
  - intros ->. reflexivity.
  - intros ->. eexists. split; [reflexivity|]. split.
    + apply map_get_set_eq.
    + intros other Hne. apply map_get_set_ne. congruence.
  - intros attempts n. now rewrite registerAll_get.
Qed.

(** X18. For a name that is not registered, no command is called and the
    state is left as it was: without [throwOnNonexisting], [executeCommand]
    returns [undefined], [canExecuteCommand] and [canStopExecution] return
    false and [stopExecution] returns false; with it, the four throw "not
    registered".  The toolbar button of such a name is disabled and a click
    on it does nothing, whatever the computed [isExecuting] holds. *)
Theorem unregistered_command_is_never_called :
  forall (commands : jsmap (ICommand W)) name args w,
    map_has commands name = false ->
    executeCommand commands name false args w = (w, Returns VUndefined)
    /\ canExecuteCommand commands name false args w = (w, Returns false)
    /\ canStopExecution commands name false args w = (w, Returns false)
    /\ stopExecution commands name false args w = (w, Returns (VBoolean false))
    /\ executeCommand commands name true args w = (w, Throws (notRegistered name))
    /\ canExecuteCommand commands name true args w
       = (w, Throws (notRegistered name))
    /\ canStopExecution commands name true args w
       = (w, Throws (notRegistered name))
    /\ stopExecution commands name true args w
       = (w, Throws (notRegistered name))
    /\ isDisabled commands name w = (w, Returns true)
    /\ forall held, handleClick commands name held w = (w, Returns tt).
Proof.
  intros commands name args w Hmiss.
  assert (Hf : checkCommandExists commands name false = Returns false).
  { unfold checkCommandExists. now rewrite Hmiss. }
  assert (Ht : checkCommandExists commands name true
               = Throws (notRegistered name)).
  { unfold checkCommandExists. now rewrite Hmiss. }
  assert (Hcan : forall a w', canStopExecution commands name false a w'
                              = (w', Returns false)).
  { intros a w'. unfold canStopExecution. now rewrite Hf. }
  assert (Hexe : forall a w', executeCommand commands name false a w'
                              = (w', Returns VUndefined)).
  { intros a w'. unfold executeCommand. now rewrite Hf. }
  assert (Hstop : forall a w', stopExecution commands name false a w'
                               = (w', Returns (VBoolean false))).
  { intros a w'. unfold stopExecution. now rewrite Hf. }
  repeat split; auto.
  - unfold canExecuteCommand. now rewrite Hf.
  - unfold executeCommand. now rewrite Ht.
  - unfold canExecuteCommand. now rewrite Ht.
  - unfold canStopExecution. now rewrite Ht.
  - unfold stopExecution. now rewrite Ht.
  - unfold isDisabled, canExecuteCommand. now rewrite Hf, Hcan.
  - unfold handleClick, valueOf, isExecuting.
    destruct held as [[|]|]; now rewrite ?Hcan, ?Hexe, ?Hstop.
Qed.

Lemma registered_exists (commands : jsmap (ICommand W)) name command flag :
  map_get commands name = Some command ->
  checkCommandExists commands name flag = Returns true.
Proof.
  intros H. unfold checkCommandExists, map_has. now rewrite H.
Qed.

(** X19. [stopExecution] on a registered command: without a
    [stopExecution] method it throws "does not support stopping execution"
    and asks nothing of the command; with one, it first asks
    [canStopExecution] when the command has it, throws "cannot be stopped at
    the moment" on false (passing on what the question throws), and calls
    the method only on true, or when there is nothing to ask.  The handler's
    [canStopExecution] answers false for a command without that method. *)
Theorem stopExecution_asks_before_it_stops :
  forall (commands : jsmap (ICommand W)) name command flag args w,
    map_get commands name = Some command ->
    (cmd_stopExecution command = None ->
     stopExecution commands name flag args w
     = (w, Throws (doesNotSupportStopping name)))
    /\ (forall stop,
          cmd_stopExecution command = Some stop ->
          (cmd_canStopExecution command = None ->
           stopExecution commands name flag args w = stop [Packed args] w)
          /\ (forall can,
                cmd_canStopExecution command = Some can ->
                stopExecution commands name flag args w
                = match can [Packed args] w with
                  | (w1, Returns true) => stop [Packed args] w1
                  | (w1, Returns false) => (w1, Throws (cannotBeStopped name))
                  | (w1, Throws e) => (w1, Throws e)
                  end))
    /\ (cmd_canStopExecution command = None ->
        canStopExecution commands name flag args w = (w, Returns false)).
Proof.
  intros commands name command flag args w Hget.
  pose proof (registered_exists commands name command flag Hget) as Hex.
  unfold stopExecution, canStopExecution, withCommand. rewrite Hex, Hget.
  split; [|split].
  - intros ->. reflexivity.
  - intros stop ->. split.
    + intros ->. reflexivity.
    + intros can ->. reflexivity.
  - intros ->. reflexivity.
Qed.

(** A result of any type, as the click handler drops it. *)
Definition dropped {A : Type} (r : W * completion A) : W * completion unit :=
  match r with
  | (w, Returns _) => (w, Returns tt)
  | (w, Throws e) => (w, Throws e)
  end.

(** X20. A click on the toolbar button of a registered command whose
    [canStopExecution] only reads the state.  The click acts on the value of
    the computed [isExecuting]: the value it holds or, when it holds none,
    what [canStopExecution] answers now (false for a command without that
    method).  On false the click executes the command, without argument; on
    true it never executes it: it throws "does not support stopping
    execution" when the command has no [stopExecution], and otherwise asks
    [canStopExecution] again and stops the command (on the empty array of
    arguments) on true, throws "cannot be stopped at the moment" on false,
    and stops it unasked when there is nothing to ask.  So when the computed
    holds no value, or holds what the command answers now, the click executes
    or stops by the present answer and "cannot be stopped at the moment"
    cannot come from the handler; a computed that holds true while the
    command answers false makes the click throw that error, and one that
    holds false while the command answers true makes it execute the
    command. *)
Theorem handleClick_executes_or_stops :
  forall (commands : jsmap (ICommand W)) name command held w,
    map_get commands name = Some command ->
    (forall can a w', cmd_canStopExecution command = Some can ->
                      fst (can a w') = w') ->
    let answer := match cmd_canStopExecution command with
                  | None => Returns false
                  | Some can => snd (can [Packed []] w)
                  end in
    handleClick commands name held w
    = match match held with Some b => Returns b | None => answer end with
      | Returns false => dropped (cmd_execute command [] w)
      | Returns true =>
          match cmd_stopExecution command with
          | None => (w, Throws (doesNotSupportStopping name))
          | Some stop =>
              match cmd_canStopExecution command, answer with
              | None, _ => dropped (stop [Packed []] w)
              | Some _, Returns true => dropped (stop [Packed []] w)
              | Some _, Returns false => (w, Throws (cannotBeStopped name))
              | Some _, Throws e => (w, Throws e)
              end
          end
      | Throws e => (w, Throws e)
      end
    /\ ((held = None \/ exists b, held = Some b /\ answer = Returns b) ->
        handleClick commands name held w
        = match answer with
          | Returns false => dropped (cmd_execute command [] w)
          | Returns true =>
              match cmd_stopExecution command with
              | Some stop => dropped (stop [Packed []] w)
              | None => (w, Throws (doesNotSupportStopping name))
              end
          | Throws e => (w, Throws e)
          end)
    /\ (held = Some true -> answer = Returns false ->
        forall stop can,
          cmd_stopExecution command = Some stop ->
          cmd_canStopExecution command = Some can ->
          handleClick commands name held w
          = (w, Throws (cannotBeStopped name)))
    /\ (held = Some false ->
        handleClick commands name held w = dropped (cmd_execute command [] w)).
Proof.
  intros commands name command held w Hget Hreads answer.
  pose proof (registered_exists commands name command false Hget) as Hex.
  assert (Hgen :
    handleClick commands name held w
    = match match held with Some b => Returns b | None => answer end with
      | Returns false => dropped (cmd_execute command [] w)
      | Returns true =>
          match cmd_stopExecution command with
          | None => (w, Throws (doesNotSupportStopping name))
          | Some stop =>
              match cmd_canStopExecution command, answer with
              | None, _ => dropped (stop [Packed []] w)
              | Some _, Returns true => dropped (stop [Packed []] w)
              | Some _, Returns false => (w, Throws (cannotBeStopped name))
              | Some _, Throws e => (w, Throws e)
              end
          end
      | Throws e => (w, Throws e)
      end).
  { unfold handleClick, valueOf, isExecuting, canStopExecution, executeCommand,
      stopExecution, withCommand, dropped, answer.
    rewrite Hex, Hget.
    destruct (cmd_canStopExecution command) as [can|] eqn:Hcan.
    - pose proof (Hreads can [Packed []] w eq_refl) as Hw.
      destruct (can [Packed []] w) as [w1 [[|]|e]] eqn:Hq; simpl in Hw;
        subst w1; cbn [snd];
        destruct held as [[|]|]; rewrite ?Hex, ?Hget;
        try reflexivity;
        destruct (cmd_stopExecution command) as [stop|]; try reflexivity;
        rewrite ?Hq; reflexivity.
    - destruct held as [[|]|]; rewrite ?Hex, ?Hget; try reflexivity;
        destruct (cmd_stopExecution command) as [stop|]; reflexivity. }
  split; [exact Hgen|]. split; [|split].
  - intros Hcurrent. rewrite Hgen.
    assert (E : match held with Some b => Returns b | None => answer end
                = answer).
    { destruct Hcurrent as [->|[b [-> Hb]]]; [reflexivity|now rewrite Hb]. }
    rewrite E.
    destruct answer as [[|]|e] eqn:Ha; try reflexivity.
    destruct (cmd_stopExecution command) as [stop|]; [|reflexivity].
    destruct (cmd_canStopExecution command) as [can|] eqn:Hcan;
      [reflexivity|].
    discriminate.
  - intros -> Ha stop can Hstop Hcan. rewrite Hgen, Hstop, Hcan, Ha.
    reflexivity.
  - intros ->. rewrite Hgen. reflexivity.
Qed.

End CommandHandler.

(* ================================================================== *)
(** * Save and load of the view properties *)
(* ================================================================== *)

(** X21. Saving a node and loading the saved state restores the node's
    [position], [width] and [twoColumn], whatever the node loaded into held
    and whatever the state held before; loading a state that lacks one of
    them gives position (0, 0), width 200, one column; both hooks return the
    state, with the rest of it untouched, and loading leaves the rest of the
    node untouched; saving after a load gives back a state that had the
    three properties. *)
Theorem view_properties_survive_save_and_load :
  forall (StateRest NodeRest : Type)
         (state : IViewNodeState StateRest) (node target : ViewNode NodeRest),
    let saved := fst (nodeAfterSave state node) in
    let loaded := snd (nodeBeforeLoad saved target) in
    position loaded = position node
    /\ width loaded = width node
    /\ twoColumn loaded = twoColumn node
    /\ view_rest loaded = view_rest target
    /\ state_rest saved = state_rest state
    /\ fst (nodeBeforeLoad state target) = state
    /\ (state_position state = None ->
        position (snd (nodeBeforeLoad state target)) = mkPosition 0 0)
    /\ (state_width state = None ->
        width (snd (nodeBeforeLoad state target)) = 200%Z)
    /\ (state_twoColumn state = None ->
        twoColumn (snd (nodeBeforeLoad state target)) = false)
    /\ (state_position state <> None -> state_width state <> None ->
        state_twoColumn state <> None ->
        fst (nodeAfterSave state (snd (nodeBeforeLoad state target))) = state).
Proof.
  intros StateRest NodeRest state node target. cbv zeta.
  unfold nodeAfterSave, nodeBeforeLoad. cbn [fst snd].
  repeat split; try reflexivity.
  - intros H. cbn. now rewrite H.
  - intros H. cbn. now rewrite H.
  - intros H. cbn. now rewrite H.
  - intros H1 H2 H3. destruct state as [[p|] [w|] [t|] rest]; cbn in *;
      congruence.
Qed.

(** X22. [load] of what [save] returned restores the [graphInterfaceId] of
    a subgraph interface node, whatever the base class saves and loads: the
    saved state holds the id of the node under [graphInterfaceId], also when
    the state of the base class has that key, and the other keys of that
    state are as the base class saved them. *)
Theorem graphInterfaceId_survives_save_and_load :
  forall (Base : Type) (super_save : Base -> jsmap jsvalue)
         (super_load : Base -> jsmap jsvalue -> Base)
         (node target : SubgraphInterfaceNode Base),
    graphInterfaceId (load super_load target (save super_save node))
    = graphInterfaceId node
    /\ map_get (save super_save node) "graphInterfaceId"
       = Some (graphInterfaceId node)
    /\ (forall key, key <> "graphInterfaceId" ->
          map_get (save super_save node) key
          = map_get (super_save (base node)) key)
    /\ base (load super_load target (save super_save node))
       = super_load (base target) (save super_save node).
Proof.
  intros Base super_save super_load node target. unfold load, save.
  cbn [graphInterfaceId base]. rewrite map_get_set_eq.
  repeat split; try reflexivity.
  intros key Hne. apply map_get_set_ne. congruence.
Qed.

(* ================================================================== *)
(** * The component search ends on every input *)
(* ================================================================== *)

(** X23. On every input, well-formed or not, the recursion of [dfs] in
    [connectedComponents] comes to an end, within a depth of the number of
    nodes plus one, and so do the loops of the sorter on each component:
    neither [connectedComponents] nor [getSortedComponents] uses up the
    iteration budget of the embedding. *)
Theorem connectedComponents_comes_to_an_end :
  forall nodesOrGraph pConnections,
    connectedComponents nodesOrGraph pConnections <> Throws OutOfFuel
    /\ getSortedComponents nodesOrGraph pConnections <> Throws OutOfFuel.
Proof.
  intros nog pc.
  pose proof (connectedComponents_has_fuel nog pc) as Hc.
  split; [exact Hc|].
  unfold getSortedComponents.
  destruct (connectedComponents nog pc) as [components|e]; cbn [bind].
  - intros H. apply mapM_thrown in H. destruct H as [K [_ H]].
    now apply sortTopologically_has_fuel in H.
  - intros [= ->]. now apply Hc.
Qed.

(* ================================================================== *)
(** * A connected input receives what its source produced in the run *)
(* ================================================================== *)

Lemma forEachR_app_returns {A : Type} (body : A -> run unit) :
  forall l1 l2 st st',
    forEachR body (l1 ++ l2) st = (st', Returns tt) ->
    exists s1, forEachR body l1 st = (s1, Returns tt)
               /\ forEachR body l2 s1 = (st', Returns tt).
Proof.
  induction l1 as [|x l1 IH]; intros l2 st st' H.
  - exists st. split; [reflexivity|exact H].
  - simpl app in H. apply forEachR_returns in H. destruct H as [s0 [Hx H]].
    apply IH in H. destruct H as [s1 [H1 H2]].
    exists s1. split; [|exact H2].
    simpl. unfold bindR. now rewrite Hx.
Qed.

(** The events a visit that returns adds: its transfers are those of the
    connections that start at the node. *)
Lemma visitNode_returns_transfers td hint cd cfn node st st' :
  visitNode td hint cd cfn node st = (st', Returns tt) ->
  exists evs,
    run_trace st' = run_trace st ++ evs
    /\ forall w c x, In (TransferData w c x) evs ->
                     w = node /\ In c (outgoing cfn node).
Proof.
  intros H. destruct (calculate node) as [calc|] eqn:Hcalc.
  - destruct (visitNode_returns_finish td hint cd cfn node calc st st' Hcalc H)
      as [ov [st1 [Hfin [_ [Ht1 _]]]]].
    apply finishNode_returns in Hfin. destruct Hfin as [Ht _].
    eexists. split.
    + rewrite Ht, Ht1, <- app_assoc. reflexivity.
    + intros w c x Hin. simpl in Hin.
      destruct Hin as [Hin|Hin]; [discriminate|].
      apply in_app_iff in Hin. destruct Hin as [Hin|Hin].
      * destruct (mustCalculate hint node _); simpl in Hin;
          [destruct Hin as [Hin|[]]; discriminate|destruct Hin].
      * destruct Hin as [Hin|Hin]; [discriminate|].
        apply in_map_iff in Hin. destruct Hin as [c' [E Hc']].
        inversion E; subst. auto.
  - unfold visitNode in H. rewrite Hcalc in H. inversion H; subst.
    exists []. split; [now rewrite app_nil_r|]. intros w c x [].
Qed.

Lemma walk_returns_transfers td hint cd cfn : forall ns st st',
  forEachR (visitNode td hint cd cfn) ns st = (st', Returns tt) ->
  exists evs,
    run_trace st' = run_trace st ++ evs
    /\ forall w c x, In (TransferData w c x) evs ->
                     In w ns /\ In c (outgoing cfn w).
Proof.
  induction ns as [|n ns IH]; intros st st' H.
  - simpl in H. inversion H; subst. exists []. split; [now rewrite app_nil_r|].
    intros w c x [].
  - apply forEachR_returns in H. destruct H as [s1 [Hn H]].
    apply visitNode_returns_transfers in Hn. destruct Hn as [e1 [E1 T1]].
    apply IH in H. destruct H as [e2 [E2 T2]].
    exists (e1 ++ e2). split; [now rewrite E2, E1, <- app_assoc|].
    intros w c x Hin. apply in_app_iff in Hin. destruct Hin as [Hin|Hin].
    + destruct (T1 w c x Hin) as [-> Hc]. split; [now left|exact Hc].
    + destruct (T2 w c x Hin) as [Hw Hc]. split; [now right|exact Hc].
Qed.

Lemma nth_error_split_two {A : Type} : forall (l : list A) i j u v,
  i < j -> nth_error l i = Some u -> nth_error l j = Some v ->
  exists l1 l2 l3, l = l1 ++ u :: l2 ++ v :: l3.
Proof.
  intros l i j u v Hij Hi Hj.
  apply nth_error_split in Hi. destruct Hi as [l1 [rest [-> Hlen]]].
  rewrite nth_error_app2 in Hj by lia.
  replace (j - length l1) with (S (j - length l1 - 1)) in Hj by lia.
  simpl in Hj. apply nth_error_split in Hj. destruct Hj as [l2 [l3 [-> _]]].
  exists l1, l2, l3. reflexivity.
Qed.

Lemma contributions_none P evs :
  (forall w c x, In (TransferData w c x) evs -> intf_id (to c) <> P) ->
  contributions P evs = [].
Proof.
  induction evs as [|ev evs IH]; intros H; simpl; auto.
  assert (IH' : contributions P evs = []).
  { apply IH. intros w c x Hin. apply (H w c x). now right. }
  destruct ev; auto.
  destruct (String.eqb (intf_id (to connection)) P) eqn:E; auto.
  apply String.eqb_eq in E. exfalso.
  apply (H node connection transferred); [now left|exact E].
Qed.

(** The contributions of the transfers of one visit to a port that a single
    connection leads to. *)
Lemma contributions_single td node ov c : forall cs,
  (forall c', In c' cs -> intf_id (to c') = intf_id (to c) -> c' = c) ->
  In c cs ->
  exists l,
    contributions (intf_id (to c))
      (map (fun c' => TransferData node c' (carried td node ov c')) cs)
    = l ++ [carried td node ov c].
Proof.
  induction cs as [|c0 cs IH] using rev_ind; intros Hone Hin; [destruct Hin|].
  rewrite map_app, contributions_app. simpl.
  destruct (String.eqb (intf_id (to c0)) (intf_id (to c))) eqn:E.
  - apply String.eqb_eq in E.
    assert (c0 = c).
    { apply Hone; auto. apply in_app_iff. right. now left. }
    subst c0. eexists. reflexivity.
  - apply in_app_iff in Hin. destruct Hin as [Hin|[->|[]]].
    + destruct IH as [l Hl]; auto.
      { intros c' Hc'. apply Hone. apply in_app_iff. now left. }
      exists l. now rewrite Hl, app_nil_r.
    + rewrite String.eqb_refl in E. discriminate.
Qed.

Lemma outgoing_of_sorted nodes connections r n :
  NoDup (map node_ref nodes) ->
  sortTopologically (OfNodes nodes) (Some connections) = Returns r ->
  In n nodes ->
  outgoing (connectionsFromNode r) n
  = connectionsFromCurrentNode (fold_left registerInterfaces nodes [])
                               connections n.
Proof.
  intros Hnd Hrun Hn.
  destruct (sortTopologically_tables _ _ _ Hrun) as [_ ->].
  unfold outgoing, buildAdjacency. rewrite snd_buildAdjacency.
  rewrite (fold_refmap_set_get node_ref
             (fun n => connectionsFromCurrentNode
                         (fold_left registerInterfaces nodes []) connections n)).
  rewrite (find_unique node_ref (rev nodes) n).
  - reflexivity.
  - rewrite map_rev. now apply NoDup_rev.
  - now apply in_rev in Hn.
Qed.

(** X24. The values flow along the connections within a walk: for a
    component sorted from well-formed nodes and connections and walked to
    the end, and a connection that alone leads to a port that accepts one
    connection, from a port of [u] to the port under [key] of [v] (both with
    a calculation step): [u] is notified after its calculation, with its
    outputs of this run, before [v] is notified before its own; in between
    the [transferData] hook is executed for the connection, on the output
    of [u] under the key of the source port; and what the hook returned is
    the value the input [key] of [v] is resolved to. *)
Theorem connected_input_receives_output_of_the_run :
  forall multi td hint cd nodes connections r staged h st c p u v key q,
    WellFormed nodes connections ->
    NoDup (map node_ref nodes) ->
    sortTopologically (OfNodes nodes) (Some connections) = Returns r ->
    (forall P, multi P = true -> map_get staged P = None) ->
    flagsAgree multi (connectionsFromNode r) ->
    calculateComponent td hint cd r (mkRun staged h [] []) = (st, Returns tt) ->
    In c connections -> from c = Some p ->
    In u nodes -> In v nodes -> owns u p -> owns v (to c) ->
    calculate u <> None -> calculate v <> None ->
    multi (intf_id (to c)) = false ->
    (forall c', In c' connections ->
                intf_id (to c') = intf_id (to c) -> c' = c) ->
    NoDup (map_keys (inputs v)) ->
    In (key, q) (inputs v) -> intf_id q = intf_id (to c) ->
    exists ov iv pre mid post,
      run_trace st
      = pre ++ AfterNodeCalculation ov u
            :: mid ++ BeforeNodeCalculation iv v :: post
      /\ In (TransferData u c (carried td u ov c)) mid
      /\ map_get iv key = Some (carried td u ov c).
Proof.
  intros multi td hint cd nodes connections r staged h st c p u v key q
         wf Hrefs Hsort Hstaged Hflags Hwalk Hc Hp Hu Hv Hou Hov
         Hcu Hcv Hsingle Honly Hkeys Hq Hqid.
  set (i2n := fold_left registerInterfaces nodes []).
  set (cfn := connectionsFromNode r) in *.
  (* the order *)
  destruct (sorted_or_cycle nodes connections wf)
    as [[_ Hthrow]|[_ [r' [Hr' [Hperm Horder]]]]]; [congruence|].
  rewrite Hsort in Hr'. inversion Hr'; subst r'. clear Hr'.
  destruct (Horder c p u v Hc Hp Hu Hv Hou Hov) as [i [j [Hi [Hj Hij]]]].
  destruct (nth_error_split_two _ i j u v Hij Hi Hj) as [l1 [l2 [l3 HL]]].
  assert (HndL : NoDup (map node_id (calculationOrder r))).
  { eapply Permutation_NoDup.
    - apply Permutation_map. apply Permutation_sym. exact Hperm.
    - apply (wf_nodes _ _ wf). }
  assert (HinL : forall n, In n (calculationOrder r) -> In n nodes).
  { intros n. apply (Permutation_in _ Hperm). }
  (* the walk, piece by piece *)
  unfold calculateComponent in Hwalk. fold cfn in Hwalk. rewrite HL in Hwalk.
  apply forEachR_app_returns in Hwalk. destruct Hwalk as [s1 [H1 Hwalk]].
  apply forEachR_returns in Hwalk. destruct Hwalk as [s2 [Hvu Hwalk]].
  apply forEachR_app_returns in Hwalk. destruct Hwalk as [s3 [H2 Hwalk]].
  apply forEachR_returns in Hwalk. destruct Hwalk as [s4 [Hvv H3]].
  (* the invariant of the staging map holds when [v] is visited *)
  assert (I0 : StagedInv multi staged (mkRun staged h [] [])).
  { constructor; simpl.
    - intros P HP. now rewrite (Hstaged P HP).
    - intros P Q loc HP _ Hget. rewrite (Hstaged P HP) in Hget. discriminate.
    - reflexivity. }
  assert (Iwalk : forall ns s s',
            StagedInv multi staged s ->
            forEachR (visitNode td hint cd cfn) ns s = (s', Returns tt) ->
            StagedInv multi staged s').
  { intros ns s s' Is Hs.
    pose proof (preserves_forEachR (StagedInv multi staged)
                  (visitNode td hint cd cfn) ns
                  (fun x _ => visitNode_staged multi staged td hint cd cfn x
                                Hflags) s Is) as H.
    now rewrite Hs in H. }
  assert (I1 : StagedInv multi staged s1) by (eapply Iwalk; eauto).
  assert (I2 : StagedInv multi staged s2).
  { pose proof (visitNode_staged multi staged td hint cd cfn u Hflags s1 I1)
      as H. now rewrite Hvu in H. }
  assert (I3 : StagedInv multi staged s3) by (eapply Iwalk; eauto).
  (* the visit of [u] *)
  destruct (calculate u) as [calcu|] eqn:Hcalcu; [|congruence].
  destruct (visitNode_returns_finish td hint cd cfn u calcu s1 s2 Hcalcu Hvu)
    as [ov [su [Hfin [_ [Htu _]]]]].
  apply finishNode_returns in Hfin. destruct Hfin as [Ht2 _].
  assert (Hout : In c (outgoing cfn u)).
  { unfold cfn. rewrite (outgoing_of_sorted nodes connections r u Hrefs Hsort Hu).
    apply connectionsFromCurrentNode_In. split; [exact Hc|].
    exists p. split; [exact Hp|]. now apply (i2n_owner nodes connections wf). }
  assert (Hsub : forall w c', In w nodes -> In c' (outgoing cfn w) ->
                 In c' connections
                 /\ exists p', from c' = Some p'
                      /\ map_get i2n (intf_id p') = Some (node_id w)).
  { intros w c' Hw Hc'. unfold cfn in Hc'.
    rewrite (outgoing_of_sorted nodes connections r w Hrefs Hsort Hw) in Hc'.
    now apply connectionsFromCurrentNode_In in Hc'. }
  destruct (contributions_single td u ov c (outgoing cfn u)) as [lu Hlu].
  { intros c' Hc' E. apply Honly; auto. now apply (Hsub u c' Hu). }
  { exact Hout. }
  (* the visits between [u] and [v] transfer nothing to the port *)
  destruct (walk_returns_transfers td hint cd cfn l2 s2 s3 H2)
    as [evs2 [Ht3 Htr2]].
  assert (Hnone : contributions (intf_id (to c)) evs2 = []).
  { apply contributions_none. intros w c' x Hin E.
    destruct (Htr2 w c' x Hin) as [Hw Hc'].
    assert (Hwn : In w nodes).
    { apply HinL. rewrite HL. apply in_app_iff. right. right.
      apply in_app_iff. now left. }
    destruct (Hsub w c' Hwn Hc') as [Hc'in [p' [Hp' Hget]]].
    assert (c' = c) by (apply Honly; auto). subst c'.
    rewrite Hp in Hp'. inversion Hp'; subst p'.
    unfold i2n in Hget.
    rewrite (i2n_owner nodes connections wf u (intf_id p) Hu Hou) in Hget.
    inversion Hget as [Hid].
    rewrite HL in HndL. rewrite map_app in HndL.
    apply NoDup_app_remove_l in HndL. simpl in HndL.
    inversion HndL as [|? ? Hnot _]. apply Hnot. rewrite Hid.
    rewrite map_app. apply in_app_iff. left. now apply in_map. }
  (* the value staged for the port when [v] is visited *)
  assert (Hstagedq : map_get (run_inputs s3) (intf_id (to c))
                     = Some (carried td u ov c)).
  { pose proof (si_single multi staged s3 I3 (intf_id (to c)) Hsingle) as H.
    rewrite Ht3, Ht2, !contributions_app in H. simpl in H.
    rewrite Hlu, Hnone, app_nil_r in H.
    rewrite !rev_app_distr in H. simpl in H. exact H. }
  (* the visit of [v] *)
  destruct (calculate v) as [calcv|] eqn:Hcalcv; [|congruence].
  destruct (visitNode_returns_finish td hint cd cfn v calcv s3 s4 Hcalcv Hvv)
    as [ov' [sv [Hfinv [_ [Htv _]]]]].
  apply finishNode_returns in Hfinv. destruct Hfinv as [Ht4 _].
  destruct (walk_returns_transfers td hint cd cfn l3 s4 st H3)
    as [evs3 [Ht5 _]].
  exists ov, (fst (resolveInputs (run_inputs s3) (run_heap s3) v)).
  exists (run_trace su).
  exists (map (fun c' => TransferData u c' (carried td u ov c'))
              (outgoing cfn u) ++ evs2).
  exists ((if mustCalculate hint v
                (snd (resolveInputs (run_inputs s3) (run_heap s3) v))
           then [CalculateCalled v
                   (fst (resolveInputs (run_inputs s3) (run_heap s3) v))]
           else [])
          ++ AfterNodeCalculation ov' v
             :: map (fun c' => TransferData v c' (carried td v ov' c'))
                    (outgoing cfn v) ++ evs3).
  split; [|split].
  - rewrite Ht5, Ht4, Htv, Ht3, Ht2.
    rewrite <- ?app_assoc. simpl. rewrite <- ?app_assoc. reflexivity.
  - apply in_app_iff. left. apply in_map_iff. exists c. auto.
  - rewrite (resolveInputs_maps _ _ v Hkeys). cbn [fst].
    rewrite (in_map_get_nodup _ key (resolvedValue (run_inputs s3) q)).
    + unfold resolvedValue. rewrite Hqid, Hstagedq. reflexivity.
    + unfold map_keys in *. rewrite map_map. simpl. exact Hkeys.
    + apply in_map_iff. exists (key, q). auto.
Qed.

(* ================================================================== *)
(** * The further properties on the graphs of the test-suite *)
(* ================================================================== *)

(** The sorting result of the six nodes of "gets sorted connected
    components", taken as one set. *)
Definition sixSorted : ITopologicalSortingResult :=
  match sortTopologically (OfNodes sixNodes) (Some threeConnections) with
  | Returns r => r
  | Throws _ => mkSorted [] [] []
  end.

Lemma sixNodes_sorted :
  sortTopologically (OfNodes sixNodes) (Some threeConnections)
  = Returns sixSorted.
Proof. vm_compute. reflexivity. Qed.

Lemma sortTopologically_interfaceIdToNodeId_witness :
  givenInput (OfNodes sixNodes) (Some threeConnections)
  = Some (sixNodes, threeConnections)
  /\ sortTopologically (OfNodes sixNodes) (Some threeConnections)
     = Returns sixSorted
  /\ forall n pid, In n sixNodes -> In pid (portIds n) ->
                   In pid (map_keys (interfaceIdToNodeId sixSorted)).
Proof.
  split; [reflexivity|]. split; [exact sixNodes_sorted|].
  exact (proj1 (proj2 (sortTopologically_interfaceIdToNodeId
                         (OfNodes sixNodes) (Some threeConnections)
                         sixNodes threeConnections sixSorted
                         eq_refl sixNodes_sorted))).
Defined.

Lemma sortTopologically_connectionsFromNode_witness :
  givenInput (OfNodes sixNodes) (Some threeConnections)
  = Some (sixNodes, threeConnections)
  /\ NoDup (map node_ref sixNodes)
  /\ sortTopologically (OfNodes sixNodes) (Some threeConnections)
     = Returns sixSorted
  /\ forall ref, ~ In ref (map node_ref sixNodes) ->
                 refmap_get (connectionsFromNode sixSorted) ref = None.
Proof.
  assert (Hnd : NoDup (map node_ref sixNodes)).
  { vm_compute. repeat constructor; simpl; intuition discriminate. }
  split; [reflexivity|]. split; [exact Hnd|]. split; [exact sixNodes_sorted|].
  exact (proj2 (sortTopologically_connectionsFromNode
                  (OfNodes sixNodes) (Some threeConnections)
                  sixNodes threeConnections sixSorted
                  eq_refl Hnd sixNodes_sorted)).
Defined.

Lemma sixNodes_graph : WellFormedGraph sixNodes threeConnections.
Proof. apply wellFormedGraphb_WellFormedGraph. vm_compute. reflexivity. Qed.

Lemma sixNodes_acyclic : ~ hasCycle sixNodes threeConnections.
Proof. apply (rankedb_acyclic (rankOf sixRanks)). vm_compute. reflexivity. Qed.

Lemma getSortedComponents_orders_every_component_witness :
  givenInput (OfNodes sixNodes) (Some threeConnections)
  = Some (sixNodes, threeConnections)
  /\ WellFormedGraph sixNodes threeConnections
  /\ ~ hasCycle sixNodes threeConnections
  /\ exists components sorted,
       connectedComponents (OfNodes sixNodes) (Some threeConnections)
       = Returns components
       /\ getSortedComponents (OfNodes sixNodes) (Some threeConnections)
          = Returns sorted
       /\ Forall2 (fun K r => Permutation (calculationOrder r) (gc_nodes K))
                  components sorted
       /\ Permutation (flat_map calculationOrder sorted) sixNodes
       /\ forall r, In r sorted ->
            calculationOrder r <> []
            /\ (forall u v,
                  In u (calculationOrder r) -> In v (calculationOrder r) ->
                  clos_refl_trans AbstractNode
                    (linked sixNodes threeConnections) u v)
            /\ (forall u v,
                  In u (calculationOrder r) ->
                  clos_refl_trans AbstractNode
                    (linked sixNodes threeConnections) u v ->
                  In v (calculationOrder r)).
Proof.
  split; [reflexivity|]. split; [exact sixNodes_graph|].
  split; [exact sixNodes_acyclic|].
  destruct (getSortedComponents_orders_every_component
              (OfNodes sixNodes) (Some threeConnections)
              sixNodes threeConnections eq_refl sixNodes_graph
              sixNodes_acyclic)
    as [components [sorted [H1 [H2 [H3 [H4 [_ [H6 _]]]]]]]].
  exists components, sorted.
  split; [exact H1|]. split; [exact H2|]. split; [exact H3|].
  split; [exact H4|exact H6].
Defined.

Lemma cycleNodes_graph : WellFormedGraph cycleNodes cycleConnections.
Proof. apply wellFormedGraphb_WellFormedGraph. vm_compute. reflexivity. Qed.

Lemma cycleNodes_cycle : hasCycle cycleNodes cycleConnections.
Proof.
  exists node1. apply t_trans with node2; apply t_step.
  - split; [now left|]. split; [right; now left|].
    exists (connect "a" node1 "c" node2 "a"),
           (port "node1" "c" VUndefined false 0).
    split; [now left|]. split; [reflexivity|].
    split; vm_compute; tauto.
  - split; [right; now left|]. split; [now left|].
    exists (connect "b" node2 "c" node1 "a"),
           (port "node2" "c" VUndefined false 0).
    split; [right; now left|]. split; [reflexivity|].
    split; vm_compute; tauto.
Qed.

Lemma getSortedComponents_throws_iff_cycle_witness :
  givenInput (OfNodes cycleNodes) (Some cycleConnections)
  = Some (cycleNodes, cycleConnections)
  /\ WellFormedGraph cycleNodes cycleConnections
  /\ hasCycle cycleNodes cycleConnections
  /\ getSortedComponents (OfNodes cycleNodes) (Some cycleConnections)
     = Throws CycleError.
Proof.
  split; [reflexivity|]. split; [exact cycleNodes_graph|].
  split; [exact cycleNodes_cycle|].
  exact (proj1 (getSortedComponents_throws_iff_cycle
                  (OfNodes cycleNodes) (Some cycleConnections)
                  cycleNodes cycleConnections eq_refl cycleNodes_graph)
               cycleNodes_cycle).
Defined.

(** The graph of "detects a cycle". *)
Definition cycleGraph : Graph := mkGraph "graph" cycleNodes cycleConnections.

Lemma runGraph_on_cycle_visits_nothing_witness :
  WellFormedGraph (graph_nodes cycleGraph) (graph_connections cycleGraph)
  /\ hasCycle (graph_nodes cycleGraph) (graph_connections cycleGraph)
  /\ map_has (order hintedEngine) (graph_id cycleGraph) = false
  /\ runGraph hintedEngine cycleGraph [] [] VUndefined
     = (hintedEngine, mkRun [] [] [] [], Throws CycleError).
Proof.
  split; [exact cycleNodes_graph|]. split; [exact cycleNodes_cycle|].
  split; [reflexivity|].
  exact (proj1 (runGraph_on_cycle_visits_nothing
                  hintedEngine cycleGraph [] [] VUndefined
                  cycleNodes_graph cycleNodes_cycle) eq_refl).
Defined.

(** The state the visit of the second node of [hintedGraph] ends in. *)
Definition unchangedVisited : RunState :=
  fst (visitNode identityHook (Some hinted1) VUndefined [] hinted2
                 unchangedState).

Lemma unchangedVisit_returns :
  visitNode identityHook (Some hinted1) VUndefined [] hinted2 unchangedState
  = (unchangedVisited, Returns tt).
Proof. vm_compute. reflexivity. Qed.

Lemma visitNode_trace_of_a_visit_witness :
  calculate hinted2 = Some testCalculate
  /\ visitNode identityHook (Some hinted1) VUndefined [] hinted2 unchangedState
     = (unchangedVisited, Returns tt)
  /\ In (node_id hinted2) (map_keys (run_result unchangedVisited)).
Proof.
  split; [reflexivity|]. split; [exact unchangedVisit_returns|].
  destruct (visitNode_trace_of_a_visit
              identityHook (Some hinted1) VUndefined [] hinted2 testCalculate
              unchangedState unchangedVisited eq_refl unchangedVisit_returns)
    as [ov [_ [_ H]]].
  exact H.
Defined.

(** A node whose calculation step throws. *)
Definition failingNode : AbstractNode :=
  mkNode 9 "n9" [("a", port "n9" "a" (VNumber 1) false 0)] []
         (Some (fun _ _ _ => Throws (Error "failed"))) false None.

(** A component with [failingNode] between two test nodes. *)
Definition failingComponent : ITopologicalSortingResult :=
  mkSorted [node1; failingNode; node2] [] [].

Definition beforeFailure : RunState :=
  fst (forEachR (visitNode identityHook None VUndefined []) [node1]
                (mkRun [] [] [] [])).

Lemma calculateComponent_stops_at_throwing_step_witness :
  calculationOrder failingComponent = [node1] ++ failingNode :: [node2]
  /\ forEachR (visitNode identityHook None VUndefined
                         (connectionsFromNode failingComponent))
              [node1] (mkRun [] [] [] [])
     = (beforeFailure, Returns tt)
  /\ snd (calculateComponent identityHook None VUndefined failingComponent
            (mkRun [] [] [] []))
     = Throws (Error "failed").
Proof.
  assert (Hpre : forEachR (visitNode identityHook None VUndefined
                             (connectionsFromNode failingComponent))
                          [node1] (mkRun [] [] [] [])
                 = (beforeFailure, Returns tt)).
  { vm_compute. reflexivity. }
  split; [reflexivity|]. split; [exact Hpre|].
  rewrite (calculateComponent_stops_at_throwing_step
             identityHook None VUndefined failingComponent
             [node1] failingNode [node2]
             (fun _ _ _ => Throws (Error "failed"))
             (mkRun [] [] [] []) beforeFailure (Error "failed")
             eq_refl Hpre eq_refl eq_refl eq_refl).
  reflexivity.
Defined.

(** The state a walk of the components of [hintedGraph] ends in. *)
Definition hintedWalked : RunState :=
  fst (calculateComponents identityHook (Some hinted1) VUndefined
         hintedComponents (mkRun [] [] [] [])).

Lemma hintedWalk_returns :
  calculateComponents identityHook (Some hinted1) VUndefined hintedComponents
                      (mkRun [] [] [] [])
  = (hintedWalked, Returns tt).
Proof. vm_compute. reflexivity. Qed.

Lemma calculateComponents_covers_walked_nodes_witness :
  calculateComponents identityHook (Some hinted1) VUndefined hintedComponents
                      (mkRun [] [] [] [])
  = (hintedWalked, Returns tt)
  /\ In (nth 0 hintedComponents (mkSorted [] [] [])) hintedComponents
  /\ walked (Some hinted1) (nth 0 hintedComponents (mkSorted [] [] []))
  /\ In hinted3 (calculationOrder (nth 0 hintedComponents (mkSorted [] [] [])))
  /\ calculate hinted3 <> None
  /\ In (node_id hinted3) (map_keys (run_result hintedWalked)).
Proof.
  assert (Hin : In (nth 0 hintedComponents (mkSorted [] [] []))
                   hintedComponents).
  { vm_compute. left. reflexivity. }
  assert (Hw : walked (Some hinted1)
                      (nth 0 hintedComponents (mkSorted [] [] []))).
  { vm_compute. discriminate. }
  assert (Hn : In hinted3 (calculationOrder
                             (nth 0 hintedComponents (mkSorted [] [] [])))).
  { vm_compute. right. right. left. reflexivity. }
  assert (Hc : calculate hinted3 <> None) by discriminate.
  split; [exact hintedWalk_returns|]. split; [exact Hin|].
  split; [exact Hw|]. split; [exact Hn|]. split; [exact Hc|].
  exact (proj1 (calculateComponents_covers_walked_nodes
                  identityHook (Some hinted1) VUndefined hintedComponents
                  (mkRun [] [] [] []) hintedWalked hintedWalk_returns
                  _ hinted3 Hin Hw Hn Hc)).
Defined.

(** A node without calculation step ("handles nodes without a calculate
    method"), alone in its graph or beside a test node. *)
Definition plainNode : AbstractNode :=
  mkNode 7 "n7" [] [("out", port "n7" "out" (VNumber 1) false 0)]
         None false None.
Definition plainGraph : Graph := mkGraph "graph" [plainNode] [].
Definition plainComponents : list ITopologicalSortingResult :=
  match getSortedComponents (OfGraph plainGraph) None with
  | Returns components => components
  | Throws _ => []
  end.
Definition mixedComponents : list ITopologicalSortingResult :=
  [mkSorted [plainNode; node1] [] []].

Lemma nodes_without_calculate_are_passed_over_witness :
  calculate plainNode = None
  /\ nestedAvoid (node_id plainNode) []
  /\ ~ In (node_id plainNode)
          (map_keys (run_result
                       (fst (calculateComponents identityHook None VUndefined
                               mixedComponents (mkRun [] [] [] []))))).
Proof.
  assert (Hothers : forall component m,
            In component mixedComponents ->
            In m (calculationOrder component) ->
            calculate m <> None ->
            node_id m <> node_id plainNode
            /\ calculateAvoids (node_id plainNode) m).
  { intros component m [<-|[]] [<-|[<-|[]]] Hm.
    - exfalso. now apply Hm.
    - split; [discriminate|]. now apply testCalculate_avoids. }
  assert (Hheap : nestedAvoid (node_id plainNode) []).
  { intros entries []. }
  split; [reflexivity|]. split; [exact Hheap|].
  exact (proj2 (nodes_without_calculate_are_passed_over
                  identityHook None VUndefined mixedComponents [] []
                  plainNode eq_refl Hothers Hheap)).
Defined.

Lemma runGraph_without_calculate_returns_empty_witness :
  componentsOf hintedEngine plainGraph = Returns plainComponents
  /\ exists engine',
       runGraph hintedEngine plainGraph [] [] VUndefined
       = (engine', mkRun [] [] [] [], Returns []).
Proof.
  assert (Hcomps : componentsOf hintedEngine plainGraph
                   = Returns plainComponents).
  { vm_compute. reflexivity. }
  assert (Hnone : forall component n,
            In component plainComponents ->
            In n (calculationOrder component) -> calculate n = None).
  { intros component n Hc Hn. vm_compute in Hc.
    destruct Hc as [<-|[]]. destruct Hn as [<-|[]]. reflexivity. }
  split; [exact Hcomps|].
  exact (runGraph_without_calculate_returns_empty
           hintedEngine plainGraph [] [] VUndefined plainComponents
           Hcomps Hnone).
Defined.




Lemma unconnectedInputs_stages_unconnected_inputs_witness :
  NoDup (map intf_id (inputPorts (graph_nodes hintedGraph)))
  /\ map_get (unconnectedInputs (graph_nodes hintedGraph)) "n2.a" = None
  /\ map_get (unconnectedInputs (graph_nodes hintedGraph)) "n2.b"
     = Some (VNumber 1).
Proof.
  assert (Hnd : NoDup (map intf_id (inputPorts (graph_nodes hintedGraph)))).
  { apply nodupb_NoDup. vm_compute. reflexivity. }
  split; [exact Hnd|]. split.
  - exact (proj2 (unconnectedInputs_stages_unconnected_inputs
                    (graph_nodes hintedGraph)) Hnd hinted2 "a"
                 (port "n2" "a" (VNumber 2) false 1)
                 (or_intror (or_introl eq_refl)) (or_introl eq_refl)).
  - exact (proj2 (unconnectedInputs_stages_unconnected_inputs
                    (graph_nodes hintedGraph)) Hnd hinted2 "b"
                 (port "n2" "b" (VNumber 1) false 0)
                 (or_intror (or_introl eq_refl))
                 (or_intror (or_introl eq_refl))).
Defined.

(** The three connected nodes of [hintedGraph], sorted, and a walk of the
    first revision with the hint on the second. *)
Definition chainComponent : ITopologicalSortingResult :=
  nth 0 hintedComponents (mkSorted [] [] []).

Lemma calculateComponent_v1_starts_at_updated_node_witness :
  calculationOrder chainComponent = [hinted1] ++ hinted2 :: [hinted3]
  /\ (forall n, In n [hinted1] -> node_id n <> node_id hinted2)
  /\ (forall m, In m [hinted2; hinted3] -> node_id m <> node_id hinted1)
  /\ ~ In (node_id hinted1)
          (map_keys (run_result
                       (fst (calculateComponent_v1 identityHook (Some hinted2)
                               VUndefined chainComponent
                               (mkRun [] [] [] []))))).
Proof.
  assert (Horder : calculationOrder chainComponent
                   = [hinted1] ++ hinted2 :: [hinted3]).
  { vm_compute. reflexivity. }
  assert (Hpre : forall n, In n [hinted1] -> node_id n <> node_id hinted2).
  { intros n [<-|[]]. discriminate. }
  assert (Hrest : forall m, In m [hinted2; hinted3] ->
                            node_id m <> node_id hinted1).
  { intros m [<-|[<-|[]]]; discriminate. }
  split; [exact Horder|]. split; [exact Hpre|]. split; [exact Hrest|].
  exact (proj2 (proj2 (calculateComponent_v1_starts_at_updated_node
                         identityHook hinted2 VUndefined chainComponent
                         [hinted1] hinted2 [hinted3] Horder eq_refl Hpre)
                      hinted1 [] [] (or_introl eq_refl) Hrest)).
Defined.

Lemma visitNode_v1_calculates_iff_needed_witness :
  calculate hinted2 = Some testCalculate
  /\ exists evs,
       run_trace (fst (visitNode_v1 identityHook (Some hinted1) VUndefined []
                                    hinted2 unchangedState))
       = run_trace unchangedState
         ++ BeforeNodeCalculation
              (fst (resolveInputs_v1 (run_inputs unchangedState) hinted2))
              hinted2 :: evs
       /\ (existsb isCalculate evs = true ->
           exists evs',
             evs = CalculateCalled hinted2
                     (fst (resolveInputs_v1 (run_inputs unchangedState)
                                            hinted2)) :: evs'
             /\ existsb isCalculate evs' = false).
Proof.
  split; [reflexivity|].
  destruct (visitNode_v1_calculates_iff_needed
              identityHook (Some hinted1) VUndefined [] hinted2 testCalculate
              unchangedState eq_refl) as [evs [Ht [_ Hc]]].
  exists evs. split; [exact Ht|exact Hc].
Defined.

(** A command on a counter: it adds one, can be executed below three and
    stopped above zero; stopping sets the counter back to zero. *)
Definition countCommand : ICommand nat :=
  mkCommand (fun _ w => (S w, Returns VUndefined))
            (fun _ w => (w, Returns (Nat.ltb w 3)))
            (Some (fun _ w => (w, Returns (Nat.ltb 0 w))))
            (Some (fun _ _ => (0, Returns VUndefined))).

Definition countCommands : jsmap (ICommand nat) := [("count", countCommand)].

Lemma unregistered_command_is_never_called_witness :
  map_has countCommands "other" = false
  /\ forall held, handleClick countCommands "other" held 2 = (2, Returns tt).
Proof.
  split; [reflexivity|].
  exact (proj2 (proj2 (proj2 (proj2 (proj2 (proj2 (proj2 (proj2 (proj2
           (unregistered_command_is_never_called
              nat countCommands "other" [] 2 eq_refl)))))))))).
Defined.

Lemma stopExecution_asks_before_it_stops_witness :
  map_get countCommands "count" = Some countCommand
  /\ stopExecution countCommands "count" false [] 0
     = (0, Throws (cannotBeStopped "count")).
Proof.
  split; [reflexivity|].
  rewrite (proj2 (proj1 (proj2 (stopExecution_asks_before_it_stops
                                  nat countCommands "count" countCommand false
                                  [] 0 eq_refl))
                        (fun _ _ => (0, Returns VUndefined)) eq_refl)
                 (fun _ w => (w, Returns (Nat.ltb 0 w))) eq_refl).
  reflexivity.
Defined.

Lemma handleClick_executes_or_stops_witness :
  map_get countCommands "count" = Some countCommand
  /\ (forall can a w', cmd_canStopExecution countCommand = Some can ->
                       fst (can a w') = w')
  /\ handleClick countCommands "count" None 0 = (1, Returns tt)
  /\ handleClick countCommands "count" (Some true) 2 = (0, Returns tt)
  /\ handleClick countCommands "count" (Some true) 0
     = (0, Throws (cannotBeStopped "count"))
  /\ handleClick countCommands "count" (Some false) 2 = (3, Returns tt).
Proof.
  assert (Hreads : forall can a w',
            cmd_canStopExecution countCommand = Some can ->
            fst (can a w') = w').
  { intros can a w' [= <-]. reflexivity. }
  split; [reflexivity|]. split; [exact Hreads|]. split; [|split; [|split]].
  - rewrite (proj1 (handleClick_executes_or_stops
                      nat countCommands "count" countCommand None 0
                      eq_refl Hreads)).
    reflexivity.
  - rewrite (proj1 (proj2 (handleClick_executes_or_stops
                             nat countCommands "count" countCommand
                             (Some true) 2 eq_refl Hreads))
                   (or_intror (ex_intro _ true (conj eq_refl eq_refl)))).
    reflexivity.
  - exact (proj1 (proj2 (proj2 (handleClick_executes_or_stops
                                  nat countCommands "count" countCommand
                                  (Some true) 0 eq_refl Hreads)))
                 eq_refl eq_refl _ _ eq_refl eq_refl).
  - rewrite (proj2 (proj2 (proj2 (handleClick_executes_or_stops
                                    nat countCommands "count" countCommand
                                    (Some false) 2 eq_refl Hreads)))
                   eq_refl).
    reflexivity.
Defined.

(** The connected nodes of [hintedGraph] and their connections, sorted. *)
Definition chainNodes : list AbstractNode := [hinted1; hinted2; hinted3].
Definition chainConnections : list IConnection := graph_connections hintedGraph.
Definition chainSorted : ITopologicalSortingResult :=
  match sortTopologically (OfNodes chainNodes) (Some chainConnections) with
  | Returns r => r
  | Throws _ => mkSorted [] [] []
  end.
Definition chainWalked : RunState :=
  fst (calculateComponent identityHook None VUndefined chainSorted
         (mkRun (unconnectedInputs chainNodes) [] [] [])).

Lemma connected_input_receives_output_of_the_run_witness :
  WellFormed chainNodes chainConnections
  /\ NoDup (map node_ref chainNodes)
  /\ sortTopologically (OfNodes chainNodes) (Some chainConnections)
     = Returns chainSorted
  /\ flagsAgree (fun _ => false) (connectionsFromNode chainSorted)
  /\ calculateComponent identityHook None VUndefined chainSorted
       (mkRun (unconnectedInputs chainNodes) [] [] [])
     = (chainWalked, Returns tt)
  /\ exists ov iv pre mid post,
       run_trace chainWalked
       = pre ++ AfterNodeCalculation ov hinted1
             :: mid ++ BeforeNodeCalculation iv hinted2 :: post
       /\ map_get iv "a"
          = Some (carried identityHook hinted1 ov
                          (connect "c1" hinted1 "c" hinted2 "a")).
Proof.
  assert (wf : WellFormed chainNodes chainConnections).
  { apply wellFormedb_WellFormed. vm_compute. reflexivity. }
  assert (Hrefs : NoDup (map node_ref chainNodes)).
  { vm_compute. repeat constructor; simpl; intuition discriminate. }
  assert (Hsort : sortTopologically (OfNodes chainNodes) (Some chainConnections)
                  = Returns chainSorted).
  { vm_compute. reflexivity. }
  assert (Hflags : flagsAgree (fun _ => false) (connectionsFromNode chainSorted)).
  { apply flagsAgreeb_flagsAgree. vm_compute. reflexivity. }
  assert (Hwalk : calculateComponent identityHook None VUndefined chainSorted
                    (mkRun (unconnectedInputs chainNodes) [] [] [])
                  = (chainWalked, Returns tt)).
  { vm_compute. reflexivity. }
  assert (Honly : forall c',
            In c' chainConnections ->
            intf_id (to c') = intf_id (to (connect "c1" hinted1 "c" hinted2 "a")) ->
            c' = connect "c1" hinted1 "c" hinted2 "a").
  { intros c' [<-|[<-|[]]] E; [reflexivity|discriminate E]. }
  assert (Hkeys : NoDup (map_keys (inputs hinted2))).
  { apply nodupb_NoDup. vm_compute. reflexivity. }
  split; [exact wf|]. split; [exact Hrefs|]. split; [exact Hsort|].
  split; [exact Hflags|]. split; [exact Hwalk|].
  destruct (connected_input_receives_output_of_the_run
              (fun _ => false) identityHook None VUndefined
              chainNodes chainConnections chainSorted
              (unconnectedInputs chainNodes) [] chainWalked
              (connect "c1" hinted1 "c" hinted2 "a")
              (port "n1" "c" (VNumber 2) false 0)
              hinted1 hinted2 "a" (port "n2" "a" (VNumber 2) false 1)
              wf Hrefs Hsort (fun P H => False_ind _ (Bool.diff_false_true H))
              Hflags Hwalk
              (or_introl eq_refl) eq_refl
              (or_introl eq_refl) (or_intror (or_introl eq_refl)))
    as [ov [iv [pre [mid [post [Ht [_ Hiv]]]]]]].
  - vm_compute. tauto.
  - vm_compute. tauto.
  - discriminate.
  - discriminate.
  - reflexivity.
  - exact Honly.
  - exact Hkeys.
  - left. reflexivity.
  - reflexivity.
  - exists ov, iv, pre, mid, post. split; [exact Ht|exact Hiv].
Defined.

(* ================================================================== *)
(** * The entry of a node in the result *)
(* ================================================================== *)

(** The result holds [o] under [x], and no nested result in the heap has an
    entry under [x]. *)
Definition Fixed (x : string) (o : option NodeResult) (st : RunState) : Prop :=
  map_get (run_result st) x = o /\ nestedAvoid x (run_heap st).

Lemma emit_fixed x o ev : preserves (Fixed x o) (emit ev).
Proof. intros st [H1 H2]. split; simpl; auto. Qed.

Lemma setResult_fixed x o k r :
  k <> x -> preserves (Fixed x o) (setResult k r).
Proof.
  intros Hne st [H1 H2]. split; simpl; auto.
  now rewrite map_get_set_ne.
Qed.

Lemma stage_fixed x o td node outs c :
  preserves (Fixed x o) (stage td node outs c).
Proof.
  unfold stage.
  destruct (from c) as [src|]; [|apply preserves_throw].
  destruct (find _ (outputs node)) as [[intfKey ?]|]; [|apply preserves_throw].
  destruct (String.eqb intfKey ""); [apply preserves_throw|].
  apply preserves_bindR; [apply emit_fixed|]. intros _.
  destruct (allowMultipleConnections (to c)).
  - intros st [H1 H2].
    destruct (map_get (run_inputs st) (intf_id (to c))) as [target|].
    + unfold push. destruct target; try (split; auto; fail).
      destruct (nth_error (run_heap st) loc) as [[elems|]|];
        try (split; auto; fail).
      split; simpl; auto.
      intros entries Hin. apply updateCell_In in Hin.
      destruct Hin as [Hin|Hin]; [discriminate|auto].
    + split; simpl; auto.
      intros entries Hin. apply in_app_iff in Hin.
      destruct Hin as [Hin|[Hin|[]]]; [auto|discriminate].
  - intros st [H1 H2]. split; simpl; auto.
Qed.

Lemma mergeSubgraphResult_fixed x o ov :
  preserves (Fixed x o) (mergeSubgraphResult ov).
Proof.
  intros st F. unfold mergeSubgraphResult.
  destruct (subgraphResultOf (run_heap st) ov) as [[entries|]|e] eqn:Hs; auto.
  assert (Havoid : ~ In x (map_keys entries)).
  { apply subgraphResultOf_entries in Hs. destruct Hs as [->|Hs]; [tauto|].
    now apply (proj2 F). }
  revert F. apply preserves_forEachR. intros kv Hkv.
  apply setResult_fixed. intros E. apply Havoid. rewrite <- E.
  apply (in_map fst) in Hkv. exact Hkv.
Qed.

Lemma callCalculate_fixed x o calc node iv cd :
  (forall h ins cd' outs cells,
     calc h ins cd' = Returns (outs, cells) -> nestedAvoid x cells) ->
  preserves (Fixed x o) (callCalculate calc node iv cd).
Proof.
  intros Havoid. unfold callCalculate.
  apply preserves_bindR; [apply emit_fixed|]. intros _.
  intros st [H1 H2].
  destruct (calc (run_heap st) iv cd) as [[ov cells]|e] eqn:Hc;
    split; simpl; auto.
  intros entries Hin. apply in_app_iff in Hin. destruct Hin as [Hin|Hin].
  - now apply H2.
  - apply (Havoid _ _ _ _ _ Hc entries Hin).
Qed.

Lemma visitNode_fixed x o td hint cd cfn node :
  (calculate node <> None -> node_id node <> x /\ calculateAvoids x node) ->
  preserves (Fixed x o) (visitNode td hint cd cfn node).
Proof.
  intros H. unfold visitNode.
  destruct (calculate node) as [calc|] eqn:Hcalc; [|apply preserves_ret].
  destruct H as [Hne Havoid]; [discriminate|].
  assert (Hinner : forall iv ch,
            preserves (Fixed x o)
              (emit (BeforeNodeCalculation iv node) ;;;
               outputValues <~
                 (if mustCalculate hint node ch
                  then callCalculate calc node iv cd
                  else ret (currentOutputValues node)) ;;;
               finishNode td cfn node iv outputValues)).
  2:{ intros st Hst. cbv beta.
      destruct (resolveInputs (run_inputs st) (run_heap st) node) as [iv ch].
      now apply Hinner. }
  intros iv ch.
  apply preserves_bindR; [apply emit_fixed|]. intros _.
  apply preserves_bindR.
  - destruct (mustCalculate hint node ch); [|apply preserves_ret].
    apply callCalculate_fixed. intros h ins cd' outs cells Hc.
    apply (Havoid calc h ins cd' outs cells Hcalc Hc).
  - intros ov. unfold finishNode.
    apply preserves_bindR; [apply preserves_lift|]. intros _.
    apply preserves_bindR; [apply emit_fixed|]. intros _.
    apply preserves_bindR; [now apply setResult_fixed|]. intros _.
    apply preserves_bindR; [apply mergeSubgraphResult_fixed|]. intros _.
    destruct (refmap_get cfn (node_ref node)); [|apply preserves_ret].
    apply preserves_forEachR. intros c _. apply stage_fixed.
Qed.

Lemma walk_fixed x o td hint cd cfn ns :
  (forall m, In m ns -> calculate m <> None ->
             node_id m <> x /\ calculateAvoids x m) ->
  preserves (Fixed x o) (forEachR (visitNode td hint cd cfn) ns).
Proof.
  intros H. apply preserves_forEachR. intros m Hm.
  apply visitNode_fixed. now apply H.
Qed.

Lemma components_fixed x o td hint cd components :
  (forall component m,
     In component components -> In m (calculationOrder component) ->
     calculate m <> None -> node_id m <> x /\ calculateAvoids x m) ->
  preserves (Fixed x o) (calculateComponents td hint cd components).
Proof.
  intros H. unfold calculateComponents.
  apply preserves_forEachR. intros component Hc.
  assert (Hcomp : preserves (Fixed x o)
                    (calculateComponent td hint cd component)).
  { unfold calculateComponent. apply walk_fixed. intros m Hm.
    now apply (H component). }
  destruct hint as [u|]; auto.
  destruct (find (findUpdated u) (calculationOrder component)); auto.
  apply preserves_ret.
Qed.

Lemma preserved_returns {A : Type} (Inv : RunState -> Prop) (m : run A)
  st st' c :
  preserves Inv m -> Inv st -> m st = (st', c) -> Inv st'.
Proof. intros H I E. specialize (H st I). now rewrite E in H. Qed.

(** No nested result in the heap has an entry under [x]. *)
Definition HeapAvoids (x : string) (st : RunState) : Prop :=
  nestedAvoid x (run_heap st).

Lemma stage_heapAvoids x td node outs c :
  preserves (HeapAvoids x) (stage td node outs c).
Proof.
  intros st H.
  destruct (stage_fixed x (map_get (run_result st) x) td node outs c st)
    as [_ H']; [split; auto|exact H'].
Qed.

Lemma visitNode_heapAvoids x td hint cd cfn node :
  (calculate node <> None -> calculateAvoids x node) ->
  preserves (HeapAvoids x) (visitNode td hint cd cfn node).
Proof.
  intros H. unfold visitNode.
  destruct (calculate node) as [calc|] eqn:Hcalc; [|apply preserves_ret].
  assert (Havoid : calculateAvoids x node) by (apply H; discriminate).
  assert (Hinner : forall iv ch,
            preserves (HeapAvoids x)
              (emit (BeforeNodeCalculation iv node) ;;;
               outputValues <~
                 (if mustCalculate hint node ch
                  then callCalculate calc node iv cd
                  else ret (currentOutputValues node)) ;;;
               finishNode td cfn node iv outputValues)).
  2:{ intros st Hst. cbv beta.
      destruct (resolveInputs (run_inputs st) (run_heap st) node) as [iv ch].
      now apply Hinner. }
  intros iv ch.
  assert (Hsame : forall m : run unit,
            (forall st, run_heap (fst (m st)) = run_heap st) ->
            preserves (HeapAvoids x) m).
  { intros m Hm st Hst. unfold HeapAvoids. now rewrite Hm. }
  apply preserves_bindR; [apply Hsame; reflexivity|]. intros _.
  apply preserves_bindR.
  - destruct (mustCalculate hint node ch); [|apply preserves_ret].
    unfold callCalculate.
    apply preserves_bindR; [apply Hsame; reflexivity|]. intros _.
    intros st Hst. unfold HeapAvoids in *.
    destruct (calc (run_heap st) iv cd) as [[ov cells]|e] eqn:Hc; simpl; auto.
    intros entries Hin. apply in_app_iff in Hin. destruct Hin as [Hin|Hin].
    + now apply Hst.
    + apply (Havoid calc _ _ _ _ _ Hcalc Hc entries Hin).
  - intros ov. unfold finishNode.
    apply preserves_bindR; [apply preserves_lift|]. intros _.
    apply preserves_bindR; [apply Hsame; reflexivity|]. intros _.
    apply preserves_bindR; [apply Hsame; reflexivity|]. intros _.
    apply preserves_bindR.
    + apply Hsame. intros st. unfold mergeSubgraphResult.
      destruct (subgraphResultOf (run_heap st) ov) as [[entries|]|e]; auto.
      pose proof (setEntries_result entries st) as Hs. cbv zeta in Hs.
      apply Hs.
    + intros _. destruct (refmap_get cfn (node_ref node));
        [|apply preserves_ret].
      apply preserves_forEachR. intros c _. apply stage_heapAvoids.
Qed.

Lemma mergeEntries_get entries : forall r x,
  ~ In x (map_keys entries) ->
  map_get (mergeEntries entries r) x = map_get r x.
Proof.
  unfold mergeEntries.
  induction entries as [|[k v] entries IH]; intros r x Hx; simpl in *; auto.
  rewrite IH by tauto. apply map_get_set_ne. tauto.
Qed.

Lemma nestedEntries_avoid x h ov :
  nestedAvoid x h -> ~ In x (map_keys (nestedEntries h ov)).
Proof.
  intros Hh. unfold nestedEntries.
  destruct (subgraphResultOf h ov) as [[entries|]|e] eqn:Hs;
    try (simpl; tauto).
  apply subgraphResultOf_entries in Hs. destruct Hs as [->|Hs]; [tauto|].
  now apply Hh.
Qed.

(** The visit of [n] that returns leaves the entry of [n] in the result. *)
Lemma visitNode_returns_entry td hint cd cfn n st st' :
  calculate n <> None -> calculateAvoids (node_id n) n ->
  HeapAvoids (node_id n) st ->
  visitNode td hint cd cfn n st = (st', Returns tt) ->
  exists iv ov evs1 evs2,
    run_trace st'
    = run_trace st ++ BeforeNodeCalculation iv n :: evs1
        ++ AfterNodeCalculation ov n :: evs2
    /\ Fixed (node_id n) (Some (mkNodeResult iv ov)) st'.
Proof.
  intros Hcalc Havoid Hheap Hrun.
  assert (Hheap' : HeapAvoids (node_id n) st').
  { apply (preserved_returns _ _ st st' (Returns tt)
             (visitNode_heapAvoids (node_id n) td hint cd cfn n
                (fun _ => Havoid)) Hheap Hrun). }
  destruct (calculate n) as [calc|] eqn:Hc; [|congruence].
  unfold visitNode in Hrun. rewrite Hc in Hrun.
  destruct (resolveInputs (run_inputs st) (run_heap st) n) as [iv ch].
  rewrite run_emit in Hrun.
  assert (Hfin : forall st1 ov evs1,
            run_result st1 = run_result st ->
            nestedAvoid (node_id n) (run_heap st1) ->
            run_trace st1 = run_trace st ++ BeforeNodeCalculation iv n :: evs1 ->
            finishNode td cfn n iv ov st1 = (st', Returns tt) ->
            exists evs2,
              run_trace st'
              = run_trace st ++ BeforeNodeCalculation iv n :: evs1
                  ++ AfterNodeCalculation ov n :: evs2
              /\ Fixed (node_id n) (Some (mkNodeResult iv ov)) st').
  { intros st1 ov evs1 Hr1 Hh1 Ht1 Hf. apply finishNode_returns in Hf.
    destruct Hf as [Ht Hr]. eexists. split.
    - rewrite Ht, Ht1, <- app_assoc. reflexivity.
    - split; [|exact Hheap'].
      rewrite Hr, mergeEntries_get by now apply nestedEntries_avoid.
      apply map_get_set_eq. }
  exists iv.
  destruct (mustCalculate hint n ch).
  - unfold callCalculate in Hrun. unfold bindR at 1 in Hrun.
    rewrite run_emit in Hrun.
    cbn [run_inputs run_heap run_result run_trace] in Hrun.
    destruct (calc (run_heap st) iv cd) as [[ov cells]|e] eqn:Hcalled;
      [|discriminate].
    exists ov, [CalculateCalled n iv].
    eapply Hfin; [| | |exact Hrun]; simpl.
    + reflexivity.
    + intros entries Hin. apply in_app_iff in Hin. destruct Hin as [Hin|Hin].
      * now apply Hheap.
      * apply (Havoid calc _ _ _ _ _ Hc Hcalled entries Hin).
    + now rewrite <- app_assoc.
  - rewrite run_ret in Hrun.
    exists (currentOutputValues n), [].
    eapply Hfin; [| | |exact Hrun]; simpl; auto.
Qed.

(** X25. When the walk of the components returns, the result holds, under
    the id of each node with a calculation step in a walked component, the
    inputs the node was resolved to and the outputs it was notified with:
    those of its [beforeNodeCalculation] and [afterNodeCalculation]
    notifications (the ids of the nodes being distinct, and no nested
    result having an entry under the id of the node). *)
Theorem result_holds_inputs_and_outputs_of_the_visit :
  forall td hint cd components staged h st component n,
    calculateComponents td hint cd components (mkRun staged h [] [])
    = (st, Returns tt) ->
    NoDup (map node_id (flat_map calculationOrder components)) ->
    (forall component' m,
       In component' components -> In m (calculationOrder component') ->
       calculate m <> None -> calculateAvoids (node_id n) m) ->
    nestedAvoid (node_id n) h ->
    In component components -> walked hint component ->
    In n (calculationOrder component) -> calculate n <> None ->
    exists iv ov pre mid post,
      run_trace st
      = pre ++ BeforeNodeCalculation iv n
            :: mid ++ AfterNodeCalculation ov n :: post
      /\ map_get (run_result st) (node_id n) = Some (mkNodeResult iv ov).
Proof.
  intros td hint cd components staged h st component n
         Hrun Hnd Havoid Hheap Hc Hw Hn Hcalc.
  apply in_split in Hc. destruct Hc as [cs1 [cs2 ->]].
  apply in_split in Hn. destruct Hn as [l1 [l2 Horder]].
  (* the ids of the other nodes *)
  rewrite flat_map_app, map_app in Hnd. simpl in Hnd.
  rewrite Horder in Hnd. rewrite !map_app in Hnd. simpl in Hnd.
  assert (Hother2 : forall component' m,
            In component' cs2 -> In m (calculationOrder component') ->
            node_id m <> node_id n).
  { intros K m HK Hm E.
    apply NoDup_app_remove_l in Hnd. rewrite <- app_assoc in Hnd.
    apply NoDup_app_remove_l in Hnd. simpl in Hnd.
    inversion Hnd as [|? ? Hnot _]. apply Hnot. rewrite <- E.
    apply in_app_iff. right. apply in_map. apply in_flat_map. eauto. }
  assert (Hl2 : forall m, In m l2 -> node_id m <> node_id n).
  { intros m Hm E.
    apply NoDup_app_remove_l in Hnd. rewrite <- app_assoc in Hnd.
    apply NoDup_app_remove_l in Hnd. simpl in Hnd.
    inversion Hnd as [|? ? Hnot _]. apply Hnot. rewrite <- E.
    apply in_app_iff. left. now apply in_map. }
  (* the walk, piece by piece *)
  unfold calculateComponents in Hrun.
  apply forEachR_app_returns in Hrun. destruct Hrun as [sa [Ha Hrun]].
  apply forEachR_returns in Hrun. destruct Hrun as [sb [HK Hrest]].
  assert (HK' : calculateComponent td hint cd component sa = (sb, Returns tt)).
  { unfold walked in Hw. destruct hint as [u|]; [|exact HK].
    destruct (find (findUpdated u) (calculationOrder component));
      [exact HK|congruence]. }
  unfold calculateComponent in HK'. rewrite Horder in HK'.
  apply forEachR_app_returns in HK'. destruct HK' as [s1 [H1 HK']].
  apply forEachR_returns in HK'. destruct HK' as [s2 [Hvisit H2]].
  (* the heap up to the visit *)
  assert (Hheap_a : HeapAvoids (node_id n) sa).
  { assert (P : preserves (HeapAvoids (node_id n))
                  (forEachR
                     (fun component0 =>
                        match hint with
                        | Some u =>
                            match find (findUpdated u)
                                       (calculationOrder component0) with
                            | Some _ => calculateComponent td hint cd component0
                            | None => ret tt
                            end
                        | None => calculateComponent td hint cd component0
                        end) cs1)).
    { apply preserves_forEachR. intros K HKin.
      assert (PK : preserves (HeapAvoids (node_id n))
                     (calculateComponent td hint cd K)).
      { unfold calculateComponent. apply preserves_forEachR. intros m Hm.
        apply visitNode_heapAvoids. apply (Havoid K m); auto.
        apply in_app_iff. now left. }
      destruct hint as [u|]; auto.
      destruct (find (findUpdated u) (calculationOrder K)); auto.
      apply preserves_ret. }
    apply (preserved_returns _ _ (mkRun staged h [] []) _ _ P Hheap Ha). }
  assert (Hheap_1 : HeapAvoids (node_id n) s1).
  { assert (P : preserves (HeapAvoids (node_id n))
                  (forEachR (visitNode td hint cd
                               (connectionsFromNode component)) l1)).
    { apply preserves_forEachR. intros m Hm.
      apply visitNode_heapAvoids. apply (Havoid component m).
      - apply in_app_iff. right. now left.
      - rewrite Horder. apply in_app_iff. now left. }
    apply (preserved_returns _ _ _ _ _ P Hheap_a H1). }
  (* the visit *)
  destruct (visitNode_returns_entry td hint cd (connectionsFromNode component)
              n s1 s2 Hcalc) as [iv [ov [evs1 [evs2 [Ht2 F2]]]]]; auto.
  { apply (Havoid component n); auto.
    - apply in_app_iff. right. now left.
    - rewrite Horder. apply in_app_iff. right. now left. }
  (* the entry stays *)
  assert (Fb : Fixed (node_id n) (Some (mkNodeResult iv ov)) sb).
  { assert (P : preserves (Fixed (node_id n) (Some (mkNodeResult iv ov)))
                  (forEachR (visitNode td hint cd
                               (connectionsFromNode component)) l2)).
    { apply walk_fixed. intros m Hm Hcm. split; [now apply Hl2|].
      apply (Havoid component m); auto.
      - apply in_app_iff. right. now left.
      - rewrite Horder. apply in_app_iff. right. now right. }
    apply (preserved_returns _ _ _ _ _ P F2 H2). }
  assert (Fend : Fixed (node_id n) (Some (mkNodeResult iv ov)) st).
  { assert (P : preserves (Fixed (node_id n) (Some (mkNodeResult iv ov)))
                  (calculateComponents td hint cd cs2)).
    { apply components_fixed. intros K m HKin Hm Hcm.
      split; [now apply (Hother2 K)|].
      apply (Havoid K m); auto. apply in_app_iff. right. now right. }
    apply (preserved_returns _ _ _ _ _ P Fb Hrest). }
  (* the trace grows *)
  destruct (walk_returns_transfers td hint cd (connectionsFromNode component)
              l2 s2 sb H2) as [e2 [Hte2 _]].
  assert (Hgrow : exists e3, run_trace st = run_trace sb ++ e3).
  { assert (G : forall cs s s',
              forEachR
                (fun component0 =>
                   match hint with
                   | Some u =>
                       match find (findUpdated u)
                                  (calculationOrder component0) with
                       | Some _ => calculateComponent td hint cd component0
                       | None => ret tt
                       end
                   | None => calculateComponent td hint cd component0
                   end) cs s = (s', Returns tt) ->
              exists e, run_trace s' = run_trace s ++ e).
    { induction cs as [|K cs IH]; intros s s' Hs.
      - simpl in Hs. inversion Hs; subst. exists []. now rewrite app_nil_r.
      - apply forEachR_returns in Hs. destruct Hs as [s0 [HK0 Hs]].
        apply IH in Hs. destruct Hs as [e Hs].
        assert (HK1 : exists e0, run_trace s0 = run_trace s ++ e0).
        { destruct hint as [u|].
          - destruct (find (findUpdated u) (calculationOrder K)).
            + unfold calculateComponent in HK0.
              apply walk_returns_transfers in HK0.
              destruct HK0 as [e0 [E0 _]]. eauto.
            + inversion HK0; subst. exists []. now rewrite app_nil_r.
          - unfold calculateComponent in HK0.
            apply walk_returns_transfers in HK0.
            destruct HK0 as [e0 [E0 _]]. eauto. }
        destruct HK1 as [e0 E0]. exists (e0 ++ e).
        now rewrite Hs, E0, <- app_assoc. }
    apply (G cs2 sb st Hrest). }
  destruct Hgrow as [e3 Hte3].
  exists iv, ov, (run_trace s1), evs1, (evs2 ++ e2 ++ e3).
  split; [|apply Fend].
  rewrite Hte3, Hte2, Ht2. rewrite <- ?app_assoc. simpl.
  rewrite <- ?app_assoc. simpl. reflexivity.
Qed.

Lemma result_holds_inputs_and_outputs_of_the_visit_witness :
  calculateComponents identityHook (Some hinted1) VUndefined hintedComponents
                      (mkRun [] [] [] [])
  = (hintedWalked, Returns tt)
  /\ NoDup (map node_id (flat_map calculationOrder hintedComponents))
  /\ In chainComponent hintedComponents
  /\ walked (Some hinted1) chainComponent
  /\ In hinted2 (calculationOrder chainComponent)
  /\ calculate hinted2 <> None
  /\ exists iv ov pre mid post,
       run_trace hintedWalked
       = pre ++ BeforeNodeCalculation iv hinted2
             :: mid ++ AfterNodeCalculation ov hinted2 :: post
       /\ map_get (run_result hintedWalked) (node_id hinted2)
          = Some (mkNodeResult iv ov).
Proof.
  assert (Hnd : NoDup (map node_id (flat_map calculationOrder hintedComponents))).
  { apply nodupb_NoDup. vm_compute. reflexivity. }
  assert (Hin : In chainComponent hintedComponents).
  { vm_compute. left. reflexivity. }
  assert (Hw : walked (Some hinted1) chainComponent).
  { vm_compute. discriminate. }
  assert (Hn : In hinted2 (calculationOrder chainComponent)).
  { vm_compute. right. left. reflexivity. }
  assert (Hc : calculate hinted2 <> None) by discriminate.
  assert (Havoid : forall component' m,
            In component' hintedComponents ->
            In m (calculationOrder component') ->
            calculate m <> None -> calculateAvoids (node_id hinted2) m).
  { intros K m HK Hm _. apply testCalculate_avoids.
    vm_compute in HK. destruct HK as [<-|[<-|[]]]; vm_compute in Hm;
      repeat (destruct Hm as [<-|Hm]; [reflexivity|]); destruct Hm. }
  assert (Hheap : nestedAvoid (node_id hinted2) []).
  { intros entries []. }
  split; [exact hintedWalk_returns|]. split; [exact Hnd|].
  split; [exact Hin|]. split; [exact Hw|]. split; [exact Hn|].
  split; [exact Hc|].
  exact (result_holds_inputs_and_outputs_of_the_visit
           identityHook (Some hinted1) VUndefined hintedComponents [] []
           hintedWalked chainComponent hinted2
           hintedWalk_returns Hnd Havoid Hheap Hin Hw Hn Hc).
Defined.

(** ** Connections that lead to no node of the array *)

Lemma destinationIds_unknown i2n cs :
  (forall c, In c cs -> map_get i2n (intf_id (to c)) = None) ->
  destinationIds i2n cs = [].
Proof.
  induction cs as [|c cs IH]; intros H; simpl; auto.
  rewrite (H c (or_introl eq_refl)). apply IH. intros c' Hc'. apply H.
  now right.
Qed.

Lemma findIndex_never {A : Type} (p : A -> bool) (l : list A) :
  (forall x, In x l -> p x = false) -> findIndex p l = None.
Proof.
  induction l as [|x l IH]; intros H; simpl; auto.
  rewrite (H x (or_introl eq_refl)), IH; auto.
  intros y Hy. apply H. now right.
Qed.

Lemma initialStartNodes_unknown i2n connections : forall nodes,
  (forall c, In c connections -> map_get i2n (intf_id (to c)) = None) ->
  initialStartNodes i2n connections nodes = nodes.
Proof.
  unfold initialStartNodes.
  induction connections as [|c connections IH]; intros nodes H; simpl; auto.
  rewrite findIndex_never.
  - apply IH. intros c' Hc'. apply H. now right.
  - intros n _. unfold ownerIs. now rewrite (H c (or_introl eq_refl)).
Qed.

(** X26. Connections whose target interface belongs to none of the nodes of
    the array are passed over by the sorter: they take no node out of the
    start nodes and add no edge, so the call returns (it cannot throw) and
    the order is the array reversed. The array sorted without any
    connection is the first instance. *)
Theorem sortTopologically_passes_over_foreign_targets :
  forall nodes connections,
    (forall c n, In c connections -> In n nodes -> ~ owns n (to c)) ->
    exists r,
      sortTopologically (OfNodes nodes) (Some connections) = Returns r
      /\ calculationOrder r = rev nodes.
Proof.
  intros nodes connections Hforeign.
  unfold sortTopologically, nodesOrGraphToData.
  cbn [bind gd_nodes gd_connections gd_interfaceIdToNodeId].
  set (i2n := fold_left registerInterfaces nodes []).
  assert (Hnone : forall c, In c connections ->
                            map_get i2n (intf_id (to c)) = None).
  { intros c Hc. destruct (map_get i2n (intf_id (to c))) as [nid|] eqn:E; auto.
    apply interfaceIdToNodeId_sound in E.
    destruct E as [E|[n [Hn [_ Hp]]]]; [discriminate|].
    exfalso. apply (Hforeign c n Hc Hn). exact Hp. }
  rewrite (surjective_pairing (buildAdjacency i2n connections nodes)).
  rewrite buildAdjacency_fst.
  set (adjacency := fold_left
         (fun adjacency n =>
            map_set adjacency (node_id n)
              (set_of_list (destinationIds i2n
                 (connectionsFromCurrentNode i2n connections n)))) nodes []).
  assert (Hdest : forall n,
            set_of_list (destinationIds i2n
                           (connectionsFromCurrentNode i2n connections n)) = []).
  { intros n. rewrite destinationIds_unknown; [reflexivity|].
    intros c Hc. apply Hnone. unfold connectionsFromCurrentNode in Hc.
    apply filter_In in Hc. tauto. }
  assert (Hvals : forall s, In s (map_values adjacency) -> s = []).
  { intros s Hs. unfold adjacency in Hs.
    apply (fold_map_set_values node_id
             (fun n => set_of_list (destinationIds i2n
                (connectionsFromCurrentNode i2n connections n)))) in Hs.
    destruct Hs as [[]|[x [_ ->]]]. apply Hdest. }
  assert (Hget : forall n, In n nodes -> map_get adjacency (node_id n) = Some []).
  { intros n Hn.
    assert (Hk : In (node_id n) (map_keys adjacency)).
    { unfold adjacency.
      apply (fold_map_set_has node_id
               (fun n => set_of_list (destinationIds i2n
                  (connectionsFromCurrentNode i2n connections n)))).
      right. now apply in_map. }
    apply map_get_in_keys in Hk. destruct Hk as [s Hs].
    rewrite Hs. f_equal. apply Hvals. eapply map_get_values; eauto. }
  rewrite (initialStartNodes_unknown i2n connections nodes Hnone).
  rewrite (kahn_no_edges nodes _ adjacency nodes [] Hget) by lia.
  cbn [bind k_adjacency k_sorted app].
  assert (Hex : someLeft adjacency = false).
  { destruct (someLeft adjacency) eqn:E; auto.
    unfold someLeft in E.
    apply existsb_exists in E. destruct E as [s [Hs Hl]].
    rewrite (Hvals s Hs) in Hl. discriminate. }
  rewrite Hex. eexists. split; reflexivity.
Qed.

(** Two test nodes and a connection from the first to an interface of a
    node that is not among them. *)
Definition foreignConnections : list IConnection :=
  [connect "c9" node1 "c" node3 "a"].

Lemma sortTopologically_passes_over_foreign_targets_witness :
  (forall c n, In c foreignConnections -> In n [node1; node2] ->
               ~ owns n (to c))
  /\ exists r,
       sortTopologically (OfNodes [node1; node2]) (Some foreignConnections)
       = Returns r
       /\ calculationOrder r = rev [node1; node2].
Proof.
  assert (H : forall c n, In c foreignConnections -> In n [node1; node2] ->
                          ~ owns n (to c)).
  { intros c n [<-|[]] [<-|[<-|[]]] Hown; vm_compute in Hown;
      repeat (destruct Hown as [Hown|Hown]; [discriminate Hown|]);
      exact Hown. }
  split; [exact H|].
  exact (sortTopologically_passes_over_foreign_targets
           [node1; node2] foreignConnections H).
Defined.

(* ================================================================== *)
(** * Claim on the staging of propagated values *)
(* ================================================================== *)

Definition hasStep (n : AbstractNode) : bool :=
  match calculate n with
  | Some _ => true
  | None => false
  end.

(** [c.to.id === P] *)
Definition leadsTo (P : string) (c : IConnection) : bool :=
  String.eqb (intf_id (to c)) P.

(** One step of a run: a node, with the connections of its component. *)
Definition walkStep : Type := (refmap (list IConnection) * AbstractNode)%type.

Definition walk (td : jsvalue -> IConnection -> jsvalue)
  (hint : option AbstractNode) (cd : jsvalue) (steps : list walkStep)
  : run unit :=
  forEachR (fun s => visitNode td hint cd (fst s) (snd s)) steps.

(** The steps of a run on [components]: component by component, node by
    node, but for the components the hint leaves out. *)
Definition stepsOf (hint : option AbstractNode)
  (components : list ITopologicalSortingResult) : list walkStep :=
  flat_map
    (fun component =>
       match hint with
       | Some u =>
           match find (findUpdated u) (calculationOrder component) with
           | Some _ => map (pair (connectionsFromNode component))
                           (calculationOrder component)
           | None => []
           end
       | None => map (pair (connectionsFromNode component))
                     (calculationOrder component)
       end)
    components.

(** A visit: a step, and the outputs the node was notified with. *)
Definition visit : Type := (walkStep * jsmap jsvalue)%type.

(** What the visits send to port [P]: visit by visit, for each connection
    from the node that leads to [P], in the order of [connectionsFromNode],
    the [transferData] hook on the output of the visit under the key of the
    source port. *)
Definition arrivals (td : jsvalue -> IConnection -> jsvalue) (P : string)
  (visits : list visit) : list jsvalue :=
  flat_map
    (fun v => map (carried td (snd (fst v)) (snd v))
                  (filter (leadsTo P) (outgoing (fst (fst v)) (snd (fst v)))))
    visits.

(** The [afterNodeCalculation] notifications of a trace, in order. *)
Fixpoint afterEvents (evs : list event) : list (AbstractNode * jsmap jsvalue) :=
  match evs with
  | [] => []
  | AfterNodeCalculation ov n :: evs' => (n, ov) :: afterEvents evs'
  | _ :: evs' => afterEvents evs'
  end.

Lemma afterEvents_app evs1 evs2 :
  afterEvents (evs1 ++ evs2) = afterEvents evs1 ++ afterEvents evs2.
Proof.
  induction evs1 as [|ev evs1 IH]; simpl; auto.
  destruct ev; simpl; now rewrite ?IH.
Qed.

Lemma afterEvents_transfers td n ov cs :
  afterEvents (map (fun c => TransferData n c (carried td n ov c)) cs) = [].
Proof. induction cs; simpl; auto. Qed.

Lemma contributions_transfers td n ov P cs :
  contributions P (map (fun c => TransferData n c (carried td n ov c)) cs)
  = map (carried td n ov) (filter (leadsTo P) cs).
Proof.
  induction cs as [|c cs IH]; simpl; auto.
  unfold leadsTo at 1.
  destruct (String.eqb (intf_id (to c)) P); simpl; now rewrite IH.
Qed.

Lemma forEachR_app {A : Type} (body : A -> run unit) : forall l1 l2 st,
  forEachR body (l1 ++ l2) st = (forEachR body l1 ;;; forEachR body l2) st.
Proof.
  induction l1 as [|x l1 IH]; intros l2 st; simpl.
  - reflexivity.
  - unfold bindR. destruct (body x st) as [st1 [[]|e]]; [|reflexivity].
    apply IH.
Qed.

Lemma forEachR_map {A B : Type} (f : A -> B) (body : B -> run unit) :
  forall l st, forEachR body (map f l) st = forEachR (fun x => body (f x)) l st.
Proof.
  induction l as [|x l IH]; intros st; simpl; auto.
  unfold bindR. destruct (body (f x) st) as [st1 [[]|e]]; auto.
Qed.

(** A run is the walk of its steps. *)
Lemma calculateComponents_walk td hint cd : forall components st,
  calculateComponents td hint cd components st
  = walk td hint cd (stepsOf hint components) st.
Proof.
  unfold calculateComponents, walk.
  induction components as [|K components IH]; intros st; [reflexivity|].
  cbn [forEachR stepsOf flat_map]. rewrite forEachR_app.
  unfold bindR.
  assert (HK : forall s,
            calculateComponent td hint cd K s
            = forEachR (fun s0 : walkStep => visitNode td hint cd (fst s0) (snd s0))
                (map (pair (connectionsFromNode K)) (calculationOrder K)) s).
  { intros s. unfold calculateComponent. now rewrite forEachR_map. }
  destruct hint as [u|].
  - destruct (find (findUpdated u) (calculationOrder K)).
    + rewrite HK.
      destruct (forEachR _ (map _ (calculationOrder K)) st) as [s1 [[]|e]];
        [|reflexivity].
      apply IH.
    + simpl. apply IH.
  - rewrite HK.
    destruct (forEachR _ (map _ (calculationOrder K)) st) as [s1 [[]|e]];
      [|reflexivity].
    apply IH.
Qed.

(** What a walk that returns has added to the trace. *)
Lemma walk_visits td hint cd : forall steps st st',
  walk td hint cd steps st = (st', Returns tt) ->
  exists visits : list visit,
    map fst visits = filter (fun s => hasStep (snd s)) steps
    /\ afterEvents (run_trace st')
       = afterEvents (run_trace st)
         ++ map (fun v => (snd (fst v), snd v)) visits
    /\ forall P, contributions P (run_trace st')
                 = contributions P (run_trace st) ++ arrivals td P visits.
Proof.
  unfold walk.
  induction steps as [|s steps IH]; intros st st' H.
  - simpl in H. inversion H; subst. exists []. simpl.
    split; [reflexivity|]. split; [now rewrite app_nil_r|].
    intros P. now rewrite app_nil_r.
  - apply forEachR_returns in H. destruct H as [s1 [Hs H]].
    apply IH in H. destruct H as [visits [Hv [Ha Hc]]].
    cbn [filter]. unfold hasStep at 1.
    destruct (calculate (snd s)) as [calc|] eqn:Hcalc.
    + destruct (visitNode_returns_finish td hint cd (fst s) (snd s) calc st s1
                  Hcalc Hs) as [ov [su [Hfin [_ [Htu _]]]]].
      apply finishNode_returns in Hfin. destruct Hfin as [Ht _].
      exists ((s, ov) :: visits). split; [simpl; now rewrite Hv|]. split.
      * rewrite Ha, Ht, Htu. rewrite !afterEvents_app. simpl.
        rewrite afterEvents_transfers.
        destruct (mustCalculate hint (snd s) _); simpl;
          rewrite <- ?app_assoc; simpl; now rewrite ?app_nil_r.
      * intros P. rewrite Hc, Ht, Htu. rewrite !contributions_app. simpl.
        rewrite contributions_transfers.
        unfold arrivals at 2. cbn [flat_map fst snd]. fold (arrivals td P visits).
        destruct (mustCalculate hint (snd s) _); simpl;
          rewrite <- ?app_assoc; simpl; now rewrite ?app_nil_r.
    + unfold visitNode in Hs. rewrite Hcalc in Hs. inversion Hs; subst s1.
      exists visits. auto.
Qed.

Lemma walk_staged multi staged td hint cd steps :
  (forall s, In s steps -> flagsAgree multi (fst s)) ->
  preserves (StagedInv multi staged) (walk td hint cd steps).
Proof.
  intros H. unfold walk. apply preserves_forEachR. intros s Hs.
  apply visitNode_staged. now apply H.
Qed.

Lemma filter_all {A : Type} (p : A -> bool) (l : list A) :
  (forall x, In x l -> p x = true) -> filter p l = l.
Proof.
  induction l as [|x l IH]; intros H; simpl; auto.
  rewrite (H x (or_introl eq_refl)), IH; auto.
  intros y Hy. apply H. now right.
Qed.

Lemma flat_map_map {A B C : Type} (f : A -> B) (g : B -> list C) (l : list A) :
  flat_map g (map f l) = flat_map (fun x => g (f x)) l.
Proof. induction l as [|x l IH]; simpl; auto. now rewrite IH. Qed.

Lemma filter_map_swap {A B : Type} (f : A -> B) (p : B -> bool) (l : list A) :
  filter p (map f l) = map f (filter (fun x => p (f x)) l).
Proof.
  induction l as [|x l IH]; simpl; auto.
  destruct (p (f x)); simpl; now rewrite IH.
Qed.

(** In a sorted component, the connections that lead to a port of a node
    start at nodes before it; taken node by node in the order, they are the
    connections of the input that lead to the port. *)
Lemma processed_connections nodes connections r pre v post P :
  WellFormed nodes connections ->
  NoDup (map node_ref nodes) ->
  sortTopologically (OfNodes nodes) (Some connections) = Returns r ->
  calculationOrder r = pre ++ v :: post ->
  In P (portIds v) ->
  (forall c p u, In c connections -> leadsTo P c = true ->
                 from c = Some p -> In u nodes -> owns u p ->
                 hasStep u = true) ->
  Permutation
    (flat_map (fun s : walkStep =>
                 filter (leadsTo P) (outgoing (fst s) (snd s)))
              (filter (fun s : walkStep => hasStep (snd s))
                      (map (pair (connectionsFromNode r)) pre)))
    (filter (leadsTo P) connections).
Proof.
  intros wf Hrefs Hsort HL HP Hsteps.
  set (i2n := fold_left registerInterfaces nodes []).
  set (cfn := connectionsFromNode r).
  destruct (sorted_or_cycle nodes connections wf)
    as [[_ Hthrow]|[_ [r' [Hr' [Hperm Horder]]]]]; [congruence|].
  rewrite Hsort in Hr'. inversion Hr'; subst r'. clear Hr'.
  assert (HndL : NoDup (map node_id (calculationOrder r))).
  { eapply Permutation_NoDup.
    - apply Permutation_map. apply Permutation_sym. exact Hperm.
    - apply (wf_nodes _ _ wf). }
  assert (HinL : forall n, In n (calculationOrder r) -> In n nodes).
  { intros n. apply (Permutation_in _ Hperm). }
  assert (Hv : In v nodes).
  { apply HinL. rewrite HL. apply in_app_iff. right. now left. }
  set (key := fun c : IConnection =>
                match from c with
                | Some f => map_get i2n (intf_id f)
                | None => None
                end).
  set (L := filter (leadsTo P) connections).
  set (walked := filter hasStep pre).
  (* the connections from a node that lead to the port *)
  assert (Hout : forall n, In n nodes ->
            filter (leadsTo P) (outgoing cfn n)
            = filter (fun c => match key c with
                               | Some k => String.eqb k (node_id n)
                               | None => false
                               end) L).
  { intros n Hn. unfold cfn.
    rewrite (outgoing_of_sorted nodes connections r n Hrefs Hsort Hn).
    unfold connectionsFromCurrentNode, L. rewrite !filter_twice.
    apply filter_ext. intros c. unfold key, ownerIs. fold i2n.
    destruct (from c) as [f|]; simpl.
    - destruct (map_get i2n (intf_id f)); simpl;
        [apply andb_comm|now rewrite andb_false_r].
    - now rewrite andb_false_r. }
  rewrite filter_map_swap, flat_map_map. cbn [fst snd].
  fold walked. fold cfn.
  rewrite (flat_map_ext_in
             (fun x => filter (leadsTo P) (outgoing cfn x))
             (fun x => filter (fun c => match key c with
                                        | Some k => String.eqb k (node_id x)
                                        | None => false
                                        end) L)).
  2:{ intros n Hn. apply Hout. apply HinL. rewrite HL.
      apply in_app_iff. left. unfold walked in Hn.
      apply filter_In in Hn. tauto. }
  rewrite <- (flat_map_map node_id
                (fun x => filter (fun c => match key c with
                                           | Some k => String.eqb k x
                                           | None => false
                                           end) L)).
  eapply Permutation_trans.
  - apply flat_filter_perm.
    rewrite HL, map_app in HndL. apply NoDup_app_remove_r in HndL.
    unfold walked. clear - HndL.
    induction pre as [|x pre IH]; simpl; [constructor|].
    simpl in HndL. inversion HndL as [|? ? Hnot Hnd]; subst.
    destruct (hasStep x); simpl; auto.
    constructor; auto. intros Hin. apply Hnot.
    apply in_map_iff in Hin. destruct Hin as [y [E Hy]].
    apply filter_In in Hy. rewrite <- E. apply in_map. tauto.
  - rewrite filter_all; [apply Permutation_refl|].
    intros c Hc. unfold L in Hc. apply filter_In in Hc.
    destruct Hc as [Hc Hlead].
    destruct (wf_sources _ _ wf c Hc) as [p [u [Hp [Hu Hou]]]].
    unfold key. rewrite Hp. unfold i2n.
    rewrite (i2n_owner nodes connections wf u (intf_id p) Hu Hou).
    apply set_has_In. apply in_map. unfold walked. apply filter_In.
    split; [|now apply (Hsteps c p u)].
    (* the source is before [v] *)
    assert (Hov : owns v (to c)).
    { unfold owns. unfold leadsTo in Hlead. apply String.eqb_eq in Hlead.
      now rewrite Hlead. }
    destruct (Horder c p u v Hc Hp Hu Hv Hou Hov) as [i [j [Hi [Hj Hij]]]].
    assert (Hjv : j = length pre).
    { assert (Hnth : nth_error (calculationOrder r) (length pre) = Some v).
      { rewrite HL, nth_error_app2 by lia. now rewrite Nat.sub_diag. }
      assert (Hlt : j < length (calculationOrder r)).
      { apply nth_error_Some. congruence. }
      assert (Hlt' : length pre < length (calculationOrder r)).
      { apply nth_error_Some. congruence. }
      apply (proj1 (NoDup_nth_error (map node_id (calculationOrder r))) HndL).
      - now rewrite length_map.
      - rewrite !nth_error_map, Hj, Hnth. reflexivity. }
    subst j. rewrite HL, nth_error_app1 in Hi by exact Hij.
    eapply nth_error_In; eauto.
Qed.

(** C7. During a run.  A run is the walk of its steps: the nodes of the
    components it does not leave out, in order, each with the connections of
    its component.  When the steps walked so far have returned (from a
    staging map without entry for the ports that accept several
    connections, the connections carrying the flag of the port they lead
    to), each walked node that has a calculation step was visited once, in
    order, and notified once with its outputs; and the node visited next is
    notified with inputs resolved as follows.  An input port that accepts
    several connections resolves to its stored value while no connection to
    it has been processed, and from the first one on to one array that
    holds, in the order the connections were processed (visit by visit, and
    within a visit in the order of [connectionsFromNode]), what the
    [transferData] hook returned on the output of the visit under the key of
    the source port.  An input port that accepts one connection resolves to
    the last such value, or else to what was staged at the start, or else to
    its stored value.  And in a component sorted from well-formed nodes and
    connections, when the owner of a port is visited, the connections
    processed for the port are the connections of the input that lead to
    it, each once (those that start at a node with a calculation step
    being all of them). *)
Theorem staged_values_follow_processing_order :
  forall multi td hint cd,
    (forall components st,
       calculateComponents td hint cd components st
       = walk td hint cd (stepsOf hint components) st)
    /\ (forall steps staged h st,
          (forall P, multi P = true -> map_get staged P = None) ->
          (forall s, In s steps -> flagsAgree multi (fst s)) ->
          walk td hint cd steps (mkRun staged h [] []) = (st, Returns tt) ->
          exists visits : list visit,
            map fst visits = filter (fun s => hasStep (snd s)) steps
            /\ afterEvents (run_trace st)
               = map (fun v => (snd (fst v), snd v)) visits
            /\ forall cfn node calc,
                 calculate node = Some calc ->
                 NoDup (map_keys (inputs node)) ->
                 exists iv evs,
                   run_trace (fst (visitNode td hint cd cfn node st))
                   = run_trace st ++ BeforeNodeCalculation iv node :: evs
                   /\ forall k intf,
                        In (k, intf) (inputs node) ->
                        let arrived := arrivals td (intf_id intf) visits in
                        (multi (intf_id intf) = true ->
                           (arrived = [] -> map_get iv k = Some (value intf))
                           /\ (arrived <> [] ->
                               exists loc,
                                 map_get iv k = Some (VObject loc)
                                 /\ nth_error (run_heap st) loc
                                    = Some (CArray arrived)))
                        /\ (multi (intf_id intf) = false ->
                            map_get iv k
                            = Some match rev arrived with
                                   | v :: _ => v
                                   | [] =>
                                       match map_get staged (intf_id intf) with
                                       | Some s => s
                                       | None => value intf
                                       end
                                   end))
    /\ (forall nodes connections r pre v post P,
          WellFormed nodes connections ->
          NoDup (map node_ref nodes) ->
          sortTopologically (OfNodes nodes) (Some connections) = Returns r ->
          calculationOrder r = pre ++ v :: post ->
          In P (portIds v) ->
          (forall c p u, In c connections -> leadsTo P c = true ->
                         from c = Some p -> In u nodes -> owns u p ->
                         hasStep u = true) ->
          Permutation
            (flat_map (fun s : walkStep =>
                         filter (leadsTo P) (outgoing (fst s) (snd s)))
                      (filter (fun s : walkStep => hasStep (snd s))
                              (map (pair (connectionsFromNode r)) pre)))
            (filter (leadsTo P) connections)).
Proof.
  intros multi td hint cd. split; [|split].
  - apply calculateComponents_walk.
  - intros steps staged h st Hstaged Hflags Hwalk.
    assert (I : StagedInv multi staged st).
    { pose proof (walk_staged multi staged td hint cd steps Hflags
                    (mkRun staged h [] [])) as H.
      rewrite Hwalk in H. apply H.
      constructor; simpl.
      - intros P HP. now rewrite (Hstaged P HP).
      - intros P Q loc HP _ Hget. rewrite (Hstaged P HP) in Hget.
        discriminate.
      - reflexivity. }
    destruct (walk_visits td hint cd steps _ _ Hwalk)
      as [visits [Hv [Ha Hc]]].
    exists visits. split; [exact Hv|]. split; [exact Ha|].
    intros cfn node calc Hcalc Hnd.
    pose proof (visitNode_shape td hint cd cfn node calc st Hcalc) as Hshape.
    cbv zeta in Hshape.
    exists (fst (resolveInputs (run_inputs st) (run_heap st) node)).
    assert (Hev : exists evs,
              run_trace (fst (visitNode td hint cd cfn node st))
              = run_trace st
                ++ BeforeNodeCalculation
                     (fst (resolveInputs (run_inputs st) (run_heap st) node))
                     node :: evs).
    { destruct (mustCalculate hint node _).
      - destruct Hshape as [evs [Ht _]]. eauto.
      - destruct Hshape as [evs [Ht _]]. eauto. }
    destruct Hev as [evs Hev]. exists evs. split; [exact Hev|].
    intros k intf Hin. cbv zeta.
    rewrite (resolveInputs_maps _ _ node Hnd). cbn [fst].
    assert (Hget : map_get
                     (map (fun kv => (fst kv,
                             resolvedValue (run_inputs st) (snd kv)))
                          (inputs node)) k
                   = Some (resolvedValue (run_inputs st) intf)).
    { apply in_map_get_nodup.
      - unfold map_keys in *. rewrite map_map. simpl. exact Hnd.
      - apply in_map_iff. exists (k, intf). auto. }
    rewrite Hget. unfold resolvedValue.
    pose proof (Hc (intf_id intf)) as Hcontrib. simpl in Hcontrib.
    split.
    + intros Hm. pose proof (si_multi _ _ _ I _ Hm) as H.
      rewrite Hcontrib in H.
      destruct (map_get (run_inputs st) (intf_id intf)) as [w|].
      * destruct H as [loc [-> [Hloc Hne]]]. split; [contradiction|].
        intros _. exists loc. auto.
      * split; [reflexivity|]. intros Hne. contradiction.
    + intros Hm. pose proof (si_single _ _ _ I _ Hm) as H.
      rewrite Hcontrib in H.
      destruct (rev (arrivals td (intf_id intf) visits)); now rewrite H.
  - apply processed_connections.
Qed.

(** A [transferData] hook that multiplies the numbers it carries by ten. *)
Definition tenfold : jsvalue -> IConnection -> jsvalue :=
  fun v _ => match v with
             | VNumber z => VNumber (10 * z)
             | _ => v
             end.

(** The first step of a run of [multiGraph], and the state after it. *)
Definition multiSteps : list walkStep :=
  firstn 1 (stepsOf None multiComponents).
Definition multiWalked : RunState :=
  fst (walk tenfold None VUndefined multiSteps
         (mkRun (unconnectedInputs (graph_nodes multiGraph)) multiHeap [] [])).

Lemma staged_values_follow_processing_order_witness :
  (forall P, multiPort P = true ->
     map_get (unconnectedInputs (graph_nodes multiGraph)) P = None)
  /\ (forall s, In s multiSteps -> flagsAgree multiPort (fst s))
  /\ walk tenfold None VUndefined multiSteps
       (mkRun (unconnectedInputs (graph_nodes multiGraph)) multiHeap [] [])
     = (multiWalked, Returns tt)
  /\ calculate multiTarget <> None
  /\ NoDup (map_keys (inputs multiTarget))
  /\ exists iv evs loc,
       run_trace (fst (visitNode tenfold None VUndefined [] multiTarget
                                 multiWalked))
       = run_trace multiWalked ++ BeforeNodeCalculation iv multiTarget :: evs
       /\ map_get iv "a" = Some (VObject loc)
       /\ nth_error (run_heap multiWalked) loc
          = Some (CArray [VNumber 20; VNumber 0]).
Proof.
  assert (Hstaged : forall P, multiPort P = true ->
            map_get (unconnectedInputs (graph_nodes multiGraph)) P = None).
  { intros P HP. apply String.eqb_eq in HP. subst P. reflexivity. }
  assert (Hflags : forall s, In s multiSteps -> flagsAgree multiPort (fst s)).
  { intros s Hs. apply flagsAgreeb_flagsAgree.
    vm_compute in Hs. destruct Hs as [Hs|[]]. subst s.
    vm_compute. reflexivity. }
  assert (Hwalk : walk tenfold None VUndefined multiSteps
                    (mkRun (unconnectedInputs (graph_nodes multiGraph))
                           multiHeap [] [])
                  = (multiWalked, Returns tt)).
  { vm_compute. reflexivity. }
  assert (Hnd : NoDup (map_keys (inputs multiTarget))).
  { apply nodupb_NoDup. vm_compute. reflexivity. }
  split; [exact Hstaged|]. split; [exact Hflags|]. split; [exact Hwalk|].
  split; [discriminate|]. split; [exact Hnd|].
  destruct (proj1 (proj2 (staged_values_follow_processing_order
                            multiPort tenfold None VUndefined))
              multiSteps (unconnectedInputs (graph_nodes multiGraph))
              multiHeap multiWalked Hstaged Hflags Hwalk)
    as [visits [Hv [Ha Hnext]]].
  assert (Hvisits : arrivals tenfold "n2.a" visits = [VNumber 20; VNumber 0]).
  { vm_compute in Hv. vm_compute in Ha.
    destruct visits as [|[s ov] [|v2 visits]];
      [discriminate Hv| |discriminate Hv].
    simpl in Hv, Ha. inversion Hv; subst s. inversion Ha; subst ov.
    vm_compute. reflexivity. }
  destruct (Hnext [] multiTarget
              (fun _ _ _ => Returns ([], [])) eq_refl Hnd)
    as [iv [evs [Ht Hres]]].
  destruct (Hres "a" (port "n2" "a" (VObject 0) true 2) (or_introl eq_refl))
    as [Hmulti _].
  destruct (Hmulti eq_refl) as [_ Hsome].
  change (arrivals tenfold "n2.a" visits <> [] ->
          exists loc,
            map_get iv "a" = Some (VObject loc)
            /\ nth_error (run_heap multiWalked) loc
               = Some (CArray (arrivals tenfold "n2.a" visits))) in Hsome.
  rewrite Hvisits in Hsome.
  destruct Hsome as [loc [Hget Hloc]]; [discriminate|].
  exists iv, evs, loc. auto.
Defined.

(* ================================================================== *)
(** * The worklist of the sorter is a stack *)
(* ================================================================== *)

(** [increasing R l]: each element of [l] is related by [R] to those after
    it. *)
Fixpoint increasing {A : Type} (R : A -> A -> Prop) (l : list A) : Prop :=
  match l with
  | [] => True
  | x :: l' => (forall y, In y l' -> R x y) /\ increasing R l'
  end.

Lemma increasing_app {A : Type} (R : A -> A -> Prop) (l1 l2 : list A) :
  increasing R (l1 ++ l2)
  <-> increasing R l1 /\ increasing R l2
      /\ forall x y, In x l1 -> In y l2 -> R x y.
Proof.
  induction l1 as [|a l1 IH]; simpl.
  - split; [intros H; repeat split; auto; intros x y []|tauto].
  - rewrite IH. split.
    + intros [Ha [H1 [H2 H12]]]. repeat split; auto.
      * intros y Hy. apply Ha. apply in_app_iff. now left.
      * intros x y [<-|Hx] Hy; [|now apply H12].
        apply Ha. apply in_app_iff. now right.
    + intros [[Ha H1] [H2 H12]]. repeat split; auto.
      intros y Hy. apply in_app_iff in Hy. destruct Hy as [Hy|Hy]; auto.
Qed.

Lemma increasing_impl {A : Type} (R R' : A -> A -> Prop) (l : list A) :
  (forall x y, In x l -> In y l -> R x y -> R' x y) ->
  increasing R l -> increasing R' l.
Proof.
  induction l as [|a l IH]; simpl; auto.
  intros H [Ha Hl]. split.
  - intros y Hy. apply H; auto.
  - apply IH; auto.
Qed.

(** The index of the first [x] in [l]. *)
Fixpoint indexOf (x : string) (l : list string) : nat :=
  match l with
  | [] => 0
  | y :: l' => if String.eqb x y then 0 else S (indexOf x l')
  end.

(** What is kept of a list without duplicates stands in the order of the
    list. *)
Lemma increasing_filter_index {A : Type} (f : A -> string) (p : A -> bool) :
  forall l : list A,
    NoDup (map f l) ->
    increasing (fun b a => indexOf b (map f l) < indexOf a (map f l))
               (map f (filter p l)).
Proof.
  induction l as [|y l IH]; intros Hnd; simpl; [exact I|].
  inversion Hnd as [|? ? Hnot Hnd']; subst.
  assert (Hother : forall z, In z (map f (filter p l)) ->
            String.eqb z (f y) = false).
  { intros z Hz. apply String.eqb_neq. intros ->. apply Hnot.
    apply in_map_iff in Hz. destruct Hz as [w [E Hw]].
    apply filter_In in Hw. rewrite <- E. apply in_map. tauto. }
  assert (Htail : increasing
            (fun b a => (if String.eqb b (f y) then 0
                         else S (indexOf b (map f l)))
                        < (if String.eqb a (f y) then 0
                           else S (indexOf a (map f l))))
            (map f (filter p l))).
  { apply (increasing_impl
             (fun b a => indexOf b (map f l) < indexOf a (map f l))).
    - intros b a Hb Ha Hlt. rewrite (Hother b Hb), (Hother a Ha). lia.
    - now apply IH. }
  destruct (p y); simpl; [|exact Htail].
  split; [|exact Htail].
  intros z Hz. rewrite String.eqb_refl, (Hother z Hz). lia.
Qed.

Lemma NoDup_app_disjoint {A : Type} (l1 l2 : list A) :
  NoDup (l1 ++ l2) -> forall a, In a l1 -> ~ In a l2.
Proof.
  induction l1 as [|x l1 IH]; simpl; intros Hnd a Ha; [destruct Ha|].
  inversion Hnd as [|? ? Hnot Hnd']; subst.
  destruct Ha as [->|Ha]; [|now apply IH].
  intros Hin. apply Hnot. apply in_app_iff. now right.
Qed.

Lemma set_delete_head x s :
  NoDup (x :: s) -> set_delete (x :: s) x = s.
Proof.
  intros Hnd. inversion Hnd as [|? ? Hnot _]; subst.
  unfold set_delete. simpl. rewrite String.eqb_refl. simpl.
  apply filter_all. intros y Hy. apply negb_true_iff. apply String.eqb_neq.
  intros ->. contradiction.
Qed.

Lemma map_set_set {V : Type} (m : jsmap V) k v w :
  map_set (map_set m k v) k w = map_set m k w.
Proof.
  induction m as [|[k' v'] m IH]; simpl.
  - now rewrite String.eqb_refl.
  - destruct (String.eqb k k') eqn:E; simpl.
    + now rewrite String.eqb_refl.
    + now rewrite E, IH.
Qed.

(** Whether a set other than the one under [nid] has [m]. *)
Lemma noneHas_set (adjacency : jsmap jsset) nid s m :
  ~ In m s ->
  noneHas (map_set adjacency nid s) m = noneHas (map_set adjacency nid []) m.
Proof.
  intros Hm. unfold noneHas, map_values.
  induction adjacency as [|[k v] adjacency IH]; simpl.
  - apply set_has_false in Hm. now rewrite Hm.
  - destruct (String.eqb nid k); simpl.
    + apply set_has_false in Hm. now rewrite Hm.
    + now rewrite IH.
Qed.

(** The inner loop goes through the set under [nid] in order, and appends
    to the worklist the nodes that no other set has. *)
Lemma drain_spec nodes nid :
  forall fuel (adjacency : jsmap jsset) startNodes s,
    map_get adjacency nid = Some s ->
    NoDup s ->
    (forall m, In m s -> In m (map node_id nodes)) ->
    length s < fuel ->
    exists newly,
      drain fuel nodes nid adjacency startNodes
      = Returns (map_set adjacency nid [], startNodes ++ newly)
      /\ map node_id newly
         = filter (noneHas (map_set adjacency nid [])) s.
Proof.
  induction fuel as [|fuel IH]; intros adjacency startNodes s Hs Hnd Hin Hf;
    [lia|].
  simpl. rewrite Hs. destruct s as [|mId rest].
  - exists []. rewrite app_nil_r. split; [|reflexivity].
    f_equal. f_equal. clear - Hs.
    induction adjacency as [|[k v] adjacency IH]; simpl in *; [discriminate|].
    destruct (String.eqb nid k) eqn:E.
    + inversion Hs; subst. apply String.eqb_eq in E. now subst.
    + f_equal. now apply IH.
  - rewrite (set_delete_head mId rest Hnd).
    inversion Hnd as [|? ? Hnot Hnd']; subst.
    set (adjacency' := map_set adjacency nid rest).
    assert (Hget : map_get adjacency' nid = Some rest).
    { unfold adjacency'. apply map_get_set_eq. }
    assert (Hsame : map_set adjacency' nid [] = map_set adjacency nid []).
    { unfold adjacency'. apply map_set_set. }
    assert (Hnone : noneHas adjacency' mId
                    = noneHas (map_set adjacency nid []) mId).
    { unfold adjacency'. now apply noneHas_set. }
    rewrite Hnone. cbn [filter].
    destruct (noneHas (map_set adjacency nid []) mId).
    + destruct (find_by_id nodes mId (Hin mId (or_introl eq_refl)))
        as [m [Hfind [_ Hmid]]].
      rewrite Hfind.
      destruct (IH adjacency' (startNodes ++ [m]) rest Hget Hnd')
        as [newly [Hd Hnew]].
      { intros y Hy. apply Hin. now right. }
      { simpl in Hf. lia. }
      exists (m :: newly). rewrite Hd, Hsame, <- app_assoc. simpl.
      split; [reflexivity|]. now rewrite Hmid, Hnew, Hsame.
    + destruct (IH adjacency' startNodes rest Hget Hnd')
        as [newly [Hd Hnew]].
      { intros y Hy. apply Hin. now right. }
      { simpl in Hf. lia. }
      exists newly. rewrite Hd, Hsame. split; [reflexivity|].
      now rewrite Hnew, Hsame.
Qed.

Section LifoWorklist.

Variable nodes : list AbstractNode.
Hypothesis nodes_nodup : NoDup (map node_id nodes).

(** The adjacency as built before the loop. *)
Variable adj0 : jsmap jsset.
Hypothesis adj0_keys : map_keys adj0 = map node_id nodes.
Hypothesis adj0_range : forall u s v,
  map_get adj0 u = Some s -> In v s -> In v (map node_id nodes).
Hypothesis adj0_nodup : forall u s, map_get adj0 u = Some s -> NoDup s.

(** The ids under [u] in the adjacency, in the order of the set. *)
Definition successors (u : string) : jsset :=
  match map_get adj0 u with
  | Some s => s
  | None => []
  end.

Definition isArc (u v : string) : bool := set_has (successors u) v.

Lemma isArc_arc u v : isArc u v = true <-> arc adj0 u v.
Proof.
  unfold isArc, successors, arc. rewrite set_has_In.
  destruct (map_get adj0 u) as [s|].
  - split; [intros H; exists s; auto|intros [s' [[= <-] H]]; exact H].
  - split; [intros []|intros [s' [H _]]; discriminate].
Qed.

(** [readyTime sorted m]: how many of the first nodes of [sorted] it takes
    to have every predecessor of [m] that [sorted] holds: one more than the
    index of the last of them, 0 when there is none.  With every
    predecessor of [m] in [sorted], [m] is ready as soon as that many nodes
    are out. *)
Fixpoint readyTime (sorted : list string) (m : string) : nat :=
  match sorted with
  | [] => 0
  | u :: rest =>
      match readyTime rest m with
      | S t => S (S t)
      | 0 => if isArc u m then 1 else 0
      end
  end.

(** The rank of [m] among the nodes that became ready with it: its index in
    the array when it was ready from the start, else its index in the set
    of the predecessor that made it ready. *)
Definition pushRank (sorted : list string) (m : string) : nat :=
  match readyTime sorted m with
  | 0 => indexOf m (map node_id nodes)
  | S t =>
      match nth_error sorted t with
      | Some p => indexOf m (successors p)
      | None => 0
      end
  end.

(** [pushedBefore sorted b a]: [b] became ready before [a], or with [a] and
    at a lesser rank. *)
Definition pushedBefore (sorted : list string) (b a : string) : Prop :=
  readyTime sorted b < readyTime sorted a
  \/ (readyTime sorted b = readyTime sorted a
      /\ pushRank sorted b < pushRank sorted a).

Lemma readyTime_le sorted m : readyTime sorted m <= length sorted.
Proof.
  induction sorted as [|u rest IH]; simpl; [lia|].
  destruct (readyTime rest m); [destruct (isArc u m)|]; lia.
Qed.

Lemma readyTime_app_no l more m :
  (forall u, In u more -> isArc u m = false) ->
  readyTime (l ++ more) m = readyTime l m.
Proof.
  intros H. induction l as [|u l IH]; simpl.
  - induction more as [|x more IHm]; simpl; auto.
    rewrite IHm by (intros u Hu; apply H; now right).
    now rewrite (H x (or_introl eq_refl)).
  - now rewrite IH.
Qed.

Lemma readyTime_snoc_arc l x m :
  isArc x m = true -> readyTime (l ++ [x]) m = S (length l).
Proof.
  intros H. induction l as [|u l IH]; simpl.
  - now rewrite H.
  - now rewrite IH.
Qed.

Lemma readyTime_bound : forall l k u m,
  nth_error l k = Some u -> isArc u m = true -> k < readyTime l m.
Proof.
  induction l as [|x l IH]; intros k u m Hk Hu; [destruct k; discriminate|].
  simpl. destruct k as [|k]; simpl in Hk.
  - inversion Hk; subst x. rewrite Hu.
    destruct (readyTime l m); lia.
  - specialize (IH k u m Hk Hu).
    destruct (readyTime l m); [lia|lia].
Qed.

Lemma readyTime_prefix l more m :
  readyTime (l ++ more) m <= length l ->
  readyTime (l ++ more) m = readyTime l m.
Proof.
  intros H. apply readyTime_app_no. intros u Hu.
  destruct (isArc u m) eqn:E; auto. exfalso.
  apply In_nth_error in Hu. destruct Hu as [k Hk].
  assert (Hnth : nth_error (l ++ more) (length l + k) = Some u).
  { rewrite nth_error_app2 by lia.
    replace (length l + k - length l) with k by lia. exact Hk. }
  pose proof (readyTime_bound _ _ _ _ Hnth E). lia.
Qed.

Lemma pushRank_prefix l more m :
  readyTime (l ++ more) m = readyTime l m ->
  pushRank (l ++ more) m = pushRank l m.
Proof.
  intros H. unfold pushRank. rewrite H.
  destruct (readyTime l m) as [|t] eqn:E; auto.
  rewrite nth_error_app1; auto.
  pose proof (readyTime_le l m). lia.
Qed.

Lemma pushedBefore_prefix l more b a :
  readyTime (l ++ more) b = readyTime l b ->
  readyTime (l ++ more) a = readyTime l a ->
  pushedBefore l b a -> pushedBefore (l ++ more) b a.
Proof.
  intros Hb Ha. unfold pushedBefore.
  rewrite (pushRank_prefix l more b Hb), (pushRank_prefix l more a Ha), Hb, Ha.
  tauto.
Qed.

(** [lifoFrom t final]: from position [t] on, the node at a position was
    pushed after every node that comes later and was ready at that
    position. *)
Definition lifoFrom (t : nat) (final : list string) : Prop :=
  forall i j a b,
    t <= i -> i < j ->
    nth_error final i = Some a -> nth_error final j = Some b ->
    readyTime final b <= i ->
    pushedBefore final b a.

(** Taking the last node of the worklist. *)
Lemma pop_inv adjacency rest n sorted :
  KahnInv nodes adj0 None adjacency (rest ++ [n]) sorted ->
  KahnInv nodes adj0 (Some (node_id n)) adjacency rest (sorted ++ [n]).
Proof.
  intros I.
  assert (Hperm : Permutation (sorted ++ rest ++ [n]) ((sorted ++ [n]) ++ rest)).
  { rewrite <- app_assoc. apply Permutation_app_head.
    apply Permutation_app_comm. }
  assert (Hmem : forall v, In v (map node_id ((sorted ++ [n]) ++ rest))
                      <-> In v (map node_id (sorted ++ rest ++ [n]))).
  { intros v. split; apply Permutation_in; apply Permutation_map;
      [symmetry|]; exact Hperm. }
  constructor.
  - apply (inv_keys _ _ _ _ _ _ I).
  - apply (inv_sub _ _ _ _ _ _ I).
  - intros u Hu. apply (inv_fresh _ _ _ _ _ _ I).
    intros H. apply Hu. rewrite map_app. apply in_app_iff. now left.
  - intros u Hu Hne. apply (inv_done _ _ _ _ _ _ I); [|congruence].
    rewrite map_app in Hu. apply in_app_iff in Hu.
    destruct Hu as [Hu|[Hu|[]]]; [exact Hu|congruence].
  - apply (Permutation_NoDup (Permutation_map node_id Hperm)).
    apply (inv_nodup _ _ _ _ _ _ I).
  - intros y Hy. apply (inv_incl _ _ _ _ _ _ I).
    apply (Permutation_in _ (Permutation_sym Hperm) Hy).
  - intros v Hv. apply (inv_ready _ _ _ _ _ _ I). now apply Hmem.
  - intros v Hin Hnot. apply (inv_blocked _ _ _ _ _ _ I v Hin).
    intros H. apply Hnot. now apply Hmem.
  - intros l1 x l2 Hsplit u Harc.
    apply snoc_split in Hsplit.
    destruct Hsplit as [[-> [-> ->]]|[l2' [-> ->]]].
    + destruct (string_In_dec u (map node_id l1)) as [Hin|Hnot]; auto.
      exfalso. destruct Harc as [s0 [H0 Hx]].
      rewrite <- (inv_fresh _ _ _ _ _ _ I _ Hnot) in H0.
      apply (inv_ready _ _ _ _ _ _ I (node_id x)) with (u := u) (s := s0); auto.
      apply in_map. apply in_app_iff. right. apply in_app_iff. right.
      now left.
    + apply (inv_topo _ _ _ _ _ _ I l1 x l2' eq_refl u Harc).
Qed.

(** The loop takes the node pushed last, all the way. *)
Lemma kahn_lifo : forall fuel adjacency startNodes sorted,
  KahnInv nodes adj0 None adjacency startNodes sorted ->
  increasing (pushedBefore (map node_id sorted)) (map node_id startNodes) ->
  totalSize adjacency + length startNodes < fuel ->
  exists st,
    kahn fuel nodes (mkKahn adjacency startNodes sorted) = Returns st
    /\ KahnInv nodes adj0 None (k_adjacency st) [] (k_sorted st)
    /\ (exists more, k_sorted st = sorted ++ more)
    /\ lifoFrom (length sorted) (map node_id (k_sorted st)).
Proof.
  induction fuel as [|fuel IH]; intros adjacency startNodes sorted I Hinc Hf;
    [lia|].
  cbn [kahn k_startNodes k_adjacency k_sorted].
  pose proof (pop_spec startNodes) as Hpop.
  destruct (pop startNodes) as [[n rest]|].
  2:{ subst startNodes. exists (mkKahn adjacency [] sorted). simpl.
      split; [reflexivity|]. split; [exact I|].
      split; [exists []; now rewrite app_nil_r|].
      intros i j a b Hti Hij Hi. exfalso.
      assert (i < length (map node_id sorted)).
      { apply nth_error_Some. congruence. }
      rewrite length_map in *. lia. }
  subst startNodes.
  set (t := length sorted).
  set (ids := map node_id sorted).
  assert (I1 : KahnInv nodes adj0 (Some (node_id n)) adjacency rest
                       (sorted ++ [n])) by now apply pop_inv.
  (* the set of [n] is untouched *)
  assert (Hnew : ~ In (node_id n) ids).
  { pose proof (inv_nodup _ _ _ _ _ _ I) as Hnd.
    rewrite map_app in Hnd. intros Hin.
    apply (NoDup_app_disjoint _ _ Hnd (node_id n) Hin).
    rewrite map_app. apply in_app_iff. right. now left. }
  destruct (proj1 (map_get_in_keys adjacency (node_id n))) as [s Hs].
  { rewrite (inv_keys _ _ _ _ _ _ I), adj0_keys. apply in_map.
    apply (inv_incl _ _ _ _ _ _ I). apply in_app_iff. right.
    apply in_app_iff. right. now left. }
  assert (Hs0 : map_get adj0 (node_id n) = Some s).
  { rewrite <- (inv_fresh _ _ _ _ _ _ I _ Hnew). exact Hs. }
  assert (Hsucc : successors (node_id n) = s).
  { unfold successors. now rewrite Hs0. }
  rewrite Hs.
  destruct (drain_inv nodes nodes_nodup adj0 adj0_keys adj0_range
              (S (length s)) adjacency rest (sorted ++ [n]) (node_id n) s I1)
    as [a2 [st2 [Hd [I2 Hsz]]]];
    [rewrite map_app; apply in_app_iff; right; now left | exact Hs | lia |].
  destruct (drain_spec nodes (node_id n) (S (length s)) adjacency rest s Hs
              (adj0_nodup _ _ Hs0))
    as [newly [Hd' Hnewly]].
  { intros m Hm. apply (adj0_range _ _ _ Hs0 Hm). }
  { lia. }
  rewrite Hd' in Hd. inversion Hd; subst a2 st2. clear Hd.
  rewrite Hd'. cbn [bind].
  (* the nodes of the worklist are not successors of [n] *)
  assert (Hrest : forall x, In x (map node_id rest) ->
            isArc (node_id n) x = false).
  { intros x Hx. unfold isArc. rewrite Hsucc. apply set_has_false.
    apply (inv_ready _ _ _ _ _ _ I x) with (u := node_id n); auto.
    rewrite map_app. apply in_app_iff. right.
    rewrite map_app. apply in_app_iff. now left. }
  assert (Hkeep : forall x, In x (map node_id rest) ->
            readyTime (ids ++ [node_id n]) x = readyTime ids x).
  { intros x Hx. apply readyTime_app_no. intros u [<-|[]]. now apply Hrest. }
  (* the new worklist is in the order of the pushes *)
  rewrite map_app in Hinc. apply increasing_app in Hinc.
  destruct Hinc as [Hinc_rest [_ Hlast]].
  assert (Hinc' : increasing (pushedBefore (map node_id (sorted ++ [n])))
                             (map node_id (rest ++ newly))).
  { rewrite !map_app. simpl. fold ids. apply increasing_app.
    split; [|split].
    - apply (increasing_impl (pushedBefore ids)); [|exact Hinc_rest].
      intros x y Hx Hy. apply pushedBefore_prefix; now apply Hkeep.
    - rewrite Hnewly.
      apply (increasing_impl
               (fun b a => indexOf b (map (fun x => x) s)
                           < indexOf a (map (fun x => x) s))).
      + intros b a Hb Ha Hlt. rewrite map_id in Hlt.
        assert (Hrt : forall x, In x (filter (noneHas (map_set adjacency
                                                (node_id n) [])) s) ->
                  readyTime (ids ++ [node_id n]) x = S (length ids)).
        { intros x Hx. apply readyTime_snoc_arc. unfold isArc.
          rewrite Hsucc. apply set_has_In. apply filter_In in Hx. tauto. }
        right. split; [now rewrite (Hrt b Hb), (Hrt a Ha)|].
        unfold pushRank. rewrite (Hrt b Hb), (Hrt a Ha).
        rewrite nth_error_app2 by lia. rewrite Nat.sub_diag. simpl.
        now rewrite Hsucc.
      + rewrite <- (map_id (filter _ s)).
        apply (increasing_filter_index (fun x : string => x)).
        rewrite map_id. apply (adj0_nodup _ _ Hs0).
    - intros x y Hx Hy. left. rewrite (Hkeep x Hx).
      rewrite Hnewly in Hy. apply filter_In in Hy. destruct Hy as [Hy _].
      rewrite readyTime_snoc_arc.
      + pose proof (readyTime_le ids x). lia.
      + unfold isArc. rewrite Hsucc. now apply set_has_In. }
  destruct (IH (map_set adjacency (node_id n) []) (rest ++ newly)
               (sorted ++ [n]) I2 Hinc')
    as [st [Hkahn [If [[more Hmore] Hlifo]]]].
  { rewrite length_app in Hf. simpl in Hf. lia. }
  exists st. split; [exact Hkahn|]. split; [exact If|].
  split; [exists (n :: more); now rewrite Hmore, <- app_assoc|].
  (* the node taken was pushed last *)
  set (final := map node_id (k_sorted st)) in *.
  assert (Hfinal : final = ids ++ node_id n :: map node_id more).
  { unfold final. rewrite Hmore, !map_app. simpl.
    now rewrite <- app_assoc. }
  assert (Hndf : NoDup final).
  { pose proof (inv_nodup _ _ _ _ _ _ If) as H.
    now rewrite app_nil_r in H. }
  assert (Hlen : length ids = t) by (unfold ids; apply length_map).
  (* the predecessors of a sorted node stand before it *)
  assert (Htopo : forall k x u,
            nth_error final k = Some x -> isArc u x = true ->
            exists k', k' < k /\ nth_error final k' = Some u).
  { intros k x u Hk Hu. apply isArc_arc in Hu.
    unfold final in Hk. rewrite nth_error_map in Hk.
    destruct (nth_error (k_sorted st) k) as [nx|] eqn:Hnx; [|discriminate].
    inversion Hk; subst x.
    apply nth_error_split in Hnx. destruct Hnx as [l1 [l2 [Hsplit Hl1]]].
    pose proof (inv_topo _ _ _ _ _ _ If l1 nx l2 Hsplit u Hu) as Hin.
    apply In_nth_error in Hin. destruct Hin as [k' Hk'].
    exists k'. split.
    - rewrite <- Hl1, <- (length_map node_id l1).
      apply nth_error_Some. congruence.
    - unfold final. rewrite Hsplit, map_app.
      rewrite nth_error_app1; auto.
      apply nth_error_Some. congruence. }
  intros i j a b Hti Hij Hi Hj Hready.
  rewrite length_app in Hlifo. simpl in Hlifo. fold t in Hlifo.
  destruct (Nat.eq_dec i t) as [->|Hne].
  2:{ apply (Hlifo i j a b); auto. lia. }
  (* [a] is [n] *)
  assert (Ha : a = node_id n).
  { rewrite Hfinal, nth_error_app2 in Hi by lia.
    rewrite Hlen, Nat.sub_diag in Hi. simpl in Hi. congruence. }
  subst a.
  (* [b] was in the worklist *)
  assert (Hb_final : In b final) by (eapply nth_error_In; eauto).
  assert (Hb_notsorted : ~ In b ids /\ b <> node_id n).
  { split.
    - intros Hin. apply In_nth_error in Hin. destruct Hin as [k Hk].
      assert (Hkt : k < t).
      { rewrite <- Hlen. apply nth_error_Some. congruence. }
      assert (Hk' : nth_error final k = Some b).
      { rewrite Hfinal, nth_error_app1 by lia. exact Hk. }
      assert (k = j); [|lia].
      apply (proj1 (NoDup_nth_error final) Hndf); [|congruence].
      apply nth_error_Some. congruence.
    - intros ->.
      assert (t = j); [|lia].
      apply (proj1 (NoDup_nth_error final) Hndf); [|congruence].
      apply nth_error_Some. congruence. }
  destruct Hb_notsorted as [Hb1 Hb2].
  assert (Hb_rest : In b (map node_id rest)).
  { destruct (string_In_dec b (map node_id rest)) as [Hin|Hnot]; auto.
    exfalso.
    assert (Hb_nodes : In b (map node_id nodes)).
    { unfold final in Hb_final. apply in_map_iff in Hb_final.
      destruct Hb_final as [x [<- Hx]]. apply in_map.
      apply (inv_incl _ _ _ _ _ _ If). rewrite app_nil_r. exact Hx. }
    destruct (inv_blocked _ _ _ _ _ _ I b Hb_nodes) as [u [s' [Hu Hbs]]].
    { rewrite !map_app. simpl. fold ids. rewrite !in_app_iff. simpl.
      intros [H|[H|[H|[]]]]; auto. }
    assert (Hu_unsorted : ~ In u ids).
    { intros Hin. rewrite (inv_done _ _ _ _ _ _ I u Hin) in Hu
        by discriminate.
      inversion Hu; subst s'. destruct Hbs. }
    assert (Harc : isArc u b = true).
    { apply isArc_arc.
      destruct (inv_sub _ _ _ _ _ _ I _ _ Hu) as [s0 [H0 Hincl]].
      exists s0. split; auto. }
    destruct (Htopo j b u Hj Harc) as [k [Hkj Hk]].
    pose proof (readyTime_bound final k u b Hk Harc) as Hbound.
    assert (Hkt : t <= k).
    { destruct (le_lt_dec t k) as [H|H]; auto. exfalso.
      apply Hu_unsorted. rewrite Hfinal, nth_error_app1 in Hk by lia.
      eapply nth_error_In; eauto. }
    lia. }
  (* the push keys are those of the time [n] was taken *)
  assert (Hsplit_final : final = ids ++ (node_id n :: map node_id more))
    by exact Hfinal.
  assert (Hkey_b : readyTime final b = readyTime ids b).
  { rewrite Hsplit_final. apply readyTime_prefix.
    rewrite <- Hsplit_final. lia. }
  assert (Hkey_n : readyTime final (node_id n) = readyTime ids (node_id n)).
  { rewrite Hsplit_final. apply readyTime_app_no. intros u Hu.
    destruct (isArc u (node_id n)) eqn:E; auto. exfalso.
    destruct (Htopo t (node_id n) u Hi E) as [k [Hkt Hk]].
    rewrite Hfinal, nth_error_app1 in Hk by lia.
    assert (Hin : In u ids) by (eapply nth_error_In; eauto).
    destruct Hu as [<-|Hu]; [contradiction|].
    rewrite Hfinal in Hndf.
    apply (NoDup_app_disjoint _ _ Hndf u Hin). now right. }
  rewrite Hsplit_final.
  apply pushedBefore_prefix;
    [now rewrite <- Hsplit_final|now rewrite <- Hsplit_final|].
  apply Hlast; [exact Hb_rest|now left].
Qed.

End LifoWorklist.

Lemma set_add_NoDup s x : NoDup s -> NoDup (set_add s x).
Proof.
  intros H. unfold set_add. destruct (set_has s x) eqn:E; auto.
  apply set_has_false in E. apply NoDup_app; auto.
  - constructor; [intros []|constructor].
  - intros a Ha [<-|[]]. contradiction.
Qed.

Lemma set_of_list_NoDup xs : NoDup (set_of_list xs).
Proof.
  unfold set_of_list.
  assert (H : forall s, NoDup s -> NoDup (fold_left set_add xs s)).
  { induction xs as [|x xs IH]; intros s Hs; simpl; auto.
    apply IH. now apply set_add_NoDup. }
  apply H. constructor.
Qed.

(** The adjacency the sorter builds from [nodes] and [connections]: under
    the id of a node, the ids of the nodes its connections lead to, in the
    order of the connections, each once. *)
Definition adjacencyOf (nodes : list AbstractNode)
  (connections : list IConnection) : jsmap jsset :=
  fst (buildAdjacency (fold_left registerInterfaces nodes []) connections
         nodes).

Lemma adjacencyOf_nodup nodes connections u s :
  map_get (adjacencyOf nodes connections) u = Some s -> NoDup s.
Proof.
  unfold adjacencyOf. rewrite buildAdjacency_fst. intros H.
  apply map_get_values in H.
  apply (fold_map_set_values node_id
           (fun n => set_of_list
                       (destinationIds (fold_left registerInterfaces nodes [])
                          (connectionsFromCurrentNode
                             (fold_left registerInterfaces nodes [])
                             connections n)))) in H.
  destruct H as [[]|[x [_ ->]]]. apply set_of_list_NoDup.
Qed.

Lemma readyTime_last adj0 : forall l m t,
  readyTime adj0 l m = S t ->
  exists p, nth_error l t = Some p /\ isArc adj0 p m = true.
Proof.
  induction l as [|u l IH]; intros m t H; simpl in H; [discriminate|].
  destruct (readyTime adj0 l m) as [|t'] eqn:E.
  - destruct (isArc adj0 u m) eqn:Hu; [|discriminate].
    inversion H; subst t. exists u. auto.
  - inversion H; subst t. destruct (IH m t' E) as [p [Hp Harc]].
    exists p. auto.
Qed.

(** The sorter on a well-formed input: the loop runs as [kahn_lifo] has
    it. *)
Lemma sortTopologically_lifo nodes connections r :
  WellFormed nodes connections ->
  sortTopologically (OfNodes nodes) (Some connections) = Returns r ->
  lifoFrom nodes (adjacencyOf nodes connections) 0
           (map node_id (calculationOrder r)).
Proof.
  intros wf Hsort.
  set (i2n := fold_left registerInterfaces nodes []).
  set (adj0 := adjacencyOf nodes connections).
  set (start0 := initialStartNodes i2n connections nodes).
  assert (Hinc : increasing (pushedBefore nodes adj0 (map node_id []))
                            (map node_id start0)).
  { unfold start0, i2n. rewrite (start0_filter nodes connections wf).
    apply (increasing_impl
             (fun b a => indexOf b (map node_id nodes)
                         < indexOf a (map node_id nodes))).
    - intros b a _ _ Hlt. right. split; [reflexivity|exact Hlt].
    - apply increasing_filter_index. apply (wf_nodes _ _ wf). }
  destruct (kahn_lifo nodes (wf_nodes _ _ wf) adj0
              (adj0_keys nodes connections wf)
              (adj0_range nodes connections wf)
              (adjacencyOf_nodup nodes connections)
              (S (length start0 + totalSize adj0)) adj0 start0 []
              (initial_invariant nodes connections wf) Hinc)
    as [st [Hk [_ [_ Hlifo]]]]; [lia|].
  unfold sortTopologically, nodesOrGraphToData in Hsort.
  cbn [bind gd_nodes gd_connections gd_interfaceIdToNodeId] in Hsort.
  fold i2n in Hsort. fold start0 in Hsort.
  rewrite (surjective_pairing (buildAdjacency i2n connections nodes)) in Hsort.
  change (fst (buildAdjacency i2n connections nodes)) with adj0 in Hsort.
  rewrite Hk in Hsort. cbn [bind] in Hsort.
  destruct (someLeft (k_adjacency st)); [discriminate|].
  inversion Hsort; subst r. exact Hlifo.
Qed.

(** C10. [sortTopologically] is deterministic: two invocations on the same
    input complete alike; more, two inputs with the same ids in the same
    order (whatever else their nodes hold) are ordered alike, position by
    position, or throw alike.  And ties are broken last-in-first-out.  A
    node is ready when every node with a connection to it is out; it
    becomes ready with the last of these, or is ready from the start.  On
    a well-formed input that is sorted, the node at a position of the order
    was pushed after every node that comes later in the order and was
    ready at that position: it became ready later, or with it and at a
    greater rank, the rank being the index in the array for the nodes ready
    from the start, and the index among the successors of the node that
    made them ready for the others.  So, without connections, the order is
    the array reversed. *)
Theorem sortTopologically_deterministic_lifo :
  (forall nodesOrGraph pConnections r1 r2,
     sortTopologically nodesOrGraph pConnections = r1 ->
     sortTopologically nodesOrGraph pConnections = r2 -> r1 = r2)
  /\ (forall nodes1 nodes2 connections1 connections2,
        Forall2 sameIdsNode nodes1 nodes2 ->
        Forall2 sameIdsConnection connections1 connections2 ->
        agree (fun r1 r2 =>
                 Forall2 (samePosition nodes1 nodes2)
                         (calculationOrder r1) (calculationOrder r2)
                 /\ map node_id (calculationOrder r1)
                    = map node_id (calculationOrder r2))
              (sortTopologically (OfNodes nodes1) (Some connections1))
              (sortTopologically (OfNodes nodes2) (Some connections2)))
  /\ (forall nodes,
        exists r, sortTopologically (OfNodes nodes) (Some []) = Returns r
                  /\ calculationOrder r = rev nodes)
  /\ (forall nodes connections r,
        WellFormed nodes connections ->
        sortTopologically (OfNodes nodes) (Some connections) = Returns r ->
        let adjacency := adjacencyOf nodes connections in
        let order := map node_id (calculationOrder r) in
        (* what the adjacency holds *)
        (forall u v, In u nodes -> In v nodes ->
           (isArc adjacency (node_id u) (node_id v) = true
            <-> connects nodes connections u v))
        (* when a node is ready *)
        /\ (forall b i,
              readyTime adjacency order b <= i
              <-> forall k u, nth_error order k = Some u ->
                              isArc adjacency u b = true -> k < i)
        (* the node taken is the one pushed last *)
        /\ (forall i j a b,
              i < j ->
              nth_error order i = Some a -> nth_error order j = Some b ->
              readyTime adjacency order b <= i ->
              readyTime adjacency order b < readyTime adjacency order a
              \/ (readyTime adjacency order b = readyTime adjacency order a
                  /\ match readyTime adjacency order a with
                     | 0 => indexOf b (map node_id nodes)
                            < indexOf a (map node_id nodes)
                     | S t =>
                         exists p,
                           nth_error order t = Some p
                           /\ indexOf b (successors adjacency p)
                              < indexOf a (successors adjacency p)
                     end))).
Proof.
  split; [|split; [|split]].
  - intros nog pc r1 r2 H1 H2. congruence.
  - intros nodes1 nodes2 connections1 connections2 Hn Hc.
    pose proof (same_order nodes1 nodes2 connections1 connections2 Hn Hc) as H.
    destruct (sortTopologically (OfNodes nodes1) (Some connections1)),
             (sortTopologically (OfNodes nodes2) (Some connections2));
      simpl in *; auto.
    split; auto.
    induction H as [|x y l1 l2 [[Hid _] _] _ IH]; simpl; [auto|].
    now rewrite Hid, IH.
  - apply sortTopologically_no_connections.
  - intros nodes connections r wf Hsort. cbv zeta.
    set (adjacency := adjacencyOf nodes connections).
    set (order := map node_id (calculationOrder r)).
    split; [|split].
    + intros u v Hu Hv. unfold adjacency. rewrite isArc_arc. split.
      * intros Harc.
        destruct (arc_connects nodes connections wf _ _ Harc)
          as [a [b [Ea [Eb Hab]]]].
        pose proof Hab as [Ha [Hb _]].
        assert (a = u).
        { apply (map_injective_on node_id nodes); auto.
          apply (wf_nodes _ _ wf). }
        assert (b = v).
        { apply (map_injective_on node_id nodes); auto.
          apply (wf_nodes _ _ wf). }
        now subst.
      * apply (connects_arc nodes connections wf).
    + intros b i. split.
      * intros Hle k u Hk Hu.
        pose proof (readyTime_bound adjacency order k u b Hk Hu). lia.
      * intros Hall.
        destruct (readyTime adjacency order b) as [|t] eqn:E; [lia|].
        destruct (readyTime_last adjacency order b t E) as [p [Hp Harc]].
        specialize (Hall t p Hp Harc). lia.
    + intros i j a b Hij Hi Hj Hready.
      pose proof (sortTopologically_lifo nodes connections r wf Hsort) as Hlifo.
      destruct (Hlifo i j a b (Nat.le_0_l i) Hij Hi Hj Hready) as [H|[H1 H2]];
        [now left|].
      right. split; [exact H1|].
      unfold pushRank in H2. fold adjacency order in H1, H2. rewrite H1 in H2.
      destruct (readyTime adjacency order a) as [|t] eqn:E; [exact H2|].
      destruct (readyTime_last adjacency order a t E) as [p [Hp _]].
      fold order in Hp. rewrite Hp in H2. exists p. auto.
Qed.

(** In the order of [sixNodes], [node6] is at position 1 and [node5] after
    it: both became ready with [node4], [node5] at the lesser rank. *)
Lemma sortTopologically_deterministic_lifo_witness :
  WellFormed sixNodes threeConnections
  /\ sortTopologically (OfNodes sixNodes) (Some threeConnections)
     = Returns sixSorted
  /\ map node_id (calculationOrder sixSorted)
     = ["node4"; "node6"; "node5"; "node3"; "node1"; "node2"]
  /\ readyTime (adjacencyOf sixNodes threeConnections)
               (map node_id (calculationOrder sixSorted)) "node5" = 1
  /\ readyTime (adjacencyOf sixNodes threeConnections)
               (map node_id (calculationOrder sixSorted)) "node6" = 1
  /\ exists p,
       nth_error (map node_id (calculationOrder sixSorted)) 0 = Some p
       /\ indexOf "node5" (successors (adjacencyOf sixNodes threeConnections) p)
          < indexOf "node6"
              (successors (adjacencyOf sixNodes threeConnections) p).
Proof.
  assert (wf : WellFormed sixNodes threeConnections).
  { apply wellFormedb_WellFormed. vm_compute. reflexivity. }
  assert (Hrt5 : readyTime (adjacencyOf sixNodes threeConnections)
                   (map node_id (calculationOrder sixSorted)) "node5" = 1).
  { vm_compute. reflexivity. }
  assert (Hrt6 : readyTime (adjacencyOf sixNodes threeConnections)
                   (map node_id (calculationOrder sixSorted)) "node6" = 1).
  { vm_compute. reflexivity. }
  split; [exact wf|]. split; [exact sixNodes_sorted|].
  split; [vm_compute; reflexivity|]. split; [exact Hrt5|].
  split; [exact Hrt6|].
  destruct (proj2 (proj2 (proj2 (proj2 (proj2
                                   sortTopologically_deterministic_lifo))
                            sixNodes threeConnections sixSorted wf
                            sixNodes_sorted))
              1 2 "node6" "node5")
    as [Hlt|[_ Hrank]].
  - lia.
  - vm_compute. reflexivity.
  - vm_compute. reflexivity.
  - rewrite Hrt5. lia.
  - rewrite Hrt5, Hrt6 in Hlt. lia.
  - rewrite Hrt6 in Hrank. exact Hrank.
Defined.
